(** * Kube ECS storage core: entity allocator, dense and stable component tables

    A shallow embedding of [System.cpp] (the entity allocator of [ASystem]),
    [ComponentTable.ipp] (the dense table) and [StableComponentTable.ipp]
    (the stable table), and the properties of the specification proved or
    refuted on it.

    Conventions of the embedding.
    - [Entity] and [EntityIndex] are [std::uint32_t]: they are integers of [Z]
      and every arithmetic operation of the source is followed by [wrap],
      the reduction modulo [2^32].
    - [Core::Vector] is a [list]; an access outside of the vector has no
      defined behaviour in the source and is the fault [OutOfRange] here,
      as the use of a component that is not constructed is [Uninitialized].
    - [kFAssert] is compiled out of release builds: the operations are those
      of a release build and the asserted conditions are separate predicates.
    - Loops whose trip count is not a list length carry a fuel and the fault
      [OutOfFuel]; the theorems show that the fuel given is enough. *)

From Stdlib Require Import ZArith Lia.
From stdpp Require Import base option list gmap strings sorting.

Local Open Scope Z_scope.

(** ** Base.hpp *)

Definition Entity := Z.
Definition EntityIndex := Z.

(** [std::uint32_t] wrap-around. *)
Definition wrap (z : Z) : Z := z mod 2 ^ 32.

(** [NullEntityIndex = ~static_cast<EntityIndex>(0)]; [NullEntity] has the
    same value. *)
Definition NullEntityIndex : Z := wrap (-1).
Definition NullEntity : Z := NullEntityIndex.

Record EntityRange := mkRange { range_begin : Z; range_end : Z }.

(** ** Faults of the embedding *)

Inductive fault := OutOfRange | Uninitialized | OutOfFuel.

Inductive result (A : Type) :=
| Ok (a : A)
| Fault (f : fault).
Arguments Ok {A} a.
Arguments Fault {A} f.

#[export] Instance result_ret : MRet result := λ A a, Ok a.
#[export] Instance result_bind : MBind result := λ A B f m,
  match m with
  | Ok a => f a
  | Fault e => Fault e
  end.
#[export] Instance result_fmap : FMap result := λ A B f m,
  match m with
  | Ok a => Ok (f a)
  | Fault e => Fault e
  end.

(** ** Core::Vector, with a 32-bit [Range] *)

Section vector.
Context {A : Type}.

Definition vec_size (l : list A) : Z := Z.of_nat (length l).

(** [at(i)] and [operator[]] used as a read. *)
Definition vec_at (l : list A) (i : Z) : result A :=
  if decide (0 ≤ i)
  then match l !! Z.to_nat i with
       | Some x => Ok x
       | None => Fault OutOfRange
       end
  else Fault OutOfRange.

(** [at(i) = x] and [operator[]] used as a write. *)
Definition vec_set (l : list A) (i : Z) (x : A) : result (list A) :=
  if decide (0 ≤ i < vec_size l)
  then Ok (<[Z.to_nat i := x]> l)
  else Fault OutOfRange.

(** [back()] *)
Definition vec_back (l : list A) : result A :=
  match last l with
  | Some x => Ok x
  | None => Fault OutOfRange
  end.

(** [pop()] *)
Definition vec_pop (l : list A) : result (list A) :=
  match l with
  | [] => Fault OutOfRange
  | _ => Ok (take (length l - 1)%nat l)
  end.

(** [erase(begin() + from, end())] *)
Definition vec_erase_from (l : list A) (from : Z) : result (list A) :=
  if decide (0 ≤ from ≤ vec_size l)
  then Ok (take (Z.to_nat from) l)
  else Fault OutOfRange.
End vector.

(** [find(entity)] followed by [std::distance]: the position of the first
    occurrence, if any. *)
Definition vec_find (l : list Z) (x : Z) : option Z :=
  (λ p, Z.of_nat p.1) <$> list_find (λ y, y = x) l.

(** ** std::sort

    [std::sort] is modelled by an insertion sort with the comparison functor
    of the call. The theorems on the tables use no more of it than what the
    standard grants for a strict weak order: the result is a permutation
    of the input and is ordered. *)

Section std_sort.
Context {A : Type} (cmp : A → A → bool).

Fixpoint sort_insert (x : A) (l : list A) : list A :=
  match l with
  | [] => [x]
  | y :: l' => if cmp x y then x :: y :: l' else y :: sort_insert x l'
  end.

Fixpoint std_sort (l : list A) : list A :=
  match l with
  | [] => []
  | x :: l' => sort_insert x (std_sort l')
  end.

(** Strict weak ordering of the elements of [dom], the requirement of
    [std::sort] on its functor over the elements it sorts. *)
Record strict_weak_order (dom : A → Prop) : Prop := {
  swo_irrefl : ∀ a, dom a → cmp a a = false;
  swo_trans : ∀ a b c, dom a → dom b → dom c →
                       cmp a b = true → cmp b c = true → cmp a c = true;
  swo_incomp : ∀ a b c, dom a → dom b → dom c →
                        cmp a b = false → cmp b c = false → cmp a c = false
}.

(** Ordered under [cmp]: no element is before one it compares greater than. *)
Definition ordered (l : list A) : Prop :=
  StronglySorted (λ a b, cmp b a = false) l.
End std_sort.

(** [std::sort(v.rbegin(), v.rend())] on integers: descending order. *)
Definition sort_descending (l : list Z) : list Z :=
  std_sort (λ a b, b <? a) l.

(** ** Core::SparseSet of entity indexes *)

(** Modelled from the spec: [Core::SparseSet] is declared in Kube/Core, not in
    this repository. The paged mapping [Entity → EntityIndex] of section 4.1 is
    a finite map; a key without binding is a slot whose page is missing or
    that holds [NullEntityIndex]. *)
Abbreviation SparseIndex := (gmap Z Z).

Module Sparse.
(** [get(key)] and [at(key)] used as a read. *)
Definition at_ (s : SparseIndex) (key : Z) : Z :=
  default NullEntityIndex (s !! key).

(** [add(key, value)], the [insert] of the specification, and [at(key) =
    value], its [assign]. *)
Definition add (s : SparseIndex) (key value : Z) : SparseIndex :=
  <[key := value]> s.

(** [remove(key)]: resets the slot. *)
Definition remove (s : SparseIndex) (key : Z) : SparseIndex :=
  delete key s.

(** The debug-checked precondition of [remove]: the slot is not null. *)
Definition remove_pre (s : SparseIndex) (key : Z) : bool :=
  negb (at_ s key =? NullEntityIndex).

(** [extract(key)]: [get] followed by [remove]. *)
Definition extract (s : SparseIndex) (key : Z) : Z * SparseIndex :=
  (at_ s key, remove s key).

(** [clearUnsafe()] and [releaseUnsafe()] *)
Definition clearUnsafe (s : SparseIndex) : SparseIndex := ∅.
End Sparse.
(** ** System.cpp: the entity allocator of [ASystem] *)

Module Allocator.

Record ASystem := mkASystem {
  lastEntity : Z;
  freeEntities : list EntityRange
}.

Definition fresh : ASystem := mkASystem 0 [].

(** [ASystem::add] *)
Definition add (s : ASystem) : Entity * ASystem :=
  match freeEntities s with
  | [] =>
      let entity := wrap (lastEntity s + 1) in
      (entity, mkASystem entity [])
  | freeRange :: rest =>
      let entity := range_begin freeRange in
      let freeRange' := mkRange (wrap (range_begin freeRange + 1)) (range_end freeRange) in
      if range_begin freeRange' =? range_end freeRange'
      then (entity, mkASystem (lastEntity s) rest)
      else (entity, mkASystem (lastEntity s) (freeRange' :: rest))
  end.

(** The [while (true)] loop of [ASystem::addRange] over the free list:
    [None] when the end of the list is reached. *)
Fixpoint addRange_scan (count : Z) (free : list EntityRange)
  : option (EntityRange * list EntityRange) :=
  match free with
  | [] => None
  | freeRange :: rest =>
      if wrap (range_end freeRange - range_begin freeRange) <? count
      then match addRange_scan count rest with
           | Some (range, rest') => Some (range, freeRange :: rest')
           | None => None
           end
      else
        let range := mkRange (range_begin freeRange) (wrap (range_begin freeRange + count)) in
        let freeRange' := mkRange (wrap (range_begin freeRange + count)) (range_end freeRange) in
        Some (range,
              if range_begin freeRange' =? range_end freeRange'
              then rest else freeRange' :: rest)
  end.

(** [ASystem::addRange] *)
Definition addRange (count : Z) (s : ASystem) : EntityRange * ASystem :=
  match addRange_scan count (freeEntities s) with
  | Some (range, free') => (range, mkASystem (lastEntity s) free')
  | None =>
      let b := wrap (lastEntity s + 1) in
      (mkRange b (wrap (b + count)),
       mkASystem (wrap (lastEntity s + count)) (freeEntities s))
  end.

(** The [for] loop of [ASystem::remove]: [None] when no range is adjacent
    to [entity] (the loop falls through to the [push]). *)
Fixpoint remove_scan (entity : Z) (free : list EntityRange) : option (list EntityRange) :=
  match free with
  | [] => None
  | freeRange :: rest =>
      if negb (wrap (range_begin freeRange - 1) =? entity)
         && negb (range_end freeRange =? entity)
      then cons freeRange <$> remove_scan entity rest
      else if range_end freeRange =? entity
      then Some (mkRange (range_begin freeRange) (wrap (range_end freeRange + 1)) :: rest)
      else Some (mkRange (wrap (range_begin freeRange - 1)) (range_end freeRange) :: rest)
  end.

(** [ASystem::remove] *)
Definition remove (entity : Z) (s : ASystem) : ASystem :=
  if entity =? lastEntity s
  then mkASystem (wrap (lastEntity s - 1)) (freeEntities s)
  else match remove_scan entity (freeEntities s) with
       | Some free' => mkASystem (lastEntity s) free'
       | None =>
           mkASystem (lastEntity s)
             (freeEntities s ++ [mkRange entity (wrap (entity + 1))])
       end.

(** The [for] loop of [ASystem::removeRange]. *)
Fixpoint removeRange_scan (range : EntityRange) (free : list EntityRange)
  : option (list EntityRange) :=
  match free with
  | [] => None
  | freeRange :: rest =>
      if negb (range_begin freeRange =? range_end range)
         && negb (range_end freeRange =? range_begin range)
      then cons freeRange <$> removeRange_scan range rest
      else if range_end freeRange =? range_begin range
      then Some (mkRange (range_begin freeRange) (range_end range) :: rest)
      else Some (mkRange (range_begin range) (range_end freeRange) :: rest)
  end.

(** [ASystem::removeRange] *)
Definition removeRange (range : EntityRange) (s : ASystem) : ASystem :=
  if wrap (range_end range - 1) =? lastEntity s
  then mkASystem (wrap (range_begin range - 1)) (freeEntities s)
  else match removeRange_scan range (freeEntities s) with
       | Some free' => mkASystem (lastEntity s) free'
       | None => mkASystem (lastEntity s) (freeEntities s ++ [range])
       end.

(** *** Normalization of the free list, as the specification words it *)

(** Sorted by [begin], pairwise disjoint and non-adjacent: every range ends
    strictly before the next one begins; non-empty: [begin < end]. *)
Fixpoint normalizedb (free : list EntityRange) : bool :=
  match free with
  | [] => true
  | r :: rest =>
      (range_begin r <? range_end r)
      && match rest with
         | [] => true
         | r' :: _ => range_end r <? range_begin r'
         end
      && normalizedb rest
  end.

(** *** What the allocator keeps: non-empty, pairwise disjoint ranges of
    issued identifiers *)

Definition in_range (x : Z) (r : EntityRange) : Prop :=
  range_begin r ≤ x < range_end r.

Definition is_free (x : Z) (free : list EntityRange) : Prop :=
  Exists (in_range x) free.

Definition disjoint (r1 r2 : EntityRange) : Prop :=
  range_end r1 ≤ range_begin r2 ∨ range_end r2 ≤ range_begin r1.

Fixpoint pairwise_disjoint (free : list EntityRange) : Prop :=
  match free with
  | [] => True
  | r :: rest => Forall (disjoint r) rest ∧ pairwise_disjoint rest
  end.

Record alloc_inv (s : ASystem) : Prop := {
  inv_last : 0 ≤ lastEntity s < NullEntity;
  inv_ranges : Forall (λ r, 1 ≤ range_begin r ∧ range_begin r < range_end r
                              ∧ range_end r ≤ lastEntity s + 1) (freeEntities s);
  inv_disjoint : pairwise_disjoint (freeEntities s)
}.

(** An identifier is live when it was issued and is in no free range. *)
Definition live (x : Z) (s : ASystem) : Prop :=
  1 ≤ x ≤ lastEntity s ∧ ¬ is_free x (freeEntities s).

Inductive alloc_op :=
| OpAdd
| OpAddRange (count : Z)
| OpRemove (entity : Z)
| OpRemoveRange (range : EntityRange).

Definition alloc_step (op : alloc_op) (s : ASystem) : ASystem :=
  match op with
  | OpAdd => (add s).2
  | OpAddRange count => (addRange count s).2
  | OpRemove entity => remove entity s
  | OpRemoveRange range => removeRange range s
  end.

(** Preconditions: identifiers are not exhausted ([NullEntity] is never
    issued), and only live identifiers are released. *)
Definition alloc_pre (op : alloc_op) (s : ASystem) : Prop :=
  match op with
  | OpAdd => lastEntity s + 1 < NullEntity
  | OpAddRange count => 0 ≤ count ∧ lastEntity s + count < NullEntity
  | OpRemove entity => live entity s
  | OpRemoveRange range =>
      range_begin range < range_end range
      ∧ ∀ x, in_range x range → live x s
  end.

(** Runs of operations whose precondition holds at each step. *)
Inductive alloc_run : ASystem → list alloc_op → ASystem → Prop :=
| alloc_run_nil s : alloc_run s [] s
| alloc_run_cons s op ops s' :
    alloc_pre op s → alloc_run (alloc_step op s) ops s' →
    alloc_run s (op :: ops) s'.

(** A free range lies within the identifiers issued so far and is not empty. *)
Definition range_ok (last : Z) (r : EntityRange) : Prop :=
  1 ≤ range_begin r ∧ range_begin r < range_end r ∧ range_end r ≤ last + 1.

#[export] Instance in_range_dec x r : Decision (in_range x r).
Proof. unfold in_range. apply _. Defined.

(** *** Scenarios *)

(** Five successive [add] on a state, with the identifiers issued. *)
Definition add5 (s : ASystem) : list Entity * ASystem :=
  let '(e1, s1) := add s in
  let '(e2, s2) := add s1 in
  let '(e3, s3) := add s2 in
  let '(e4, s4) := add s3 in
  let '(e5, s5) := add s4 in
  ([e1; e2; e3; e4; e5], s5).

(** The scenario that defeats normalization: 1..5 issued, then 1, 3 and 2
    released in that order. *)
Definition bridge_ops : list alloc_op :=
  [OpAdd; OpAdd; OpAdd; OpAdd; OpAdd; OpRemove 1; OpRemove 3; OpRemove 2].

(** Releasing 3 before 1 leaves the list out of order. *)
Definition unsorted_ops : list alloc_op :=
  [OpAdd; OpAdd; OpAdd; OpAdd; OpAdd; OpRemove 3; OpRemove 1].

(** 1..4 issued, then 2 released. *)
Definition one_free : ASystem := mkASystem 4 [mkRange 2 3].

End Allocator.
(** ** The compaction loops of [removeRange] and [pack]

    [ComponentTable::removeRange] and [StableComponentTable::pack] share, word
    for word, the loop that turns the erased positions into moves and the
    loop that applies the moves to the entities and to the sparse set. *)

Module Compaction.

(** [for (const auto index : indexes) { if (index != last)
    moveIndexes.push({ last, index }); --last; }]: the moves [begin → end]
    and the final value of [last]. *)
Fixpoint move_indexes (last : Z) (indexes : list Z) : list EntityRange * Z :=
  match indexes with
  | [] => ([], last)
  | index :: indexes' =>
      let '(moves, last') := move_indexes (wrap (last - 1)) indexes' in
      (if negb (index =? last) then mkRange last index :: moves else moves, last')
  end.

(** The loop that erases entities: [_entities[end] = _entities[begin]] and
    [_indexSet.at(movedEntity) = end] for each move. *)
Fixpoint move_entities (moves : list EntityRange) (es : list Z) (s : SparseIndex)
  : result (list Z * SparseIndex) :=
  match moves with
  | [] => mret (es, s)
  | moveIndex :: moves' =>
      movedEntity ← vec_at es (range_begin moveIndex);
      es' ← vec_set es (range_end moveIndex) movedEntity;
      move_entities moves' es' (Sparse.add s movedEntity (range_end moveIndex))
  end.

End Compaction.

(** ** ComponentTable.ipp: the dense table *)

Module Dense.
Section table.
Context {C : Type}.

Record table := mkTable {
  indexSet : SparseIndex;
  entities : list Z;
  components : list C
}.

Definition empty : table := mkTable ∅ [] [].

(** [count()] *)
Definition count (t : table) : Z := vec_size (entities t).

(** [exists(entity)]: [_entities.find(entity) != _entities.end()] *)
Definition exists_ (t : table) (entity : Z) : bool :=
  bool_decide (is_Some (vec_find (entities t) entity)).

(** [findIndex] *)
Definition findIndex (t : table) (entity : Z) : EntityIndex :=
  default NullEntityIndex (vec_find (entities t) entity).

(** [getUnstableIndex]; the test [pageExists] is part of the lookup of the
    sparse set. *)
Definition getUnstableIndex (t : table) (entity : Z) : EntityIndex :=
  Sparse.at_ (indexSet t) entity.

(** [get(entity)]: [_components.at(_indexSet.at(entity))] *)
Definition get (t : table) (entity : Z) : result C :=
  vec_at (components t) (Sparse.at_ (indexSet t) entity).

(** [atIndex] *)
Definition atIndex (t : table) (entityIndex : Z) : result C :=
  vec_at (components t) entityIndex.

(** [addImpl] *)
Definition addImpl (t : table) (entity : Z) (component : C) : table :=
  let componentIndex := vec_size (entities t) in
  mkTable (Sparse.add (indexSet t) entity componentIndex)
          (entities t ++ [entity])
          (components t ++ [component]).

(** [add]; [kFAssert(!exists(entity))] is its precondition. *)
Definition add (t : table) (entity : Z) (component : C) : table :=
  addImpl t entity component.

(** [tryAdd(entity, component)] *)
Definition tryAdd (t : table) (entity : Z) (component : C) : result table :=
  if negb (findIndex t entity =? NullEntityIndex)
  then
    components' ← vec_set (components t) (Sparse.at_ (indexSet t) entity) component;
    mret (mkTable (indexSet t) (entities t) components')
  else mret (addImpl t entity component).

(** [tryAdd(entity, functor)]; [dflt] is the default-constructed component
    and [functor] the update that the functor makes through its reference. *)
Definition tryAddWith (dflt : C) (t : table) (entity : Z) (functor : C → C)
  : result table :=
  let componentIndex := findIndex t entity in
  if negb (componentIndex =? NullEntityIndex)
  then
    c ← vec_at (components t) componentIndex;
    components' ← vec_set (components t) componentIndex (functor c);
    mret (mkTable (indexSet t) (entities t) components')
  else mret (addImpl t entity (functor dflt)).

(** [addRange]: the three passes insert [count = end - begin] entities,
    indexes and copies of the component. *)
Definition addRange (t : table) (range : EntityRange) (component : C) : table :=
  let lastIndex := vec_size (entities t) in
  let count := wrap (range_end range - range_begin range) in
  let steps := seqZ 0 count in
  mkTable
    (foldl (λ s k, Sparse.add s (wrap (range_begin range + k)) (wrap (lastIndex + k)))
           (indexSet t) steps)
    (entities t ++ ((λ k, wrap (range_begin range + k)) <$> steps))
    (components t ++ replicate (Z.to_nat count) component).

(** [removeImpl] *)
Definition removeImpl (t : table) (entity : Z) (entityIndex : Z) : result table :=
  t1 ← (if negb (vec_size (components t) =? wrap (entityIndex + 1))
        then
          lastEntity ← vec_back (entities t);
          let indexSet1 := Sparse.add (indexSet t) lastEntity entityIndex in
          entities1 ← vec_set (entities t) entityIndex lastEntity;
          lastComponent ← vec_back (components t);
          components1 ← vec_set (components t) entityIndex lastComponent;
          mret (mkTable indexSet1 entities1 components1)
        else mret t);
  entities2 ← vec_pop (entities t1);
  components2 ← vec_pop (components t1);
  mret (mkTable (Sparse.remove (indexSet t1) entity) entities2 components2).

(** [remove]; [kFAssert(exists(entity))] is its precondition. *)
Definition remove (t : table) (entity : Z) : result table :=
  let '(entityIndex, indexSet') := Sparse.extract (indexSet t) entity in
  removeImpl (mkTable indexSet' (entities t) (components t)) entity entityIndex.

(** [tryRemove] *)
Definition tryRemove (t : table) (entity : Z) : result (bool * table) :=
  let entityIndex := findIndex t entity in
  if negb (entityIndex =? NullEntityIndex)
  then t' ← removeImpl t entity entityIndex; mret (true, t')
  else mret (false, t).

(** [tryRemove] of the former revision of the file, which returns nothing. *)
Definition tryRemove_void (t : table) (entity : Z) : result table :=
  let componentIndex := findIndex t entity in
  if negb (componentIndex =? NullEntityIndex)
  then removeImpl t entity componentIndex
  else mret t.

(** [extract] *)
Definition extract (t : table) (entity : Z) : result (C * table) :=
  let '(componentIndex, indexSet0) := Sparse.extract (indexSet t) entity in
  value ← vec_at (components t) componentIndex;
  t1 ← (if negb (vec_size (components t) =? wrap (componentIndex + 1))
        then
          lastEntity ← vec_back (entities t);
          let indexSet1 := Sparse.add indexSet0 lastEntity componentIndex in
          entities1 ← vec_set (entities t) componentIndex lastEntity;
          lastComponent ← vec_back (components t);
          components1 ← vec_set (components t) componentIndex lastComponent;
          mret (mkTable indexSet1 entities1 components1)
        else mret (mkTable indexSet0 (entities t) (components t)));
  entities2 ← vec_pop (entities t1);
  components2 ← vec_pop (components t1);
  mret (value, mkTable (indexSet t1) entities2 components2).

(** *** removeRange *)

(** First loop of [removeRange]: the positions of the entities of the
    range, in increasing order, and the sparse set without them. *)
Fixpoint erased_indexes (range : EntityRange) (i : Z) (es : list Z)
    (s : SparseIndex) : list Z * SparseIndex :=
  match es with
  | [] => ([], s)
  | entity :: es' =>
      if (range_begin range <=? entity) && (entity <? range_end range)
      then let '(indexes, s') := erased_indexes range (wrap (i + 1)) es' (Sparse.remove s entity) in
           (i :: indexes, s')
      else erased_indexes range (wrap (i + 1)) es' s
  end.

(** The loop that erases components: each move assigns the component of
    [begin] to [end]. *)
Fixpoint move_components (moves : list EntityRange) (cs : list C) : result (list C) :=
  match moves with
  | [] => mret cs
  | moveIndex :: moves' =>
      c ← vec_at cs (range_begin moveIndex);
      cs' ← vec_set cs (range_end moveIndex) c;
      move_components moves' cs'
  end.

Definition removeRange (t : table) (range : EntityRange) : result table :=
  let '(indexes, indexSet1) := erased_indexes range 0 (entities t) (indexSet t) in
  match indexes with
  | [] => mret t
  | _ =>
      let indexes' := sort_descending indexes in
      let '(moveIndexes, last) :=
        Compaction.move_indexes (wrap (vec_size (entities t) - 1)) indexes' in
      '(entities1, indexSet2) ← Compaction.move_entities moveIndexes (entities t) indexSet1;
      let from := wrap (last + 1) in
      entities2 ← vec_erase_from entities1 from;
      components1 ← move_components moveIndexes (components t);
      components2 ← vec_erase_from components1 from;
      mret (mkTable indexSet2 entities2 components2)
  end.

(** [clear] *)
Definition clear (t : table) : table :=
  mkTable (Sparse.clearUnsafe (indexSet t)) [] [].

(** *** sort *)

(** State of the patch loop: the sparse set and the components. *)
Definition vec_swap (cs : list C) (i j : Z) : result (list C) :=
  ci ← vec_at cs i;
  cj ← vec_at cs j;
  cs' ← vec_set cs i cj;
  vec_set cs' j ci.

(** The [while (current != next)] loop, where [currentEntity] is
    [_entities.at(current)] on entry. *)
Fixpoint sort_chase (fuel : nat) (es : list Z) (current next : Z) (currentEntity : Z)
    (s : SparseIndex) (cs : list C) : result (SparseIndex * list C) :=
  if current =? next then mret (s, cs)
  else match fuel with
       | O => Fault OutOfFuel
       | S fuel' =>
           nextEntity ← vec_at es next;
           let following := Sparse.at_ s nextEntity in
           cs' ← vec_swap cs next following;
           let s' := Sparse.add s currentEntity current in
           let current' := next in
           let next' := following in
           currentEntity' ← vec_at es current';
           sort_chase fuel' es current' next' currentEntity' s' cs'
       end.

(** The [for (from = 0; from != to; ++from)] loop, over the positions. *)
Fixpoint sort_patch (froms : list Z) (es : list Z) (s : SparseIndex) (cs : list C)
  : result (SparseIndex * list C) :=
  match froms with
  | [] => mret (s, cs)
  | from :: froms' =>
      let current := from in
      currentEntity ← vec_at es current;
      let next := Sparse.at_ s currentEntity in
      '(s', cs') ← sort_chase (S (length es)) es current next currentEntity s cs;
      sort_patch froms' es s' cs'
  end.

(** [sort], given the outcome [sorted] of [std::sort] on the entities. *)
Definition sort_with (sorted : list Z) (t : table) : result table :=
  '(s', cs') ← sort_patch (seqZ 0 (vec_size sorted)) sorted (indexSet t) (components t);
  mret (mkTable s' sorted cs').

Definition sort (compareFunc : Z → Z → bool) (t : table) : result table :=
  sort_with (std_sort compareFunc (entities t)) t.

(** *** traverse *)

(** The callback of [traverse], by the signature that [if constexpr]
    selects: on the entity and the component, on the component, or on the
    entity; returning [bool] (whether to go on) or [void]. [A] is the state
    that the callback captures, and a component passed by reference comes
    back with the state. *)
Inductive Callback (A : Type) :=
| OnEntityComponent (callback : A → Entity → C → A * C * bool)
| OnEntityComponentVoid (callback : A → Entity → C → A * C)
| OnComponent (callback : A → C → A * C * bool)
| OnComponentVoid (callback : A → C → A * C)
| OnEntity (callback : A → Entity → A * bool)
| OnEntityVoid (callback : A → Entity → A).

(** The body of the loop at [index]: the state, the components and whether
    the loop goes on. *)
Definition traverse_call {A} (cb : Callback A) (a : A) (es : list Z) (cs : list C)
    (index : Z) : result (A * list C * bool) :=
  match cb with
  | OnEntityComponent _ callback =>
      entity ← vec_at es index;
      component ← vec_at cs index;
      let '(a', component', continue) := callback a entity component in
      cs' ← vec_set cs index component';
      mret (a', cs', continue)
  | OnEntityComponentVoid _ callback =>
      entity ← vec_at es index;
      component ← vec_at cs index;
      let '(a', component') := callback a entity component in
      cs' ← vec_set cs index component';
      mret (a', cs', true)
  | OnComponent _ callback =>
      component ← vec_at cs index;
      let '(a', component', continue) := callback a component in
      cs' ← vec_set cs index component';
      mret (a', cs', continue)
  | OnComponentVoid _ callback =>
      component ← vec_at cs index;
      let '(a', component') := callback a component in
      cs' ← vec_set cs index component';
      mret (a', cs', true)
  | OnEntity _ callback =>
      entity ← vec_at es index;
      let '(a', continue) := callback a entity in
      mret (a', cs, continue)
  | OnEntityVoid _ callback =>
      entity ← vec_at es index;
      mret (callback a entity, cs, true)
  end.

(** [for (index = 0, count = _entities.size(); index != count; ++index)],
    with its [break]. *)
Fixpoint traverse_loop {A} (cb : Callback A) (indexes : list Z) (es : list Z)
    (cs : list C) (a : A) : result (A * list C) :=
  match indexes with
  | [] => mret (a, cs)
  | index :: indexes' =>
      '(a', cs', continue) ← traverse_call cb a es cs index;
      if (continue : bool) then traverse_loop cb indexes' es cs' a'
      else mret (a', cs')
  end.

Definition traverse {A} (cb : Callback A) (t : table) (a : A) : result (A * table) :=
  '(a', cs') ← traverse_loop cb (seqZ 0 (vec_size (entities t)))
                 (entities t) (components t) a;
  mret (a', mkTable (indexSet t) (entities t) cs').

End table.
Arguments table C : clear implicits.
Arguments Callback C A : clear implicits.
Arguments OnEntityComponent {C A} callback.
Arguments OnEntityComponentVoid {C A} callback.
Arguments OnComponent {C A} callback.
Arguments OnComponentVoid {C A} callback.
Arguments OnEntity {C A} callback.
Arguments OnEntityVoid {C A} callback.
End Dense.

(** ** ComponentTable.ipp, former revision

    System.ipp is written against the former revision of the table. Its
    [add], [addRange] and [remove] do what the later ones do, its
    [tryRemove] is [Dense.tryRemove_void], its [addUpdate] became [tryAdd],
    and its [removeRange] erases from [_entities.begin() + last + 1], an
    offset that is not reduced to 32 bits. [NullIndex] is the former name
    of [NullEntityIndex]. *)

Module FormerDense.
Section table.
Context {C : Type}.

(** [addUpdate(entity, component)] *)
Definition addUpdate (t : Dense.table C) (entity : Z) (component : C)
  : result (Dense.table C) :=
  let componentIndex := Dense.findIndex t entity in
  if negb (componentIndex =? NullEntityIndex)
  then
    components' ← vec_set (Dense.components t)
                     (Sparse.at_ (Dense.indexSet t) entity) component;
    mret (Dense.mkTable (Dense.indexSet t) (Dense.entities t) components')
  else
    let componentIndex := vec_size (Dense.entities t) in
    mret (Dense.mkTable (Sparse.add (Dense.indexSet t) entity componentIndex)
                        (Dense.entities t ++ [entity])
                        (Dense.components t ++ [component])).

(** First loop of [removeRange]: [++i] comes first and [i - 1] is pushed. *)
Fixpoint erased_indexes (range : EntityRange) (i : Z) (es : list Z)
    (s : SparseIndex) : list Z * SparseIndex :=
  match es with
  | [] => ([], s)
  | entity :: es' =>
      let i := wrap (i + 1) in
      if (range_begin range <=? entity) && (entity <? range_end range)
      then let '(indexes, s') := erased_indexes range i es' (Sparse.remove s entity) in
           (wrap (i - 1) :: indexes, s')
      else erased_indexes range i es' s
  end.

(** [removeRange] *)
Definition removeRange (t : Dense.table C) (range : EntityRange)
  : result (Dense.table C) :=
  let '(indexes, indexSet1) :=
    erased_indexes range 0 (Dense.entities t) (Dense.indexSet t) in
  match indexes with
  | [] => mret t
  | _ =>
      let indexes' := sort_descending indexes in
      let '(moveIndexes, last) :=
        Compaction.move_indexes (wrap (vec_size (Dense.entities t) - 1)) indexes' in
      '(entities1, indexSet2) ←
        Compaction.move_entities moveIndexes (Dense.entities t) indexSet1;
      entities2 ← vec_erase_from entities1 (last + 1);
      components1 ← Dense.move_components moveIndexes (Dense.components t);
      components2 ← vec_erase_from components1 (last + 1);
      mret (Dense.mkTable indexSet2 entities2 components2)
  end.

End table.
End FormerDense.
(** ** StableComponentTable.ipp: the stable table *)

Module Stable.

(** A page: [ComponentPageSize] cells, each constructed or not. *)
Abbreviation ComponentPage C := (list (option C)).

Section table.
Context {C : Type}.

(** The template parameter [ComponentPageSize], the [Q] of the
    specification. *)
Variable ComponentPageSize : Z.

Record table := mkTable {
  indexSet : SparseIndex;
  entities : list Z;
  componentPages : list (ComponentPage C);
  tombstones : list Z
}.

Definition empty : table := mkTable ∅ [] [] [].

(** Modelled from the spec: [GetPageIndex] and [GetComponentIndex] are
    declared in StableComponentTable.hpp, which is missing; a slot index [s]
    maps to [(s/Q, s%Q)]. *)
Definition GetPageIndex (entityIndex : Z) : Z := entityIndex / ComponentPageSize.
Definition GetComponentIndex (entityIndex : Z) : Z := entityIndex mod ComponentPageSize.

(** Modelled from the spec: [pageExists] of the missing header; a page
    exists when its index is below the number of pages. *)
Definition pageExists (pages : list (ComponentPage C)) (pageIndex : Z) : bool :=
  pageIndex <? vec_size pages.

(** Modelled from the spec: [count()] of the missing header is the number of
    entries of [entities] that are not tombstones. *)
Definition count (t : table) : Z :=
  vec_size (filter (λ e, e ≠ NullEntity) (entities t)).

(** Modelled from the spec: [exists(entity)] of the missing header, as the
    dense table has it. *)
Definition exists_ (t : table) (entity : Z) : bool :=
  bool_decide (is_Some (vec_find (entities t) entity)).

(** [findIndex] *)
Definition findIndex (t : table) (entity : Z) : EntityIndex :=
  default NullEntityIndex (vec_find (entities t) entity).

(** The cell [_componentPages.at(pageIndex)->data()[componentIndex]]. *)
Definition cell_at (pages : list (ComponentPage C)) (entityIndex : Z) : result (option C) :=
  page ← vec_at pages (GetPageIndex entityIndex);
  vec_at page (GetComponentIndex entityIndex).

Definition cell_set (pages : list (ComponentPage C)) (entityIndex : Z) (cell : option C)
  : result (list (ComponentPage C)) :=
  page ← vec_at pages (GetPageIndex entityIndex);
  page' ← vec_set page (GetComponentIndex entityIndex) cell;
  vec_set pages (GetPageIndex entityIndex) page'.

(** [atIndex]: the component of a slot, which has to be constructed. *)
Definition atIndex (pages : list (ComponentPage C)) (entityIndex : Z) : result C :=
  cell ← cell_at pages entityIndex;
  match cell with
  | Some c => Ok c
  | None => Fault Uninitialized
  end.

(** [get(entity)] *)
Definition get (t : table) (entity : Z) : result C :=
  atIndex (componentPages t) (Sparse.at_ (indexSet t) entity).

(** [insertComponent]: pages are pushed while the destination page does
    not exist, then the component is constructed in its cell. *)
Definition insertComponent (pages : list (ComponentPage C)) (entityIndex : Z) (component : C)
  : result (list (ComponentPage C)) :=
  let pageIndex := GetPageIndex entityIndex in
  let missing := Z.to_nat (pageIndex + 1 - vec_size pages) in
  let pages' := pages ++ replicate missing (replicate (Z.to_nat ComponentPageSize) None) in
  cell_set pages' entityIndex (Some component).

(** The destructor call [data()[componentIndex].~ComponentType()]. *)
Definition destroyComponent (pages : list (ComponentPage C)) (entityIndex : Z)
  : result (list (ComponentPage C)) :=
  _ ← atIndex pages entityIndex;
  cell_set pages entityIndex None.

(** [addImpl] *)
Definition addImpl (t : table) (entity : Z) (component : C) : result table :=
  '(entityIndex, entities', tombstones') ←
    match tombstones t with
    | [] => mret (vec_size (entities t), entities t ++ [entity], [])
    | _ =>
        entityIndex ← vec_back (tombstones t);
        tombstones' ← vec_pop (tombstones t);
        entities' ← vec_set (entities t) entityIndex entity;
        mret (entityIndex, entities', tombstones')
    end;
  pages' ← insertComponent (componentPages t) entityIndex component;
  mret (mkTable (Sparse.add (indexSet t) entity entityIndex) entities' pages' tombstones').

(** [add]; [kFAssert(!exists(entity))] is its precondition. *)
Definition add (t : table) (entity : Z) (component : C) : result table :=
  addImpl t entity component.

(** [removeImpl] *)
Definition removeImpl (t : table) (entity : Z) (entityIndex : Z) : result table :=
  pages' ← destroyComponent (componentPages t) entityIndex;
  let indexSet' := Sparse.remove (indexSet t) entity in
  entities' ← vec_set (entities t) entityIndex NullEntity;
  mret (mkTable indexSet' entities' pages' (tombstones t ++ [entityIndex])).

(** [remove]; [kFAssert(exists(entity))] is its precondition. *)
Definition remove (t : table) (entity : Z) : result table :=
  let '(entityIndex, indexSet') := Sparse.extract (indexSet t) entity in
  removeImpl (mkTable indexSet' (entities t) (componentPages t) (tombstones t))
             entity entityIndex.

(** [tryRemove] *)
Definition tryRemove (t : table) (entity : Z) : result (bool * table) :=
  let entityIndex := findIndex t entity in
  if negb (entityIndex =? NullEntityIndex)
  then t' ← removeImpl t entity entityIndex; mret (true, t')
  else mret (false, t).

(** [removeRange]: [removeImpl(it, _indexSet.at(it))] for [it] from
    [range.begin] until it reaches [range.end]. *)
Definition removeRange (t : table) (range : EntityRange) : result table :=
  foldl (λ (r : result table) k,
           t ← r;
           let it := wrap (range_begin range + k) in
           removeImpl t it (Sparse.at_ (indexSet t) it))
        (mret t) (seqZ 0 (wrap (range_end range - range_begin range))).

(** The table at the call of [removeImpl] in [extract], after
    [_indexSet.extract(entity)]. *)
Definition extract_before_removeImpl (t : table) (entity : Z) : Z * table :=
  let '(entityIndex, indexSet') := Sparse.extract (indexSet t) entity in
  (entityIndex, mkTable indexSet' (entities t) (componentPages t) (tombstones t)).

(** [extract] *)
Definition extract (t : table) (entity : Z) : result (C * table) :=
  let '(entityIndex, t0) := extract_before_removeImpl t entity in
  value ← atIndex (componentPages t0) entityIndex;
  t' ← removeImpl t0 entity entityIndex;
  mret (value, t').

(** *** pack *)

(** The loop that erases components: each component is move-constructed in
    the destination cell and destroyed in the source cell. *)
Fixpoint move_components (moves : list EntityRange) (pages : list (ComponentPage C))
  : result (list (ComponentPage C)) :=
  match moves with
  | [] => mret pages
  | moveIndex :: moves' =>
      toMove ← atIndex pages (range_begin moveIndex);
      pages1 ← cell_set pages (range_end moveIndex) (Some toMove);
      pages2 ← cell_set pages1 (range_begin moveIndex) None;
      move_components moves' pages2
  end.

Definition pack (t : table) : result table :=
  match tombstones t with
  | [] => mret t
  | _ =>
      let tombstones' := sort_descending (tombstones t) in
      let '(moveIndexes, last) :=
        Compaction.move_indexes (wrap (vec_size (entities t) - 1)) tombstones' in
      '(entities1, indexSet1) ← Compaction.move_entities moveIndexes (entities t) (indexSet t);
      let from := wrap (last + 1) in
      entities2 ← vec_erase_from entities1 from;
      pages' ← move_components moveIndexes (componentPages t);
      mret (mkTable indexSet1 entities2 pages' [])
  end.

(** *** sort *)

Definition cell_swap (pages : list (ComponentPage C)) (i j : Z) : result (list (ComponentPage C)) :=
  ci ← atIndex pages i;
  cj ← atIndex pages j;
  pages' ← cell_set pages i (Some cj);
  cell_set pages' j (Some ci).

(** The [while (current != next)] loop. *)
Fixpoint sort_chase (fuel : nat) (es : list Z) (current next : Z) (currentEntity : Z)
    (s : SparseIndex) (pages : list (ComponentPage C))
  : result (SparseIndex * list (ComponentPage C)) :=
  if current =? next then mret (s, pages)
  else match fuel with
       | O => Fault OutOfFuel
       | S fuel' =>
           nextEntity ← vec_at es next;
           let following := Sparse.at_ s nextEntity in
           pages' ← cell_swap pages next following;
           let s' := Sparse.add s currentEntity current in
           let current' := next in
           let next' := following in
           currentEntity' ← vec_at es current';
           sort_chase fuel' es current' next' currentEntity' s' pages'
       end.

(** The [for (from = 0; from != to; ++from)] loop. *)
Fixpoint sort_patch (froms : list Z) (es : list Z) (s : SparseIndex)
    (pages : list (ComponentPage C)) : result (SparseIndex * list (ComponentPage C)) :=
  match froms with
  | [] => mret (s, pages)
  | from :: froms' =>
      let current := from in
      currentEntity ← vec_at es current;
      let next := Sparse.at_ s currentEntity in
      '(s', pages') ← sort_chase (S (length es)) es current next currentEntity s pages;
      sort_patch froms' es s' pages'
  end.

(** [sort] after [pack], given the outcome [sorted] of [std::sort]. *)
Definition sort_packed_with (sorted : list Z) (t : table) : result table :=
  '(s', pages') ←
    sort_patch (seqZ 0 (vec_size sorted)) sorted (indexSet t) (componentPages t);
  mret (mkTable s' sorted pages' (tombstones t)).

Definition sort (compareFunc : Z → Z → bool) (t : table) : result table :=
  t1 ← pack t;
  sort_packed_with (std_sort compareFunc (entities t1)) t1.

(** *** Iterators *)

(** [IteratorType::operator++]: the [while (true)] loop on [_index]. *)
Fixpoint operator_inc (fuel : nat) (es : list Z) (index : Z) : result Z :=
  let max := vec_size es in
  if index =? max then mret index
  else match fuel with
       | O => Fault OutOfFuel
       | S fuel' =>
           let index' := wrap (index + 1) in
           entity ← vec_at es index';
           if negb (entity =? NullEntityIndex) then mret index'
           else operator_inc fuel' es index'
       end.

(** [IteratorType::operator--] *)
Fixpoint operator_dec (fuel : nat) (es : list Z) (index : Z) : result Z :=
  if index =? 0 then mret index
  else match fuel with
       | O => Fault OutOfFuel
       | S fuel' =>
           let index' := wrap (index - 1) in
           entity ← vec_at es index';
           if negb (entity =? NullEntityIndex) then mret index'
           else operator_dec fuel' es index'
       end.

(** *** tryAdd, addRange, getUnstableIndex *)

(** [tryAdd(entity, component)]: the component of a found entity is
    assigned through [get(entity)]. *)
Definition tryAdd (t : table) (entity : Z) (component : C) : result table :=
  if negb (findIndex t entity =? NullEntityIndex)
  then
    let entityIndex := Sparse.at_ (indexSet t) entity in
    _ ← atIndex (componentPages t) entityIndex;
    pages' ← cell_set (componentPages t) entityIndex (Some component);
    mret (mkTable (indexSet t) (entities t) pages' (tombstones t))
  else addImpl t entity component.

(** [tryAdd(entity, functor)]; [dflt] is the default-constructed component
    and [functor] the update that the functor makes through its reference. *)
Definition tryAddWith (dflt : C) (t : table) (entity : Z) (functor : C → C)
  : result table :=
  let componentIndex := findIndex t entity in
  if negb (componentIndex =? NullEntityIndex)
  then
    c ← atIndex (componentPages t) componentIndex;
    pages' ← cell_set (componentPages t) componentIndex (Some (functor c));
    mret (mkTable (indexSet t) (entities t) pages' (tombstones t))
  else addImpl t entity (functor dflt).

(** [addRange]: entities and indexes are inserted after the last slot, then
    [insertComponent(i, args...)] runs for each new slot [i]. *)
Definition addRange (t : table) (range : EntityRange) (component : C) : result table :=
  let lastIndex := vec_size (entities t) in
  let count := wrap (range_end range - range_begin range) in
  let steps := seqZ 0 count in
  let entities' := entities t ++ ((λ k, wrap (range_begin range + k)) <$> steps) in
  let indexSet' :=
    foldl (λ s k, Sparse.add s (wrap (range_begin range + k)) (wrap (lastIndex + k)))
          (indexSet t) steps in
  pages' ← foldl (λ (r : result (list (ComponentPage C))) k,
                    pages ← r; insertComponent pages (wrap (lastIndex + k)) component)
                 (mret (componentPages t)) steps;
  mret (mkTable indexSet' entities' pages' (tombstones t)).

(** [getUnstableIndex]; the test [pageExists] is part of the lookup of the
    sparse set. *)
Definition getUnstableIndex (t : table) (entity : Z) : EntityIndex :=
  Sparse.at_ (indexSet t) entity.

(** *** clear, release *)

(** [destroyComponents]: the destructor runs on the slot of every entity
    that is not [NullEntity]. *)
Fixpoint destroyComponents_from (index : Z) (es : list Z)
    (pages : list (ComponentPage C)) : result (list (ComponentPage C)) :=
  match es with
  | [] => mret pages
  | entity :: es' =>
      pages' ← (if negb (entity =? NullEntity)
                then destroyComponent pages index
                else mret pages);
      destroyComponents_from (wrap (index + 1)) es' pages'
  end.

Definition destroyComponents (t : table) : result (list (ComponentPage C)) :=
  destroyComponents_from 0 (entities t) (componentPages t).

(** [clear]: the components are destroyed, the entities and the sparse set
    are cleared; the pages and [_tombstones] are not touched. *)
Definition clear (t : table) : result table :=
  pages' ← destroyComponents t;
  mret (mkTable (Sparse.clearUnsafe (indexSet t)) [] pages' (tombstones t)).

(** [release]: as [clear], and the pages are released. *)
Definition release (t : table) : result table :=
  _ ← destroyComponents t;
  mret (mkTable (Sparse.clearUnsafe (indexSet t)) [] [] (tombstones t)).

(** *** traverse *)

(** The body of the loop at [index], for an entity that is not
    [NullEntity]; the callbacks are those of the dense table. *)
Definition traverse_call {A} (cb : Dense.Callback C A) (a : A) (entity : Z)
    (pages : list (ComponentPage C)) (index : Z)
  : result (A * list (ComponentPage C) * bool) :=
  match cb with
  | Dense.OnEntityComponent callback =>
      component ← atIndex pages index;
      let '(a', component', continue) := callback a entity component in
      pages' ← cell_set pages index (Some component');
      mret (a', pages', continue)
  | Dense.OnEntityComponentVoid callback =>
      component ← atIndex pages index;
      let '(a', component') := callback a entity component in
      pages' ← cell_set pages index (Some component');
      mret (a', pages', true)
  | Dense.OnComponent callback =>
      component ← atIndex pages index;
      let '(a', component', continue) := callback a component in
      pages' ← cell_set pages index (Some component');
      mret (a', pages', continue)
  | Dense.OnComponentVoid callback =>
      component ← atIndex pages index;
      let '(a', component') := callback a component in
      pages' ← cell_set pages index (Some component');
      mret (a', pages', true)
  | Dense.OnEntity callback =>
      let '(a', continue) := callback a entity in
      mret (a', pages, continue)
  | Dense.OnEntityVoid callback =>
      mret (callback a entity, pages, true)
  end.

(** [for (index = 0, count = _entities.size(); index != count; ++index)]:
    the slots of [NullEntity] are skipped. *)
Fixpoint traverse_loop {A} (cb : Dense.Callback C A) (indexes : list Z) (es : list Z)
    (pages : list (ComponentPage C)) (a : A) : result (A * list (ComponentPage C)) :=
  match indexes with
  | [] => mret (a, pages)
  | index :: indexes' =>
      entity ← vec_at es index;
      if entity =? NullEntity then traverse_loop cb indexes' es pages a
      else
        '(a', pages', continue) ← traverse_call cb a entity pages index;
        if (continue : bool) then traverse_loop cb indexes' es pages' a'
        else mret (a', pages')
  end.

Definition traverse {A} (cb : Dense.Callback C A) (t : table) (a : A)
  : result (A * table) :=
  '(a', pages') ← traverse_loop cb (seqZ 0 (vec_size (entities t)))
                    (entities t) (componentPages t) a;
  mret (a', mkTable (indexSet t) (entities t) pages' (tombstones t)).

End table.
Arguments table C : clear implicits.
End Stable.
(** ** System.ipp: a system, its entities and its component tables

    [System<Literal, Pipeline, Allocator, ComponentTypes...>] derives from
    [ASystem] and holds one table per component type. In the revision of
    System.ipp at hand every table is a [ComponentTable] of the former
    revision.

    [K] names the component types, [ty k] is the type that [k] names and
    [ComponentTypes] lists the names in the order of the template
    parameters. A pack [Components...] is a list, and a fold expression over
    the comma operator runs over it from left to right. *)

Module System.
Section system.
Context {K : Type} `{EqDecision K} {ty : K → Type}.
Variable ComponentTypes : list K.

Record system := mkSystem {
  base : Allocator.ASystem;
  tables : ∀ k : K, Dense.table (ty k)
}.

(** [getTable<Component>()] *)
Definition getTable (s : system) (k : K) : Dense.table (ty k) := tables s k.

(** A write through the reference that [getTable<Component>()] returns. *)
Definition setTable (s : system) (k : K) (t : Dense.table (ty k)) : system :=
  mkSystem (base s)
    (λ k', match decide (k = k') with
           | left e => eq_rect k (λ x, Dense.table (ty x)) t k' e
           | right _ => tables s k'
           end).

(** One argument of a pack [Components &&...components]. *)
Definition component : Type := { k : K & ty k }.

(** [attach(entity, components...)] *)
Fixpoint attach (s : system) (entity : Z) (components : list component) : system :=
  match components with
  | [] => s
  | existT k c :: components' =>
      attach (setTable s k (Dense.add (getTable s k) entity c)) entity components'
  end.

(** [attachUpdate(entity, components...)] *)
Fixpoint attachUpdate (s : system) (entity : Z) (components : list component)
  : result system :=
  match components with
  | [] => mret s
  | existT k c :: components' =>
      t ← FormerDense.addUpdate (getTable s k) entity c;
      attachUpdate (setTable s k t) entity components'
  end.

(** [attachRange(range, components...)] *)
Fixpoint attachRange (s : system) (range : EntityRange) (components : list component)
  : system :=
  match components with
  | [] => s
  | existT k c :: components' =>
      attachRange (setTable s k (Dense.addRange (getTable s k) range c)) range components'
  end.

(** [add(components...)] *)
Definition add (s : system) (components : list component) : Entity * system :=
  let '(entity, base') := Allocator.add (base s) in
  (entity, attach (mkSystem base' (tables s)) entity components).

(** [addRange(count, components...)] *)
Definition addRange (s : system) (count : Z) (components : list component)
  : EntityRange * system :=
  let '(range, base') := Allocator.addRange count (base s) in
  (range, attachRange (mkSystem base' (tables s)) range components).

(** The application of one table operation to the tables named by a pack
    of component types, from left to right. *)
Fixpoint on_tables (f : ∀ k, Dense.table (ty k) → result (Dense.table (ty k)))
    (ks : list K) (s : system) : result system :=
  match ks with
  | [] => mret s
  | k :: ks' =>
      t ← f k (getTable s k);
      on_tables f ks' (setTable s k t)
  end.

(** [dettach<Components...>(entity)] *)
Definition dettach (s : system) (ks : list K) (entity : Z) : result system :=
  on_tables (λ k t, Dense.remove t entity) ks s.

(** [tryDettach<Components...>(entity)] *)
Definition tryDettach (s : system) (ks : list K) (entity : Z) : result system :=
  on_tables (λ k t, Dense.tryRemove_void t entity) ks s.

(** [dettachRange<Components...>(range)] *)
Definition dettachRange (s : system) (ks : list K) (range : EntityRange) : result system :=
  on_tables (λ k t, FormerDense.removeRange t range) ks s.

(** [remove(entity)]: [tryRemove] on every table of the tuple, then
    [ASystem::remove]. *)
Definition remove (s : system) (entity : Z) : result system :=
  s' ← on_tables (λ k t, Dense.tryRemove_void t entity) ComponentTypes s;
  mret (mkSystem (Allocator.remove entity (base s')) (tables s')).

(** [removeRange(range)] *)
Definition removeRange (s : system) (range : EntityRange) : result system :=
  s' ← on_tables (λ k t, FormerDense.removeRange t range) ComponentTypes s;
  mret (mkSystem (Allocator.removeRange range (base s')) (tables s')).

(** [removeUnsafe(entity)]: the identifier is released and no table is
    touched. *)
Definition removeUnsafe (s : system) (entity : Z) : system :=
  mkSystem (Allocator.remove entity (base s)) (tables s).

(** [removeUnsafeRange(range)] *)
Definition removeUnsafeRange (s : system) (range : EntityRange) : system :=
  mkSystem (Allocator.removeRange range (base s)) (tables s).

(** [get<Component>(entity)] *)
Definition get (s : system) (k : K) (entity : Z) : result (ty k) :=
  Dense.get (getTable s k) entity.

(** The system after its construction. *)
Definition initial : system :=
  mkSystem Allocator.fresh (λ k, Dense.empty).

(** The component types of a pack. *)
Definition kinds (components : list component) : list K :=
  (λ kc : component, projT1 kc) <$> components.

End system.
Arguments system {K} ty.
Arguments component {K} ty.
End System.
(** ** Invariants and operation sequences of the dense table *)

Module DenseSpec.
Import Dense.
Section spec.
Context {C : Type}.
Implicit Types (t : table C) (m : gmap Z C) (cs : list C).

(** The three vectors move in lockstep and the sparse set maps every
    entity of [entities] back to its position. *)
Record dense_inv t : Prop := {
  inv_len : length (entities t) = length (components t);
  inv_bound : vec_size (entities t) < NullEntityIndex;
  inv_index : ∀ i e, entities t !! i = Some e →
                     Sparse.at_ (indexSet t) e = Z.of_nat i
}.

(** [m] holds the live value of every present entity: the table has the
    entities of [m] and [components[i]] is the value of [entities[i]]. *)
Definition represents t m : Prop :=
  (∀ i e, entities t !! i = Some e →
          ∃ c, components t !! i = Some c ∧ m !! e = Some c)
  ∧ (∀ e, is_Some (m !! e) → e ∈ entities t).

Inductive op :=
| Add (entity : Z) (component : C)
| TryAdd (entity : Z) (component : C)
| TryAddWith (dflt : C) (entity : Z) (functor : C → C)
| AddRange (range : EntityRange) (component : C)
| Remove (entity : Z)
| TryRemove (entity : Z)
| RemoveRange (range : EntityRange)
| Extract (entity : Z)
| Sort (compareFunc : Z → Z → bool)
| Clear.

Definition step (o : op) t : result (table C) :=
  match o with
  | Add entity component => mret (add t entity component)
  | TryAdd entity component => tryAdd t entity component
  | TryAddWith dflt entity functor => tryAddWith dflt t entity functor
  | AddRange range component => mret (addRange t range component)
  | Remove entity => remove t entity
  | TryRemove entity => snd <$> tryRemove t entity
  | RemoveRange range => removeRange t range
  | Extract entity => snd <$> extract t entity
  | Sort compareFunc => sort compareFunc t
  | Clear => mret (clear t)
  end.

(** The entities of a range. *)
Definition range_entities (range : EntityRange) : list Z :=
  seqZ (range_begin range) (range_end range - range_begin range).

(** The live values after an operation, as the specification words them:
    the last value written for each present entity. *)
Definition model_step (o : op) m : gmap Z C :=
  match o with
  | Add entity component => <[entity := component]> m
  | TryAdd entity component => <[entity := component]> m
  | TryAddWith dflt entity functor =>
      <[entity := functor (default dflt (m !! entity))]> m
  | AddRange range component =>
      foldr (λ e m', <[e := component]> m') m (range_entities range)
  | Remove entity => delete entity m
  | TryRemove entity => delete entity m
  | RemoveRange range =>
      filter (λ kv, ¬ (range_begin range ≤ kv.1 < range_end range)) m
  | Extract entity => delete entity m
  | Sort _ => m
  | Clear => ∅
  end.

(** Room for [n] more components: indexes stay below [NullEntityIndex]. *)
Definition has_room t (n : Z) : Prop :=
  vec_size (entities t) + n < NullEntityIndex.

(** Preconditions of the operations. *)
Definition pre (o : op) t : Prop :=
  match o with
  | Add entity _ => (entity ∉ entities t) ∧ has_room t 1
  | TryAdd entity _ => has_room t 1
  | TryAddWith _ entity _ => has_room t 1
  | AddRange range _ =>
      (0 ≤ range_begin range ≤ range_end range) ∧ range_end range < 2 ^ 32
      ∧ Forall (λ e, ¬ (range_begin range ≤ e < range_end range)) (entities t)
      ∧ has_room t (range_end range - range_begin range)
  | Remove entity => entity ∈ entities t
  | TryRemove _ => True
  | RemoveRange _ => True
  | Extract entity => entity ∈ entities t
  | Sort compareFunc => strict_weak_order compareFunc (λ e, e ∈ entities t)
  | Clear => True
  end.

Fixpoint run (ops : list op) t : result (table C) :=
  match ops with
  | [] => mret t
  | o :: ops' => step o t ≫= run ops'
  end.

(** The precondition holds at each step of the sequence. *)
Fixpoint pre_ops (ops : list op) t : Prop :=
  match ops with
  | [] => True
  | o :: ops' => pre o t ∧ ∀ t', step o t = Ok t' → pre_ops ops' t'
  end.

Definition model_run (ops : list op) m : gmap Z C :=
  foldl (λ m' o, model_step o m') m ops.

(** The table that [removeImpl] leaves, in closed form. *)
Definition swap_removed t (entity : Z) (idx : nat) (lastEntity : Z) (lastComponent : C)
  : table C :=
  let n := length (entities t) in
  if decide (idx = n - 1)%nat
  then mkTable (delete entity (indexSet t))
               (take (n - 1)%nat (entities t))
               (take (n - 1)%nat (components t))
  else mkTable (delete entity (<[lastEntity := Z.of_nat idx]> (indexSet t)))
               (take (n - 1)%nat (<[idx := lastEntity]> (entities t)))
               (take (n - 1)%nat (<[idx := lastComponent]> (components t))).

(** [val] gives the component of every entity of the table. *)
Definition holds t (val : Z → option C) : Prop :=
  ∀ i e, entities t !! i = Some e → ∃ c, components t !! i = Some c ∧ val e = Some c.

(** The move of the dense table: [_components.at(end) =
    std::move(_components.at(begin))]. *)
Definition dense_mv cs (b e : Z) : result (list C) :=
  c ← vec_at cs b; vec_set cs e c.

(** Membership in a range, as a test. *)
Definition in_rangeb (range : EntityRange) (entity : Z) : bool :=
  (range_begin range <=? entity) && (entity <? range_end range).

(** The value of every entity, as a map. *)
Definition values t : gmap Z C :=
  list_to_map (zip (entities t) (components t)).

(** The sparse set holds nothing for the entities that are not in the
    table. *)
Definition index_exact t : Prop :=
  ∀ e, e ∉ entities t → Sparse.at_ (indexSet t) e = NullEntityIndex.

(** What a callback of [traverse] does at an entity and its component,
    whatever its signature. *)
Definition as_visit {A} (cb : Callback C A) : A → Z → C → A * C * bool :=
  match cb with
  | OnEntityComponent callback => callback
  | OnEntityComponentVoid callback => λ a e c, (callback a e c, true)
  | OnComponent callback => λ a _ c, callback a c
  | OnComponentVoid callback => λ a _ c, (callback a c, true)
  | OnEntity callback => λ a e c, let '(a', continue) := callback a e in (a', c, continue)
  | OnEntityVoid callback => λ a e c, (callback a e, c, true)
  end.

(** The visit of the pairs of an entity and its component, from left to
    right, until the callback says to stop: the final state and the
    components, those after the stop untouched. *)
Fixpoint visit {A} (f : A → Z → C → A * C * bool) (l : list (Z * C)) (a : A)
  : A * list C :=
  match l with
  | [] => (a, [])
  | (e, c) :: l' =>
      let '(a', c', continue) := f a e c in
      if (continue : bool)
      then let '(a'', cs) := visit f l' a' in (a'', c' :: cs)
      else (a', c' :: l'.*2)
  end.
End spec.
Arguments op C : clear implicits.

(** *** Scenarios *)

(** The value of an entity in a dense table, as [get] returns it. *)
Definition dense_val {C} (t : Dense.table C) (e : Z) : option C :=
  match Dense.get t e with
  | Ok c => Some c
  | Fault _ => None
  end.

(** The seed scenario S1: three components, then [remove(1)]. *)
Definition S1_table : table string :=
  add (add (add empty 1 "a"%string) 2 "b"%string) 3 "c"%string.

(** A callback of [traverse] that counts the components, renames them and
    stops at the entity 2. *)
Definition rename_until_2 : Callback string Z :=
  OnEntityComponent (λ n e _, (n + 1, "x"%string, negb (e =? 2))).

(** A sequence with every operation of the table. *)
Definition sample_ops : list (op string) :=
  [ Add 5 "x"%string; Clear; Add 1 "a"%string; TryAdd 2 "b"%string;
    AddRange (mkRange 10 13) "r"%string; Remove 1; TryRemove 7;
    RemoveRange (mkRange 11 13); Extract 2; Add 3 "c"%string; Sort Z.ltb ].

(** The seed scenario S4: values 3, 1, 2 for the entities 1, 2, 3, sorted by
    value. *)
Definition S4_dense : Dense.table Z :=
  Dense.add (Dense.add (Dense.add Dense.empty 1 3) 2 1) 3 2.

Definition S4_dense_less (a b : Z) : bool :=
  match Dense.get S4_dense a, Dense.get S4_dense b with
  | Ok x, Ok y => x <? y
  | _, _ => false
  end.
End DenseSpec.

(** ** Invariants of the stable table *)

Module StableSpec.
Import Stable.
Section spec.
Context {C : Type}.
Variable Q : Z.
Implicit Types (t : table C) (pages : list (ComponentPage C)).

(** Every page has [Q] cells. *)
Definition pages_wf (pages : list (ComponentPage C)) : Prop :=
  Forall (λ page, vec_size page = Q) pages.

Record stable_inv t : Prop := {
  sinv_page_size : 0 < Q;
  sinv_pages : pages_wf (componentPages t);
  sinv_bound : vec_size (entities t) < NullEntityIndex;
  sinv_index : ∀ i e, entities t !! i = Some e → e ≠ NullEntity →
                      Sparse.at_ (indexSet t) e = Z.of_nat i;
  sinv_live : ∀ i e, entities t !! i = Some e → e ≠ NullEntity →
                     ∃ c, atIndex Q (componentPages t) (Z.of_nat i) = Ok c;
  sinv_cells : vec_size (entities t) ≤ vec_size (componentPages t) * Q;
  sinv_tombstones : ∀ z, z ∈ tombstones t →
                         0 ≤ z ∧ entities t !! Z.to_nat z = Some NullEntity;
  sinv_holes : ∀ i, entities t !! i = Some NullEntity → Z.of_nat i ∈ tombstones t;
  sinv_nodup : NoDup (tombstones t)
}.

(** An entity is present when it is in [entities]; the sentinel
    [NullEntity] marks the holes and is no entity. *)
Definition present t (e : Z) : Prop := e ∈ entities t ∧ e ≠ NullEntity.

(** The table that [removeImpl] leaves: a tombstone in place of the entity. *)
Definition tombstoned t (entity : Z) (i : nat) (pages' : list (ComponentPage C))
  : table C :=
  mkTable (Sparse.remove (indexSet t) entity)
          (<[i := NullEntity]> (entities t))
          pages'
          (tombstones t ++ [Z.of_nat i]).

(** The component constructed in a slot, if any. *)
Definition rd pages (p : nat) : option C :=
  match atIndex Q pages (Z.of_nat p) with
  | Ok c => Some c
  | Fault _ => None
  end.

Definition addr pages (p : nat) : Prop :=
  ∃ cell, cell_at Q pages (Z.of_nat p) = Ok cell.

Definition keep pages pages' : Prop :=
  length pages' = length pages ∧ (pages_wf pages → pages_wf pages').

(** The move of the stable table: the component is move-constructed in the
    destination cell and destroyed in the source cell. *)
Definition stable_mv pages (b e : Z) : result (list (ComponentPage C)) :=
  toMove ← atIndex Q pages b;
  pages1 ← cell_set Q pages e (Some toMove);
  cell_set Q pages1 b None.

(** The entities that are not [NullEntity], each with the component of its
    slot, in slot order from slot [index]. *)
Fixpoint live_pairs_from (index : nat) (es : list Z) pages : list (Z * C) :=
  match es with
  | [] => []
  | e :: es' =>
      match (if decide (e = NullEntity) then None else rd pages index) with
      | Some c => (e, c) :: live_pairs_from (S index) es' pages
      | None => live_pairs_from (S index) es' pages
      end
  end.

Definition live_pairs t : list (Z * C) :=
  live_pairs_from 0 (entities t) (componentPages t).

(** One turn of the loop of [removeRange], at the identifier [it]. *)
Definition removeRange_step (r : result (table C)) (it : Z) : result (table C) :=
  t ← r; removeImpl Q t it (Sparse.at_ (indexSet t) it).
End spec.

(** *** Scenarios *)

(** The seed scenario S2, with pages of four components. *)
Definition S2_adds : result (table string) :=
  t ← add 4 empty 1 "a"%string;
  t ← add 4 t 2 "b"%string;
  t ← add 4 t 3 "c"%string;
  t ← add 4 t 4 "d"%string;
  add 4 t 5 "e"%string.

Definition S2_removes : result (table string) :=
  t ← S2_adds; t ← remove 4 t 2; remove 4 t 4.

(** The table that S2 leaves: holes in the slots of 2 and 4. *)
Definition S2_table : table string :=
  mkTable {[1 := 0; 3 := 2; 5 := 4]} [1; NullEntity; 3; NullEntity; 5]
          [[Some "a"; None; Some "c"; None]; [Some "e"; None; None; None]]%string
          [1; 3].

(** A table with the single entity 1. *)
Definition one_entity : table string :=
  mkTable {[1 := 0]} [1] [[Some "a"%string; None; None; None]] [].

(** The table with the entity 1 and a hole in the second slot. *)
Definition one_hole : table string :=
  mkTable {[1 := 0]} [1; NullEntity] [[Some "a"%string; None; None; None]] [1].

(** A stable table with one tombstone: [add(1)], [add(2)], [remove(2)]. *)
Definition one_tombstone : result (Stable.table string) :=
  t ← Stable.add 4 Stable.empty 1 "a"%string;
  t ← Stable.add 4 t 2 "b"%string;
  Stable.remove 4 t 2.

(** The seed scenario S3: [pack] after S2; and a table of tombstones only. *)
Definition S3_packed : result (Stable.table string) :=
  t ← S2_removes; Stable.pack 4 t.

Definition all_tombstones : result (Stable.table string) :=
  t ← Stable.add 4 Stable.empty 1 "a"%string;
  t ← Stable.add 4 t 2 "b"%string;
  t ← Stable.remove 4 t 1;
  Stable.remove 4 t 2.

(** The table of tombstones only, as [all_tombstones] leaves it. *)
Definition two_holes : table string :=
  mkTable ∅ [NullEntity; NullEntity] [[None; None; None; None]] [0; 1].

Definition S4_stable : result (Stable.table Z) :=
  t ← Stable.add 4 Stable.empty 1 3;
  t ← Stable.add 4 t 2 1;
  Stable.add 4 t 3 2.
End StableSpec.
(** ** Invariant and operation sequences of a system *)

Module SystemSpec.
Import Dense DenseSpec System.
Section spec.
Context {K : Type} `{EqDecision K} {ty : K → Type}.
Variable ComponentTypes : list K.

(** The allocator and every table keep their invariants, and every entity
    of a table is a live identifier of the allocator. *)
Record sys_inv (s : system ty) : Prop := {
  sys_alloc : Allocator.alloc_inv (base s);
  sys_tables : ∀ k, dense_inv (tables s k);
  sys_live : ∀ k e, e ∈ entities (tables s k) → Allocator.live e (base s)
}.

(** A table that is not empty and whose entities are all in the range. *)
Definition covered {C} (range : EntityRange) (t : table C) : Prop :=
  entities t ≠ [] ∧ ∀ e, e ∈ entities t → Allocator.in_range e range.

(** *** Operations of a system *)

Inductive op :=
| Add (components : list (component ty))
| AddRange (count : Z) (components : list (component ty))
| Attach (entity : Z) (components : list (component ty))
| AttachUpdate (entity : Z) (components : list (component ty))
| AttachRange (range : EntityRange) (components : list (component ty))
| Dettach (ks : list K) (entity : Z)
| TryDettach (ks : list K) (entity : Z)
| DettachRange (ks : list K) (range : EntityRange)
| Remove (entity : Z)
| RemoveRange (range : EntityRange).

Definition step (o : op) (s : system ty) : result (system ty) :=
  match o with
  | Add components => mret (add s components).2
  | AddRange count components => mret (addRange s count components).2
  | Attach entity components => mret (attach s entity components)
  | AttachUpdate entity components => attachUpdate s entity components
  | AttachRange range components => mret (attachRange s range components)
  | Dettach ks entity => dettach s ks entity
  | TryDettach ks entity => tryDettach s ks entity
  | DettachRange ks range => dettachRange s ks range
  | Remove entity => remove ComponentTypes s entity
  | RemoveRange range => removeRange ComponentTypes s range
  end.

Fixpoint run (ops : list op) (s : system ty) : result (system ty) :=
  match ops with
  | [] => mret s
  | o :: ops' => step o s ≫= run ops'
  end.

(** Preconditions: the allocator is not exhausted; components are attached
    to live entities that do not have them yet, one per type; components
    are detached from entities that have them; live entities are removed;
    a range removal leaves an entity in every table that it touches. *)
Definition pre (o : op) (s : system ty) : Prop :=
  match o with
  | Add components =>
      Allocator.lastEntity (base s) + 1 < NullEntity ∧ NoDup (kinds components)
  | AddRange count components =>
      0 ≤ count ∧ Allocator.lastEntity (base s) + count < NullEntity
      ∧ NoDup (kinds components)
  | Attach entity components =>
      Allocator.live entity (base s) ∧ NoDup (kinds components)
      ∧ ∀ k, k ∈ kinds components → entity ∉ entities (tables s k)
  | AttachUpdate entity components => Allocator.live entity (base s)
  | AttachRange range components =>
      0 ≤ range_begin range ≤ range_end range ∧ range_end range < 2 ^ 32
      ∧ (∀ x, Allocator.in_range x range → Allocator.live x (base s))
      ∧ NoDup (kinds components)
      ∧ ∀ k x, k ∈ kinds components → Allocator.in_range x range →
               x ∉ entities (tables s k)
  | Dettach ks entity =>
      NoDup ks ∧ ∀ k, k ∈ ks → entity ∈ entities (tables s k)
  | TryDettach _ _ => True
  | DettachRange ks range => ∀ k, k ∈ ks → ¬ covered range (tables s k)
  | Remove entity => Allocator.live entity (base s)
  | RemoveRange range =>
      range_begin range < range_end range
      ∧ (∀ x, Allocator.in_range x range → Allocator.live x (base s))
      ∧ ∀ k, ¬ covered range (tables s k)
  end.

(** The precondition holds at each step of the sequence. *)
Fixpoint pre_ops (ops : list op) (s : system ty) : Prop :=
  match ops with
  | [] => True
  | o :: ops' => pre o s ∧ ∀ s', step o s = Ok s' → pre_ops ops' s'
  end.

End spec.
Arguments op {K} ty.

(** *** Scenario *)

(** A system of two component types: a number for [true], a name for
    [false]. *)
Definition two_types (k : bool) : Type := if k then Z else string.

Definition number (n : Z) : component two_types := existT true n.
Definition name (s : string) : component two_types := existT false s.

(** Two entities: 1 has a number and a name, 2 has a number. *)
Definition two_entities : system two_types :=
  (add (add initial [number 10; name "a"]).2 [number 20]).2.

Definition sample_ops : list (op two_types) :=
  [ Add [number 10; name "a"];
    AddRange 3 [number 0];
    Attach 2 [name "b"];
    AttachRange (mkRange 3 5) [name "z"];
    AttachUpdate 1 [number 11];
    Dettach [true] 2;
    TryDettach [true; false] 4;
    Remove 2;
    DettachRange [false] (mkRange 2 4);
    Add [name "c"];
    RemoveRange (mkRange 3 5) ].

End SystemSpec.
(** ** The two loops that both tables share, over an abstract component store

    The compaction of [removeRange] and [pack] and the patch loop of [sort]
    are the same code on both tables, up to the way a component is moved or
    swapped: in a vector for the dense table, in the pages for the stable
    table. They are stated once, over a store [St] with its move and swap,
    and each table's loop is shown to be an instance. *)

Module Generic.
Section store.
Context {St : Type}.

(** The moves applied to the components. *)
Fixpoint moves_apply (mv : St → Z → Z → result St) (moves : list EntityRange) (st : St)
  : result St :=
  match moves with
  | [] => mret st
  | moveIndex :: moves' =>
      st' ← mv st (range_begin moveIndex) (range_end moveIndex);
      moves_apply mv moves' st'
  end.

(** The [while (current != next)] loop of [sort]. *)
Fixpoint chase (swap : St → Z → Z → result St) (fuel : nat) (es : list Z)
    (current next : Z) (currentEntity : Z) (s : SparseIndex) (st : St)
  : result (SparseIndex * St) :=
  if current =? next then mret (s, st)
  else match fuel with
       | O => Fault OutOfFuel
       | S fuel' =>
           nextEntity ← vec_at es next;
           let following := Sparse.at_ s nextEntity in
           st' ← swap st next following;
           let s' := Sparse.add s currentEntity current in
           currentEntity' ← vec_at es next;
           chase swap fuel' es next following currentEntity' s' st'
       end.

(** The [for (from = 0; from != to; ++from)] loop of [sort]. *)
Fixpoint patch (swap : St → Z → Z → result St) (froms : list Z) (es : list Z)
    (s : SparseIndex) (st : St) : result (SparseIndex * St) :=
  match froms with
  | [] => mret (s, st)
  | from :: froms' =>
      currentEntity ← vec_at es from;
      let next := Sparse.at_ s currentEntity in
      '(s', st') ← chase swap (S (length es)) es from next currentEntity s st;
      patch swap froms' es s' st'
  end.
End store.

(** *** The invariants of the two loops

    [rd st p] is the component constructed at position [p] of the store;
    [es] is the entity vector and [val e] the component that belongs to
    entity [e]. *)
Section invariants.
Context {C St : Type}.
Variable rd : St → nat → option C.
Variable keep : St → St → Prop.
Variable es : list Z.
Variable val : Z → option C.

(** The sparse set tells where the component of each entity is. *)
Definition consistent (s : SparseIndex) (st : St) : Prop :=
  ∀ i e, es !! i = Some e →
         ∃ p, Sparse.at_ s e = Z.of_nat p ∧ (p < length es)%nat ∧ rd st p = val e.

Definition injective (s : SparseIndex) : Prop :=
  ∀ i j e e', es !! i = Some e → es !! j = Some e' →
              Sparse.at_ s e = Sparse.at_ s e' → i = j.

(** Position [i] is patched: the sparse set maps its entity to [i]. *)
Definition fixed (s : SparseIndex) (i : nat) : Prop :=
  ∃ e, es !! i = Some e ∧ Sparse.at_ s e = Z.of_nat i.

(** In the middle of the cycle of [f]: the entity at [f] is patched and its
    component travels at [next]; the component at [current] is in place but
    the sparse set still maps its entity to [next]. *)
Record inflight (f cur : nat) (s : SparseIndex) (st : St) : Prop := {
  if_ne : cur ≠ f;
  if_cur : ∃ ef ec next,
      es !! f = Some ef ∧ Sparse.at_ s ef = Z.of_nat f
      ∧ es !! cur = Some ec ∧ Sparse.at_ s ec = Z.of_nat next
      ∧ (next < length es)%nat ∧ rd st next = val ef ∧ rd st cur = val ec;
  if_others : ∀ i e, es !! i = Some e → i ≠ cur → i ≠ f →
      ∃ p, Sparse.at_ s e = Z.of_nat p ∧ (p < length es)%nat ∧ rd st p = val e;
  if_inj : ∀ i j e e', es !! i = Some e → es !! j = Some e' → i ≠ f → j ≠ f →
      Sparse.at_ s e = Sparse.at_ s e' → i = j;
  if_hole : ∀ i e, es !! i = Some e → i ≠ f → Sparse.at_ s e ≠ Z.of_nat cur
}.

(** What one run of the inner loop establishes from [s], [st]. *)
Definition chase_post (f : nat) (s : SparseIndex) (st : St)
    (s' : SparseIndex) (st' : St) : Prop :=
  consistent s' st' ∧ injective s' ∧ fixed s' f
  ∧ (∀ i, fixed s i → fixed s' i)
  ∧ keep st st'
  ∧ (∀ k, k ∉ es → Sparse.at_ s' k = Sparse.at_ s k)
  ∧ (∀ p, (length es ≤ p)%nat → rd st' p = rd st p).

(** The live positions: below [N] and not a hole. *)
Definition live (N : nat) (hs : list nat) (i : nat) : Prop := (i < N)%nat ∧ i ∉ hs.

(** At every live position the sparse set and the store agree with the
    entity. *)
Definition aligned (N : nat) (hs : list nat) (es : list Z) (s : SparseIndex) (st : St)
  : Prop :=
  ∀ i e, live N hs i → es !! i = Some e →
         Sparse.at_ s e = Z.of_nat i ∧ rd st i = val e ∧ is_Some (val e).
End invariants.
End Generic.
(** * Proofs

    ** Machine integers, faults and vectors *)

Lemma wrap_small z : 0 ≤ z < 2 ^ 32 → wrap z = z.
Proof. intros H. unfold wrap. by apply Z.mod_small. Qed.

Lemma wrap_range z : 0 ≤ wrap z < 2 ^ 32.
Proof. unfold wrap. apply Z.mod_pos_bound. lia. Qed.

Lemma NullEntityIndex_val : NullEntityIndex = 2 ^ 32 - 1.
Proof. reflexivity. Qed.



Lemma Forall_elem {A} (P : A → Prop) (l : list A) x : Forall P l → x ∈ l → P x.
Proof. intros H. by apply Forall_forall. Qed.

Ltac null_val := rewrite ?NullEntityIndex_val in *; unfold NullEntity in *;
  rewrite ?NullEntityIndex_val in *.

(** A decidable fact about concrete data, by evaluation. *)
Ltac decided := apply (bool_decide_unpack _); by vm_compute.

Lemma bind_Ok {A B} (m : result A) (f : A → result B) b :
  m ≫= f = Ok b ↔ ∃ a, m = Ok a ∧ f a = Ok b.
Proof.
  destruct m as [a|e]; simpl; split.
  - intros H. by exists a.
  - by intros (a' & [= <-] & H).
  - done.
  - by intros (a' & ? & _).
Qed.

Lemma bind_Ok_l {A B} (a : A) (f : A → result B) : Ok a ≫= f = f a.
Proof. reflexivity. Qed.

Section vector_facts.
Context {A : Type}.
Implicit Types (l : list A) (x : A) (i : nat).

Lemma vec_at_ok l i x : l !! i = Some x → vec_at l (Z.of_nat i) = Ok x.
Proof.
  intros H. unfold vec_at. rewrite decide_True by lia.
  by rewrite Nat2Z.id, H.
Qed.

Lemma vec_at_inv l (z : Z) x :
  vec_at l z = Ok x → 0 ≤ z ∧ l !! Z.to_nat z = Some x.
Proof.
  unfold vec_at. case_decide; [|done].
  destruct (l !! Z.to_nat z) eqn:E; [|done]. by intros [= ->].
Qed.

Lemma vec_at_out l (z : Z) : vec_size l ≤ z → vec_at l z = Fault OutOfRange.
Proof.
  intros H. unfold vec_at, vec_size in *. case_decide; [|done].
  rewrite (proj2 (lookup_ge_None l (Z.to_nat z))); [done|lia].
Qed.

Lemma vec_set_ok l i x :
  (i < length l)%nat → vec_set l (Z.of_nat i) x = Ok (<[i := x]> l).
Proof.
  intros H. unfold vec_set, vec_size. rewrite decide_True by lia.
  by rewrite Nat2Z.id.
Qed.

Lemma vec_back_ok l x : last l = Some x → vec_back l = Ok x.
Proof. intros H. unfold vec_back. by rewrite H. Qed.

Lemma vec_pop_ok l : l ≠ [] → vec_pop l = Ok (take (length l - 1)%nat l).
Proof. by destruct l. Qed.

Lemma vec_pop_snoc l x : vec_pop (l ++ [x]) = Ok l.
Proof.
  rewrite vec_pop_ok by (by destruct l).
  rewrite length_app. simpl. rewrite Nat.add_sub.
  by rewrite take_app_length.
Qed.

Lemma vec_erase_from_ok l i :
  (i ≤ length l)%nat → vec_erase_from l (Z.of_nat i) = Ok (take i l).
Proof.
  intros H. unfold vec_erase_from, vec_size. rewrite decide_True by lia.
  by rewrite Nat2Z.id.
Qed.

Lemma insert_nonempty l i x : l ≠ [] → <[i := x]> l ≠ [].
Proof.
  intros H E. apply (f_equal length) in E. rewrite length_insert in E.
  by destruct l.
Qed.

Lemma last_lookup_Some l x :
  last l = Some x ↔ l !! (length l - 1)%nat = Some x ∧ l ≠ [].
Proof.
  rewrite last_lookup. destruct l as [|y l]; simpl.
  - split; [done|by intros [_ ?]].
  - rewrite Nat.sub_0_r. split; [done|by intros [? _]].
Qed.
End vector_facts.

Lemma vec_find_Some l x z :
  vec_find l x = Some z ↔
  ∃ i, z = Z.of_nat i ∧ l !! i = Some x ∧ ∀ j y, l !! j = Some y → (j < i)%nat → y ≠ x.
Proof.
  unfold vec_find. split.
  - intros H. apply fmap_Some in H as ([i y] & Hf & ->).
    apply list_find_Some in Hf as (Hl & -> & Hmin). exists i. simpl. eauto.
  - intros (i & -> & Hl & Hmin). apply fmap_Some. exists (i, x). split; [|done].
    apply list_find_Some. eauto.
Qed.

Lemma vec_find_None l x : vec_find l x = None ↔ x ∉ l.
Proof.
  unfold vec_find. rewrite fmap_None, list_find_None, Forall_forall.
  split; [intros H Hin; by apply (H x)|intros H y Hy ->; done].
Qed.

Lemma vec_find_NoDup l x i :
  NoDup l → l !! i = Some x → vec_find l x = Some (Z.of_nat i).
Proof.
  intros Hnd Hl. apply vec_find_Some. exists i. split_and!; [done|done|].
  intros j y Hj Hlt ->. pose proof (NoDup_lookup _ _ _ _ Hnd Hl Hj). lia.
Qed.

(** *** The sparse set *)

Lemma sparse_at_add_eq s k v : Sparse.at_ (Sparse.add s k v) k = v.
Proof. unfold Sparse.at_, Sparse.add. by rewrite lookup_insert_eq. Qed.

Lemma sparse_at_add_ne s k k' v :
  k ≠ k' → Sparse.at_ (Sparse.add s k v) k' = Sparse.at_ s k'.
Proof. intros H. unfold Sparse.at_, Sparse.add. by rewrite lookup_insert_ne. Qed.

Lemma sparse_at_remove_eq s k : Sparse.at_ (Sparse.remove s k) k = NullEntityIndex.
Proof. unfold Sparse.at_, Sparse.remove. by rewrite lookup_delete_eq. Qed.

Lemma sparse_at_remove_ne s k k' :
  k ≠ k' → Sparse.at_ (Sparse.remove s k) k' = Sparse.at_ s k'.
Proof. intros H. unfold Sparse.at_, Sparse.remove. by rewrite lookup_delete_ne. Qed.

(** *** std::sort *)

Section std_sort_facts.
Context {A : Type} (cmp : A → A → bool).

Lemma sort_insert_perm x l : sort_insert cmp x l ≡ₚ x :: l.
Proof.
  induction l as [|y l IH]; simpl; [done|].
  destruct (cmp x y); [done|]. rewrite IH. apply Permutation_swap.
Qed.

Lemma std_sort_perm l : std_sort cmp l ≡ₚ l.
Proof.
  induction l as [|x l IH]; simpl; [done|].
  by rewrite sort_insert_perm, IH.
Qed.

Variable dom : A → Prop.
Hypothesis Hswo : strict_weak_order cmp dom.

Lemma swo_asym a b : dom a → dom b → cmp a b = true → cmp b a = false.
Proof.
  intros Ha Hb H. destruct (cmp b a) eqn:E; [|done].
  pose proof (swo_trans _ _ Hswo _ _ _ Ha Hb Ha H E) as Haa.
  by rewrite (swo_irrefl _ _ Hswo _ Ha) in Haa.
Qed.

Lemma sort_insert_ordered x l :
  dom x → Forall dom l → ordered cmp l → ordered cmp (sort_insert cmp x l).
Proof.
  unfold ordered. intros Hx. induction l as [|y l IH]; simpl; intros Hd Hs.
  - repeat constructor.
  - inversion Hs as [|? ? Hl Hy]; subst.
    inversion Hd as [|? ? Hdy Hdl]; subst. destruct (cmp x y) eqn:E.
    + constructor; [done|]. constructor; [by apply swo_asym|].
      apply Forall_forall. intros z Hz.
      pose proof (Forall_elem _ _ _ Hy Hz) as Hyz. simpl in Hyz.
      pose proof (Forall_elem _ _ _ Hdl Hz) as Hdz.
      destruct (cmp z x) eqn:E'; [|done].
      by rewrite (swo_trans _ _ Hswo _ _ _ Hdz Hx Hdy E' E) in Hyz.
    + constructor; [by apply IH|].
      rewrite sort_insert_perm. by constructor.
Qed.

Lemma std_sort_ordered l : Forall dom l → ordered cmp (std_sort cmp l).
Proof.
  induction l as [|x l IH]; simpl; intros Hd; [constructor|].
  inversion Hd; subst. apply sort_insert_ordered; [done| |by apply IH].
  by rewrite std_sort_perm.
Qed.
End std_sort_facts.

Lemma gtb_strict_weak_order dom : strict_weak_order (λ a b : Z, b <? a) dom.
Proof. split; intros; lia. Qed.

(** [sort_descending] yields the decreasing arrangement of its input. *)
Lemma sort_descending_sorted l :
  StronglySorted (λ a b : Z, b ≤ a) (sort_descending l).
Proof.
  pose proof (std_sort_ordered _ _ (gtb_strict_weak_order (λ _, True)) l
                (Forall_true _ _ (λ _, I))) as H.
  unfold ordered in H. fold (sort_descending l) in H.
  induction H as [|x l' Hl IH Hx]; constructor; [done|].
  eapply Forall_impl; [exact Hx|]. simpl. lia.
Qed.

Lemma sort_descending_perm l : sort_descending l ≡ₚ l.
Proof. apply std_sort_perm. Qed.
(** ** Facts about the entity allocator *)

Module AllocatorFacts.
Import Allocator.

(** C7. On a fresh allocator five [add] return 1, 2, 3, 4, 5 (none is 0);
    after [remove 3] and [remove 4] the free list is the single coalesced
    range [3,5), the next two [add] return 3 then 4 and empty the free list,
    and [remove 5] then only decrements [lastEntity] to 4. *)
Theorem allocator_recycle_scenario :
  let s5 := (add5 fresh).2 in
  let s7 := remove 4 (remove 3 s5) in
  let s8 := (add s7).2 in
  let s9 := (add s8).2 in
  (add fresh).1 = wrap (lastEntity fresh + 1)
  ∧ (add5 fresh).1 = [1; 2; 3; 4; 5]
  ∧ Forall (λ e, e ≠ 0) (add5 fresh).1
  ∧ freeEntities (remove 3 s5) = [mkRange 3 4]
  ∧ freeEntities s7 = [mkRange 3 5]
  ∧ (add s7).1 = 3 ∧ freeEntities s8 = [mkRange 4 5]
  ∧ (add s8).1 = 4 ∧ freeEntities s9 = []
  ∧ lastEntity s9 = 5
  ∧ remove 5 s9 = mkASystem 4 (freeEntities s9).
Proof.
  vm_compute. repeat split; try reflexivity.
  repeat constructor; discriminate.
Qed.

Lemma pairwise_disjoint_snoc free r :
  pairwise_disjoint free → Forall (λ r', disjoint r' r) free →
  pairwise_disjoint (free ++ [r]).
Proof.
  induction free as [|r0 free IH]; simpl; [done|].
  intros [Hd Hp] Hf. inversion Hf; subst. split; [|by apply IH].
  apply Forall_app. split; [done|]. by constructor.
Qed.

Section scan.
Variables (rg : EntityRange).
Hypothesis rg_nonempty : range_begin rg < range_end rg.

(** The scan of [removeRange] extends one range by [rg]: ranges stay
    non-empty, pairwise disjoint, and disjoint from whatever was disjoint
    from both the list and [rg]. *)
Lemma removeRange_scan_inv free free' :
  Forall (λ r, range_begin r < range_end r) free →
  Forall (λ r, disjoint r rg) free →
  pairwise_disjoint free →
  removeRange_scan rg free = Some free' →
  Forall (λ r, (range_begin r < range_end r)
               ∧ ∃ r0, r0 ∈ free
                  ∧ Z.min (range_begin rg) (range_begin r0) ≤ range_begin r
                  ∧ range_end r ≤ Z.max (range_end rg) (range_end r0)) free'
  ∧ pairwise_disjoint free'
  ∧ ∀ r0, range_begin r0 < range_end r0 → disjoint r0 rg →
      Forall (disjoint r0) free → Forall (disjoint r0) free'.
Proof.
  revert free'. induction free as [|r rest IH]; intros free' Hne Hdr Hpd Hs;
    simpl in Hs; [done|].
  inversion Hne as [|? ? Hr Hne']; subst.
  inversion Hdr as [|? ? Hrr Hdr']; subst.
  destruct Hpd as [Hrd Hpd].
  destruct (negb (range_begin r =? range_end rg)
            && negb (range_end r =? range_begin rg)) eqn:Hc.
  - destruct (removeRange_scan rg rest) as [rest'|] eqn:Hrest; [|done].
    simpl in Hs. injection Hs as <-.
    destruct (IH rest' Hne' Hdr' Hpd eq_refl) as (Hok & Hpd' & Hframe).
    split_and!.
    + constructor.
      * split; [done|]. exists r. split; [left|lia].
      * eapply Forall_impl; [exact Hok|]. simpl.
        intros r1 (? & r0 & ? & ?). split; [done|]. exists r0. split; [by right|done].
    + simpl. split; [by apply Hframe|done].
    + intros r0 Hr0 H0 Hf. inversion Hf; subst. constructor; [done|]. by apply Hframe.
  - assert (Hrest_ok : Forall (λ r1, range_begin r1 < range_end r1
              ∧ ∃ r0, r0 ∈ r :: rest
                  ∧ Z.min (range_begin rg) (range_begin r0) ≤ range_begin r1
                  ∧ range_end r1 ≤ Z.max (range_end rg) (range_end r0)) rest).
    { apply Forall_forall. intros r1 Hin. split.
      - by eapply (proj1 (Forall_forall _ _) Hne').
      - exists r1. split; [by right|lia]. }
    destruct (range_end r =? range_begin rg) eqn:He; injection Hs as <-.
    + apply Z.eqb_eq in He. split_and!.
      * constructor; [|done]. simpl. split; [lia|].
        exists r. split; [left|simpl; lia].
      * simpl. split; [|done].
        apply Forall_forall. intros r1 Hin.
        pose proof (proj1 (Forall_forall _ _) Hrd r1 Hin) as H1.
        pose proof (proj1 (Forall_forall _ _) Hdr' r1 Hin) as H2.
        pose proof (proj1 (Forall_forall _ _) Hne' r1 Hin) as H3.
        unfold disjoint in *. simpl in *. lia.
      * intros r0 Hr0 H0 Hf. inversion Hf; subst. constructor; [|done].
        unfold disjoint in *. simpl in *. lia.
    + apply andb_false_iff in Hc.
      assert (range_begin r = range_end rg) as Hb.
      { destruct Hc as [Hc|Hc]; apply negb_false_iff in Hc;
          [by apply Z.eqb_eq in Hc | congruence]. }
      split_and!.
      * constructor; [|done]. simpl. split; [lia|].
        exists r. split; [left|simpl; lia].
      * simpl. split; [|done].
        apply Forall_forall. intros r1 Hin.
        pose proof (proj1 (Forall_forall _ _) Hrd r1 Hin) as H1.
        pose proof (proj1 (Forall_forall _ _) Hdr' r1 Hin) as H2.
        pose proof (proj1 (Forall_forall _ _) Hne' r1 Hin) as H3.
        unfold disjoint in *. simpl in *. lia.
      * intros r0 Hr0 H0 Hf. inversion Hf; subst. constructor; [|done].
        unfold disjoint in *. simpl in *. lia.
Qed.
End scan.

(** Under the invariant, the scan of [remove] is the scan of [removeRange]
    at the one-identifier range. *)
Lemma remove_scan_as_range entity free :
  0 ≤ entity → entity + 1 < 2 ^ 32 →
  Forall (λ r, 1 ≤ range_begin r ∧ range_begin r < 2 ^ 32) free →
  remove_scan entity free = removeRange_scan (mkRange entity (entity + 1)) free.
Proof.
  intros H0 H1. induction free as [|r rest IH]; intros Hf; simpl; [done|].
  inversion Hf as [|? ? (Hb1 & Hb2) Hf']; subst.
  rewrite (wrap_small (range_begin r - 1)) by lia.
  rewrite IH by done.
  replace (range_begin r - 1 =? entity) with (range_begin r =? entity + 1)
    by (destruct (Z.eqb_spec (range_begin r) (entity + 1)),
                 (Z.eqb_spec (range_begin r - 1) entity); lia || done).
  destruct (range_begin r =? entity + 1) eqn:Eb, (range_end r =? entity) eqn:Ee;
    simpl; try done.
  - apply Z.eqb_eq in Ee. rewrite Ee. by rewrite wrap_small by lia.
  - apply Z.eqb_eq in Eb. do 3 f_equal. lia.
  - apply Z.eqb_eq in Ee. rewrite Ee. by rewrite wrap_small by lia.
Qed.

Lemma not_free_disjoint rg free :
  range_begin rg < range_end rg →
  Forall (λ r, range_begin r < range_end r) free →
  (∀ x, in_range x rg → ¬ is_free x free) →
  Forall (λ r, disjoint r rg) free.
Proof.
  intros Hrg Hne Hnf. apply Forall_forall. intros r Hin.
  pose proof (proj1 (Forall_forall _ _) Hne r Hin) as Hr.
  destruct (decide (range_end r ≤ range_begin rg)) as [|H1]; [by left|].
  destruct (decide (range_end rg ≤ range_begin r)) as [|H2]; [by right|].
  exfalso. apply (Hnf (Z.max (range_begin rg) (range_begin r))).
  - unfold in_range. simpl in *. lia.
  - apply Exists_exists. exists r. split; [done|]. unfold in_range. simpl in *. lia.
Qed.


Lemma addRange_scan_inv count last free range free' :
  0 ≤ count → 0 ≤ last < 2 ^ 32 - 1 →
  Forall (range_ok last) free → pairwise_disjoint free →
  addRange_scan count free = Some (range, free') →
  Forall (range_ok last) free' ∧ pairwise_disjoint free'
  ∧ ∀ r0, Forall (disjoint r0) free → Forall (disjoint r0) free'.
Proof.
  intros Hc Hl. revert range free'.
  induction free as [|r rest IH]; intros range free' Hr Hd Hs; simpl in Hs; [done|].
  inversion Hr as [|? ? (Hb1 & Hb2 & Hb3) Hr']; subst.
  destruct Hd as [Hd1 Hd2].
  rewrite (wrap_small (range_end r - range_begin r)) in Hs by lia.
  destruct (Z.ltb_spec (range_end r - range_begin r) count).
  - destruct (addRange_scan count rest) as [[rg' rest']|] eqn:Hrest; [|done].
    injection Hs as <- <-.
    destruct (IH _ _ Hr' Hd2 eq_refl) as (Hok & Hp & Hfr). split_and!.
    + by constructor.
    + simpl. split; [by apply Hfr|done].
    + intros r0 Hf. inversion Hf; subst. constructor; [done|by apply Hfr].
  - rewrite wrap_small in Hs by lia. simpl in Hs.
    destruct (Z.eqb_spec (range_begin r + count) (range_end r));
      injection Hs as <- <-.
    + split_and!; [done|done|]. intros r0 Hf. by inversion Hf.
    + split_and!.
      * constructor; [|done]. unfold range_ok. simpl. lia.
      * simpl. split; [|done]. eapply Forall_impl; [exact Hd1|].
        unfold disjoint. simpl. lia.
      * intros r0 Hf. inversion Hf as [|? ? H0 Hf']; subst. constructor; [|done].
        unfold disjoint in *. simpl. lia.
Qed.


Lemma removeRange_inv rg s :
  alloc_inv s → alloc_pre (OpRemoveRange rg) s → alloc_inv (removeRange rg s).
Proof.
  intros [Hl Hr Hd] [Hne Hlive]. fold (range_ok (lastEntity s)) in Hr. null_val.
  assert (Hb : 1 ≤ range_begin rg).
  { apply (Hlive (range_begin rg)). unfold in_range. lia. }
  assert (He : range_end rg ≤ lastEntity s + 1).
  { destruct (Hlive (range_end rg - 1)) as [? _]; [unfold in_range|]; lia. }
  assert (Hnonempty : Forall (λ r, range_begin r < range_end r) (freeEntities s)).
  { eapply Forall_impl; [exact Hr|]. unfold range_ok. simpl. lia. }
  assert (Hdisj : Forall (λ r, disjoint r rg) (freeEntities s)).
  { apply not_free_disjoint; [done|done|]. intros x Hx. by apply Hlive. }
  unfold removeRange. rewrite (wrap_small (range_end rg - 1)) by lia.
  destruct (Z.eqb_spec (range_end rg - 1) (lastEntity s)) as [Hlast|Hlast].
  - rewrite wrap_small by lia. split; simpl; [null_val; lia| |done].
    apply Forall_forall. intros r Hin.
    pose proof (Forall_elem _ _ _ Hr Hin) as Hrr.
    pose proof (Forall_elem _ _ _ Hdisj Hin) as Hrd.
    unfold range_ok, disjoint in *. simpl in *. lia.
  - destruct (removeRange_scan rg (freeEntities s)) as [free'|] eqn:Hs.
    + destruct (removeRange_scan_inv rg Hne _ _ Hnonempty Hdisj Hd Hs) as (Hok & Hp & _).
      split; simpl; [done| |done].
      apply Forall_forall. intros r Hin.
      destruct (Forall_elem _ _ _ Hok Hin) as (Hr1 & r0 & Hin0 & Hr2).
      pose proof (Forall_elem _ _ _ Hr Hin0) as Hrr.
      unfold range_ok in *. simpl in *. lia.
    + split; simpl; [done| |].
      * apply Forall_app. split; [done|]. constructor; [|done]. lia.
      * apply pairwise_disjoint_snoc; done.
Qed.

Lemma remove_inv entity s :
  alloc_inv s → alloc_pre (OpRemove entity) s → alloc_inv (remove entity s).
Proof.
  intros Hinv Hpre. pose proof Hinv as [Hl Hr Hd]. pose proof Hpre as [Hrange Hnf].
  fold (range_ok (lastEntity s)) in Hr. null_val.
  unfold remove. destruct (Z.eqb_spec entity (lastEntity s)) as [->|Hne].
  - rewrite wrap_small by lia. split; simpl; [null_val; lia| |done].
    apply Forall_forall. intros r Hin.
    pose proof (Forall_elem _ _ _ Hr Hin) as Hrr.
    destruct (decide (range_end r ≤ lastEntity s)); [unfold range_ok in *; lia|].
    exfalso. apply Hnf. apply Exists_exists. exists r. split; [done|].
    unfold in_range, range_ok in *. lia.
  - assert (Hpre' : alloc_pre (OpRemoveRange (mkRange entity (entity + 1))) s).
    { split; simpl; [null_val; lia|]. intros x Hx. unfold in_range in Hx. simpl in Hx.
      by replace x with entity by lia. }
    pose proof (removeRange_inv _ _ Hinv Hpre') as Hres.
    unfold removeRange in Hres. simpl in Hres.
    replace (entity + 1 - 1) with entity in Hres by lia.
    rewrite (wrap_small entity) in Hres by lia.
    destruct (Z.eqb_spec entity (lastEntity s)); [done|].
    rewrite remove_scan_as_range; [|lia|lia|].
    + rewrite (wrap_small (entity + 1)) by lia. exact Hres.
    + eapply Forall_impl; [exact Hr|]. unfold range_ok. simpl. lia.
Qed.

(** Each operation keeps the invariant when its precondition holds. *)
Lemma alloc_step_inv op s :
  alloc_inv s → alloc_pre op s → alloc_inv (alloc_step op s).
Proof.
  intros Hinv Hpre. destruct op as [|count|entity|rg];
    [| |by apply remove_inv|by apply removeRange_inv].
  - (* add *)
    destruct Hinv as [Hl Hr Hd]. simpl in *. null_val.
    unfold add. destruct (freeEntities s) as [|r rest] eqn:Hfree.
    + simpl. rewrite wrap_small by lia. split; simpl; [null_val; lia|done|done].
    + inversion Hr as [|? ? (Hb1 & Hb2 & Hb3) Hr']; subst. destruct Hd as [Hd1 Hd2].
      simpl. rewrite wrap_small by lia.
      destruct (Z.eqb_spec (range_begin r + 1) (range_end r)); simpl.
      * by split.
      * split; simpl; [done| |].
        -- constructor; [simpl; lia|done].
        -- split; [|done]. eapply Forall_impl; [exact Hd1|].
           unfold disjoint. simpl. lia.
  - (* addRange *)
    destruct Hinv as [Hl Hr Hd]. destruct Hpre as [Hc Hov]. simpl. null_val. unfold addRange.
    destruct (addRange_scan count (freeEntities s)) as [[range free']|] eqn:Hs; simpl.
    + destruct (addRange_scan_inv _ _ _ _ _ Hc Hl Hr Hd Hs) as (Hok & Hp & _).
      by split.
    + rewrite wrap_small by lia. split; simpl; [null_val; lia| |done].
      eapply Forall_impl; [exact Hr|]. simpl. lia.
Qed.

Lemma fresh_inv : alloc_inv fresh.
Proof. split; simpl; [null_val; lia|done|done]. Qed.

Lemma alloc_run_inv s ops s' : alloc_inv s → alloc_run s ops s' → alloc_inv s'.
Proof.
  intros Hinv Hrun. induction Hrun as [|s op ops s' Hpre Hrun IH]; [done|].
  apply IH. by apply alloc_step_inv.
Qed.

Lemma live_decide x s :
  bool_decide (1 ≤ x ≤ lastEntity s ∧ ¬ Exists (in_range x) (freeEntities s)) = true →
  live x s.
Proof. intros H. by apply bool_decide_eq_true in H. Qed.

Ltac run_alloc :=
  repeat first
    [ apply alloc_run_nil
    | eapply alloc_run_cons;
      [ first [ apply live_decide; vm_compute; reflexivity
              | simpl; vm_compute; (done || (intros; discriminate)) ] | simpl ] ].

(** C2, refuted as stated. After [remove 2] extends [1,2) to [1,3), the
    neighbour [3,4) is adjacent and is not merged; and a released identifier
    with no adjacent range is pushed at the back, whatever its value. *)
Lemma free_list_not_normalized :
  (∃ s, alloc_run fresh bridge_ops s
        ∧ freeEntities s = [mkRange 1 3; mkRange 3 4]
        ∧ normalizedb (freeEntities s) = false)
  ∧ (∃ s, alloc_run fresh unsorted_ops s
        ∧ freeEntities s = [mkRange 3 4; mkRange 1 2]
        ∧ normalizedb (freeEntities s) = false).
Proof.
  split; eexists; (split; [unfold bridge_ops, unsorted_ops; run_alloc|]);
    vm_compute; done.
Qed.

(** C2, amended. After every run of allocator operations from the fresh
    allocator whose preconditions hold (identifiers not exhausted, only live
    identifiers released), the free ranges are non-empty, pairwise disjoint
    and made of identifiers of (0, lastEntity]. *)
Theorem free_list_disjoint_nonempty ops s :
  alloc_run fresh ops s →
  Forall (λ r, 1 ≤ range_begin r ∧ range_begin r < range_end r
               ∧ range_end r ≤ lastEntity s + 1) (freeEntities s)
  ∧ pairwise_disjoint (freeEntities s)
  ∧ 0 ≤ lastEntity s < NullEntity.
Proof.
  intros Hrun. destruct (alloc_run_inv _ _ _ fresh_inv Hrun) as [Hl Hr Hd].
  done.
Qed.

Lemma free_list_disjoint_nonempty_witness :
  ∃ s, alloc_run fresh bridge_ops s
       ∧ (Forall (λ r, 1 ≤ range_begin r ∧ range_begin r < range_end r
                       ∧ range_end r ≤ lastEntity s + 1) (freeEntities s)
          ∧ pairwise_disjoint (freeEntities s)
          ∧ 0 ≤ lastEntity s < NullEntity).
Proof.
  eexists. split; [|apply (free_list_disjoint_nonempty bridge_ops)];
    unfold bridge_ops; run_alloc.
Defined.

End AllocatorFacts.
(** ** The patch loop of [sort] re-aligns the components and the sparse set *)

Module ChaseFacts.
Import Generic.

Lemma NoDup_bounded_length (l : list nat) (n : nat) :
  NoDup l → (∀ x, x ∈ l → (x < n)%nat) → (length l ≤ n)%nat.
Proof.
  intros Hnd Hb.
  assert (l ⊆+ seq 0%nat n) as Hsub.
  { apply NoDup_submseteq; [done|]. intros x Hx. apply elem_of_seq.
    specialize (Hb x Hx). lia. }
  apply submseteq_length in Hsub. by rewrite length_seq in Hsub.
Qed.

Section chase.
Context {C St : Type}.

(** The store: [rd st p] is the component constructed at position [p], and
    [swap] exchanges two constructed components and nothing else. *)
Variable rd : St → nat → option C.
Variable keep : St → St → Prop.
Hypothesis keep_refl : ∀ st, keep st st.
Hypothesis keep_trans : ∀ a b c, keep a b → keep b c → keep a c.
Variable swap : St → Z → Z → result St.
Hypothesis swap_ok : ∀ st i j,
  is_Some (rd st i) → is_Some (rd st j) →
  ∃ st', swap st (Z.of_nat i) (Z.of_nat j) = Ok st'
         ∧ rd st' i = rd st j ∧ rd st' j = rd st i
         ∧ (∀ k, k ≠ i → k ≠ j → rd st' k = rd st k)
         ∧ keep st st'.

(** The entities after [std::sort], and the component of each. *)
Variable es : list Z.
Hypothesis es_NoDup : NoDup es.
Variable val : Z → option C.
Hypothesis val_Some : ∀ e, e ∈ es → is_Some (val e).

Local Abbreviation consistent := (Generic.consistent rd es val).
Local Abbreviation injective := (Generic.injective es).
Local Abbreviation fixed := (Generic.fixed es).
Local Abbreviation inflight := (Generic.inflight rd es val).
Local Abbreviation chase_post := (Generic.chase_post rd keep es val).

Lemma lookup_ne i j e e' : es !! i = Some e → es !! j = Some e' → i ≠ j → e ≠ e'.
Proof.
  intros Hi Hj Hne ->. apply Hne. by eapply NoDup_lookup.
Qed.

Lemma fixed_add s i cur ec :
  es !! cur = Some ec → fixed s i → fixed (Sparse.add s ec (Z.of_nat cur)) i.
Proof.
  intros Hc (e & He & Hat). exists e. split; [done|].
  destruct (decide (i = cur)) as [->|Hne].
  - assert (e = ec) as -> by congruence. apply sparse_at_add_eq.
  - rewrite sparse_at_add_ne; [done|]. by eapply lookup_ne.
Qed.

Lemma chase_done fuel c e s st : chase swap fuel es c c e s st = Ok (s, st).
Proof. destruct fuel; simpl; by rewrite Z.eqb_refl. Qed.

Lemma chase_step fuel c nx ce s st :
  c ≠ nx →
  chase swap (S fuel) es c nx ce s st
  = (nextEntity ← vec_at es nx;
     st' ← swap st nx (Sparse.at_ s nextEntity);
     ce' ← vec_at es nx;
     chase swap fuel es nx (Sparse.at_ s nextEntity) ce' (Sparse.add s ce c) st').
Proof. intros H. simpl. by rewrite (proj2 (Z.eqb_neq c nx) H). Qed.

Lemma chase_inflight fuel : ∀ f cur s st F ec,
  inflight f cur s st → es !! cur = Some ec →
  NoDup F → (∀ i, i ∈ F → fixed s i) → (length es ≤ length F + fuel)%nat →
  ∃ s' st',
    chase swap fuel es (Z.of_nat cur) (Sparse.at_ s ec) ec s st = Ok (s', st')
    ∧ chase_post f s st s' st'.
Proof.
  induction fuel as [|fuel IH]; intros f cur s st F ec Hin Hcur HF Hfix Hfuel;
    destruct Hin as [Hne (ef & ec' & next & Hf & Hatf & Hcur' & Hatc & Hnext & Hrdn & Hrdc)
                       Hoth Hinj Hhole];
    assert (ec' = ec) as -> by congruence;
    assert (Hcurfix : ¬ fixed s cur)
      by (intros (e & He & Hat); assert (e = ec) as -> by congruence;
          by apply (Hhole cur ec));
    assert (HcF : cur ∉ F) by (intros H; by apply Hcurfix, Hfix);
    assert (Hlen : (S (length F) ≤ length es)%nat).
  1, 3: (apply (NoDup_bounded_length (cur :: F)); [by constructor|];
         intros x Hx; apply elem_of_cons in Hx as [->|Hx];
         [by eapply lookup_lt_Some|];
         destruct (Hfix x Hx) as (e & He & _); by eapply lookup_lt_Some).
  - lia.
  - assert (Hcn : cur ≠ next).
    { intros ->. by apply (Hhole next ec). }
    rewrite Hatc. rewrite chase_step by lia.
    destruct (lookup_lt_is_Some_2 es next Hnext) as [en Hen].
    rewrite (vec_at_ok _ _ _ Hen). simpl.
    assert (Hecne : en ≠ ec) by (by eapply lookup_ne).
    assert (Hefec : ef ≠ ec) by (eapply lookup_ne; [exact Hf|exact Hcur|done]).
    assert (Hvf : is_Some (val ef)) by (apply val_Some; by eapply list_elem_of_lookup_2).
    assert (Hfix' : ∀ i, fixed s i → fixed (Sparse.add s ec (Z.of_nat cur)) i)
      by (intros i; by apply fixed_add).
    assert (Hframe_s : ∀ k, k ∉ es →
              Sparse.at_ (Sparse.add s ec (Z.of_nat cur)) k = Sparse.at_ s k).
    { intros k Hk. apply sparse_at_add_ne. intros ->. apply Hk.
      by eapply list_elem_of_lookup_2. }
    destruct (decide (next = f)) as [->|Hnf].
    + (* the cycle closes *)
      assert (en = ef) as -> by congruence. rewrite Hatf.
      destruct (swap_ok st f f) as (st' & Hsw & Hr1 & _ & Hrk & Hkeep);
        [by rewrite Hrdn|by rewrite Hrdn|].
      rewrite Hsw. simpl.
      rewrite chase_done. eexists _, _. split; [done|].
      assert (Hrd' : ∀ p, rd st' p = rd st p).
      { intros p. destruct (decide (p = f)) as [->|]; [done|]. by apply Hrk. }
      unfold Generic.chase_post. split_and!; try done.
      * intros i e He. destruct (decide (i = cur)) as [->|Hic].
        -- assert (e = ec) as -> by congruence. exists cur.
           rewrite sparse_at_add_eq, Hrd'. split_and!; [done| |done].
           by eapply lookup_lt_Some.
        -- rewrite sparse_at_add_ne by (eapply lookup_ne; [exact Hcur|exact He|done]).
           destruct (decide (i = f)) as [->|Hif].
           ++ assert (e = ef) as -> by congruence. exists f.
              rewrite Hrd', Hrdn. split_and!; [done|by eapply lookup_lt_Some|done].
           ++ destruct (Hoth i e He Hic Hif) as (p & Hp & Hpl & Hpr).
              exists p. by rewrite Hrd'.
      * intros i j e e' He He' Heq.
        destruct (decide (i = cur)) as [->|Hic]; destruct (decide (j = cur)) as [->|Hjc];
          [done| | |].
        -- assert (e = ec) as -> by congruence.
           rewrite sparse_at_add_eq in Heq.
           rewrite sparse_at_add_ne in Heq
             by (eapply lookup_ne; [exact Hcur|exact He'|done]).
           destruct (decide (j = f)) as [->|Hjf].
           ++ assert (e' = ef) as -> by congruence. lia.
           ++ exfalso. by apply (Hhole j e' He' Hjf).
        -- assert (e' = ec) as -> by congruence.
           rewrite sparse_at_add_eq in Heq.
           rewrite sparse_at_add_ne in Heq
             by (eapply lookup_ne; [exact Hcur|exact He|done]).
           destruct (decide (i = f)) as [->|Hif].
           ++ assert (e = ef) as -> by congruence. lia.
           ++ exfalso. by apply (Hhole i e He Hif).
        -- rewrite !sparse_at_add_ne in Heq
             by (eapply lookup_ne; [exact Hcur|eassumption|done]).
           destruct (decide (i = f)) as [->|Hif]; destruct (decide (j = f)) as [->|Hjf];
             [done| | |by eapply Hinj].
           ++ assert (e = ef) as -> by congruence.
              exfalso. apply Hjc. apply (Hinj j cur e' ec); [done|done|done|done|].
              by rewrite <- Heq, Hatf, Hatc.
           ++ assert (e' = ef) as -> by congruence.
              exfalso. apply Hic. apply (Hinj i cur e ec); [done|done|done|done|].
              by rewrite Heq, Hatf, Hatc.
      * exists ef. split; [done|]. by rewrite sparse_at_add_ne.
    + (* one more step along the cycle *)
      destruct (Hoth next en Hen) as (p & Hp & Hpl & Hpr); [done|done|].
      assert (Hve : is_Some (val en)) by (apply val_Some; by eapply list_elem_of_lookup_2).
      rewrite Hp.
      destruct (swap_ok st next p) as (st' & Hsw & Hr1 & Hr2 & Hrk & Hkeep);
        [by rewrite Hrdn|by rewrite Hpr|].
      rewrite Hsw. simpl.
      assert (Hcp : cur ≠ p).
      { intros ->. by apply (Hhole next en). }
      assert (Hin' : inflight f next (Sparse.add s ec (Z.of_nat cur)) st').
      { split.
        - done.
        - exists ef, en, p. rewrite !sparse_at_add_ne by done.
          split_and!; try done; [by rewrite Hr2|by rewrite Hr1].
        - intros i e He Hin Hif. destruct (decide (i = cur)) as [->|Hic].
          + assert (e = ec) as -> by congruence. exists cur.
            rewrite sparse_at_add_eq. split_and!; [done|by eapply lookup_lt_Some|].
            by rewrite Hrk.
          + rewrite sparse_at_add_ne by (eapply lookup_ne; [exact Hcur|exact He|done]).
            destruct (Hoth i e He Hic Hif) as (q & Hq & Hql & Hqr).
            exists q. split_and!; [done|done|]. rewrite Hrk; [done| |].
            * intros ->. apply Hic. apply (Hinj i cur e ec); try done. by rewrite Hq, Hatc.
            * intros ->. apply Hin. apply (Hinj i next e en); try done. by rewrite Hq, Hp.
        - intros i j e e' He He' Hif Hjf Heq.
          destruct (decide (i = cur)) as [->|Hic]; destruct (decide (j = cur)) as [->|Hjc];
            [done| | |].
          + assert (e = ec) as -> by congruence.
            rewrite sparse_at_add_eq in Heq.
            rewrite sparse_at_add_ne in Heq
              by (eapply lookup_ne; [exact Hcur|exact He'|done]).
            exfalso. by apply (Hhole j e' He' Hjf).
          + assert (e' = ec) as -> by congruence.
            rewrite sparse_at_add_eq in Heq.
            rewrite sparse_at_add_ne in Heq
              by (eapply lookup_ne; [exact Hcur|exact He|done]).
            exfalso. by apply (Hhole i e He Hif).
          + rewrite !sparse_at_add_ne in Heq
              by (eapply lookup_ne; [exact Hcur|eassumption|done]).
            by eapply Hinj.
        - intros i e He Hif. destruct (decide (i = cur)) as [->|Hic].
          + assert (e = ec) as -> by congruence. rewrite sparse_at_add_eq. lia.
          + rewrite sparse_at_add_ne by (eapply lookup_ne; [exact Hcur|exact He|done]).
            intros Heq. apply Hic. apply (Hinj i cur e ec); try done.
            by rewrite Heq, Hatc. }
      destruct (IH f next (Sparse.add s ec (Z.of_nat cur)) st' (cur :: F) en Hin' Hen)
        as (s'' & st'' & Hch & Hc & Hi & Hff & Hmono & Hk & Hfs & Hfr).
      * by constructor.
      * intros i HiF. apply elem_of_cons in HiF as [->|HiF].
        -- exists ec. split; [done|]. apply sparse_at_add_eq.
        -- by apply Hfix', Hfix.
      * simpl. lia.
      * rewrite sparse_at_add_ne in Hch by done. rewrite Hp in Hch.
        exists s'', st''. split; [done|].
        unfold Generic.chase_post. split_and!; try done.
        -- intros i Hfi. by apply Hmono, Hfix'.
        -- by eapply keep_trans.
        -- intros k Hk'. rewrite Hfs by done. by apply Hframe_s.
        -- intros q Hq. rewrite Hfr by done. apply Hrk; lia.
Qed.

(** The inner loop, from the head of the [for] body. *)
Lemma chase_from f ef s st :
  consistent s st → injective s → es !! f = Some ef →
  ∃ s' st',
    chase swap (S (length es)) es (Z.of_nat f) (Sparse.at_ s ef) ef s st = Ok (s', st')
    ∧ chase_post f s st s' st'.
Proof.
  intros Hc Hi Hf.
  destruct (Hc f ef Hf) as (nx & Hnx & Hnxl & Hrn).
  destruct (decide (nx = f)) as [->|Hne].
  - rewrite Hnx, chase_done. eexists _, _. split; [done|].
    unfold Generic.chase_post. split_and!; try done. by exists ef.
  - rewrite Hnx. rewrite chase_step by lia.
    destruct (lookup_lt_is_Some_2 es nx Hnxl) as [en Hen].
    rewrite (vec_at_ok _ _ _ Hen). simpl.
    destruct (Hc nx en Hen) as (p & Hp & Hpl & Hpr). rewrite Hp.
    assert (Hvf : is_Some (val ef)) by (apply val_Some; by eapply list_elem_of_lookup_2).
    assert (Hve : is_Some (val en)) by (apply val_Some; by eapply list_elem_of_lookup_2).
    destruct (swap_ok st nx p) as (st' & Hsw & Hr1 & Hr2 & Hrk & Hkeep);
      [by rewrite Hrn|by rewrite Hpr|].
    rewrite Hsw. simpl.
    assert (Hefen : ef ≠ en) by (eapply lookup_ne; [exact Hf|exact Hen|done]).
    assert (Hin' : inflight f nx (Sparse.add s ef (Z.of_nat f)) st').
    { split.
      - done.
      - exists ef, en, p. rewrite sparse_at_add_eq, sparse_at_add_ne by done.
        split_and!; try done; [by rewrite Hr2, Hrn|by rewrite Hr1].
      - intros i e He Hin Hif.
        rewrite sparse_at_add_ne by (eapply lookup_ne; [exact Hf|exact He|done]).
        destruct (Hc i e He) as (q & Hq & Hql & Hqr).
        exists q. split_and!; [done|done|]. rewrite Hrk; [done| |].
        + intros ->. apply Hif. apply (Hi i f e ef); try done. by rewrite Hq, Hnx.
        + intros ->. apply Hin. apply (Hi i nx e en); try done. by rewrite Hq, Hp.
      - intros i j e e' He He' Hif Hjf Heq.
        rewrite !sparse_at_add_ne in Heq
          by (eapply lookup_ne; [exact Hf|eassumption|done]).
        by eapply Hi.
      - intros i e He Hif.
        rewrite sparse_at_add_ne by (eapply lookup_ne; [exact Hf|exact He|done]).
        intros Heq. apply Hif. apply (Hi i f e ef); try done. by rewrite Heq, Hnx. }
    destruct (chase_inflight (length es) f nx (Sparse.add s ef (Z.of_nat f)) st' [f%nat]
                en Hin' Hen)
      as (s'' & st'' & Hch & Hc' & Hi' & Hff & Hmono & Hk & Hfs & Hfr).
    + apply NoDup_singleton.
    + intros i HiF. apply list_elem_of_singleton in HiF as ->.
      exists ef. split; [done|]. apply sparse_at_add_eq.
    + simpl. lia.
    + rewrite sparse_at_add_ne in Hch by done. rewrite Hp in Hch.
      exists s'', st''. split; [done|].
      unfold Generic.chase_post. split_and!; try done.
      * intros i Hfi. by apply Hmono, fixed_add.
      * by eapply keep_trans.
      * intros k Hk'. rewrite Hfs by done. apply sparse_at_add_ne.
        intros ->. apply Hk'. by eapply list_elem_of_lookup_2.
      * intros q Hq. rewrite Hfr by done. apply Hrk; lia.
Qed.

Lemma patch_cons from froms s st :
  patch swap (from :: froms) es s st
  = (currentEntity ← vec_at es from;
     '(s', st') ← chase swap (S (length es)) es from (Sparse.at_ s currentEntity)
                    currentEntity s st;
     patch swap froms es s' st').
Proof. reflexivity. Qed.

(** The outer loop over a list of positions patches each of them. *)
Lemma patch_positions (fs : list nat) : ∀ s st,
  consistent s st → injective s →
  (∀ f, f ∈ fs → (f < length es)%nat) →
  ∃ s' st',
    patch swap (Z.of_nat <$> fs) es s st = Ok (s', st')
    ∧ consistent s' st' ∧ injective s'
    ∧ (∀ f, f ∈ fs → fixed s' f)
    ∧ (∀ i, fixed s i → fixed s' i)
    ∧ keep st st'
    ∧ (∀ k, k ∉ es → Sparse.at_ s' k = Sparse.at_ s k)
    ∧ (∀ p, (length es ≤ p)%nat → rd st' p = rd st p).
Proof.
  induction fs as [|f fs IH]; intros s st Hc Hi Hfs.
  - exists s, st. split_and!; try done. intros f Hf. by apply elem_of_nil in Hf.
  - rewrite fmap_cons, patch_cons.
    destruct (lookup_lt_is_Some_2 es f) as [ef Hf]; [apply Hfs; left|].
    rewrite (vec_at_ok _ _ _ Hf), bind_Ok_l.
    destruct (chase_from f ef s st Hc Hi Hf)
      as (s1 & st1 & Hch & Hc1 & Hi1 & Hf1 & Hm1 & Hk1 & Hfs1 & Hfr1).
    rewrite Hch, bind_Ok_l.
    destruct (IH s1 st1 Hc1 Hi1) as (s2 & st2 & Hp & Hc2 & Hi2 & Hf2 & Hm2 & Hk2 & Hfs2 & Hfr2).
    { intros f' Hf'. apply Hfs. by right. }
    exists s2, st2. split_and!; try done.
    + intros f' Hf'. apply elem_of_cons in Hf' as [->|Hf']; [by apply Hm2|by apply Hf2].
    + intros i Hfi. by apply Hm2, Hm1.
    + by eapply keep_trans.
    + intros k Hk. by rewrite Hfs2, Hfs1.
    + intros p Hp'. by rewrite Hfr2, Hfr1.
Qed.

(** The patch loop of [sort]: afterwards the sparse set maps the entity of
    every position to that position, where its component is. *)
Theorem patch_aligns s st :
  consistent s st → injective s →
  ∃ s' st',
    patch swap (seqZ 0 (vec_size es)) es s st = Ok (s', st')
    ∧ (∀ i e, es !! i = Some e →
              Sparse.at_ s' e = Z.of_nat i ∧ rd st' i = val e)
    ∧ keep st st'
    ∧ (∀ k, k ∉ es → Sparse.at_ s' k = Sparse.at_ s k)
    ∧ (∀ p, (length es ≤ p)%nat → rd st' p = rd st p).
Proof.
  intros Hc Hi.
  destruct (patch_positions (seq 0 (length es)) s st Hc Hi)
    as (s' & st' & Hp & Hc' & Hi' & Hf' & _ & Hk & Hfs & Hfr).
  { intros f Hf. apply elem_of_seq in Hf. lia. }
  exists s', st'. split_and!; try done.
  - unfold seqZ, vec_size. rewrite Nat2Z.id.
    rewrite <- Hp. f_equal. apply list_fmap_ext. intros; lia.
  - intros i e He.
    destruct (Hf' i) as (e' & He' & Hat).
    { apply elem_of_seq. pose proof (lookup_lt_Some _ _ _ He). lia. }
    assert (e' = e) as -> by congruence. split; [done|].
    destruct (Hc' i e He) as (p & Hp' & _ & Hr).
    assert (p = i) as -> by lia. done.
Qed.

End chase.
End ChaseFacts.

(** ** The compaction of [removeRange] and [pack] fills the holes with the
    live tail *)

Module CompactFacts.
Import Generic Compaction.

Lemma wrap_pred_succ z : 0 ≤ z < 2 ^ 32 → wrap (wrap (z - 1) + 1) = z.
Proof.
  intros Hz. destruct (decide (z = 0)) as [->|Hne]; [reflexivity|].
  rewrite (wrap_small (z - 1)) by lia. replace (z - 1 + 1) with z by lia.
  by apply wrap_small.
Qed.

Section compaction.
Context {C St : Type}.

(** The store: [rd st p] is the component constructed at position [p],
    [addr st p] says that position [p] can be written, and [mv st b e]
    moves the component of [b] to [e]. *)
Variable rd : St → nat → option C.
Variable addr : St → nat → Prop.
Variable keep : St → St → Prop.
Hypothesis keep_refl : ∀ st, keep st st.
Hypothesis keep_trans : ∀ a b c, keep a b → keep b c → keep a c.
Variable mv : St → Z → Z → result St.
Hypothesis mv_ok : ∀ st b e,
  is_Some (rd st b) → addr st e → b ≠ e →
  ∃ st', mv st (Z.of_nat b) (Z.of_nat e) = Ok st'
         ∧ rd st' e = rd st b
         ∧ (∀ k, k ≠ e → k ≠ b → rd st' k = rd st k)
         ∧ (∀ k, addr st k → addr st' k)
         ∧ keep st st'.
Variable val : Z → option C.

Local Abbreviation aligned := (Generic.aligned rd val).

Lemma compaction hs : ∀ N es s st,
  (N ≤ length es)%nat → Z.of_nat N < 2 ^ 32 →
  StronglySorted (λ a b, (b < a)%nat) hs → Forall (λ t, (t < N)%nat) hs →
  (∀ i, (i < length es)%nat → addr st i) →
  aligned N hs es s st →
  ∃ moves es' s' st',
    move_indexes (wrap (Z.of_nat N - 1)) (Z.of_nat <$> hs)
      = (moves, wrap (Z.of_nat (N - length hs) - 1))
    ∧ move_entities moves es s = Ok (es', s')
    ∧ moves_apply mv moves st = Ok st'
    ∧ length es' = length es
    ∧ aligned (N - length hs) [] es' s' st'
    ∧ (∀ i e, live N hs i → es !! i = Some e →
              ∃ i', (i' < N - length hs)%nat ∧ es' !! i' = Some e)
    ∧ (∀ i' e, (i' < N - length hs)%nat → es' !! i' = Some e →
               ∃ i, live N hs i ∧ es !! i = Some e)
    ∧ (∀ k, (∀ i, live N hs i → es !! i ≠ Some k) →
            Sparse.at_ s' k = Sparse.at_ s k)
    ∧ keep st st'.
Proof.
  induction hs as [|t hs IH]; intros N es s st HN HN32 Hsorted Hlt Haddr Hal.
  - exists [], es, s, st. simpl. rewrite Nat.sub_0_r.
    split_and!; try done.
    + intros i e Hi He. exists i. split; [apply Hi|done].
    + intros i e Hi He. exists i. split; [|done]. split; [done|]. apply not_elem_of_nil.
  - inversion Hsorted as [|? ? Hsorted' Hall]; subst.
    inversion Hlt as [|? ? HtN Hlt']; subst.
    assert (Hlt1 : Forall (λ t', (t' < N - 1)%nat) hs).
    { eapply Forall_impl; [exact Hall|]. simpl. lia. }
    assert (HtN' : t ∉ hs).
    { intros Hin. pose proof (Forall_elem _ _ _ Hall Hin) as H. simpl in H. lia. }
    rewrite fmap_cons. simpl move_indexes.
    rewrite (wrap_small (Z.of_nat N - 1)) by lia.
    replace (Z.of_nat N - 1) with (Z.of_nat (N - 1)) by lia.
    assert (Hk0 : (N - length (t :: hs) = N - 1 - length hs)%nat) by (simpl; lia).
    rewrite Hk0. clear Hk0.
    destruct (decide (t = N - 1)%nat) as [->|Hne].
    + (* the last slot is a hole: it is dropped *)
      destruct (IH (N - 1)%nat es s st) as
        (moves & es' & s' & st' & Hmi & Hme & Hma & Hlen & Hal' & Hcomp & Hsound & Hfr & Hk);
        [lia|lia|done|done|done| |].
      { intros i e [Hi Hih] He. apply Hal; [|done]. split; [lia|].
        intros Hin. apply elem_of_cons in Hin as [->|Hin]; [lia|done]. }
      exists moves, es', s', st'. rewrite Hmi, Z.eqb_refl. simpl.
      split_and!; try done.
      * intros i e [Hi Hih] He. apply Hcomp with i; [|done].
        split; [|by intros Hin; apply Hih; right].
        destruct (decide (i = N - 1)%nat) as [->|]; [|lia]. exfalso. apply Hih. left.
      * intros i' e Hi' He. destruct (Hsound i' e Hi' He) as (i & [Hi Hih] & Hei).
        exists i. split; [|done]. split; [lia|].
        intros Hin. apply elem_of_cons in Hin as [->|Hin]; [lia|done].
      * intros k Hk'. apply Hfr. intros i [Hi Hih]. apply Hk'. split; [lia|].
        intros Hin. apply elem_of_cons in Hin as [->|Hin]; [lia|done].
    + (* the last slot is live: it moves into the hole *)
      assert (Hlive : live N (t :: hs) (N - 1)).
      { split; [lia|]. intros Hin. apply elem_of_cons in Hin as [?|Hin]; [lia|].
        pose proof (Forall_elem _ _ _ Hlt1 Hin) as H. simpl in H. lia. }
      destruct (lookup_lt_is_Some_2 es (N - 1)) as [x Hx]; [lia|].
      destruct (Hal _ _ Hlive Hx) as (Hatx & Hrdx & Hvx).
      destruct (mv_ok st (N - 1)%nat t) as (st1 & Hmv & Hr1 & Hrk & Haddr1 & Hk1);
        [by rewrite Hrdx|apply Haddr; lia|lia|].
      set (es1 := <[t := x]> es). set (s1 := Sparse.add s x (Z.of_nat t)).
      destruct (IH (N - 1)%nat es1 s1 st1) as
        (moves & es' & s' & st' & Hmi & Hme & Hma & Hlen & Hal' & Hcomp & Hsound & Hfr & Hk);
        [unfold es1; rewrite length_insert; lia|lia|done|done| | |].
      { intros i Hi. apply Haddr1, Haddr. unfold es1 in Hi.
        by rewrite length_insert in Hi. }
      { intros i e [Hi Hih] He. unfold es1 in He.
        destruct (decide (i = t)) as [->|Hit].
        - rewrite list_lookup_insert_eq in He by lia. injection He as <-.
          unfold s1. rewrite sparse_at_add_eq. by rewrite Hr1.
        - rewrite list_lookup_insert_ne in He by done.
          destruct (Hal i e) as (Hat & Hrd & Hv); [|done|].
          { split; [lia|]. intros Hin. apply elem_of_cons in Hin as [?|Hin]; done. }
          unfold s1. rewrite sparse_at_add_ne by (intros ->; lia).
          rewrite Hrk by lia. done. }
      exists (mkRange (Z.of_nat (N - 1)) (Z.of_nat t) :: moves), es', s', st'.
      rewrite Hmi.
      replace (Z.of_nat t =? Z.of_nat (N - 1)) with false
        by (symmetry; apply Z.eqb_neq; lia).
      simpl. rewrite (vec_at_ok _ _ _ Hx). simpl.
      rewrite vec_set_ok by lia. simpl. fold es1 s1. rewrite Hme, Hmv. simpl.
      rewrite Hma. unfold es1 in Hlen. rewrite length_insert in Hlen.
      split_and!; try done.
      * intros i e [Hi Hih] He. destruct (decide (i = N - 1)%nat) as [->|Hil].
        -- assert (e = x) as -> by congruence. apply Hcomp with t.
           ++ split; [lia|done].
           ++ unfold es1. apply list_lookup_insert_eq. lia.
        -- apply Hcomp with i.
           ++ split; [lia|]. intros Hin. apply Hih. by right.
           ++ unfold es1. rewrite list_lookup_insert_ne; [done|].
              intros ->. apply Hih. left.
      * intros i' e Hi' He. destruct (Hsound i' e Hi' He) as (i & [Hi Hih] & Hei).
        unfold es1 in Hei. destruct (decide (i = t)) as [->|Hit].
        -- rewrite list_lookup_insert_eq in Hei by lia. injection Hei as <-.
           by exists (N - 1)%nat.
        -- rewrite list_lookup_insert_ne in Hei by done. exists i. split; [|done].
           split; [lia|]. intros Hin. apply elem_of_cons in Hin as [?|Hin]; done.
      * intros k Hk'. rewrite Hfr.
        -- unfold s1. apply sparse_at_add_ne. intros ->. by apply (Hk' (N - 1)%nat).
        -- intros i [Hi Hih] Hei. unfold es1 in Hei.
           destruct (decide (i = t)) as [->|Hit].
           ++ rewrite list_lookup_insert_eq in Hei by lia. injection Hei as <-.
              by apply (Hk' (N - 1)%nat).
           ++ rewrite list_lookup_insert_ne in Hei by done. apply (Hk' i); [|done].
              split; [lia|]. intros Hin. apply elem_of_cons in Hin as [?|Hin]; done.
      * by eapply keep_trans.
Qed.

End compaction.

(** The holes in decreasing order, as natural numbers. *)
Lemma sort_descending_nat (l : list Z) :
  NoDup l → Forall (λ z, 0 ≤ z) l →
  ∃ hs : list nat,
    sort_descending l = Z.of_nat <$> hs
    ∧ StronglySorted (λ a b, (b < a)%nat) hs
    ∧ length hs = length l
    ∧ ∀ i, i ∈ hs ↔ Z.of_nat i ∈ l.
Proof.
  intros Hnd Hpos.
  pose proof (sort_descending_perm l) as Hperm.
  pose proof (sort_descending_sorted l) as Hsorted.
  assert (Hnd' : NoDup (sort_descending l)) by (by rewrite Hperm).
  assert (Hpos' : Forall (λ z, 0 ≤ z) (sort_descending l)) by (by rewrite Hperm).
  exists (Z.to_nat <$> sort_descending l).
  split_and!.
  - rewrite <- list_fmap_compose. symmetry.
    rewrite <- (list_fmap_id (sort_descending l)) at 2.
    apply Forall_fmap_ext_1. eapply Forall_impl; [exact Hpos'|].
    simpl. intros z Hz. lia.
  - clear Hperm. induction Hsorted as [|z l' Hl IH Hz]; simpl; [constructor|].
    inversion Hnd' as [|? ? Hnotin Hnd'']; subst.
    inversion Hpos' as [|? ? Hz0 Hpos'']; subst.
    constructor; [by apply IH|].
    apply Forall_fmap. apply Forall_forall. intros y Hy. simpl.
    pose proof (Forall_elem _ _ _ Hz Hy) as H1. simpl in H1.
    pose proof (Forall_elem _ _ _ Hpos'' Hy) as H2. simpl in H2.
    assert (y ≠ z) by (intros ->; done). lia.
  - by rewrite length_fmap, Hperm.
  - intros i. rewrite list_elem_of_fmap. split.
    + intros (z & -> & Hz). pose proof (Forall_elem _ _ _ Hpos' Hz) as H. simpl in H.
      rewrite Z2Nat.id by done. by rewrite <- Hperm.
    + intros Hi. exists (Z.of_nat i). split; [lia|]. by rewrite Hperm.
Qed.

End CompactFacts.
(** ** Facts about the dense table: single-entity operations *)

Module DenseFacts.
Import Dense DenseSpec.

Section facts.
Context {C : Type}.
Implicit Types (t : table C) (m : gmap Z C).

Lemma inv_NoDup t : dense_inv t → NoDup (entities t).
Proof.
  intros [_ _ Hi]. apply NoDup_alt. intros i j e Hi1 Hj1.
  apply Hi in Hi1, Hj1. lia.
Qed.

Lemma inv_findIndex t i e :
  dense_inv t → entities t !! i = Some e → findIndex t e = Z.of_nat i.
Proof.
  intros Hinv Hl. unfold findIndex.
  by rewrite (vec_find_NoDup _ _ _ (inv_NoDup _ Hinv) Hl).
Qed.

Lemma findIndex_absent t e : e ∉ entities t → findIndex t e = NullEntityIndex.
Proof. intros H. unfold findIndex. by rewrite (proj2 (vec_find_None _ _) H). Qed.

Lemma exists_elem t e : exists_ t e = true ↔ e ∈ entities t.
Proof.
  unfold exists_. rewrite bool_decide_eq_true.
  destruct (vec_find (entities t) e) eqn:E.
  - split; [intros _|by eauto]. apply vec_find_Some in E as (i & _ & Hl & _).
    by eapply list_elem_of_lookup_2.
  - apply vec_find_None in E. split; [by intros [? ?]|done].
Qed.

Lemma inv_lookup_lt t i e :
  dense_inv t → entities t !! i = Some e → Z.of_nat i < NullEntityIndex.
Proof.
  intros [_ Hb _] Hl. apply lookup_lt_Some in Hl. unfold vec_size in Hb. lia.
Qed.

(** [removeImpl] on a present entity, whether or not its slot in the
    sparse set was reset beforehand. *)
Lemma dense_removeImpl_spec t s0 e idx lastE lastC :
  dense_inv t → entities t !! idx = Some e →
  last (entities t) = Some lastE → last (components t) = Some lastC →
  s0 = indexSet t ∨ s0 = Sparse.remove (indexSet t) e →
  removeImpl (mkTable s0 (entities t) (components t)) e (Z.of_nat idx)
  = Ok (swap_removed t e idx lastE lastC).
Proof.
  intros Hinv Hidx HlastE HlastC Hs0. pose proof Hinv as [Hlen Hb Hi].
  pose proof (lookup_lt_Some _ _ _ Hidx) as Hlt.
  assert (Hne : entities t ≠ []) by (intros E; by rewrite E in Hidx).
  assert (Hnc : components t ≠ []) by (intros E; rewrite E in Hlen; by destruct (entities t)).
  unfold removeImpl, swap_removed. simpl.
  unfold vec_size in *. null_val.
  rewrite wrap_small by lia. rewrite <- Hlen.
  case_decide as Hd.
  - replace (Z.of_nat (length (entities t)) =? Z.of_nat idx + 1) with true
      by (symmetry; apply Z.eqb_eq; lia).
    simpl. rewrite vec_pop_ok by done. simpl. rewrite vec_pop_ok by done. simpl.
    rewrite <- Hlen. do 2 f_equal.
    destruct Hs0 as [->| ->]; [done|]. unfold Sparse.remove. apply delete_delete_eq.
  - replace (Z.of_nat (length (entities t)) =? Z.of_nat idx + 1) with false
      by (symmetry; apply Z.eqb_neq; lia).
    simpl. rewrite (vec_back_ok _ _ HlastE). simpl.
    rewrite vec_set_ok by done. simpl.
    rewrite (vec_back_ok _ _ HlastC). simpl.
    rewrite vec_set_ok by lia. simpl.
    rewrite vec_pop_ok by (by apply insert_nonempty).
    simpl.
    rewrite vec_pop_ok by (by apply insert_nonempty).
    simpl. rewrite !length_insert, <- Hlen. do 2 f_equal.
    assert (lastE ≠ e) as Hle.
    { intros ->. apply last_lookup_Some in HlastE as [HlastE _].
      apply Hi in HlastE, Hidx. lia. }
    destruct Hs0 as [->| ->]; [done|]. unfold Sparse.remove, Sparse.add.
    rewrite <- delete_insert_ne by done. apply delete_delete_eq.
Qed.

Lemma inv_lasts t i e :
  dense_inv t → entities t !! i = Some e →
  ∃ lastE lastC, last (entities t) = Some lastE ∧ last (components t) = Some lastC.
Proof.
  intros [Hlen _ _] Hl. apply lookup_lt_Some in Hl.
  destruct (last (entities t)) as [le|] eqn:E1; [|apply last_None in E1; rewrite E1 in Hl; simpl in Hl; lia].
  destruct (last (components t)) as [lc|] eqn:E2; [by eauto|].
  apply last_None in E2. rewrite E2 in Hlen. simpl in Hlen. lia.
Qed.

(** The closed form keeps the invariant and the values of the others. *)
Lemma swap_removed_inv t e idx lastE lastC :
  dense_inv t → entities t !! idx = Some e →
  last (entities t) = Some lastE → last (components t) = Some lastC →
  dense_inv (swap_removed t e idx lastE lastC)
  ∧ (e ∉ entities (swap_removed t e idx lastE lastC))
  ∧ (∀ e', e' ∈ entities t → e' ≠ e →
       e' ∈ entities (swap_removed t e idx lastE lastC))
  ∧ (∀ e', e' ∈ entities (swap_removed t e idx lastE lastC) → e' ∈ entities t)
  ∧ (∀ i' e', entities (swap_removed t e idx lastE lastC) !! i' = Some e' →
       ∃ j, entities t !! j = Some e'
            ∧ components (swap_removed t e idx lastE lastC) !! i' = components t !! j).
Proof.
  intros Hinv Hidx HlastE HlastC. pose proof Hinv as [Hlen Hb Hi].
  pose proof (inv_NoDup _ Hinv) as Hnd.
  pose proof (lookup_lt_Some _ _ _ Hidx) as Hlt.
  apply last_lookup_Some in HlastE as [HlastE _].
  apply last_lookup_Some in HlastC as [HlastC _].
  set (n := length (entities t)) in *.
  unfold swap_removed. fold n. case_decide as Hd; simpl.
  - subst idx. split_and!.
    + split; simpl.
      * rewrite !length_take. lia.
      * unfold vec_size in *. rewrite length_take. lia.
      * intros i e' Hl. apply lookup_take_Some in Hl as [Hl Hlt'].
        unfold Sparse.at_. rewrite lookup_delete_ne; [by apply Hi|].
        intros ->. pose proof (NoDup_lookup _ _ _ _ Hnd Hl Hidx). lia.
    + intros Hin. apply list_elem_of_lookup in Hin as [i Hl].
      apply lookup_take_Some in Hl as [Hl Hlt'].
      pose proof (NoDup_lookup _ _ _ _ Hnd Hl Hidx). lia.
    + intros e' Hin Hne. apply list_elem_of_lookup in Hin as [i Hl].
      apply list_elem_of_lookup. exists i. apply lookup_take_Some. split; [done|].
      pose proof (lookup_lt_Some _ _ _ Hl).
      destruct (decide (i = n - 1)%nat) as [->|]; [congruence|]. fold n in H. lia.
    + intros e' Hin. apply elem_of_take in Hin as (i & Hl & _).
      by eapply list_elem_of_lookup_2.
    + intros i' e' Hl. apply lookup_take_Some in Hl as [Hl Hlt'].
      exists i'. split; [done|]. rewrite Hlen. rewrite lookup_take_lt; [done|]. lia.
  - assert (lastE ≠ e) as Hle.
    { intros ->. pose proof (NoDup_lookup _ _ _ _ Hnd HlastE Hidx). lia. }
    split_and!.
    + split; simpl.
      * rewrite !length_take, !length_insert. lia.
      * unfold vec_size in *. rewrite length_take, length_insert. lia.
      * intros i e' Hl. apply lookup_take_Some in Hl as [Hl Hlt'].
        unfold Sparse.at_. destruct (decide (i = idx)) as [->|Hne].
        -- rewrite list_lookup_insert_eq in Hl by done. injection Hl as <-.
           rewrite lookup_delete_ne by done. by rewrite lookup_insert_eq.
        -- rewrite list_lookup_insert_ne in Hl by done.
           assert (e' ≠ e) by (intros ->; pose proof (NoDup_lookup _ _ _ _ Hnd Hl Hidx); lia).
           assert (e' ≠ lastE) by (intros ->; pose proof (NoDup_lookup _ _ _ _ Hnd Hl HlastE); lia).
           rewrite lookup_delete_ne by done. rewrite lookup_insert_ne by done.
           by apply Hi.
    + intros Hin. apply list_elem_of_lookup in Hin as [i Hl].
      apply lookup_take_Some in Hl as [Hl Hlt'].
      destruct (decide (i = idx)) as [->|Hne].
      * rewrite list_lookup_insert_eq in Hl by done. congruence.
      * rewrite list_lookup_insert_ne in Hl by done.
        pose proof (NoDup_lookup _ _ _ _ Hnd Hl Hidx). lia.
    + intros e' Hin Hne. apply list_elem_of_lookup in Hin as [i Hl].
      apply list_elem_of_lookup.
      pose proof (lookup_lt_Some _ _ _ Hl) as Hi'. fold n in Hi'.
      destruct (decide (i = n - 1)%nat) as [->|Hnl].
      * exists idx. apply lookup_take_Some. split; [|lia].
        rewrite list_lookup_insert_eq by done. congruence.
      * exists i. apply lookup_take_Some. split; [|lia].
        rewrite list_lookup_insert_ne; [done|]. intros ->. congruence.
    + intros e' Hin. apply elem_of_take in Hin as (i & Hl & _).
      destruct (decide (i = idx)) as [->|Hne].
      * rewrite list_lookup_insert_eq in Hl by done. injection Hl as <-.
        by eapply list_elem_of_lookup_2.
      * rewrite list_lookup_insert_ne in Hl by done. by eapply list_elem_of_lookup_2.
    + intros i' e' Hl. apply lookup_take_Some in Hl as [Hl Hlt'].
      rewrite lookup_take_lt by done.
      destruct (decide (i' = idx)) as [->|Hne].
      * rewrite list_lookup_insert_eq in Hl by done. injection Hl as <-.
        exists (n - 1)%nat. split; [done|].
        rewrite list_lookup_insert_eq by lia. rewrite <- HlastC. f_equal. lia.
      * rewrite list_lookup_insert_ne in Hl by done. exists i'. split; [done|].
        by rewrite list_lookup_insert_ne.
Qed.

Lemma dense_remove_spec t e idx lastE lastC :
  dense_inv t → entities t !! idx = Some e →
  last (entities t) = Some lastE → last (components t) = Some lastC →
  remove t e = Ok (swap_removed t e idx lastE lastC).
Proof.
  intros Hinv Hidx HlE HlC. unfold remove, Sparse.extract.
  rewrite (inv_index _ Hinv _ _ Hidx).
  apply dense_removeImpl_spec; auto.
Qed.

Lemma dense_tryRemove_present t e idx lastE lastC :
  dense_inv t → entities t !! idx = Some e →
  last (entities t) = Some lastE → last (components t) = Some lastC →
  tryRemove t e = Ok (true, swap_removed t e idx lastE lastC).
Proof.
  intros Hinv Hidx HlE HlC. unfold tryRemove.
  rewrite (inv_findIndex _ _ _ Hinv Hidx).
  pose proof (inv_lookup_lt _ _ _ Hinv Hidx).
  replace (Z.of_nat idx =? NullEntityIndex) with false
    by (symmetry; apply Z.eqb_neq; lia).
  simpl. destruct t as [s es cs].
  pose proof (dense_removeImpl_spec (mkTable s es cs) s e idx lastE lastC
                Hinv Hidx HlE HlC (or_introl eq_refl)) as Hr.
  simpl in Hr. by rewrite Hr.
Qed.

Lemma dense_tryRemove_absent t e : e ∉ entities t → tryRemove t e = Ok (false, t).
Proof.
  intros H. unfold tryRemove. rewrite findIndex_absent by done.
  by rewrite Z.eqb_refl.
Qed.

Lemma dense_tryRemove_void_present t e idx lastE lastC :
  dense_inv t → entities t !! idx = Some e →
  last (entities t) = Some lastE → last (components t) = Some lastC →
  tryRemove_void t e = Ok (swap_removed t e idx lastE lastC).
Proof.
  intros Hinv Hidx HlE HlC. unfold tryRemove_void.
  rewrite (inv_findIndex _ _ _ Hinv Hidx).
  pose proof (inv_lookup_lt _ _ _ Hinv Hidx).
  replace (Z.of_nat idx =? NullEntityIndex) with false
    by (symmetry; apply Z.eqb_neq; lia).
  simpl. destruct t as [s es cs].
  pose proof (dense_removeImpl_spec (mkTable s es cs) s e idx lastE lastC
                Hinv Hidx HlE HlC (or_introl eq_refl)) as Hr.
  simpl in Hr. by rewrite Hr.
Qed.

Lemma dense_tryRemove_void_absent t e : e ∉ entities t → tryRemove_void t e = Ok t.
Proof.
  intros H. unfold tryRemove_void. rewrite findIndex_absent by done.
  by rewrite Z.eqb_refl.
Qed.

Lemma dense_extract_spec t e idx lastE lastC c :
  dense_inv t → entities t !! idx = Some e → components t !! idx = Some c →
  last (entities t) = Some lastE → last (components t) = Some lastC →
  extract t e = Ok (c, swap_removed t e idx lastE lastC).
Proof.
  intros Hinv Hidx Hc HlastE HlastC. pose proof Hinv as [Hlen Hb Hi].
  pose proof (lookup_lt_Some _ _ _ Hidx) as Hlt.
  assert (Hne : entities t ≠ []) by (intros E; by rewrite E in Hidx).
  assert (Hnc : components t ≠ []) by (intros E; by rewrite E in Hc).
  unfold extract, Sparse.extract, swap_removed.
  rewrite (Hi _ _ Hidx). rewrite (vec_at_ok _ _ _ Hc). simpl.
  unfold vec_size in *. null_val.
  rewrite wrap_small by lia. rewrite <- Hlen.
  case_decide as Hd.
  - replace (Z.of_nat (length (entities t)) =? Z.of_nat idx + 1) with true
      by (symmetry; apply Z.eqb_eq; lia).
    simpl. rewrite vec_pop_ok by done. simpl. rewrite vec_pop_ok by done. simpl.
    by rewrite <- Hlen.
  - replace (Z.of_nat (length (entities t)) =? Z.of_nat idx + 1) with false
      by (symmetry; apply Z.eqb_neq; lia).
    simpl. rewrite (vec_back_ok _ _ HlastE). simpl.
    rewrite vec_set_ok by done. simpl.
    rewrite (vec_back_ok _ _ HlastC). simpl.
    rewrite vec_set_ok by lia. simpl.
    rewrite vec_pop_ok by (by apply insert_nonempty).
    simpl.
    rewrite vec_pop_ok by (by apply insert_nonempty).
    simpl. rewrite !length_insert, <- Hlen. do 3 f_equal.
    assert (lastE ≠ e) as Hle.
    { intros ->. apply last_lookup_Some in HlastE as [HlastE _].
      apply Hi in HlastE, Hidx. lia. }
    unfold Sparse.remove, Sparse.add. by rewrite delete_insert_ne.
Qed.

Lemma get_at t i e c :
  dense_inv t → entities t !! i = Some e → components t !! i = Some c →
  get t e = Ok c.
Proof.
  intros Hinv He Hc. unfold get. rewrite (inv_index _ Hinv _ _ He).
  by apply vec_at_ok.
Qed.

Lemma inv_component t i e :
  dense_inv t → entities t !! i = Some e → is_Some (components t !! i).
Proof.
  intros [Hlen _ _] Hl. apply lookup_lt_is_Some. rewrite <- Hlen.
  by eapply lookup_lt_Some.
Qed.

(** What [remove] does on a present entity. *)
Lemma remove_swap_remove t e :
  dense_inv t → e ∈ entities t →
  ∃ idx lastE lastC t',
    let n := length (entities t) in
    entities t !! idx = Some e
    ∧ (Sparse.extract (indexSet t) e).1 = Z.of_nat idx
    ∧ last (entities t) = Some lastE ∧ last (components t) = Some lastC
    ∧ remove t e = Ok t'
    ∧ entities t' = take (n - 1)%nat (<[idx := lastE]> (entities t))
    ∧ components t' = take (n - 1)%nat (<[idx := lastC]> (components t))
    ∧ (idx ≠ (n - 1)%nat →
         indexSet t' = Sparse.remove (Sparse.add (indexSet t) lastE (Z.of_nat idx)) e
         ∧ Sparse.at_ (indexSet t') lastE = Z.of_nat idx)
    ∧ (idx = (n - 1)%nat →
         indexSet t' = Sparse.remove (indexSet t) e
         ∧ entities t' = take (n - 1)%nat (entities t)
         ∧ components t' = take (n - 1)%nat (components t))
    ∧ count t' = count t - 1
    ∧ exists_ t' e = false
    ∧ dense_inv t'
    ∧ ∀ e', e' ∈ entities t → e' ≠ e →
            exists_ t' e' = true ∧ get t' e' = get t e'.
Proof.
  intros Hinv Hin. apply list_elem_of_lookup in Hin as [idx Hidx].
  destruct (inv_lasts _ _ _ Hinv Hidx) as (lastE & lastC & HlE & HlC).
  destruct (swap_removed_inv _ _ _ _ _ Hinv Hidx HlE HlC)
    as (Hinv' & Hout & Hkeep & Hsub & Hval).
  exists idx, lastE, lastC, (swap_removed t e idx lastE lastC).
  pose proof (lookup_lt_Some _ _ _ Hidx) as Hlt.
  pose proof Hinv as [Hlen Hb Hi].
  pose proof (proj1 (last_lookup_Some _ _) HlE) as [HlE' _].
  pose proof (proj1 (last_lookup_Some _ _) HlC) as [HlC' _].
  assert (Hsame : (idx = length (entities t) - 1)%nat →
            entities (swap_removed t e idx lastE lastC)
              = take (length (entities t) - 1)%nat (<[idx := lastE]> (entities t))
            ∧ components (swap_removed t e idx lastE lastC)
              = take (length (entities t) - 1)%nat (<[idx := lastC]> (components t))).
  { intros ->. unfold swap_removed. rewrite decide_True by done. simpl.
    rewrite !take_insert_ge by lia. done. }
  simpl. split_and!; try done.
  - unfold Sparse.extract. simpl. by apply Hi.
  - by apply dense_remove_spec.
  - destruct (decide (idx = length (entities t) - 1)%nat) as [Hd|Hd];
      [by apply Hsame|]. unfold swap_removed. by rewrite decide_False.
  - destruct (decide (idx = length (entities t) - 1)%nat) as [Hd|Hd];
      [by apply Hsame|]. unfold swap_removed. by rewrite decide_False.
  - intros Hd. unfold swap_removed. rewrite decide_False by done. simpl.
    split; [done|]. unfold Sparse.at_.
    assert (lastE ≠ e).
    { intros ->. pose proof (NoDup_lookup _ _ _ _ (inv_NoDup _ Hinv) HlE' Hidx). lia. }
    rewrite lookup_delete_ne by done. by rewrite lookup_insert_eq.
  - intros Hd. unfold swap_removed. by rewrite decide_True.
  - unfold count, vec_size. unfold swap_removed.
    case_decide; simpl; rewrite length_take, ?length_insert; lia.
  - apply not_true_is_false. by rewrite exists_elem.
  - intros e' Hin' Hne. split; [apply exists_elem; by apply Hkeep|].
    pose proof (Hkeep _ Hin' Hne) as Hin2.
    apply list_elem_of_lookup in Hin2 as [i' Hi'].
    destruct (Hval _ _ Hi') as (j & Hj & Hc).
    destruct (inv_component _ _ _ Hinv Hj) as [c Hcj].
    rewrite (get_at _ _ _ c Hinv Hj Hcj).
    apply (get_at _ i'); [done|done|]. by rewrite Hc.
Qed.

End facts.

(** C3. On a dense table, [remove] of a present entity is a swap-remove:
    the last entity and the last component are written at the position
    [idx] that the sparse set gave for the entity, the sparse set maps the
    last entity to [idx], and both vectors lose their last element; when the
    entity is last only the pops take place. After [add(1,a)], [add(2,b)],
    [add(3,c)] and [remove(1)] the entities are [3, 2], the count is 2 and
    [get(2)], [get(3)] are unchanged. *)
Theorem dense_remove_is_swap_remove :
  (∀ (C : Type) (t : table C) (e : Z),
     dense_inv t → e ∈ entities t →
     ∃ idx lastE lastC t',
       let n := length (entities t) in
       entities t !! idx = Some e
       ∧ (Sparse.extract (indexSet t) e).1 = Z.of_nat idx
       ∧ last (entities t) = Some lastE ∧ last (components t) = Some lastC
       ∧ remove t e = Ok t'
       ∧ entities t' = take (n - 1)%nat (<[idx := lastE]> (entities t))
       ∧ components t' = take (n - 1)%nat (<[idx := lastC]> (components t))
       ∧ (idx ≠ (n - 1)%nat →
            indexSet t' = Sparse.remove (Sparse.add (indexSet t) lastE (Z.of_nat idx)) e
            ∧ Sparse.at_ (indexSet t') lastE = Z.of_nat idx)
       ∧ (idx = (n - 1)%nat →
            indexSet t' = Sparse.remove (indexSet t) e
            ∧ entities t' = take (n - 1)%nat (entities t)
            ∧ components t' = take (n - 1)%nat (components t))
       ∧ count t' = count t - 1
       ∧ exists_ t' e = false
       ∧ dense_inv t'
       ∧ ∀ e', e' ∈ entities t → e' ≠ e →
               exists_ t' e' = true ∧ get t' e' = get t e')
  ∧ (count S1_table = 3 ∧ get S1_table 2 = Ok "b"%string
     ∧ ∃ t', remove S1_table 1 = Ok t'
             ∧ entities t' = [3; 2] ∧ count t' = 2 ∧ exists_ t' 1 = false
             ∧ get t' 2 = Ok "b"%string ∧ get t' 3 = Ok "c"%string
             ∧ get t' 2 = get S1_table 2 ∧ get t' 3 = get S1_table 3).
Proof.
  split; [intros C t e; apply remove_swap_remove|].
  split_and!; [done|done|]. eexists. split; [vm_compute; reflexivity|].
  by vm_compute.
Qed.

Lemma S1_table_inv : dense_inv S1_table.
Proof.
  split; [done|by vm_compute|].
  intros [|[|[|i]]] e; simpl; intros [= <-]; by vm_compute.
Qed.

Lemma dense_remove_is_swap_remove_witness :
  ∃ t', remove S1_table 1 = Ok t' ∧ entities t' = [3; 2] ∧ dense_inv t'.
Proof.
  destruct (proj1 dense_remove_is_swap_remove string S1_table 1 S1_table_inv)
    as (idx & lastE & lastC & t' & H).
  - by apply list_elem_of_here.
  - simpl in H. destruct H as (Hidx & _ & HlE & _ & Hrm & Hes & _ & _ & _ & _ & _ & Hinv & _).
    exists t'. split; [done|]. split; [|done].
    rewrite Hes. injection HlE as <-.
    destruct idx as [|[|[|idx]]]; simpl in Hidx; try discriminate. done.
Defined.

End DenseFacts.
(** ** Facts about the dense table: sort and removeRange *)

Module DenseLoops.
Import Dense DenseSpec DenseFacts.

Section loops.
Context {C : Type}.
Implicit Types (t : table C) (m : gmap Z C) (cs : list C).

(** *** The dense loops are instances of the shared ones *)

Lemma dense_sort_chase_generic fuel : ∀ es cur next ce s cs,
  sort_chase fuel es cur next ce s cs = Generic.chase vec_swap fuel es cur next ce s cs.
Proof.
  induction fuel as [|fuel IH]; intros; simpl; [done|].
  destruct (cur =? next); [done|].
  destruct (vec_at es next); simpl; [|done].
  destruct (vec_swap cs next _); simpl; [|done].
  apply IH.
Qed.

Lemma dense_sort_patch_generic froms : ∀ es s cs,
  sort_patch froms es s cs = Generic.patch vec_swap froms es s cs.
Proof.
  induction froms as [|f froms IH]; intros; [done|].
  cbn [sort_patch Generic.patch].
  destruct (vec_at es f); [|done]. rewrite !bind_Ok_l.
  rewrite dense_sort_chase_generic.
  destruct (Generic.chase _ _ _ _ _ _ _ _) as [[s' cs']|]; [|done].
  rewrite !bind_Ok_l. apply IH.
Qed.

Lemma vec_swap_ok cs (i j : nat) :
  is_Some (cs !! i) → is_Some (cs !! j) →
  ∃ cs', vec_swap cs (Z.of_nat i) (Z.of_nat j) = Ok cs'
         ∧ cs' !! i = cs !! j ∧ cs' !! j = cs !! i
         ∧ (∀ k, k ≠ i → k ≠ j → cs' !! k = cs !! k)
         ∧ length cs' = length cs.
Proof.
  intros [ci Hi] [cj Hj].
  pose proof (lookup_lt_Some _ _ _ Hi) as Hil.
  pose proof (lookup_lt_Some _ _ _ Hj) as Hjl.
  exists (<[j := ci]> (<[i := cj]> cs)). split_and!.
  - unfold vec_swap. rewrite (vec_at_ok _ _ _ Hi), (vec_at_ok _ _ _ Hj). simpl.
    rewrite vec_set_ok by done. simpl. rewrite vec_set_ok; [done|].
    by rewrite length_insert.
  - destruct (decide (i = j)) as [->|Hne].
    + rewrite list_lookup_insert_eq by (by rewrite length_insert). congruence.
    + rewrite list_lookup_insert_ne by done. rewrite list_lookup_insert_eq by done.
      done.
  - rewrite list_lookup_insert_eq by (by rewrite length_insert). done.
  - intros k Hki Hkj. by rewrite !list_lookup_insert_ne.
  - by rewrite !length_insert.
Qed.

(** *** sort *)

(** [sort] with any outcome of [std::sort] that is a permutation of the
    entities: the table is aligned again, on the same values. *)
Lemma sort_with_holds t val sorted :
  dense_inv t → holds t val → sorted ≡ₚ entities t →
  ∃ t', sort_with sorted t = Ok t'
        ∧ entities t' = sorted
        ∧ dense_inv t' ∧ holds t' val
        ∧ (∀ k, k ∉ entities t → Sparse.at_ (indexSet t') k = Sparse.at_ (indexSet t) k).
Proof.
  intros Hinv Hrep Hperm.
  pose proof (inv_NoDup _ Hinv) as Hnd.
  assert (Hnd' : NoDup sorted) by (by rewrite Hperm).
  assert (Hlen' : length sorted = length (entities t)) by (by rewrite Hperm).
  assert (Hval : ∀ e, e ∈ sorted → is_Some (val e)).
  { intros e He. rewrite Hperm in He. apply list_elem_of_lookup in He as [i Hi].
    destruct (Hrep _ _ Hi) as (c & _ & Hc). by rewrite Hc. }
  destruct (ChaseFacts.patch_aligns (λ cs p, cs !! p) (λ cs cs', length cs' = length cs)
              ltac:(done) ltac:(intros; congruence) vec_swap
              ltac:(intros; by apply vec_swap_ok) sorted Hnd' val Hval
              (indexSet t) (components t))
    as (s' & cs' & Hp & Hal & Hk & Hfs & _).
  - intros i e Hi.
    assert (e ∈ entities t) as Hin
      by (rewrite <- Hperm; by eapply list_elem_of_lookup_2).
    apply list_elem_of_lookup in Hin as [p Hp].
    exists p. split_and!.
    + by apply (inv_index _ Hinv).
    + rewrite Hlen'. by eapply lookup_lt_Some.
    + destruct (Hrep _ _ Hp) as (c & Hc & Hm). by rewrite Hc, Hm.
  - intros i j e e' Hi Hj Heq.
    assert (e ∈ entities t) as Hin
      by (rewrite <- Hperm; by eapply list_elem_of_lookup_2).
    assert (e' ∈ entities t) as Hin'
      by (rewrite <- Hperm; by eapply list_elem_of_lookup_2).
    apply list_elem_of_lookup in Hin as [p Hp].
    apply list_elem_of_lookup in Hin' as [p' Hp'].
    rewrite (inv_index _ Hinv _ _ Hp), (inv_index _ Hinv _ _ Hp') in Heq.
    assert (p = p') as -> by lia. assert (e = e') as -> by congruence.
    by eapply NoDup_lookup.
  - exists (mkTable s' sorted cs'). split_and!.
    + unfold sort_with. rewrite dense_sort_patch_generic, Hp. done.
    + done.
    + split; simpl.
      * by rewrite Hk, Hlen', (inv_len _ Hinv).
      * unfold vec_size. rewrite Hlen'. apply (inv_bound _ Hinv).
      * intros i e Hi. by apply Hal.
    + intros i e Hi. simpl in *. destruct (Hal _ _ Hi) as [_ Hr].
      destruct (Hval e) as [c Hc]; [by eapply list_elem_of_lookup_2|].
      exists c. by rewrite Hr.
    + simpl. intros k Hk'. apply Hfs. by rewrite Hperm.
Qed.

Lemma sort_with_spec t m sorted :
  dense_inv t → represents t m → sorted ≡ₚ entities t →
  ∃ t', sort_with sorted t = Ok t'
        ∧ entities t' = sorted
        ∧ dense_inv t' ∧ represents t' m
        ∧ (∀ k, k ∉ entities t → Sparse.at_ (indexSet t') k = Sparse.at_ (indexSet t) k).
Proof.
  intros Hinv [Hrep Hdom] Hperm.
  destruct (sort_with_holds t (λ e, m !! e) sorted Hinv Hrep Hperm)
    as (t' & Hs & Hes & Hinv' & Hh & Hfr).
  exists t'. split_and!; try done. split; [done|].
  intros e He. rewrite Hes, Hperm. by apply Hdom.
Qed.

(** *** removeRange *)

Lemma dense_move_components_generic moves : ∀ cs,
  move_components moves cs = Generic.moves_apply dense_mv moves cs.
Proof.
  induction moves as [|mi moves IH]; intros cs; [done|].
  cbn [move_components Generic.moves_apply]. unfold dense_mv.
  destruct (vec_at cs (range_begin mi)); simpl; [|done].
  destruct (vec_set cs (range_end mi) _); simpl; [|done]. apply IH.
Qed.

Lemma dense_mv_ok cs (b e : nat) :
  is_Some (cs !! b) → (e < length cs)%nat → b ≠ e →
  ∃ cs', dense_mv cs (Z.of_nat b) (Z.of_nat e) = Ok cs'
         ∧ cs' !! e = cs !! b
         ∧ (∀ k, k ≠ e → k ≠ b → cs' !! k = cs !! k)
         ∧ (∀ k, (k < length cs)%nat → (k < length cs')%nat)
         ∧ length cs' = length cs.
Proof.
  intros [c Hb] He Hne. exists (<[e := c]> cs). split_and!.
  - unfold dense_mv. rewrite (vec_at_ok _ _ _ Hb). simpl. by rewrite vec_set_ok.
  - by rewrite list_lookup_insert_eq.
  - intros k Hk _. by rewrite list_lookup_insert_ne.
  - intros k. by rewrite length_insert.
  - by rewrite length_insert.
Qed.

Lemma in_rangeb_spec range entity :
  in_rangeb range entity = true ↔ range_begin range ≤ entity < range_end range.
Proof. unfold in_rangeb. rewrite andb_true_iff, Z.leb_le, Z.ltb_lt. done. Qed.

(** The first loop of [removeRange]: the positions of the entities of the
    range, and the sparse set without these entities. *)
Lemma erased_indexes_spec range : ∀ es (off : nat) s,
  Z.of_nat (off + length es) < 2 ^ 32 →
  ∃ (ps : list nat) s',
    erased_indexes range (Z.of_nat off) es s = (Z.of_nat <$> ps, s')
    ∧ (∀ p, p ∈ ps ↔ ∃ e, (off ≤ p)%nat ∧ es !! (p - off)%nat = Some e
                          ∧ in_rangeb range e = true)
    ∧ NoDup ps
    ∧ (∀ k, k ∈ es → in_rangeb range k = true → Sparse.at_ s' k = NullEntityIndex)
    ∧ (∀ k, ¬ (k ∈ es ∧ in_rangeb range k = true) → Sparse.at_ s' k = Sparse.at_ s k).
Proof.
  induction es as [|e es IH]; intros off s Hoff.
  - exists [], s. simpl. split_and!; try done.
    + intros p. split; [by intros ?%elem_of_nil|by intros (e & _ & ? & _)].
    + constructor.
    + intros k Hk. by apply elem_of_nil in Hk.
  - simpl in Hoff. simpl erased_indexes. fold (in_rangeb range e).
    rewrite wrap_small by lia. replace (Z.of_nat off + 1) with (Z.of_nat (S off)) by lia.
    destruct (in_rangeb range e) eqn:Hin.
    + destruct (IH (S off) (Sparse.remove s e)) as (ps & s' & Her & Hps & Hnd & Hnull & Hfr);
        [lia|].
      exists (off :: ps), s'. rewrite Her. split_and!.
      * done.
      * intros p. rewrite elem_of_cons, Hps. split.
        -- intros [->|(e' & Hle & He' & Hr)].
           ++ exists e. rewrite Nat.sub_diag. by split_and!.
           ++ exists e'. split_and!; [lia| |done].
              replace (p - off)%nat with (S (p - S off)) by lia. done.
        -- intros (e' & Hle & He' & Hr). destruct (decide (p = off)) as [->|Hne]; [by left|].
           right. exists e'. split_and!; [lia| |done].
           replace (p - off)%nat with (S (p - S off)) in He' by lia. done.
      * constructor; [|done]. rewrite Hps. intros (e' & Hle & _). lia.
      * intros k Hk Hr. apply elem_of_cons in Hk as [->|Hk]; [|by apply Hnull].
        destruct (decide (e ∈ es)); [by apply Hnull|].
        rewrite Hfr by (intros [? _]; done). apply sparse_at_remove_eq.
      * intros k Hk. rewrite Hfr.
        -- apply sparse_at_remove_ne. intros ->. apply Hk. split; [left|done].
        -- intros [Hk1 Hk2]. apply Hk. split; [by right|done].
    + destruct (IH (S off) s) as (ps & s' & Her & Hps & Hnd & Hnull & Hfr); [lia|].
      exists ps, s'. rewrite Her. split_and!.
      * done.
      * intros p. rewrite Hps. split.
        -- intros (e' & Hle & He' & Hr). exists e'. split_and!; [lia| |done].
           replace (p - off)%nat with (S (p - S off)) by lia. done.
        -- intros (e' & Hle & He' & Hr). destruct (decide (p = off)) as [->|Hne].
           ++ rewrite Nat.sub_diag in He'. simpl in He'. congruence.
           ++ exists e'. split_and!; [lia| |done].
              replace (p - off)%nat with (S (p - S off)) in He' by lia. done.
      * done.
      * intros k Hk Hr. apply elem_of_cons in Hk as [->|Hk]; [congruence|by apply Hnull].
      * intros k Hk. apply Hfr. intros [Hk1 Hk2]. apply Hk. split; [by right|done].
Qed.

Lemma removeRange_spec t m range :
  dense_inv t → represents t m →
  ∃ t', removeRange t range = Ok t'
        ∧ dense_inv t'
        ∧ represents t' (model_step (RemoveRange range) m).
Proof.
  intros Hinv [Hrep Hdom]. pose proof Hinv as [Hlen Hb Hidx].
  unfold vec_size in Hb. null_val.
  destruct (erased_indexes_spec range (entities t) 0 (indexSet t))
    as (ps & s1 & Her & Hps & Hnd & Hnull & Hfr); [simpl; lia|].
  unfold removeRange. change 0 with (Z.of_nat 0). rewrite Her.
  set (m' := model_step (RemoveRange range) m).
  assert (Hm' : ∀ e, m' !! e = if in_rangeb range e then None else m !! e).
  { intros e. unfold m'. simpl. destruct (in_rangeb range e) eqn:Hr.
    - apply map_lookup_filter_None. right. intros c _ Hn. apply Hn.
      by apply in_rangeb_spec.
    - destruct (m !! e) as [c|] eqn:Hc.
      + apply map_lookup_filter_Some. split; [done|]. simpl.
        intros Hn%in_rangeb_spec. congruence.
      + apply map_lookup_filter_None. by left. }
  assert (Hps0 : ∀ p, p ∈ ps ↔ ∃ e, entities t !! p = Some e ∧ in_rangeb range e = true).
  { intros p. rewrite Hps. split.
    - intros (e & _ & He & Hr). rewrite Nat.sub_0_r in He. eauto.
    - intros (e & He & Hr). exists e. rewrite Nat.sub_0_r. split_and!; [lia|done|done]. }
  destruct (decide (ps = [])) as [->|Hpne].
  - (* no entity of the range: nothing changes *)
    simpl. exists t. split_and!; [done|done|]. split.
    + intros i e Hi. destruct (Hrep _ _ Hi) as (c & Hc & Hm). exists c. split; [done|].
      rewrite Hm'. destruct (in_rangeb range e) eqn:Hr; [|done].
      exfalso. apply (not_elem_of_nil i). apply Hps0. eauto.
    + intros e [c Hc]. apply Hdom. rewrite Hm' in Hc.
      destruct (in_rangeb range e); [done|]. by rewrite Hc.
  - destruct (Z.of_nat <$> ps) as [|z0 zs] eqn:Ezs;
      [by apply fmap_nil_inv in Ezs|]. rewrite <- Ezs in Her |- *.
    destruct (CompactFacts.sort_descending_nat (Z.of_nat <$> ps))
      as (hs & Hsd & Hsorted & Hlhs & Hhs).
    { apply NoDup_fmap; [|done]. intros x y. lia. }
    { apply Forall_fmap, Forall_forall. intros x _. simpl. lia. }
    assert (Hhs' : ∀ i, i ∈ hs ↔ i ∈ ps).
    { intros i. rewrite Hhs, list_elem_of_fmap. split; [|by eauto].
      intros (y & Hy & Hin). by replace i with y by lia. }
    rewrite Hsd. clear Ezs z0 zs.
    set (n := length (entities t)) in *.
    destruct (CompactFacts.compaction (λ cs p, cs !! p) (λ cs p, (p < length cs)%nat)
                (λ cs cs', length cs' = length cs)
                ltac:(done) ltac:(intros; congruence) dense_mv
                ltac:(intros ? ? ? H1 H2 H3; by apply dense_mv_ok)
                (λ e, m' !! e) hs n (entities t) s1 (components t))
      as (moves & es' & s' & cs' & Hmi & Hme & Hma & Hlen' & Hal & Hcomp & Hsound & Hfs & Hk).
    + done.
    + lia.
    + done.
    + apply Forall_forall. intros i Hi. apply Hhs', Hps0 in Hi as (e & He & _).
      by eapply lookup_lt_Some.
    + intros i Hi. simpl. fold n in Hlen. lia.
    + intros i e [Hi Hih] He.
      assert (in_rangeb range e = false) as Hr.
      { apply not_true_is_false. intros Hr. apply Hih, Hhs', Hps0. eauto. }
      rewrite Hfr by (intros [_ ?]; congruence).
      destruct (Hrep _ _ He) as (c & Hc & Hm).
      rewrite Hm', Hr, Hm. split_and!; [by apply Hidx|done|done].
    + unfold vec_size. fold n. rewrite Hmi. rewrite Hme. simpl.
      rewrite CompactFacts.wrap_pred_succ by lia.
      assert (Hkn : (n - length hs ≤ n)%nat) by lia.
      rewrite vec_erase_from_ok by lia. simpl.
      rewrite dense_move_components_generic, Hma. simpl.
      rewrite vec_erase_from_ok by (rewrite Hk; fold n in Hlen; lia). simpl.
      eexists. split; [done|]. split.
      * split; simpl.
        -- rewrite !length_take. rewrite Hk, Hlen'. fold n in Hlen. lia.
        -- unfold vec_size. rewrite length_take. null_val. lia.
        -- intros i e Hi. apply lookup_take_Some in Hi as [Hi Hlt].
           apply (Hal i e); [|done]. split; [done|apply not_elem_of_nil].
      * split; simpl.
        -- intros i e Hi. apply lookup_take_Some in Hi as [Hi Hlt].
           destruct (Hal i e) as (_ & Hr & [c Hc]); [split; [done|apply not_elem_of_nil]|done|].
           exists c. rewrite lookup_take_lt by done. simpl in Hr. by rewrite Hr.
        -- intros e [c Hc]. rewrite Hm' in Hc.
           destruct (in_rangeb range e) eqn:Hr; [done|].
           assert (e ∈ entities t) as Hin by (apply Hdom; by rewrite Hc).
           apply list_elem_of_lookup in Hin as [i Hi].
           destruct (Hcomp i e) as (i' & Hi' & He'); [|done|].
           { split; [by eapply lookup_lt_Some|].
             intros Hin. apply Hhs', Hps0 in Hin as (e' & He' & Hr').
             assert (e' = e) as -> by congruence. congruence. }
           apply list_elem_of_lookup. exists i'. by apply lookup_take_Some.
Qed.

End loops.
End DenseLoops.
(** ** Facts about the dense table: every operation keeps the invariant *)

Module DenseSteps.
Import Dense DenseSpec DenseFacts DenseLoops.

Section steps.
Context {C : Type}.
Implicit Types (t : table C) (m : gmap Z C) (cs : list C).

Lemma represents_absent t m e : represents t m → e ∉ entities t → m !! e = None.
Proof.
  intros [_ Hdom] Habs. destruct (m !! e) eqn:E; [|done].
  exfalso. apply Habs, Hdom. by rewrite E.
Qed.

Lemma empty_inv : dense_inv (empty (C := C)) ∧ represents (empty (C := C)) ∅.
Proof.
  split; [split; simpl; [done|by vm_compute|by intros i e ?]|].
  split; [by intros i e ?|]. intros e [c Hc]. by rewrite lookup_empty in Hc.
Qed.

Lemma addImpl_spec t m e c :
  dense_inv t → represents t m → e ∉ entities t → has_room t 1 →
  dense_inv (addImpl t e c) ∧ represents (addImpl t e c) (<[e := c]> m).
Proof.
  intros [Hlen Hb Hidx] [Hrep Hdom] Habs Hroom. unfold has_room, vec_size in *.
  split; [split|split]; simpl.
  - rewrite !length_app. simpl. lia.
  - unfold vec_size. rewrite length_app. simpl. lia.
  - intros i e' Hi. apply lookup_app_Some in Hi as [Hi|[Hge Hi]].
    + rewrite sparse_at_add_ne; [by apply Hidx|].
      intros ->. apply Habs. by eapply list_elem_of_lookup_2.
    + apply list_lookup_singleton_Some in Hi as [Hi <-].
      rewrite sparse_at_add_eq. unfold vec_size. lia.
  - intros i e' Hi. apply lookup_app_Some in Hi as [Hi|[Hge Hi]].
    + destruct (Hrep _ _ Hi) as (c' & Hc' & Hm). exists c'. split.
      * by apply lookup_app_l_Some.
      * rewrite lookup_insert_ne; [done|].
        intros ->. apply Habs. by eapply list_elem_of_lookup_2.
    + apply list_lookup_singleton_Some in Hi as [Hi <-]. exists c. split.
      * rewrite lookup_app_r by lia. replace (i - length (components t))%nat with 0%nat by lia.
        done.
      * apply lookup_insert_eq.
  - intros e' [c' Hc']. apply elem_of_app.
    destruct (decide (e' = e)) as [->|Hne]; [right; by left|].
    left. apply Hdom. rewrite lookup_insert_ne in Hc' by done. by rewrite Hc'.
Qed.

(** Overwriting the component of a present entity. *)
Lemma overwrite_spec t m i e c :
  dense_inv t → represents t m → entities t !! i = Some e →
  dense_inv (mkTable (indexSet t) (entities t) (<[i := c]> (components t)))
  ∧ represents (mkTable (indexSet t) (entities t) (<[i := c]> (components t)))
               (<[e := c]> m).
Proof.
  intros Hinv [Hrep Hdom] Hi. pose proof Hinv as [Hlen Hb Hidx].
  pose proof (inv_NoDup _ Hinv) as Hnd.
  split; [split|split]; simpl.
  - by rewrite length_insert.
  - done.
  - done.
  - intros j e' Hj. destruct (decide (j = i)) as [->|Hne].
    + assert (e' = e) as -> by congruence. exists c. split.
      * apply list_lookup_insert_eq. rewrite <- Hlen. by eapply lookup_lt_Some.
      * apply lookup_insert_eq.
    + destruct (Hrep _ _ Hj) as (c' & Hc' & Hm). exists c'. split.
      * by rewrite list_lookup_insert_ne.
      * rewrite lookup_insert_ne; [done|]. intros ->.
        pose proof (NoDup_lookup _ _ _ _ Hnd Hi Hj). lia.
  - intros e' [c' Hc']. destruct (decide (e' = e)) as [->|Hne].
    + by eapply list_elem_of_lookup_2.
    + apply Hdom. rewrite lookup_insert_ne in Hc' by done. by rewrite Hc'.
Qed.

Lemma tryAdd_spec t m e c :
  dense_inv t → represents t m → has_room t 1 →
  ∃ t', tryAdd t e c = Ok t' ∧ dense_inv t' ∧ represents t' (<[e := c]> m).
Proof.
  intros Hinv Hrep Hroom. unfold tryAdd.
  destruct (decide (e ∈ entities t)) as [Hin|Habs].
  - apply list_elem_of_lookup in Hin as [i Hi].
    rewrite (inv_findIndex _ _ _ Hinv Hi).
    pose proof (inv_lookup_lt _ _ _ Hinv Hi).
    replace (Z.of_nat i =? NullEntityIndex) with false
      by (symmetry; apply Z.eqb_neq; lia).
    simpl. rewrite (inv_index _ Hinv _ _ Hi).
    rewrite vec_set_ok
      by (rewrite <- (inv_len _ Hinv); by eapply lookup_lt_Some).
    simpl. eexists. split; [done|]. by apply overwrite_spec.
  - rewrite findIndex_absent by done. rewrite Z.eqb_refl. simpl.
    eexists. split; [done|]. by apply addImpl_spec.
Qed.

Lemma tryAddWith_spec t m dflt e f :
  dense_inv t → represents t m → has_room t 1 →
  ∃ t', tryAddWith dflt t e f = Ok t' ∧ dense_inv t'
        ∧ represents t' (<[e := f (default dflt (m !! e))]> m).
Proof.
  intros Hinv Hrep Hroom. unfold tryAddWith.
  destruct (decide (e ∈ entities t)) as [Hin|Habs].
  - apply list_elem_of_lookup in Hin as [i Hi].
    rewrite (inv_findIndex _ _ _ Hinv Hi).
    pose proof (inv_lookup_lt _ _ _ Hinv Hi).
    replace (Z.of_nat i =? NullEntityIndex) with false
      by (symmetry; apply Z.eqb_neq; lia).
    simpl. destruct (proj1 Hrep _ _ Hi) as (c0 & Hc0 & Hm).
    rewrite (vec_at_ok _ _ _ Hc0). simpl.
    rewrite vec_set_ok by (by eapply lookup_lt_Some).
    simpl. eexists. split; [done|]. rewrite Hm. simpl. by apply overwrite_spec.
  - rewrite findIndex_absent by done. rewrite Z.eqb_refl. simpl.
    eexists. split; [done|]. rewrite (represents_absent _ _ _ Hrep Habs). simpl.
    by apply addImpl_spec.
Qed.

Lemma removed_represents t m e idx lastE lastC :
  dense_inv t → represents t m → entities t !! idx = Some e →
  last (entities t) = Some lastE → last (components t) = Some lastC →
  dense_inv (swap_removed t e idx lastE lastC)
  ∧ represents (swap_removed t e idx lastE lastC) (delete e m).
Proof.
  intros Hinv [Hrep Hdom] Hidx HlE HlC.
  destruct (swap_removed_inv _ _ _ _ _ Hinv Hidx HlE HlC)
    as (Hinv' & Hout & Hkeep & Hsub & Hval).
  split; [done|]. split.
  - intros i e' Hi. destruct (Hval _ _ Hi) as (j & Hj & Hc).
    destruct (Hrep _ _ Hj) as (c & Hcj & Hm). exists c. split; [by rewrite Hc|].
    rewrite lookup_delete_ne; [done|]. intros ->. apply Hout.
    by eapply list_elem_of_lookup_2.
  - intros e' [c Hc]. destruct (decide (e' = e)) as [->|Hne].
    + by rewrite lookup_delete_eq in Hc.
    + rewrite lookup_delete_ne in Hc by done. apply Hkeep; [|done].
      apply Hdom. by rewrite Hc.
Qed.

(** *** addRange *)

Lemma addRange_index (b n : Z) (d : nat) (s : SparseIndex) (key : Z) :
  0 ≤ b → 0 ≤ n → b + Z.of_nat d < 2 ^ 32 → n + Z.of_nat d < 2 ^ 32 →
  Sparse.at_ (foldl (λ s k, Sparse.add s (wrap (b + k)) (wrap (n + k))) s
                    (seqZ 0 (Z.of_nat d))) key
  = if decide (b ≤ key < b + Z.of_nat d) then n + (key - b) else Sparse.at_ s key.
Proof.
  intros Hb Hn. induction d as [|d IH]; intros Hbd Hnd.
  - simpl. by rewrite decide_False by lia.
  - rewrite seqZ_S, foldl_snoc. rewrite !wrap_small by lia.
    rewrite Z.add_0_l.
    destruct (decide (key = b + Z.of_nat d)) as [->|Hne].
    + rewrite sparse_at_add_eq. rewrite decide_True by lia. lia.
    + rewrite sparse_at_add_ne by done. rewrite IH by lia.
      repeat case_decide; lia || done.
Qed.

Lemma addRange_model (l : list Z) (m : gmap Z C) (c : C) (key : Z) :
  foldr (λ e m', <[e := c]> m') m l !! key
  = if decide (key ∈ l) then Some c else m !! key.
Proof.
  induction l as [|e l IH]; cbn [foldr].
  - rewrite decide_False; [done|apply not_elem_of_nil].
  - destruct (decide (key = e)) as [->|Hne].
    + rewrite lookup_insert_eq. rewrite decide_True; [done|left].
    + rewrite lookup_insert_ne by done. rewrite IH.
      destruct (decide (key ∈ l)) as [Hin|Hnin].
      * rewrite decide_True; [done|by right].
      * rewrite decide_False; [done|]. intros Hin. apply elem_of_cons in Hin as [?|?]; done.
Qed.

Lemma addRange_spec t m range c :
  dense_inv t → represents t m → pre (AddRange range c) t →
  dense_inv (addRange t range c)
  ∧ represents (addRange t range c) (model_step (AddRange range c) m).
Proof.
  intros [Hlen Hb Hidx] [Hrep Hdom] (Hbe & He32 & Hfree & Hroom).
  unfold has_room, vec_size in *. null_val.
  set (n := length (entities t)) in *.
  set (b := range_begin range) in *. set (d := range_end range - b) in *.
  assert (Hd : d = Z.of_nat (Z.to_nat d)) by lia.
  unfold addRange. fold b. fold d. rewrite (wrap_small d) by lia.
  assert (Hnew : (λ k, wrap (b + k)) <$> seqZ 0 d = seqZ b d).
  { replace (seqZ b d) with (seqZ (b + 0) d) by (f_equal; lia).
    rewrite <- fmap_add_seqZ.
    apply Forall_fmap_ext_1. apply Forall_seqZ. intros k Hk. simpl.
    rewrite wrap_small; lia. }
  rewrite Hnew.
  assert (Hat : ∀ key,
    Sparse.at_ (foldl (λ s k, Sparse.add s (wrap (b + k)) (wrap (vec_size (entities t) + k)))
                      (indexSet t) (seqZ 0 d)) key
    = if decide (b ≤ key < b + d) then Z.of_nat n + (key - b)
      else Sparse.at_ (indexSet t) key).
  { intros key. unfold vec_size. fold n.
    pose proof (addRange_index b (Z.of_nat n) (Z.to_nat d) (indexSet t) key) as H.
    rewrite !Z2Nat.id in H by lia. apply H; lia. }
  assert (Hmodel : ∀ key, model_step (AddRange range c) m !! key
                          = if decide (b ≤ key < b + d) then Some c else m !! key).
  { intros key. simpl. unfold range_entities. fold b d. rewrite addRange_model.
    destruct (decide (key ∈ seqZ b d)) as [Hin|Hnin].
    - apply elem_of_seqZ in Hin. by rewrite decide_True.
    - rewrite decide_False; [done|]. intros Hr. by apply Hnin, elem_of_seqZ. }
  assert (Hout : ∀ i e, entities t !! i = Some e → ¬ (b ≤ e < b + d)).
  { intros i e Hi Hr. pose proof (Forall_lookup_1 _ _ _ _ Hfree Hi) as H. simpl in H.
    apply H. unfold d in Hr. lia. }
  split; [split|split]; simpl.
  - rewrite !length_app, length_seqZ, length_replicate. lia.
  - unfold vec_size. rewrite length_app, length_seqZ. null_val. fold n. lia.
  - intros i e Hi. rewrite Hat. apply lookup_app_Some in Hi as [Hi|[Hge Hi]].
    + rewrite decide_False by (by eapply Hout). by apply Hidx.
    + apply lookup_seqZ in Hi as [-> Hlt]. fold n in Hge, Hlt.
      rewrite decide_True by lia. lia.
  - intros i e Hi. rewrite Hmodel. apply lookup_app_Some in Hi as [Hi|[Hge Hi]].
    + rewrite decide_False by (by eapply Hout).
      destruct (Hrep _ _ Hi) as (c' & Hc' & Hm). exists c'. split; [|done].
      by apply lookup_app_l_Some.
    + apply lookup_seqZ in Hi as [-> Hlt]. fold n in Hge, Hlt.
      rewrite decide_True by lia. exists c. split; [|done].
      rewrite lookup_app_r by lia. apply lookup_replicate_2. lia.
  - intros e [c' Hc']. rewrite Hmodel in Hc'. apply elem_of_app.
    destruct (decide (b ≤ e < b + d)) as [Hr|Hr].
    + right. by apply elem_of_seqZ.
    + left. apply Hdom. by rewrite Hc'.
Qed.

(** *** Every operation *)

Lemma clear_spec t : dense_inv (clear t) ∧ represents (clear t) ∅.
Proof. apply empty_inv. Qed.

(** Each operation, when its precondition holds, returns a table that
    satisfies the invariant and holds the live values. *)
Lemma step_correct (o : op C) t m :
  dense_inv t → represents t m → pre o t →
  ∃ t', step o t = Ok t' ∧ dense_inv t' ∧ represents t' (model_step o m).
Proof.
  intros Hinv Hrep Hpre. destruct o as [e c|e c|dflt e f|range c|e|e|range|e|cmp|]; simpl in *.
  - destruct Hpre as [Habs Hroom]. eexists. split; [done|]. by apply addImpl_spec.
  - by apply tryAdd_spec.
  - by apply tryAddWith_spec.
  - eexists. split; [done|]. by apply (addRange_spec t m range c).
  - apply list_elem_of_lookup in Hpre as [idx Hidx].
    destruct (inv_lasts _ _ _ Hinv Hidx) as (lastE & lastC & HlE & HlC).
    rewrite (dense_remove_spec _ _ _ _ _ Hinv Hidx HlE HlC).
    eexists. split; [done|]. by apply removed_represents.
  - destruct (decide (e ∈ entities t)) as [Hin|Habs].
    + apply list_elem_of_lookup in Hin as [idx Hidx].
      destruct (inv_lasts _ _ _ Hinv Hidx) as (lastE & lastC & HlE & HlC).
      rewrite (dense_tryRemove_present _ _ _ _ _ Hinv Hidx HlE HlC). simpl.
      eexists. split; [done|]. by apply removed_represents.
    + rewrite dense_tryRemove_absent by done. simpl.
      exists t. split_and!; [done|done|].
      rewrite delete_id; [done|]. by eapply represents_absent.
  - by apply removeRange_spec.
  - apply list_elem_of_lookup in Hpre as [idx Hidx].
    destruct (inv_lasts _ _ _ Hinv Hidx) as (lastE & lastC & HlE & HlC).
    destruct (proj1 Hrep _ _ Hidx) as (c & Hc & _).
    rewrite (dense_extract_spec _ _ _ _ _ _ Hinv Hidx Hc HlE HlC). simpl.
    eexists. split; [done|]. by apply removed_represents.
  - destruct (sort_with_spec t m (std_sort cmp (entities t)) Hinv Hrep)
      as (t' & Hs & _ & Hinv' & Hrep' & _); [apply std_sort_perm|].
    exists t'. by split_and!.
  - eexists. split; [done|]. apply clear_spec.
Qed.

Lemma pre_ops_app (ops1 ops2 : list (op C)) t :
  pre_ops (ops1 ++ ops2) t → pre_ops ops1 t.
Proof.
  revert t. induction ops1 as [|o ops1 IH]; intros t; simpl; [done|].
  intros [Hpre Hnext]. split; [done|]. intros t' Ht'. by apply IH, Hnext.
Qed.

Lemma run_correct (ops : list (op C)) : ∀ t m,
  dense_inv t → represents t m → pre_ops ops t →
  ∃ t', run ops t = Ok t' ∧ dense_inv t' ∧ represents t' (model_run ops m).
Proof.
  induction ops as [|o ops IH]; intros t m Hinv Hrep Hpre.
  - exists t. by split_and!.
  - destruct Hpre as [Hpre Hnext].
    destruct (step_correct o t m Hinv Hrep Hpre) as (t1 & Hstep & Hinv1 & Hrep1).
    destruct (IH t1 (model_step o m) Hinv1 Hrep1 (Hnext _ Hstep)) as (t' & Hrun & Hinv' & Hrep').
    exists t'. split_and!; [|done|done]. cbn [run]. by rewrite Hstep.
Qed.

End steps.

Lemma ltb_strict_weak_order dom : strict_weak_order Z.ltb dom.
Proof. split; intros; lia. Qed.

Ltac not_in_list :=
  let H := fresh in
  intros H; repeat (apply elem_of_cons in H as [H|H]; [discriminate|]);
  by apply elem_of_nil in H.

Ltac in_list := repeat first [by apply list_elem_of_here | apply list_elem_of_further].

Ltac pre_step :=
  split;
  [ simpl; unfold has_room;
    first [ exact I
          | apply ltb_strict_weak_order
          | solve [in_list]
          | solve [split; [not_in_list|by vm_compute]]
          | solve [split_and!; first [lia | by vm_compute | (repeat constructor; simpl; lia)]]
          | by vm_compute ]
  | let t' := fresh "t" in let Ht' := fresh "Ht" in
    intros t' Ht'; vm_compute in Ht'; injection Ht' as <- ].

Lemma sample_ops_pre : pre_ops (sample_ops ++ []) empty.
Proof. unfold sample_ops. simpl app. do 11 pre_step. exact I. Qed.

(** C1. For every sequence of operations on a dense table whose
    precondition holds at each step, after every operation of the
    sequence: [count], the length of [entities] and the length of
    [components] are equal, the sparse set maps [entities[i]] to [i], and
    [components[i]] is the live value of [entities[i]], the last value
    written for it. *)
Theorem dense_table_invariant (C : Type) (ops1 ops2 : list (op C)) :
  pre_ops (ops1 ++ ops2) empty →
  ∃ t, run ops1 empty = Ok t
       ∧ count t = vec_size (entities t)
       ∧ vec_size (entities t) = vec_size (components t)
       ∧ ∀ i e, entities t !! i = Some e →
           Sparse.at_ (indexSet t) e = Z.of_nat i
           ∧ ∃ c, components t !! i = Some c
                  ∧ model_run ops1 ∅ !! e = Some c
                  ∧ get t e = Ok c.
Proof.
  intros Hpre. apply pre_ops_app in Hpre.
  destruct (empty_inv (C := C)) as [Hinv0 Hrep0].
  destruct (run_correct ops1 empty ∅ Hinv0 Hrep0 Hpre) as (t & Hrun & Hinv & Hrep).
  exists t. split_and!; [done|done| |].
  - unfold vec_size. by rewrite (inv_len _ Hinv).
  - intros i e Hi. split; [by apply (inv_index _ Hinv)|].
    destruct (proj1 Hrep _ _ Hi) as (c & Hc & Hm). exists c.
    split_and!; [done|done|]. by eapply get_at.
Qed.

Lemma dense_table_invariant_witness :
  ∃ t, run sample_ops empty = Ok t
       ∧ entities t = [3; 10]
       ∧ vec_size (entities t) = vec_size (components t)
       ∧ get t 10 = Ok "r"%string.
Proof.
  destruct (dense_table_invariant string sample_ops [] sample_ops_pre)
    as (t & Hrun & _ & Hlen & Hall).
  exists t. assert (Hes : entities t = [3; 10]).
  { vm_compute in Hrun. by injection Hrun as <-. }
  split_and!; [done|done|done|].
  destruct (Hall 1%nat 10) as (_ & c & _ & Hm & Hget); [by rewrite Hes|].
  rewrite Hget. vm_compute in Hm. by injection Hm as <-.
Defined.

End DenseSteps.
(** ** Facts about the stable table: pages, single-entity operations,
    iterators *)

Module StableFacts.
Import Stable StableSpec.

Section pages.
Context {C : Type}.
Variable Q : Z.
Hypothesis HQ : 0 < Q.
Implicit Types (pages : list (ComponentPage C)) (cell : option C).

Lemma slot_split i j :
  GetPageIndex Q i = GetPageIndex Q j →
  GetComponentIndex Q i = GetComponentIndex Q j → i = j.
Proof.
  unfold GetPageIndex, GetComponentIndex. intros H1 H2.
  rewrite (Z.div_mod i Q), (Z.div_mod j Q) by lia. by rewrite H1, H2.
Qed.

Lemma cell_at_inv pages i cell :
  cell_at Q pages i = Ok cell →
  ∃ page, pages !! Z.to_nat (GetPageIndex Q i) = Some page
          ∧ page !! Z.to_nat (GetComponentIndex Q i) = Some cell
          ∧ 0 ≤ GetPageIndex Q i.
Proof.
  unfold cell_at. intros H. apply bind_Ok in H as (page & Hp & Hc).
  apply vec_at_inv in Hp as [? Hp]. apply vec_at_inv in Hc as [? Hc]. eauto.
Qed.

Lemma cell_at_intro pages i page cell :
  0 ≤ i →
  pages !! Z.to_nat (GetPageIndex Q i) = Some page →
  page !! Z.to_nat (GetComponentIndex Q i) = Some cell →
  cell_at Q pages i = Ok cell.
Proof.
  intros Hi Hp Hc. unfold cell_at.
  assert (0 ≤ GetPageIndex Q i) by (unfold GetPageIndex; apply Z.div_pos; lia).
  assert (0 ≤ GetComponentIndex Q i)
    by (unfold GetComponentIndex; apply Z.mod_pos_bound; lia).
  rewrite <- (Z2Nat.id (GetPageIndex Q i)) by done.
  rewrite (vec_at_ok _ _ _ Hp). simpl.
  rewrite <- (Z2Nat.id (GetComponentIndex Q i)) by done.
  by rewrite (vec_at_ok _ _ _ Hc).
Qed.

Lemma cell_at_lookup pages i :
  0 ≤ i →
  cell_at Q pages i
  = match pages !! Z.to_nat (GetPageIndex Q i) ≫=
          (λ page, page !! Z.to_nat (GetComponentIndex Q i)) with
    | Some cell => Ok cell
    | None => Fault OutOfRange
    end.
Proof.
  intros Hi. unfold cell_at, vec_at.
  assert (0 ≤ GetPageIndex Q i) by (unfold GetPageIndex; apply Z.div_pos; lia).
  assert (0 ≤ GetComponentIndex Q i)
    by (unfold GetComponentIndex; apply Z.mod_pos_bound; lia).
  rewrite decide_True by done.
  destruct (pages !! Z.to_nat (GetPageIndex Q i)) as [page|]; simpl; [|done].
  by rewrite decide_True.
Qed.

(** A slot below the capacity of the pages is addressable. *)
Lemma cell_at_ok pages i :
  pages_wf Q pages → 0 ≤ i < vec_size pages * Q →
  ∃ cell, cell_at Q pages i = Ok cell.
Proof.
  intros Hwf Hi.
  assert (0 ≤ GetPageIndex Q i < vec_size pages) as Hp.
  { unfold GetPageIndex. split; [apply Z.div_pos; lia|].
    apply Z.div_lt_upper_bound; lia. }
  assert (0 ≤ GetComponentIndex Q i < Q) as Hc
    by (unfold GetComponentIndex; apply Z.mod_pos_bound; lia).
  destruct (lookup_lt_is_Some_2 pages (Z.to_nat (GetPageIndex Q i))) as [page Hpage];
    [unfold vec_size in Hp; lia|].
  pose proof (Forall_lookup_1 _ _ _ _ Hwf Hpage) as Hlen. simpl in Hlen.
  destruct (lookup_lt_is_Some_2 page (Z.to_nat (GetComponentIndex Q i))) as [cell Hcell];
    [unfold vec_size in Hlen; lia|].
  exists cell. apply (cell_at_intro _ _ page); [lia|done|done].
Qed.

Lemma cell_set_spec pages i cell0 cell :
  0 ≤ i → cell_at Q pages i = Ok cell0 →
  ∃ pages', cell_set Q pages i cell = Ok pages'
    ∧ cell_at Q pages' i = Ok cell
    ∧ (∀ j, 0 ≤ j → j ≠ i → cell_at Q pages' j = cell_at Q pages j)
    ∧ length pages' = length pages
    ∧ (pages_wf Q pages → pages_wf Q pages').
Proof.
  intros Hi H. apply cell_at_inv in H as (page & Hp & Hc & Hpi).
  assert (0 ≤ GetComponentIndex Q i)
    by (unfold GetComponentIndex; apply Z.mod_pos_bound; lia).
  pose proof (lookup_lt_Some _ _ _ Hp) as Hplt.
  pose proof (lookup_lt_Some _ _ _ Hc) as Hclt.
  set (pi := Z.to_nat (GetPageIndex Q i)) in *.
  set (ci := Z.to_nat (GetComponentIndex Q i)) in *.
  exists (<[pi := <[ci := cell]> page]> pages).
  split_and!.
  - unfold cell_set.
    rewrite <- (Z2Nat.id (GetPageIndex Q i)) by done. fold pi.
    rewrite (vec_at_ok _ _ _ Hp). simpl.
    rewrite <- (Z2Nat.id (GetComponentIndex Q i)) by done. fold ci.
    rewrite vec_set_ok by done. simpl. by rewrite vec_set_ok.
  - apply (cell_at_intro _ _ (<[ci := cell]> page)); [done| |].
    + by apply list_lookup_insert_eq.
    + by apply list_lookup_insert_eq.
  - intros j Hj Hne. rewrite !cell_at_lookup by done.
    assert (0 ≤ GetPageIndex Q j) by (unfold GetPageIndex; apply Z.div_pos; lia).
    assert (0 ≤ GetComponentIndex Q j)
      by (unfold GetComponentIndex; apply Z.mod_pos_bound; lia).
    destruct (decide (Z.to_nat (GetPageIndex Q j) = pi)) as [Heq|Hnp].
    + rewrite Heq, list_lookup_insert_eq, Hp by done. simpl.
      rewrite list_lookup_insert_ne; [done|].
      intros Hcq. apply Hne. symmetry. apply slot_split; unfold pi, ci in *; lia.
    + by rewrite list_lookup_insert_ne.
  - by rewrite length_insert.
  - intros Hwf. unfold pages_wf in *.
    apply Forall_insert; [done|]. simpl. unfold vec_size.
    rewrite length_insert. by apply (Forall_lookup_1 _ _ _ _ Hwf Hp).
Qed.

Lemma atIndex_cell pages i c : atIndex Q pages i = Ok c ↔ cell_at Q pages i = Ok (Some c).
Proof.
  unfold atIndex. destruct (cell_at Q pages i) as [[c'|]|]; simpl; naive_solver.
Qed.

Lemma atIndex_congr pages pages' i :
  cell_at Q pages' i = cell_at Q pages i → atIndex Q pages' i = atIndex Q pages i.
Proof. unfold atIndex. by intros ->. Qed.

(** [insertComponent] constructs the component in its cell, pushing the
    missing pages, and leaves the other addressable cells as they are. *)
Lemma insertComponent_spec pages i c :
  0 ≤ i → pages_wf Q pages →
  ∃ pages', insertComponent Q pages i c = Ok pages'
    ∧ atIndex Q pages' i = Ok c
    ∧ (∀ j cell, 0 ≤ j → j ≠ i → cell_at Q pages j = Ok cell →
                 cell_at Q pages' j = Ok cell)
    ∧ pages_wf Q pages'
    ∧ vec_size pages ≤ vec_size pages'
    ∧ i < vec_size pages' * Q.
Proof.
  intros Hi Hwf. unfold insertComponent.
  set (grown := pages ++ replicate _ _).
  assert (Hgw : pages_wf Q grown).
  { unfold grown, pages_wf. apply Forall_app. split; [done|].
    apply Forall_replicate. unfold vec_size. rewrite length_replicate. lia. }
  assert (0 ≤ GetPageIndex Q i) as Hp0 by (unfold GetPageIndex; apply Z.div_pos; lia).
  assert (Hgs : GetPageIndex Q i < vec_size grown ∧ vec_size pages ≤ vec_size grown).
  { unfold grown, vec_size. rewrite length_app, length_replicate. lia. }
  assert (Hilt : i < vec_size grown * Q).
  { pose proof (Z.mul_div_le i Q HQ). pose proof (Z.mod_pos_bound i Q HQ).
    unfold GetPageIndex in *. rewrite (Z.div_mod i Q) by lia. nia. }
  destruct (cell_at_ok grown i Hgw) as [cell0 Hcell0]; [lia|].
  destruct (cell_set_spec grown i cell0 (Some c) Hi Hcell0)
    as (pages' & Hset & Hat & Hframe & Hlen & Hwf').
  exists pages'. split_and!; [done|by apply atIndex_cell| |by apply Hwf'| |].
  - intros j cell Hj Hne Hc. rewrite Hframe by done.
    apply cell_at_inv in Hc as (page & Hp & Hc & ?).
    apply (cell_at_intro _ _ page); [done| |done].
    unfold grown. by apply lookup_app_l_Some.
  - unfold vec_size in *. lia.
  - unfold vec_size in *. lia.
Qed.
End pages.

Section facts.
Context {C : Type}.
Variable Q : Z.
Implicit Types (t : table C).

Lemma sinv_live_NoDup t i j e :
  stable_inv Q t → entities t !! i = Some e → entities t !! j = Some e →
  e ≠ NullEntity → i = j.
Proof.
  intros Hinv Hi Hj Hne.
  pose proof (sinv_index _ _ Hinv _ _ Hi Hne).
  pose proof (sinv_index _ _ Hinv _ _ Hj Hne). lia.
Qed.

Lemma sinv_cell_ok t i :
  stable_inv Q t → (i < length (entities t))%nat →
  ∃ cell, cell_at Q (componentPages t) (Z.of_nat i) = Ok cell.
Proof.
  intros Hinv Hi. apply cell_at_ok.
  - apply (sinv_page_size _ _ Hinv).
  - apply (sinv_pages _ _ Hinv).
  - pose proof (sinv_cells _ _ Hinv). unfold vec_size in *. lia.
Qed.

Lemma sinv_findIndex t i e :
  stable_inv Q t → entities t !! i = Some e → e ≠ NullEntity →
  findIndex t e = Z.of_nat i.
Proof.
  intros Hinv Hl Hne. unfold findIndex.
  assert (vec_find (entities t) e = Some (Z.of_nat i)) as ->; [|done].
  apply vec_find_Some. exists i. split_and!; [done|done|].
  intros j y Hj Hlt ->. pose proof (sinv_live_NoDup _ _ _ _ Hinv Hl Hj Hne). lia.
Qed.

Lemma stable_removeImpl_spec t s0 e i :
  stable_inv Q t → entities t !! i = Some e → e ≠ NullEntity →
  s0 = indexSet t ∨ s0 = Sparse.remove (indexSet t) e →
  ∃ pages', cell_set Q (componentPages t) (Z.of_nat i) None = Ok pages'
    ∧ removeImpl Q (mkTable s0 (entities t) (componentPages t) (tombstones t))
                 e (Z.of_nat i)
      = Ok (tombstoned t e i pages').
Proof.
  intros Hinv Hi Hne Hs0.
  destruct (sinv_live _ _ Hinv _ _ Hi Hne) as [c Hc].
  pose proof (proj1 (atIndex_cell _ _ _ _) Hc) as Hcell.
  destruct (cell_set_spec Q (sinv_page_size _ _ Hinv) _ _ _ None
              (Nat2Z.is_nonneg i) Hcell) as (pages' & Hset & _).
  exists pages'. split; [done|].
  unfold removeImpl, destroyComponent. simpl. rewrite Hc. simpl.
  rewrite Hset. simpl.
  rewrite vec_set_ok by (by eapply lookup_lt_Some). simpl.
  unfold tombstoned. do 2 f_equal.
  destruct Hs0 as [->| ->]; [done|]. unfold Sparse.remove. apply delete_delete_eq.
Qed.

Lemma tombstoned_inv t e i pages' :
  stable_inv Q t → entities t !! i = Some e → e ≠ NullEntity →
  cell_set Q (componentPages t) (Z.of_nat i) None = Ok pages' →
  stable_inv Q (tombstoned t e i pages')
  ∧ cell_at Q pages' (Z.of_nat i) = Ok None
  ∧ (∀ j, j ≠ i → cell_at Q pages' (Z.of_nat j) = cell_at Q (componentPages t) (Z.of_nat j))
  ∧ length pages' = length (componentPages t).
Proof.
  intros Hinv Hi Hne Hset.
  destruct (sinv_live _ _ Hinv _ _ Hi Hne) as [c Hc].
  pose proof (proj1 (atIndex_cell _ _ _ _) Hc) as Hcell.
  destruct (cell_set_spec Q (sinv_page_size _ _ Hinv) _ _ _ None
              (Nat2Z.is_nonneg i) Hcell) as (pages2 & Hset2 & Hat & Hframe & Hlen & Hwf).
  rewrite Hset in Hset2. injection Hset2 as <-.
  pose proof (lookup_lt_Some _ _ _ Hi) as Hilt.
  assert (Hframe' : ∀ j, j ≠ i →
            cell_at Q pages' (Z.of_nat j) = cell_at Q (componentPages t) (Z.of_nat j)).
  { intros j Hj. apply Hframe; lia. }
  split_and!; [|done|done|done].
  destruct Hinv as [HQ Hpw Hb Hidx Hlive Hcells Htomb Hholes Hnd].
  split; simpl.
  - done.
  - by apply Hwf.
  - unfold vec_size in *. by rewrite length_insert.
  - intros j e' Hj He'. destruct (decide (j = i)) as [->|Hji].
    + rewrite list_lookup_insert_eq in Hj by done. congruence.
    + rewrite list_lookup_insert_ne in Hj by done.
      rewrite sparse_at_remove_ne; [by apply Hidx|].
      intros ->. apply Hji.
      pose proof (Hidx _ _ Hi Hne). pose proof (Hidx _ _ Hj Hne). lia.
  - intros j e' Hj He'. destruct (decide (j = i)) as [->|Hji].
    + rewrite list_lookup_insert_eq in Hj by done. congruence.
    + rewrite list_lookup_insert_ne in Hj by done.
      destruct (Hlive _ _ Hj He') as [c' Hc']. exists c'.
      rewrite (atIndex_congr Q _ _ _ (Hframe' j Hji)). done.
  - unfold vec_size in *. rewrite length_insert. lia.
  - intros z Hz. apply elem_of_app in Hz as [Hz|Hz].
    + destruct (Htomb _ Hz) as [Hz0 Hzn]. split; [done|].
      rewrite list_lookup_insert_ne; [done|]. intros ->. congruence.
    + apply list_elem_of_singleton in Hz as ->. split; [lia|].
      rewrite Nat2Z.id. by rewrite list_lookup_insert_eq.
  - intros j Hj. destruct (decide (j = i)) as [->|Hji].
    + apply elem_of_app. right. by apply list_elem_of_singleton.
    + rewrite list_lookup_insert_ne in Hj by done.
      apply elem_of_app. left. by apply Hholes.
  - apply NoDup_app. split_and!; [done| |apply NoDup_singleton].
    intros z Hz Hz'. apply list_elem_of_singleton in Hz' as ->.
    destruct (Htomb _ Hz) as [_ Hzn]. rewrite Nat2Z.id in Hzn. congruence.
Qed.

Lemma stable_remove_spec t e i :
  stable_inv Q t → entities t !! i = Some e → e ≠ NullEntity →
  ∃ pages', cell_set Q (componentPages t) (Z.of_nat i) None = Ok pages'
    ∧ remove Q t e = Ok (tombstoned t e i pages').
Proof.
  intros Hinv Hi Hne. unfold remove, Sparse.extract.
  rewrite (sinv_index _ _ Hinv _ _ Hi Hne).
  apply stable_removeImpl_spec; auto.
Qed.

Lemma stable_tryRemove_present t e i :
  stable_inv Q t → entities t !! i = Some e → e ≠ NullEntity →
  ∃ pages', cell_set Q (componentPages t) (Z.of_nat i) None = Ok pages'
    ∧ tryRemove Q t e = Ok (true, tombstoned t e i pages').
Proof.
  intros Hinv Hi Hne. unfold tryRemove.
  rewrite (sinv_findIndex _ _ _ Hinv Hi Hne).
  pose proof (sinv_bound _ _ Hinv) as Hb. pose proof (lookup_lt_Some _ _ _ Hi) as Hlt.
  replace (Z.of_nat i =? NullEntityIndex) with false
    by (symmetry; apply Z.eqb_neq; unfold vec_size in Hb; lia).
  simpl.
  destruct (stable_removeImpl_spec t (indexSet t) e i Hinv Hi Hne (or_introl eq_refl))
    as (pages' & Hset & Hr).
  exists pages'. split; [done|]. destruct t as [s es ps ts]. simpl in *.
  by rewrite Hr.
Qed.

Lemma stable_tryRemove_absent t e : e ∉ entities t → tryRemove Q t e = Ok (false, t).
Proof.
  intros H. unfold tryRemove, findIndex.
  rewrite (proj2 (vec_find_None _ _) H). simpl. by rewrite ?Z.eqb_refl.
Qed.

(** [addImpl] when a tombstone is on top of the stack: the slot is reused. *)
Lemma addImpl_reuse t ts z e c :
  stable_inv Q t → tombstones t = ts ++ [z] →
  ∃ pages', insertComponent Q (componentPages t) z c = Ok pages'
    ∧ add Q t e c
      = Ok (mkTable (Sparse.add (indexSet t) e z) (<[Z.to_nat z := e]> (entities t))
                    pages' ts)
    ∧ atIndex Q pages' z = Ok c
    ∧ (∀ j cell, 0 ≤ j → j ≠ z → cell_at Q (componentPages t) j = Ok cell →
                 cell_at Q pages' j = Ok cell).
Proof.
  intros Hinv Hts.
  assert (Hz : z ∈ tombstones t) by (rewrite Hts; apply elem_of_app; right; by left).
  destruct (sinv_tombstones _ _ Hinv _ Hz) as [Hz0 Hzn].
  destruct (insertComponent_spec Q (sinv_page_size _ _ Hinv) (componentPages t) z c
              Hz0 (sinv_pages _ _ Hinv)) as (pages' & Hins & Hat & Hframe & _).
  exists pages'. split_and!; [done| |done|done].
  unfold add, addImpl. rewrite Hts.
  destruct (ts ++ [z]) as [|z0 l] eqn:E; [by destruct ts|]. rewrite <- E. clear E.
  rewrite (vec_back_ok _ z) by apply last_snoc. simpl.
  rewrite vec_pop_snoc. simpl.
  rewrite <- (Z2Nat.id z) at 1 by done.
  rewrite vec_set_ok by (by eapply lookup_lt_Some). simpl.
  by rewrite Hins.
Qed.

(** What [remove] does on a present entity, and what the next [add] does. *)
Lemma remove_then_add t e i :
  stable_inv Q t → entities t !! i = Some e → e ≠ NullEntity →
  ∃ t',
    remove Q t e = Ok t'
    ∧ entities t' = <[i := NullEntity]> (entities t)
    ∧ tombstones t' = tombstones t ++ [Z.of_nat i]
    ∧ cell_at Q (componentPages t') (Z.of_nat i) = Ok None
    ∧ (∀ j, j ≠ i →
         entities t' !! j = entities t !! j
         ∧ cell_at Q (componentPages t') (Z.of_nat j)
           = cell_at Q (componentPages t) (Z.of_nat j))
    ∧ indexSet t' = Sparse.remove (indexSet t) e
    ∧ stable_inv Q t'
    ∧ ∀ e2 c2, ∃ t'',
        add Q t' e2 c2 = Ok t''
        ∧ entities t'' = <[i := e2]> (entities t)
        ∧ tombstones t'' = tombstones t
        ∧ atIndex Q (componentPages t'') (Z.of_nat i) = Ok c2
        ∧ Sparse.at_ (indexSet t'') e2 = Z.of_nat i
        ∧ (∀ j cell, j ≠ i →
             cell_at Q (componentPages t) (Z.of_nat j) = Ok cell →
             cell_at Q (componentPages t'') (Z.of_nat j) = Ok cell).
Proof.
  intros Hinv Hi Hne.
  destruct (stable_remove_spec _ _ _ Hinv Hi Hne) as (pages' & Hset & Hrm).
  destruct (tombstoned_inv _ _ _ _ Hinv Hi Hne Hset) as (Hinv' & Hcell & Hframe & Hlen).
  exists (tombstoned t e i pages'). split_and!; try done.
  - intros j Hj. split; [|by apply Hframe]. simpl.
    by rewrite list_lookup_insert_ne.
  - intros e2 c2.
    destruct (addImpl_reuse (tombstoned t e i pages') (tombstones t) (Z.of_nat i)
                e2 c2 Hinv' eq_refl) as (pages'' & Hins & Hadd & Hat & Hfr).
    eexists. split; [exact Hadd|]. simpl. rewrite Nat2Z.id.
    split_and!; [by rewrite list_insert_insert_eq|done|done|apply sparse_at_add_eq|].
    intros j cell Hj Hc. apply Hfr; [lia|lia|]. by rewrite Hframe.
Qed.

End facts.

(** C4. On a stable table, [remove] of a present entity at slot [i]
    destroys the component of that slot, writes [NullEntity] at
    [entities[i]] and pushes [i] on the tombstones; the entity and the
    component cell of every other slot are unchanged. The next [add] pops
    the tombstone pushed last and constructs the component in that slot,
    without appending. *)
Theorem stable_remove_leaves_tombstone :
  (∀ (C : Type) (Q : Z) (t : table C) (e : Z) (i : nat),
     stable_inv Q t → entities t !! i = Some e → e ≠ NullEntity →
     ∃ t',
       remove Q t e = Ok t'
       ∧ entities t' = <[i := NullEntity]> (entities t)
       ∧ tombstones t' = tombstones t ++ [Z.of_nat i]
       ∧ cell_at Q (componentPages t') (Z.of_nat i) = Ok None
       ∧ (∀ j, j ≠ i →
            entities t' !! j = entities t !! j
            ∧ cell_at Q (componentPages t') (Z.of_nat j)
              = cell_at Q (componentPages t) (Z.of_nat j))
       ∧ indexSet t' = Sparse.remove (indexSet t) e
       ∧ stable_inv Q t'
       ∧ ∀ e2 c2, ∃ t'',
           add Q t' e2 c2 = Ok t''
           ∧ entities t'' = <[i := e2]> (entities t)
           ∧ tombstones t'' = tombstones t
           ∧ atIndex Q (componentPages t'') (Z.of_nat i) = Ok c2
           ∧ Sparse.at_ (indexSet t'') e2 = Z.of_nat i
           ∧ (∀ j cell, j ≠ i →
                cell_at Q (componentPages t) (Z.of_nat j) = Ok cell →
                cell_at Q (componentPages t'') (Z.of_nat j) = Ok cell))
  ∧ (∀ (C : Type) (Q : Z) (t : table C) ts z e c,
       stable_inv Q t → tombstones t = ts ++ [z] →
       ∃ t', add Q t e c = Ok t'
             ∧ entities t' = <[Z.to_nat z := e]> (entities t)
             ∧ tombstones t' = ts
             ∧ atIndex Q (componentPages t') z = Ok c)
  ∧ (∃ t2, S2_removes = Ok t2
           ∧ entities t2 = [1; NullEntity; 3; NullEntity; 5]
           ∧ tombstones t2 = [1; 3]
           ∧ get 4 t2 1 = Ok "a"%string ∧ get 4 t2 3 = Ok "c"%string
           ∧ get 4 t2 5 = Ok "e"%string
           ∧ ∃ t3, add 4 t2 6 "f"%string = Ok t3
                   ∧ entities t3 = [1; NullEntity; 3; 6; 5]
                   ∧ tombstones t3 = [1]
                   ∧ get 4 t3 6 = Ok "f"%string).
Proof.
  split_and!.
  - intros C Q t e i. apply remove_then_add.
  - intros C Q t ts z e c Hinv Hts.
    destruct (addImpl_reuse Q t ts z e c Hinv Hts) as (pages' & _ & Hadd & Hat & _).
    eexists. split; [exact Hadd|]. by simpl.
  - eexists. split; [vm_compute; reflexivity|].
    split_and!; try (by vm_compute). eexists. split; [vm_compute; reflexivity|].
    by vm_compute.
Qed.

Lemma one_entity_inv : stable_inv 4 one_entity.
Proof.
  split; simpl.
  - lia.
  - by repeat constructor.
  - by vm_compute.
  - intros [|i] e; simpl; [intros [= <-] _; by vm_compute|done].
  - intros [|i] e; simpl; [intros [= <-] _; by eexists|done].
  - by vm_compute.
  - intros z Hz. by apply elem_of_nil in Hz.
  - intros [|i]; simpl; [|done]. intros H. vm_compute in H. discriminate.
  - constructor.
Qed.

Lemma one_hole_inv : stable_inv 4 one_hole.
Proof.
  split; simpl.
  - lia.
  - by repeat constructor.
  - by vm_compute.
  - intros [|[|i]] e; simpl; [intros [= <-] _; by vm_compute|by intros [= <-]|done].
  - intros [|[|i]] e; simpl; [intros [= <-] _; by eexists|by intros [= <-]|done].
  - by vm_compute.
  - intros z Hz%list_elem_of_singleton. subst. by split.
  - intros [|[|i]]; simpl; [intros H; vm_compute in H; discriminate| |done].
    intros _. by apply list_elem_of_singleton.
  - apply NoDup_singleton.
Qed.

Ltac slot_cases i :=
  destruct i as [|[|[|[|[|i]]]]]; simpl; try done.

Lemma S2_table_inv : stable_inv 4 S2_table.
Proof.
  split; simpl.
  - lia.
  - by repeat constructor.
  - by vm_compute.
  - intros i e. slot_cases i; intros [= <-] Hne; by vm_compute.
  - intros i e. slot_cases i; intros [= <-] Hne; try done; by eexists.
  - by vm_compute.
  - intros z Hz. repeat (apply elem_of_cons in Hz as [->|Hz]; [by split|]).
    by apply elem_of_nil in Hz.
  - intros i. slot_cases i; intros H; try (vm_compute in H; discriminate); decided.
  - decided.
Qed.

Lemma two_holes_inv : stable_inv 4 two_holes.
Proof.
  split; simpl.
  - lia.
  - by repeat constructor.
  - by vm_compute.
  - intros i e. slot_cases i; by intros [= <-] Hne.
  - intros i e. slot_cases i; by intros [= <-] Hne.
  - by vm_compute.
  - intros z Hz. repeat (apply elem_of_cons in Hz as [->|Hz]; [by split|]).
    by apply elem_of_nil in Hz.
  - intros i. slot_cases i; intros H; decided.
  - decided.
Qed.

Lemma stable_remove_leaves_tombstone_witness :
  ∃ t', remove 4 one_entity 1 = Ok t'
        ∧ entities t' = [NullEntity] ∧ tombstones t' = [0].
Proof.
  destruct (proj1 stable_remove_leaves_tombstone string 4 one_entity 1 0%nat
              one_entity_inv eq_refl) as (t' & Hrm & Hes & Hts & _).
  - by vm_compute.
  - exists t'. by split_and!.
Defined.

(** C10, refuted. In [extract], [_indexSet.extract(entity)] has reset the
    slot of the entity when [removeImpl] runs [_indexSet.remove(entity)]:
    the slot is null at that moment, for every table and entity, and the
    precondition of the sparse-set [remove] is violated. [tryRemove] reaches
    [removeImpl] with the slot still set. *)
Theorem stable_extract_resets_slot_twice :
  (∀ (C : Type) (t : table C) (e : Z),
     Sparse.remove_pre (indexSet (extract_before_removeImpl t e).2) e = false)
  ∧ Sparse.remove_pre (indexSet one_entity) 1 = true
  ∧ (extract_before_removeImpl one_entity 1).1 = 0
  ∧ Sparse.remove_pre (indexSet (extract_before_removeImpl one_entity 1).2) 1 = false
  ∧ (∃ t', extract 4 one_entity 1 = Ok ("a"%string, t') ∧ entities t' = [NullEntity]).
Proof.
  split_and!.
  - intros C t e. unfold extract_before_removeImpl, Sparse.extract, Sparse.remove_pre.
    simpl. rewrite sparse_at_remove_eq. by rewrite Z.eqb_refl.
  - by vm_compute.
  - by vm_compute.
  - by vm_compute.
  - eexists. split; [vm_compute; reflexivity|done].
Qed.

(** *** Iterators *)

(** Advancing from a slot after which every slot is a tombstone reads
    [entities] at its size. *)
Lemma operator_inc_no_live_after (es : list Z) (k : nat) :
  ∀ (i fuel : nat),
    vec_size es < 2 ^ 32 →
    (i + k + 1 = length es)%nat →
    (∀ j, (i < j)%nat → (j < length es)%nat → es !! j = Some NullEntity) →
    (k < fuel)%nat →
    operator_inc fuel es (Z.of_nat i) = Fault OutOfRange.
Proof.
  unfold vec_size. induction k as [|k IH]; intros i fuel Hsz Hik Hnull Hfuel.
  - destruct fuel as [|fuel]; [lia|]. simpl.
    replace (Z.of_nat i =? vec_size es) with false
      by (symmetry; apply Z.eqb_neq; unfold vec_size; lia).
    rewrite wrap_small by lia.
    rewrite vec_at_out; [done|]. unfold vec_size. lia.
  - destruct fuel as [|fuel]; [lia|]. simpl.
    replace (Z.of_nat i =? vec_size es) with false
      by (symmetry; apply Z.eqb_neq; unfold vec_size; lia).
    rewrite wrap_small by lia.
    replace (Z.of_nat i + 1) with (Z.of_nat (S i)) by lia.
    rewrite (vec_at_ok _ _ _ (Hnull (S i) ltac:(lia) ltac:(lia))). simpl.
    apply IH; [done|lia| |lia]. intros j ? ?. apply Hnull; lia.
Qed.

(** Advancing towards a live slot stops on it. *)
Lemma operator_inc_next_live (es : list Z) (k : nat) :
  ∀ (i fuel : nat) e,
    vec_size es < 2 ^ 32 →
    es !! (i + k + 1)%nat = Some e → e ≠ NullEntity →
    (∀ j, (i < j)%nat → (j < i + k + 1)%nat → es !! j = Some NullEntity) →
    (k < fuel)%nat →
    operator_inc fuel es (Z.of_nat i) = Ok (Z.of_nat (i + k + 1)).
Proof.
  unfold vec_size. induction k as [|k IH]; intros i fuel e Hsz He Hne Hnull Hfuel;
    pose proof (lookup_lt_Some _ _ _ He) as Hlt.
  - destruct fuel as [|fuel]; [lia|]. simpl.
    replace (Z.of_nat i =? vec_size es) with false
      by (symmetry; apply Z.eqb_neq; unfold vec_size; lia).
    rewrite wrap_small by lia.
    replace (Z.of_nat i + 1) with (Z.of_nat (i + 0 + 1)) by lia.
    rewrite (vec_at_ok _ _ _ He). simpl.
    replace (e =? NullEntityIndex) with false
      by (symmetry; by apply Z.eqb_neq).
    done.
  - destruct fuel as [|fuel]; [lia|]. simpl.
    replace (Z.of_nat i =? vec_size es) with false
      by (symmetry; apply Z.eqb_neq; unfold vec_size; lia).
    rewrite wrap_small by lia.
    replace (Z.of_nat i + 1) with (Z.of_nat (S i)) by lia.
    rewrite (vec_at_ok _ _ _ (Hnull (S i) ltac:(lia) ltac:(lia))). simpl.
    replace (i + S k + 1)%nat with (S i + k + 1)%nat in * by lia.
    apply (IH _ _ e); [done|done|done| |lia]. intros j ? ?. apply Hnull; lia.
Qed.

(** C9, refuted. [operator++] tests [_index == max] before the increment:
    from the last slot, and from any slot followed by tombstones only, it
    reads [entities.at(max)], one past the end. *)
Theorem operator_inc_reads_past_the_end :
  operator_inc 2 [7] 0 = Fault OutOfRange
  ∧ operator_inc 3 [7; NullEntity] 0 = Fault OutOfRange
  ∧ operator_inc 3 [7; NullEntity; 9] 0 = Ok 2
  ∧ operator_inc 1 [7] 1 = Ok 1.
Proof. by vm_compute. Qed.

End StableFacts.
(** ** Facts about the stable table: pack and sort *)

Module StableLoops.
Import Stable StableSpec StableFacts.

Section loops.
Context {C : Type}.
Variable Q : Z.
Hypothesis HQ : 0 < Q.
Implicit Types (t : table C) (pages : list (ComponentPage C)).

Local Abbreviation rd := (StableSpec.rd (C:=C) Q).
Local Abbreviation addr := (StableSpec.addr (C:=C) Q).
Local Abbreviation keep := (StableSpec.keep (C:=C) Q).
Local Abbreviation stable_mv := (StableSpec.stable_mv (C:=C) Q).

Lemma keep_refl pages : keep pages pages.
Proof. by split. Qed.

Lemma keep_trans a b c : keep a b → keep b c → keep a c.
Proof. intros [H1 H2] [H3 H4]. split; [congruence|auto]. Qed.

Lemma rd_Some pages p c : rd pages p = Some c ↔ atIndex Q pages (Z.of_nat p) = Ok c.
Proof.
  unfold StableSpec.rd. destruct (atIndex Q pages (Z.of_nat p)); split; congruence.
Qed.

Lemma rd_cell pages p c : rd pages p = Some c ↔ cell_at Q pages (Z.of_nat p) = Ok (Some c).
Proof. rewrite rd_Some. apply atIndex_cell. Qed.

Lemma rd_congr pages pages' p :
  cell_at Q pages' (Z.of_nat p) = cell_at Q pages (Z.of_nat p) → rd pages' p = rd pages p.
Proof. intros H. unfold StableSpec.rd. by rewrite (atIndex_congr Q _ _ _ H). Qed.

Lemma stable_move_components_generic moves : ∀ pages,
  move_components Q moves pages = Generic.moves_apply stable_mv moves pages.
Proof.
  induction moves as [|mi moves IH]; intros pages; [done|].
  cbn [move_components Generic.moves_apply]. unfold StableSpec.stable_mv.
  destruct (atIndex Q pages (range_begin mi)); simpl; [|done].
  destruct (cell_set Q pages (range_end mi) _); simpl; [|done].
  destruct (cell_set Q _ (range_begin mi) None); simpl; [|done]. apply IH.
Qed.

Lemma stable_mv_ok pages (b e : nat) :
  is_Some (rd pages b) → addr pages e → b ≠ e →
  ∃ pages', stable_mv pages (Z.of_nat b) (Z.of_nat e) = Ok pages'
            ∧ rd pages' e = rd pages b
            ∧ (∀ k, k ≠ e → k ≠ b → rd pages' k = rd pages k)
            ∧ (∀ k, addr pages k → addr pages' k)
            ∧ keep pages pages'.
Proof.
  intros [c Hb] [cell He] Hne.
  pose proof (proj1 (rd_Some _ _ _) Hb) as Hb'.
  pose proof (proj1 (rd_cell _ _ _) Hb) as Hbc.
  destruct (cell_set_spec Q HQ pages (Z.of_nat e) cell (Some c) ltac:(lia) He)
    as (pages1 & Hs1 & Hat1 & Hfr1 & Hlen1 & Hwf1).
  assert (Hbc1 : cell_at Q pages1 (Z.of_nat b) = Ok (Some c))
    by (rewrite Hfr1 by lia; done).
  destruct (cell_set_spec Q HQ pages1 (Z.of_nat b) (Some c) None ltac:(lia) Hbc1)
    as (pages2 & Hs2 & Hat2 & Hfr2 & Hlen2 & Hwf2).
  exists pages2. split_and!.
  - unfold StableSpec.stable_mv. rewrite Hb'. simpl. rewrite Hs1. simpl. done.
  - rewrite Hb. apply rd_cell. rewrite Hfr2 by lia. done.
  - intros k Hke Hkb. apply rd_congr. rewrite Hfr2, Hfr1 by lia. done.
  - intros k [cellk Hk]. unfold StableSpec.addr.
    destruct (decide (k = b)) as [->|Hkb]; [by eauto|].
    rewrite Hfr2 by lia.
    destruct (decide (k = e)) as [->|Hke]; [by eauto|].
    rewrite Hfr1 by lia. eauto.
  - split; [congruence|auto].
Qed.

Lemma cell_swap_ok pages (i j : nat) :
  is_Some (rd pages i) → is_Some (rd pages j) →
  ∃ pages', cell_swap Q pages (Z.of_nat i) (Z.of_nat j) = Ok pages'
            ∧ rd pages' i = rd pages j ∧ rd pages' j = rd pages i
            ∧ (∀ k, k ≠ i → k ≠ j → rd pages' k = rd pages k)
            ∧ keep pages pages'.
Proof.
  intros [ci Hi] [cj Hj].
  pose proof (proj1 (rd_Some _ _ _) Hi) as Hi'.
  pose proof (proj1 (rd_Some _ _ _) Hj) as Hj'.
  pose proof (proj1 (rd_cell _ _ _) Hi) as Hic.
  pose proof (proj1 (rd_cell _ _ _) Hj) as Hjc.
  destruct (cell_set_spec Q HQ pages (Z.of_nat i) _ (Some cj) ltac:(lia) Hic)
    as (pages1 & Hs1 & Hat1 & Hfr1 & Hlen1 & Hwf1).
  assert (∃ cell, cell_at Q pages1 (Z.of_nat j) = Ok cell) as [cell Hjc1].
  { destruct (decide (j = i)) as [->|Hne]; [by eauto|].
    rewrite Hfr1 by lia. eauto. }
  destruct (cell_set_spec Q HQ pages1 (Z.of_nat j) cell (Some ci) ltac:(lia) Hjc1)
    as (pages2 & Hs2 & Hat2 & Hfr2 & Hlen2 & Hwf2).
  exists pages2. split_and!.
  - unfold cell_swap. rewrite Hi', Hj'. simpl. rewrite Hs1. simpl. done.
  - rewrite Hj. apply rd_cell. destruct (decide (i = j)) as [->|Hne].
    + rewrite Hat2. congruence.
    + rewrite Hfr2 by lia. done.
  - rewrite Hi. by apply rd_cell.
  - intros k Hki Hkj. apply rd_congr. rewrite Hfr2, Hfr1 by lia. done.
  - split; [congruence|auto].
Qed.

Lemma stable_sort_chase_generic fuel : ∀ es cur next ce s pages,
  sort_chase Q fuel es cur next ce s pages
  = Generic.chase (cell_swap Q) fuel es cur next ce s pages.
Proof.
  induction fuel as [|fuel IH]; intros; simpl; [done|].
  destruct (cur =? next); [done|].
  destruct (vec_at es next); simpl; [|done].
  destruct (cell_swap Q pages next _); simpl; [|done].
  apply IH.
Qed.

Lemma stable_sort_patch_generic froms : ∀ es s pages,
  sort_patch Q froms es s pages = Generic.patch (cell_swap Q) froms es s pages.
Proof.
  induction froms as [|f froms IH]; intros; [done|].
  cbn [sort_patch Generic.patch].
  destruct (vec_at es f); [|done]. rewrite !bind_Ok_l.
  rewrite stable_sort_chase_generic.
  destruct (Generic.chase _ _ _ _ _ _ _ _) as [[s' pages']|]; [|done].
  rewrite !bind_Ok_l. apply IH.
Qed.

(** *** pack *)

Lemma get_live t i e :
  stable_inv Q t → entities t !! i = Some e → e ≠ NullEntity →
  ∃ c, get Q t e = Ok c ∧ rd (componentPages t) i = Some c.
Proof.
  intros Hinv Hi Hne. destruct (sinv_live _ _ Hinv _ _ Hi Hne) as [c Hc].
  exists c. unfold get. rewrite (sinv_index _ _ Hinv _ _ Hi Hne).
  split; [done|]. by apply rd_Some.
Qed.

Lemma pack_spec t :
  stable_inv Q t →
  ∃ t', pack Q t = Ok t'
    ∧ (tombstones t = [] → t' = t)
    ∧ tombstones t' = []
    ∧ stable_inv Q t'
    ∧ length (entities t') = (length (entities t) - length (tombstones t))%nat
    ∧ (∀ i e, entities t' !! i = Some e →
              e ≠ NullEntity ∧ e ∈ entities t
              ∧ Sparse.at_ (indexSet t') e = Z.of_nat i)
    ∧ (∀ e, e ∈ entities t → e ≠ NullEntity →
            e ∈ entities t' ∧ ∃ c, get Q t e = Ok c ∧ get Q t' e = Ok c).
Proof.
  intros Hinv. pose proof Hinv as [_ Hpw Hb Hidx Hlive Hcells Htomb Hholes Hnd].
  unfold vec_size in *.
  assert (Hb' : Z.of_nat (length (entities t)) < 2 ^ 32 - 1)
    by (by rewrite <- NullEntityIndex_val).
  assert (Hnotnull : tombstones t = [] → ∀ i e, entities t !! i = Some e → e ≠ NullEntity).
  { intros Hts i e Hi ->. apply Hholes in Hi. rewrite Hts in Hi. by apply elem_of_nil in Hi. }
  unfold pack. destruct (tombstones t) as [|z0 zs] eqn:Ets.
  - exists t. split_and!; try done.
    + simpl. lia.
    + intros i e Hi. pose proof (Hnotnull eq_refl i e Hi).
      split_and!; [done|by eapply list_elem_of_lookup_2|by apply Hidx].
    + intros e Hin Hne. split; [done|]. apply list_elem_of_lookup in Hin as [i Hi].
      destruct (get_live t i e Hinv Hi Hne) as (c & Hc & _). eauto.
  - rewrite <- Ets in *. clear Hnotnull.
    destruct (CompactFacts.sort_descending_nat (tombstones t))
      as (hs & Hsd & Hsorted & Hlhs & Hhs).
    { done. }
    { apply Forall_forall. intros z Hz. by apply Htomb. }
    rewrite Hsd. set (n := length (entities t)) in *.
    set (val := λ e, rd (componentPages t) (Z.to_nat (Sparse.at_ (indexSet t) e))).
    assert (Hhole : ∀ i, i ∈ hs ↔ entities t !! i = Some NullEntity).
    { intros i. rewrite Hhs. split; [|by apply Hholes].
      intros Hi. apply Htomb in Hi as [_ Hi]. by rewrite Nat2Z.id in Hi. }
    destruct (CompactFacts.compaction rd addr keep keep_refl keep_trans stable_mv
                stable_mv_ok val hs n (entities t) (indexSet t) (componentPages t))
      as (moves & es' & s' & pages' & Hmi & Hme & Hma & Hlen' & Hal & Hcomp & Hsound & Hfs & Hk).
    + done.
    + lia.
    + done.
    + apply Forall_forall. intros i Hi. apply Hhole in Hi. by eapply lookup_lt_Some.
    + intros i Hi. apply (sinv_cell_ok Q t i Hinv Hi).
    + intros i e [Hi Hih] He.
      assert (e ≠ NullEntity) as Hne by (intros ->; by apply Hih, Hhole).
      destruct (get_live t i e Hinv He Hne) as (c & _ & Hc).
      unfold val. rewrite (Hidx _ _ He Hne), Nat2Z.id, Hc. by split_and!.
    + unfold vec_size. fold n. rewrite Hmi, Hme. simpl.
      rewrite CompactFacts.wrap_pred_succ by lia.
      rewrite vec_erase_from_ok by lia. simpl.
      rewrite stable_move_components_generic, Hma. simpl.
      set (k := (n - length hs)%nat) in *.
      assert (Hlive' : ∀ i e, take k es' !! i = Some e →
                e ≠ NullEntity ∧ e ∈ entities t
                ∧ Sparse.at_ s' e = Z.of_nat i
                ∧ rd pages' i = val e ∧ is_Some (val e)).
      { intros i e Hi. apply lookup_take_Some in Hi as [Hi Hlt].
        destruct (Hsound i e Hlt Hi) as (j & [Hj Hjh] & Hej).
        destruct (Hal i e) as (Hat & Hr & Hv); [split; [done|apply not_elem_of_nil]|done|].
        split_and!; try done.
        - intros ->. by apply Hjh, Hhole.
        - by eapply list_elem_of_lookup_2. }
      eexists. split; [done|]. split_and!.
      * intros Hts. by rewrite Hts in Ets.
      * done.
      * destruct Hk as [Hklen Hkwf]. split; simpl.
        -- done.
        -- by apply Hkwf.
        -- unfold vec_size. rewrite length_take. rewrite NullEntityIndex_val. lia.
        -- intros i e Hi _. by apply Hlive'.
        -- intros i e Hi _. destruct (Hlive' i e Hi) as (_ & _ & _ & Hr & [c Hc]).
           exists c. apply rd_Some. by rewrite Hr.
        -- unfold vec_size. rewrite length_take, Hklen. lia.
        -- intros z Hz. by apply elem_of_nil in Hz.
        -- intros i Hi. by destruct (Hlive' i _ Hi) as [? _].
        -- constructor.
      * simpl. rewrite length_take, Hlen', <- Hlhs. lia.
      * simpl. intros i e Hi. destruct (Hlive' i e Hi) as (? & ? & ? & _). done.
      * simpl. intros e Hin Hne. apply list_elem_of_lookup in Hin as [i Hi].
        destruct (Hcomp i e) as (i' & Hi' & He'); [|done|].
        { split; [by eapply lookup_lt_Some|]. intros Hih. apply Hhole in Hih. congruence. }
        assert (Ht : take k es' !! i' = Some e) by (by apply lookup_take_Some).
        split; [by eapply list_elem_of_lookup_2|].
        destruct (get_live t i e Hinv Hi Hne) as (c & Hg & Hc). exists c. split; [done|].
        destruct (Hlive' i' e Ht) as (_ & _ & Hat & Hr & _).
        unfold get. simpl. rewrite Hat. apply rd_Some. rewrite Hr. unfold val.
        by rewrite (Hidx _ _ Hi Hne), Nat2Z.id.
Qed.

Lemma NoDup_filter_inj (P : Z → Prop) `{∀ x, Decision (P x)} (l : list Z) :
  (∀ i j e, l !! i = Some e → l !! j = Some e → P e → i = j) → NoDup (filter P l).
Proof.
  induction l as [|x l IH]; intros Hinj; [constructor|].
  assert (NoDup (filter P l)) as Hnd.
  { apply IH. intros i j e Hi Hj He.
    assert (S i = S j) by (by apply (Hinj (S i) (S j) e)). lia. }
  rewrite filter_cons. case_decide as Hx; [|done].
  constructor; [|done]. intros Hin. apply list_elem_of_filter in Hin as [_ Hin].
  apply list_elem_of_lookup in Hin as [j Hj].
  assert (0%nat = S j) by (by apply (Hinj 0%nat (S j) x)). lia.
Qed.

Lemma no_tombstone_NoDup t :
  stable_inv Q t → tombstones t = [] → NoDup (entities t) ∧ NullEntity ∉ entities t.
Proof.
  intros Hinv Hts.
  assert (Hnn : NullEntity ∉ entities t).
  { intros Hin. apply list_elem_of_lookup in Hin as [i Hi].
    apply (sinv_holes _ _ Hinv) in Hi. rewrite Hts in Hi. by apply elem_of_nil in Hi. }
  split; [|done]. apply NoDup_alt. intros i j e Hi Hj.
  apply (sinv_live_NoDup Q t i j e); [done|done|done|].
  intros ->. apply Hnn. by eapply list_elem_of_lookup_2.
Qed.

Lemma filter_all (P : Z → Prop) `{∀ x, Decision (P x)} (l : list Z) :
  Forall P l → filter P l = l.
Proof.
  induction 1 as [|x l Hx Hl IH]; [done|].
  rewrite filter_cons. rewrite decide_True by done. by rewrite IH.
Qed.

Lemma count_no_tombstone t :
  NullEntity ∉ entities t → count t = vec_size (entities t).
Proof.
  intros Hnn. unfold count. f_equal. apply filter_all.
  apply Forall_forall. intros e He ->. done.
Qed.

(** The count of [pack]'s result is the count of its argument. *)
Lemma pack_count t t' :
  stable_inv Q t → stable_inv Q t' → tombstones t' = [] →
  (∀ i e, entities t' !! i = Some e → e ≠ NullEntity ∧ e ∈ entities t) →
  (∀ e, e ∈ entities t → e ≠ NullEntity → e ∈ entities t') →
  entities t' ≡ₚ filter (λ e, e ≠ NullEntity) (entities t).
Proof.
  intros Hinv Hinv' Hts Hsound Hcomp.
  apply NoDup_Permutation.
  - by apply (no_tombstone_NoDup t').
  - apply NoDup_filter_inj. intros i j e Hi Hj Hne.
    by apply (sinv_live_NoDup Q t i j e).
  - intros e. rewrite list_elem_of_filter. split.
    + intros Hin. apply list_elem_of_lookup in Hin as [i Hi].
      destruct (Hsound i e Hi). done.
    + intros [Hne Hin]. by apply Hcomp.
Qed.

(** *** sort *)

(** [sort] after [pack], with any outcome of [std::sort] that is a
    permutation of the entities. *)
Lemma sort_packed_with_spec t sorted :
  stable_inv Q t → tombstones t = [] → sorted ≡ₚ entities t →
  ∃ t', sort_packed_with Q sorted t = Ok t'
        ∧ entities t' = sorted
        ∧ tombstones t' = []
        ∧ stable_inv Q t'
        ∧ (∀ e, e ∈ entities t → ∃ c, get Q t e = Ok c ∧ get Q t' e = Ok c).
Proof.
  intros Hinv Hts Hperm.
  destruct (no_tombstone_NoDup t Hinv Hts) as [Hnd Hnn].
  pose proof Hinv as [_ Hpw Hb Hidx Hlive Hcells Htomb Hholes Hndt].
  assert (Hnd' : NoDup sorted) by (by rewrite Hperm).
  assert (Hlen' : length sorted = length (entities t)) by (by rewrite Hperm).
  set (val := λ e, rd (componentPages t) (Z.to_nat (Sparse.at_ (indexSet t) e))).
  assert (Hpos : ∀ e, e ∈ entities t →
            ∃ p c, entities t !! p = Some e ∧ e ≠ NullEntity
                   ∧ Sparse.at_ (indexSet t) e = Z.of_nat p
                   ∧ rd (componentPages t) p = Some c ∧ val e = Some c
                   ∧ get Q t e = Ok c).
  { intros e Hin. assert (e ≠ NullEntity) as Hne by (intros ->; done).
    apply list_elem_of_lookup in Hin as [p Hp].
    destruct (get_live t p e Hinv Hp Hne) as (c & Hg & Hc).
    exists p, c. unfold val. rewrite (Hidx _ _ Hp Hne), Nat2Z.id. by split_and!. }
  assert (Hval : ∀ e, e ∈ sorted → is_Some (val e)).
  { intros e He. rewrite Hperm in He.
    destruct (Hpos e He) as (p & c & _ & _ & _ & _ & Hv & _). by rewrite Hv. }
  destruct (ChaseFacts.patch_aligns rd keep keep_refl keep_trans (cell_swap Q)
              cell_swap_ok sorted Hnd' val Hval (indexSet t) (componentPages t))
    as (s' & pages' & Hp & Hal & [Hklen Hkwf] & Hfs & _).
  - intros i e Hi.
    assert (e ∈ entities t) as Hin
      by (rewrite <- Hperm; by eapply list_elem_of_lookup_2).
    destruct (Hpos e Hin) as (p & c & Hep & _ & Hat & Hr & Hv & _).
    exists p. split_and!; [done| |by rewrite Hr, Hv].
    rewrite Hlen'. by eapply lookup_lt_Some.
  - intros i j e e' Hi Hj Heq.
    assert (e ∈ entities t) as Hin
      by (rewrite <- Hperm; by eapply list_elem_of_lookup_2).
    assert (e' ∈ entities t) as Hin'
      by (rewrite <- Hperm; by eapply list_elem_of_lookup_2).
    destruct (Hpos e Hin) as (p & c & Hep & _ & Hat & _).
    destruct (Hpos e' Hin') as (p' & c' & Hep' & _ & Hat' & _).
    rewrite Hat, Hat' in Heq. assert (p = p') as -> by lia.
    assert (e = e') as -> by congruence. by eapply NoDup_lookup.
  - exists (mkTable s' sorted pages' (tombstones t)). split_and!.
    + unfold sort_packed_with. rewrite stable_sort_patch_generic, Hp. done.
    + done.
    + done.
    + split; simpl.
      * done.
      * by apply Hkwf.
      * unfold vec_size. by rewrite Hlen'.
      * intros i e Hi _. by apply Hal.
      * intros i e Hi _. destruct (Hal _ _ Hi) as [_ Hr].
        destruct (Hval e) as [c Hc]; [by eapply list_elem_of_lookup_2|].
        exists c. apply rd_Some. by rewrite Hr.
      * unfold vec_size in *. rewrite Hlen', Hklen. done.
      * rewrite Hts. intros z Hz. by apply elem_of_nil in Hz.
      * intros i Hi. exfalso. apply Hnn. rewrite <- Hperm.
        by eapply list_elem_of_lookup_2.
      * done.
    + intros e Hin. destruct (Hpos e Hin) as (p & c & _ & _ & _ & _ & Hv & Hg).
      exists c. split; [done|].
      assert (e ∈ sorted) as Hin' by (by rewrite Hperm).
      apply list_elem_of_lookup in Hin' as [i Hi].
      destruct (Hal _ _ Hi) as [Hat Hr]. unfold get. simpl. rewrite Hat.
      apply rd_Some. by rewrite Hr.
Qed.

End loops.
End StableLoops.
(** ** tryRemove on both tables *)

Module SoftMiss.
Import DenseSpec StableSpec.

(** The sentinel [NullEntity] is no entity: it is what a stable table
    writes in the slot of a tombstone, where [findIndex] finds it. This is
    why the theorem on the stable table is about the identifiers other
    than the sentinel. *)
Lemma try_remove_null_entity_is_no_miss :
  ∃ t, one_tombstone = Ok t
       ∧ Stable.entities t = [1; NullEntity]
       ∧ Stable.tombstones t = [1]
       ∧ Stable.findIndex t NullEntity = 1
       ∧ Stable.tryRemove 4 t NullEntity = Fault Uninitialized
       ∧ Stable.tryRemove 4 t NullEntity ≠ Ok (false, t).
Proof.
  eexists. split; [vm_compute; reflexivity|].
  split_and!; try (by vm_compute).
Qed.

(** C8. On every table that keeps its invariant and for every entity,
    which on a stable table is every identifier but the sentinel
    [NullEntity] of the holes: [tryRemove] returns false and the same
    table when the entity is absent, and otherwise returns true and the
    table that [remove] returns; the [tryRemove] of the former revision,
    which returns nothing, leaves the same tables. Neither path faults. *)
Theorem try_remove_soft_miss :
  (∀ (C : Type) (t : Dense.table C) (e : Z),
     dense_inv t →
     (e ∉ Dense.entities t →
        Dense.tryRemove t e = Ok (false, t) ∧ Dense.tryRemove_void t e = Ok t)
     ∧ (e ∈ Dense.entities t →
        ∃ t', Dense.remove t e = Ok t'
              ∧ Dense.tryRemove t e = Ok (true, t')
              ∧ Dense.tryRemove_void t e = Ok t'))
  ∧ (∀ (C : Type) (Q : Z) (t : Stable.table C) (e : Z),
       stable_inv Q t → e ≠ NullEntity →
       (e ∉ Stable.entities t → Stable.tryRemove Q t e = Ok (false, t))
       ∧ (e ∈ Stable.entities t →
          ∃ t', Stable.remove Q t e = Ok t'
                ∧ Stable.tryRemove Q t e = Ok (true, t'))).
Proof.
  split.
  - intros C t e Hinv. split.
    + intros Habs. split.
      * by apply DenseFacts.dense_tryRemove_absent.
      * by apply DenseFacts.dense_tryRemove_void_absent.
    + intros Hin. apply list_elem_of_lookup in Hin as [idx Hidx].
      destruct (DenseFacts.inv_lasts _ _ _ Hinv Hidx) as (lastE & lastC & HlE & HlC).
      exists (DenseSpec.swap_removed t e idx lastE lastC). split_and!.
      * by apply DenseFacts.dense_remove_spec.
      * by apply DenseFacts.dense_tryRemove_present.
      * by apply DenseFacts.dense_tryRemove_void_present.
  - intros C Q t e Hinv Hne. split.
    + intros Habs. by apply StableFacts.stable_tryRemove_absent.
    + intros Hin. apply list_elem_of_lookup in Hin as [i Hi].
      destruct (StableFacts.stable_remove_spec Q t e i Hinv Hi Hne) as (pages' & Hset & Hrm).
      destruct (StableFacts.stable_tryRemove_present Q t e i Hinv Hi Hne)
        as (pages2 & Hset2 & Htry).
      rewrite Hset in Hset2. injection Hset2 as <-.
      exists (StableSpec.tombstoned t e i pages'). by split.
Qed.

Lemma try_remove_soft_miss_witness :
  (∃ t', Dense.remove DenseSpec.S1_table 1 = Ok t'
         ∧ Dense.tryRemove DenseSpec.S1_table 1 = Ok (true, t'))
  ∧ Dense.tryRemove DenseSpec.S1_table 9 = Ok (false, DenseSpec.S1_table)
  ∧ (∃ t', Stable.remove 4 StableSpec.one_entity 1 = Ok t'
           ∧ Stable.tryRemove 4 StableSpec.one_entity 1 = Ok (true, t'))
  ∧ Stable.tryRemove 4 StableSpec.one_entity 9 = Ok (false, StableSpec.one_entity)
  ∧ Stable.tryRemove 4 StableSpec.S2_table 2 = Ok (false, StableSpec.S2_table)
  ∧ (∃ t', Stable.remove 4 StableSpec.S2_table 3 = Ok t'
           ∧ Stable.tryRemove 4 StableSpec.S2_table 3 = Ok (true, t')).
Proof.
  destruct try_remove_soft_miss as [Hd Hs].
  destruct (Hd string DenseSpec.S1_table 1 DenseFacts.S1_table_inv) as [_ Hd1].
  destruct (Hd string DenseSpec.S1_table 9 DenseFacts.S1_table_inv) as [Hd9 _].
  assert (1 ≠ NullEntity) as H1 by (by vm_compute).
  assert (9 ≠ NullEntity) as H9 by (by vm_compute).
  destruct (Hs string 4 StableSpec.one_entity 1 StableFacts.one_entity_inv H1) as [_ Hs1].
  destruct (Hs string 4 StableSpec.one_entity 9 StableFacts.one_entity_inv H9) as [Hs9 _].
  assert (2 ≠ NullEntity) as H2 by (by vm_compute).
  assert (3 ≠ NullEntity) as H3 by (by vm_compute).
  destruct (Hs string 4 StableSpec.S2_table 2 StableFacts.S2_table_inv H2) as [Hh2 _].
  destruct (Hs string 4 StableSpec.S2_table 3 StableFacts.S2_table_inv H3) as [_ Hh3].
  split_and!.
  - destruct Hd1 as (t' & ? & ? & _); [apply list_elem_of_here|]. by exists t'.
  - apply Hd9. vm_compute. intros Hin.
    repeat (apply elem_of_cons in Hin as [Hin|Hin]; [discriminate|]).
    by apply elem_of_nil in Hin.
  - apply Hs1. apply list_elem_of_here.
  - apply Hs9. vm_compute. intros Hin.
    repeat (apply elem_of_cons in Hin as [Hin|Hin]; [discriminate|]).
    by apply elem_of_nil in Hin.
  - apply Hh2. decided.
  - apply Hh3. decided.
Defined.

End SoftMiss.
(** ** The entity allocator and the set of live identifiers *)

Module AllocatorLive.
Import Allocator AllocatorFacts.

Lemma is_free_cons x r rest : is_free x (r :: rest) ↔ in_range x r ∨ is_free x rest.
Proof. unfold is_free. apply Exists_cons. Qed.

Lemma is_free_nil x : ¬ is_free x [].
Proof. unfold is_free. intros H. by apply Exists_nil in H. Qed.

Lemma is_free_snoc x free r : is_free x (free ++ [r]) ↔ is_free x free ∨ in_range x r.
Proof.
  unfold is_free. rewrite Exists_app, Exists_cons, Exists_nil. tauto.
Qed.

Lemma disjoint_not_free x r rest :
  in_range x r → Forall (disjoint r) rest → ¬ is_free x rest.
Proof.
  intros Hx Hd Hf. apply Exists_exists in Hf as (r' & Hin & Hx').
  pose proof (Forall_elem _ _ _ Hd Hin) as H.
  unfold disjoint, in_range in *. lia.
Qed.

(** [add]: the identifier is new, and it is the only change to the set of
    live identifiers. *)
Lemma add_live s :
  alloc_inv s → lastEntity s + 1 < NullEntity →
  1 ≤ (add s).1 < NullEntity
  ∧ ¬ live (add s).1 s
  ∧ live (add s).1 (add s).2
  ∧ (∀ x, x ≠ (add s).1 → (live x (add s).2 ↔ live x s))
  ∧ (freeEntities s = [] → (add s).1 = lastEntity s + 1)
  ∧ (freeEntities s ≠ [] →
     (add s).1 ≤ lastEntity s ∧ lastEntity (add s).2 = lastEntity s).
Proof.
  intros [Hl Hr Hd] Hroom. unfold add, live. null_val.
  destruct (freeEntities s) as [|r rest] eqn:Hfree.
  - simpl. rewrite wrap_small by lia.
    split; [|split; [|split; [|split; [|split]]]].
    + lia.
    + intros [? _]. lia.
    + split; [lia|apply is_free_nil].
    + intros x Hx. split; intros [? ?]; (split; [lia|apply is_free_nil]).
    + done.
    + done.
  - inversion Hr as [|? ? (Hb1 & Hb2 & Hb3) Hr']; subst. destruct Hd as [Hd1 Hd2].
    assert (Hin : in_range (range_begin r) r) by (unfold in_range; lia).
    simpl. rewrite wrap_small by lia.
    destruct (Z.eqb_spec (range_begin r + 1) (range_end r)) as [He|He]; simpl;
      (split; [|split; [|split; [|split; [|split]]]]); try done; try lia;
      try (intros; discriminate).
    + intros [_ Hnf]. apply Hnf. apply is_free_cons. by left.
    + split; [lia|]. by eapply disjoint_not_free.
    + intros x Hx. rewrite is_free_cons. unfold in_range. split.
      * intros [? Hnf]. split; [done|]. intros [?|?]; [lia|done].
      * intros [? Hnf]. split; [done|]. tauto.
    + intros [_ Hnf]. apply Hnf. apply is_free_cons. by left.
    + split; [lia|]. rewrite is_free_cons. unfold in_range. simpl.
      intros [?|Hf]; [lia|]. by eapply disjoint_not_free.
    + intros x Hx. rewrite !is_free_cons. unfold in_range. simpl. split.
      * intros [? Hnf]. split; [done|]. intros [?|?]; [|tauto]. apply Hnf. left. lia.
      * intros [? Hnf]. split; [done|]. intros [?|?]; [|tauto]. apply Hnf. left. lia.
Qed.

(** The scan of [addRange] takes the first [count] identifiers of the first
    free range that holds as many. *)
Lemma addRange_scan_free count last free range free' :
  0 ≤ count → 0 ≤ last < 2 ^ 32 - 1 →
  Forall (range_ok last) free → pairwise_disjoint free →
  addRange_scan count free = Some (range, free') →
  range_end range = range_begin range + count
  ∧ 1 ≤ range_begin range ∧ range_end range ≤ last + 1
  ∧ (∀ x, in_range x range → is_free x free)
  ∧ (∀ x, is_free x free' ↔ is_free x free ∧ ¬ in_range x range).
Proof.
  intros Hc Hl. revert range free'.
  induction free as [|r rest IH]; intros range free' Hr Hd Hs; simpl in Hs; [done|].
  inversion Hr as [|? ? (Hb1 & Hb2 & Hb3) Hr']; subst.
  destruct Hd as [Hd1 Hd2].
  rewrite (wrap_small (range_end r - range_begin r)) in Hs by lia.
  destruct (Z.ltb_spec (range_end r - range_begin r) count).
  - destruct (addRange_scan count rest) as [[rg' rest']|] eqn:Hrest; [|done].
    injection Hs as <- <-.
    destruct (IH _ _ Hr' Hd2 eq_refl) as (He & Hb & Hle & Hsub & Hiff).
    split_and!; try done.
    + intros x Hx. apply is_free_cons. right. by apply Hsub.
    + intros x. rewrite !is_free_cons, Hiff. split; [|tauto].
      intros [Hxr|[Hf Hn]]; [|tauto]. split; [by left|].
      intros Hx. apply Hsub in Hx. by eapply disjoint_not_free.
  - rewrite wrap_small in Hs by lia. simpl in Hs.
    assert (Hrange : range = mkRange (range_begin r) (range_begin r + count)).
    { destruct (range_begin r + count =? range_end r); by injection Hs as <- _. }
    subst range. simpl. split_and!; try lia.
    + intros x Hx. apply is_free_cons. left. unfold in_range in *. simpl in *. lia.
    + intros x.
      assert (Hrest : in_range x (mkRange (range_begin r) (range_begin r + count)) →
                      ¬ is_free x rest).
      { intros Hx. apply (disjoint_not_free x r); [|done].
        unfold in_range in *. simpl in *. lia. }
      destruct (Z.eqb_spec (range_begin r + count) (range_end r));
        injection Hs as <-; rewrite ?is_free_cons; unfold in_range in *; simpl in *.
      * split; [|intros [[?|?] ?]; [lia|done]].
        intros Hf. split; [by right|]. intros Hx. by apply Hrest.
      * split.
        -- intros [?|Hf]; [split; [left|]; lia|]. split; [by right|].
           intros Hx. by apply Hrest.
        -- intros [[?|?] ?]; [left; lia|by right].
Qed.

Lemma addRange_live count s :
  alloc_inv s → 0 ≤ count → lastEntity s + count < NullEntity →
  range_end (addRange count s).1 = range_begin (addRange count s).1 + count
  ∧ 1 ≤ range_begin (addRange count s).1
  ∧ range_end (addRange count s).1 ≤ NullEntity
  ∧ (∀ x, in_range x (addRange count s).1 →
          ¬ live x s ∧ live x (addRange count s).2)
  ∧ (∀ x, ¬ in_range x (addRange count s).1 →
          (live x (addRange count s).2 ↔ live x s)).
Proof.
  intros [Hl Hr Hd] Hc Hroom. fold (range_ok (lastEntity s)) in Hr.
  unfold addRange, live. null_val.
  destruct (addRange_scan count (freeEntities s)) as [[range free']|] eqn:Hs; simpl.
  - destruct (addRange_scan_free _ _ _ _ _ Hc Hl Hr Hd Hs) as (He & Hb & Hle & Hsub & Hiff).
    split_and!; try done; try lia.
    + intros x Hx. split; [intros [_ Hnf]; by apply Hnf, Hsub|].
      split; [unfold in_range in Hx; lia|]. rewrite Hiff. tauto.
    + intros x Hx. rewrite Hiff. tauto.
  - rewrite (wrap_small (lastEntity s + 1)), !wrap_small by lia.
    assert (Hbelow : ∀ x, is_free x (freeEntities s) → x ≤ lastEntity s).
    { intros x Hf. apply Exists_exists in Hf as (r & Hin & Hx).
      pose proof (Forall_elem _ _ _ Hr Hin) as Hok.
      unfold range_ok, in_range in *. lia. }
    split_and!; try lia.
    + intros x Hx. unfold in_range in Hx. simpl in Hx. split; [intros [? _]; lia|].
      split; [lia|]. intros Hf. apply Hbelow in Hf. lia.
    + intros x Hx. unfold in_range in Hx. simpl in Hx. split.
      * intros [? Hnf]. split; [lia|done].
      * intros [? Hnf]. split; [lia|done].
Qed.

(** The scan of [removeRange] adds the identifiers of the range to the free
    list, and nothing else. *)
Lemma removeRange_scan_free rg free free' :
  range_begin rg < range_end rg →
  Forall (λ r, range_begin r < range_end r) free →
  removeRange_scan rg free = Some free' →
  ∀ x, is_free x free' ↔ is_free x free ∨ in_range x rg.
Proof.
  intros Hrg. revert free'.
  induction free as [|r rest IH]; intros free' Hne Hs x; simpl in Hs; [done|].
  inversion Hne as [|? ? Hr Hne']; subst.
  destruct (negb (range_begin r =? range_end rg)
            && negb (range_end r =? range_begin rg)) eqn:Hc.
  - destruct (removeRange_scan rg rest) as [rest'|] eqn:Hrest; [|done].
    simpl in Hs. injection Hs as <-. rewrite !is_free_cons, (IH _ Hne' eq_refl). tauto.
  - destruct (Z.eqb_spec (range_end r) (range_begin rg)) as [He|He]; injection Hs as <-;
      rewrite !is_free_cons; unfold in_range; simpl.
    + split; [intros [?|?]|intros [[?|?]|?]]; try tauto; lia.
    + simpl in Hc. rewrite andb_true_r in Hc.
      apply negb_false_iff, Z.eqb_eq in Hc.
      split; [intros [?|?]|intros [[?|?]|?]]; try tauto; lia.
Qed.

Lemma removeRange_live rg s :
  alloc_inv s → range_begin rg < range_end rg →
  (∀ x, in_range x rg → live x s) →
  (∀ x, in_range x rg → ¬ live x (removeRange rg s))
  ∧ (∀ x, ¬ in_range x rg → (live x (removeRange rg s) ↔ live x s)).
Proof.
  intros [Hl Hr Hd] Hne Hlive. null_val.
  assert (Hb : 1 ≤ range_begin rg).
  { apply (Hlive (range_begin rg)). unfold in_range. lia. }
  assert (He : range_end rg ≤ lastEntity s + 1).
  { destruct (Hlive (range_end rg - 1)) as [? _]; [unfold in_range|]; lia. }
  assert (Hnonempty : Forall (λ r, range_begin r < range_end r) (freeEntities s)).
  { eapply Forall_impl; [exact Hr|]. simpl. lia. }
  unfold removeRange, live. rewrite (wrap_small (range_end rg - 1)) by lia.
  destruct (Z.eqb_spec (range_end rg - 1) (lastEntity s)) as [Hlast|Hlast]; simpl.
  - rewrite wrap_small by lia. unfold in_range. split.
    + intros x Hx [? _]. lia.
    + intros x Hx. split; intros [? ?]; (split; [lia|done]).
  - destruct (removeRange_scan rg (freeEntities s)) as [free'|] eqn:Hs; simpl.
    + pose proof (removeRange_scan_free _ _ _ Hne Hnonempty Hs) as Hiff. split.
      * intros x Hx [_ Hnf]. apply Hnf, Hiff. by right.
      * intros x Hx. rewrite Hiff. tauto.
    + split.
      * intros x Hx [_ Hnf]. apply Hnf, is_free_snoc. by right.
      * intros x Hx. rewrite is_free_snoc. tauto.
Qed.

(** [remove] is [removeRange] of the one-identifier range. *)
Lemma remove_as_range entity s :
  alloc_inv s → live entity s →
  remove entity s = removeRange (mkRange entity (entity + 1)) s.
Proof.
  intros [Hl Hr Hd] [Hrange Hnf]. null_val. unfold remove, removeRange. simpl.
  replace (entity + 1 - 1) with entity by lia. rewrite (wrap_small entity) by lia.
  destruct (Z.eqb_spec entity (lastEntity s)) as [->|Hne]; [done|].
  rewrite remove_scan_as_range; [|lia|lia|].
  - by rewrite (wrap_small (entity + 1)) by lia.
  - eapply Forall_impl; [exact Hr|]. simpl. lia.
Qed.

Lemma remove_live entity s :
  alloc_inv s → live entity s →
  ¬ live entity (remove entity s)
  ∧ (∀ x, x ≠ entity → (live x (remove entity s) ↔ live x s)).
Proof.
  intros Hinv Hlive. rewrite (remove_as_range _ _ Hinv Hlive).
  destruct (removeRange_live (mkRange entity (entity + 1)) s Hinv) as [H1 H2].
  - simpl. lia.
  - intros x Hx. unfold in_range in Hx. simpl in Hx. by replace x with entity by lia.
  - split.
    + apply H1. unfold in_range. simpl. lia.
    + intros x Hx. apply H2. unfold in_range. simpl. lia.
Qed.

End AllocatorLive.
(** ** The dense table: insertion, lookup, extraction, ranges, traversal *)

Module DenseMore.
Import Dense DenseSpec DenseFacts DenseLoops DenseSteps.

Section more.
Context {C : Type}.
Implicit Types (t : table C) (m : gmap Z C) (cs : list C).

(** *** The values of a table *)

Lemma values_represents t : dense_inv t → represents t (values t).
Proof.
  intros Hinv. pose proof (inv_NoDup _ Hinv) as Hnd.
  pose proof (inv_len _ Hinv) as Hlen.
  assert (Hfst : (zip (entities t) (components t)).*1 = entities t)
    by (apply fst_zip; lia).
  split.
  - intros i e Hi. destruct (inv_component _ _ _ Hinv Hi) as [c Hc].
    exists c. split; [done|]. unfold values.
    apply elem_of_list_to_map; [by rewrite Hfst|].
    apply list_elem_of_lookup. exists i. apply lookup_zip_with_Some. eauto.
  - intros e [c Hc]. unfold values in Hc.
    apply elem_of_list_to_map_2 in Hc.
    apply list_elem_of_lookup in Hc as [i Hi].
    apply lookup_zip_with_Some in Hi as (x & y & [= <- <-] & Hx & Hy).
    by eapply list_elem_of_lookup_2.
Qed.

Lemma represents_get t m e :
  dense_inv t → represents t m → e ∈ entities t →
  ∃ c, m !! e = Some c ∧ get t e = Ok c.
Proof.
  intros Hinv [Hrep _] Hin. apply list_elem_of_lookup in Hin as [i Hi].
  destruct (Hrep _ _ Hi) as (c & Hc & Hm). exists c. split; [done|].
  by eapply get_at.
Qed.

(** Two tables that agree on the value of an entity return the same
    component for it. *)
Lemma represents_same t m t' m' e :
  dense_inv t → represents t m → dense_inv t' → represents t' m' →
  e ∈ entities t → e ∈ entities t' → m' !! e = m !! e →
  get t' e = get t e.
Proof.
  intros Hinv Hrep Hinv' Hrep' Hin Hin' Hm.
  destruct (represents_get _ _ _ Hinv Hrep Hin) as (c & Hc & ->).
  destruct (represents_get _ _ _ Hinv' Hrep' Hin') as (c' & Hc' & ->).
  congruence.
Qed.

Lemma represents_dom t m e : dense_inv t → represents t m → e ∈ entities t ↔ is_Some (m !! e).
Proof.
  intros Hinv Hrep. split; [|apply Hrep].
  intros Hin. destruct (represents_get _ _ _ Hinv Hrep Hin) as (c & Hc & _). eauto.
Qed.

(** *** add *)

Lemma add_get t e c :
  dense_inv t → e ∉ entities t → has_room t 1 →
  dense_inv (add t e c)
  ∧ entities (add t e c) = entities t ++ [e]
  ∧ count (add t e c) = count t + 1
  ∧ exists_ (add t e c) e = true
  ∧ get (add t e c) e = Ok c
  ∧ getUnstableIndex (add t e c) e = count t
  ∧ (∀ e', e' ∈ entities t →
       get (add t e c) e' = get t e'
       ∧ getUnstableIndex (add t e c) e' = getUnstableIndex t e').
Proof.
  intros Hinv Habs Hroom. unfold add.
  pose proof (values_represents _ Hinv) as Hrep.
  destruct (addImpl_spec t _ e c Hinv Hrep Habs Hroom) as [Hinv' Hrep'].
  assert (Hin : e ∈ entities (addImpl t e c)) by (simpl; set_solver).
  split_and!; try done.
  - unfold count, vec_size. simpl. rewrite length_app. simpl. lia.
  - by apply exists_elem.
  - destruct (represents_get _ _ _ Hinv' Hrep' Hin) as (c' & Hc' & ->).
    rewrite lookup_insert_eq in Hc'. congruence.
  - unfold getUnstableIndex. simpl. apply sparse_at_add_eq.
  - intros e' Hin'. assert (e' ≠ e) by congruence. split.
    + apply (represents_same t (values t) _ (<[e:=c]> (values t))); try done.
      * simpl. set_solver.
      * by rewrite lookup_insert_ne.
    + unfold getUnstableIndex. simpl. by rewrite sparse_at_add_ne.
Qed.

(** *** tryAdd *)

Lemma tryAdd_upsert t e c :
  dense_inv t → (e ∉ entities t → has_room t 1) →
  ∃ t', tryAdd t e c = Ok t'
    ∧ dense_inv t'
    ∧ get t' e = Ok c
    ∧ (e ∈ entities t → entities t' = entities t ∧ indexSet t' = indexSet t)
    ∧ (e ∉ entities t → t' = add t e c)
    ∧ (∀ e', e' ∈ entities t → e' ≠ e → get t' e' = get t e').
Proof.
  intros Hinv Hroom. pose proof (values_represents _ Hinv) as Hrep.
  unfold tryAdd. destruct (decide (e ∈ entities t)) as [Hin|Habs].
  - apply list_elem_of_lookup in Hin as [i Hi].
    rewrite (inv_findIndex _ _ _ Hinv Hi).
    pose proof (inv_lookup_lt _ _ _ Hinv Hi).
    replace (Z.of_nat i =? NullEntityIndex) with false
      by (symmetry; apply Z.eqb_neq; lia).
    simpl. rewrite (inv_index _ Hinv _ _ Hi).
    rewrite vec_set_ok
      by (rewrite <- (inv_len _ Hinv); by eapply lookup_lt_Some).
    simpl. eexists. split; [done|].
    destruct (overwrite_spec t _ i e c Hinv Hrep Hi) as [Hinv' Hrep'].
    assert (Hin : e ∈ entities t) by (by eapply list_elem_of_lookup_2).
    split_and!; try done.
    + destruct (represents_get _ _ e Hinv' Hrep' Hin) as (c' & Hc' & ->).
      rewrite lookup_insert_eq in Hc'. congruence.
    + intros e' Hin' Hne.
      apply (represents_same t (values t) _ (<[e:=c]> (values t))); try done.
      by rewrite lookup_insert_ne.
  - rewrite findIndex_absent by done. rewrite Z.eqb_refl. simpl.
    destruct (add_get t e c Hinv Habs (Hroom Habs)) as (Hinv' & _ & _ & _ & Hg & _ & Hfr).
    eexists. split; [done|]. split_and!; try done.
    intros e' Hin' _. by apply Hfr.
Qed.

Lemma tryAddWith_upsert (dflt : C) t e (functor : C → C) :
  dense_inv t → (e ∉ entities t → has_room t 1) →
  ∃ t', tryAddWith dflt t e functor = Ok t'
    ∧ dense_inv t'
    ∧ (∀ c, e ∈ entities t → get t e = Ok c →
            get t' e = Ok (functor c) ∧ entities t' = entities t)
    ∧ (e ∉ entities t → t' = add t e (functor dflt))
    ∧ (∀ e', e' ∈ entities t → e' ≠ e → get t' e' = get t e').
Proof.
  intros Hinv Hroom. pose proof (values_represents _ Hinv) as Hrep.
  unfold tryAddWith. destruct (decide (e ∈ entities t)) as [Hin|Habs].
  - apply list_elem_of_lookup in Hin as [i Hi].
    rewrite (inv_findIndex _ _ _ Hinv Hi).
    pose proof (inv_lookup_lt _ _ _ Hinv Hi).
    replace (Z.of_nat i =? NullEntityIndex) with false
      by (symmetry; apply Z.eqb_neq; lia).
    simpl. destruct (inv_component _ _ _ Hinv Hi) as [c0 Hc0].
    rewrite (vec_at_ok _ _ _ Hc0). simpl.
    rewrite vec_set_ok by (by eapply lookup_lt_Some).
    simpl. eexists. split; [done|].
    destruct (overwrite_spec t _ i e (functor c0) Hinv Hrep Hi) as [Hinv' Hrep'].
    assert (Hin : e ∈ entities t) by (by eapply list_elem_of_lookup_2).
    split_and!; try done.
    + intros c _ Hg. rewrite (get_at _ _ _ _ Hinv Hi Hc0) in Hg. injection Hg as <-.
      split; [|done].
      destruct (represents_get _ _ e Hinv' Hrep' Hin) as (c' & Hc' & ->).
      rewrite lookup_insert_eq in Hc'. congruence.
    + intros e' Hin' Hne.
      apply (represents_same t (values t) _ (<[e:=functor c0]> (values t))); try done.
      by rewrite lookup_insert_ne.
  - rewrite findIndex_absent by done. rewrite Z.eqb_refl. simpl.
    destruct (add_get t e (functor dflt) Hinv Habs (Hroom Habs))
      as (Hinv' & _ & _ & _ & Hg & _ & Hfr).
    eexists. split; [done|]. split_and!; try done.
    intros e' Hin' _. by apply Hfr.
Qed.

(** *** addRange *)

Lemma addRange_entities t range c :
  0 ≤ range_begin range ≤ range_end range → range_end range < 2 ^ 32 →
  entities (addRange t range c)
  = entities t ++ seqZ (range_begin range) (range_end range - range_begin range)
  ∧ components (addRange t range c)
    = components t ++ replicate (Z.to_nat (range_end range - range_begin range)) c.
Proof.
  intros Hbe He. unfold addRange. simpl.
  rewrite (wrap_small (range_end range - range_begin range)) by lia.
  split; [|done]. f_equal.
  replace (seqZ (range_begin range) (range_end range - range_begin range))
    with (seqZ (range_begin range + 0) (range_end range - range_begin range))
    by (f_equal; lia).
  rewrite <- fmap_add_seqZ.
  apply Forall_fmap_ext_1. apply Forall_seqZ. intros k Hk. simpl.
  rewrite wrap_small; lia.
Qed.

Lemma addRange_get t range c :
  dense_inv t → pre (AddRange range c) t →
  dense_inv (addRange t range c)
  ∧ entities (addRange t range c)
    = entities t ++ seqZ (range_begin range) (range_end range - range_begin range)
  ∧ count (addRange t range c) = count t + (range_end range - range_begin range)
  ∧ (∀ e, range_begin range ≤ e < range_end range →
          exists_ (addRange t range c) e = true ∧ get (addRange t range c) e = Ok c)
  ∧ (∀ e, e ∈ entities t → get (addRange t range c) e = get t e).
Proof.
  intros Hinv Hpre. pose proof (values_represents _ Hinv) as Hrep.
  destruct (addRange_spec t _ range c Hinv Hrep Hpre) as [Hinv' Hrep'].
  pose proof Hpre as (Hbe & He32 & Hfree & Hroom).
  destruct (addRange_entities t range c Hbe He32) as [Hes Hcs].
  assert (Hmodel : ∀ key, model_step (AddRange range c) (values t) !! key
            = if decide (key ∈ range_entities range) then Some c else values t !! key).
  { intros key. simpl. apply addRange_model. }
  split_and!; try done.
  - unfold count, vec_size. rewrite Hes, length_app, length_seqZ. lia.
  - intros e He.
    assert (Hin : e ∈ entities (addRange t range c)).
    { rewrite Hes. apply elem_of_app. right. apply elem_of_seqZ. lia. }
    split; [by apply exists_elem|].
    destruct (represents_get _ _ _ Hinv' Hrep' Hin) as (c' & Hc' & ->).
    rewrite Hmodel in Hc'. rewrite decide_True in Hc'; [congruence|].
    unfold range_entities. apply elem_of_seqZ. lia.
  - intros e Hin.
    apply (represents_same t (values t) _ (model_step (AddRange range c) (values t)));
      try done.
    + rewrite Hes. apply elem_of_app. by left.
    + rewrite Hmodel. rewrite decide_False; [done|].
      unfold range_entities. intros Hr%elem_of_seqZ.
      pose proof (Forall_elem _ _ _ Hfree Hin) as Hn. simpl in Hn. lia.
Qed.

(** *** extract *)

Lemma extract_get_remove t e :
  dense_inv t → e ∈ entities t →
  ∃ c t', get t e = Ok c ∧ remove t e = Ok t' ∧ extract t e = Ok (c, t')
          ∧ tryRemove t e = Ok (true, t')
          ∧ dense_inv t' ∧ e ∉ entities t'.
Proof.
  intros Hinv Hin. apply list_elem_of_lookup in Hin as [idx Hidx].
  destruct (inv_lasts _ _ _ Hinv Hidx) as (lastE & lastC & HlE & HlC).
  destruct (inv_component _ _ _ Hinv Hidx) as [c Hc].
  exists c, (swap_removed t e idx lastE lastC).
  destruct (swap_removed_inv t e idx lastE lastC Hinv Hidx HlE HlC) as (Hinv' & Hnot & _).
  split_and!; try done.
  - by eapply get_at.
  - by apply dense_remove_spec.
  - by apply dense_extract_spec.
  - by apply dense_tryRemove_present.
Qed.

(** [remove] and the former [tryRemove] on a present entity: the entity
    leaves and the others keep their components. *)
Lemma remove_frame t e :
  dense_inv t → e ∈ entities t →
  ∃ t', remove t e = Ok t' ∧ tryRemove_void t e = Ok t'
        ∧ dense_inv t'
        ∧ (∀ e', e' ∈ entities t' ↔ e' ∈ entities t ∧ e' ≠ e)
        ∧ (∀ e', e' ∈ entities t' → get t' e' = get t e').
Proof.
  intros Hinv Hin. apply list_elem_of_lookup in Hin as [idx Hidx].
  destruct (inv_lasts _ _ _ Hinv Hidx) as (lastE & lastC & HlE & HlC).
  exists (swap_removed t e idx lastE lastC).
  destruct (swap_removed_inv t e idx lastE lastC Hinv Hidx HlE HlC)
    as (Hinv' & Hnot & Hkeep & Hsub & Hval).
  split; [by apply dense_remove_spec|].
  split; [by apply dense_tryRemove_void_present|].
  split; [done|]. split.
  - intros e'. split.
    + intros He'. split; [by apply Hsub|]. by intros ->.
    + intros [He' Hne]. by apply Hkeep.
  - intros e' He'. apply list_elem_of_lookup in He' as [i' Hi'].
    destruct (Hval _ _ Hi') as (j & Hj & Hc).
    destruct (inv_component _ _ _ Hinv Hj) as [c Hcj].
    rewrite (get_at t j e' c Hinv Hj Hcj).
    apply (get_at _ i' e' c Hinv' Hi'). by rewrite Hc.
Qed.

(** *** removeRange *)

Lemma removeRange_full t m range :
  dense_inv t → represents t m →
  ∃ t', removeRange t range = Ok t'
        ∧ dense_inv t'
        ∧ represents t' (model_step (RemoveRange range) m)
        ∧ (index_exact t → index_exact t')
        ∧ ((∀ e, e ∈ entities t → in_rangeb range e = false) → t' = t).
Proof.
  intros Hinv [Hrep Hdom]. pose proof Hinv as [Hlen Hb Hidx].
  pose proof (inv_NoDup _ Hinv) as Hnodup.
  unfold vec_size in Hb. null_val.
  destruct (erased_indexes_spec range (entities t) 0 (indexSet t))
    as (ps & s1 & Her & Hps & Hnd & Hnull & Hfr); [simpl; lia|].
  unfold removeRange. change 0 with (Z.of_nat 0). rewrite Her.
  set (m' := model_step (RemoveRange range) m).
  assert (Hm' : ∀ e, m' !! e = if in_rangeb range e then None else m !! e).
  { intros e. unfold m'. simpl. destruct (in_rangeb range e) eqn:Hr.
    - apply map_lookup_filter_None. right. intros c _ Hn. apply Hn.
      by apply in_rangeb_spec.
    - destruct (m !! e) as [c|] eqn:Hc.
      + apply map_lookup_filter_Some. split; [done|]. simpl.
        intros Hn%in_rangeb_spec. congruence.
      + apply map_lookup_filter_None. by left. }
  assert (Hps0 : ∀ p, p ∈ ps ↔ ∃ e, entities t !! p = Some e ∧ in_rangeb range e = true).
  { intros p. rewrite Hps. split.
    - intros (e & _ & He & Hr). rewrite Nat.sub_0_r in He. eauto.
    - intros (e & He & Hr). exists e. rewrite Nat.sub_0_r. split_and!; [lia|done|done]. }
  destruct (decide (ps = [])) as [->|Hpne].
  - (* no entity of the range: nothing changes *)
    simpl. exists t. split_and!; [done|done| |done|done]. split.
    + intros i e Hi. destruct (Hrep _ _ Hi) as (c & Hc & Hm). exists c. split; [done|].
      rewrite Hm'. destruct (in_rangeb range e) eqn:Hr; [|done].
      exfalso. apply (not_elem_of_nil i). apply Hps0. eauto.
    + intros e [c Hc]. apply Hdom. rewrite Hm' in Hc.
      destruct (in_rangeb range e); [done|]. by rewrite Hc.
  - destruct (Z.of_nat <$> ps) as [|z0 zs] eqn:Ezs;
      [by apply fmap_nil_inv in Ezs|]. rewrite <- Ezs in Her |- *.
    destruct (CompactFacts.sort_descending_nat (Z.of_nat <$> ps))
      as (hs & Hsd & Hsorted & Hlhs & Hhs).
    { apply NoDup_fmap; [|done]. intros x y. lia. }
    { apply Forall_fmap, Forall_forall. intros x _. simpl. lia. }
    assert (Hhs' : ∀ i, i ∈ hs ↔ i ∈ ps).
    { intros i. rewrite Hhs, list_elem_of_fmap. split; [|by eauto].
      intros (y & Hy & Hin). by replace i with y by lia. }
    rewrite Hsd. clear Ezs z0 zs.
    set (n := length (entities t)) in *.
    destruct (CompactFacts.compaction (λ cs p, cs !! p) (λ cs p, (p < length cs)%nat)
                (λ cs cs', length cs' = length cs)
                ltac:(done) ltac:(intros; congruence) dense_mv
                ltac:(intros ? ? ? H1 H2 H3; by apply dense_mv_ok)
                (λ e, m' !! e) hs n (entities t) s1 (components t))
      as (moves & es' & s' & cs' & Hmi & Hme & Hma & Hlen' & Hal & Hcomp & Hsound & Hfs & Hk).
    + done.
    + lia.
    + done.
    + apply Forall_forall. intros i Hi. apply Hhs', Hps0 in Hi as (e & He & _).
      by eapply lookup_lt_Some.
    + intros i Hi. simpl. fold n in Hlen. lia.
    + intros i e [Hi Hih] He.
      assert (in_rangeb range e = false) as Hr.
      { apply not_true_is_false. intros Hr. apply Hih, Hhs', Hps0. eauto. }
      rewrite Hfr by (intros [_ ?]; congruence).
      destruct (Hrep _ _ He) as (c & Hc & Hm).
      rewrite Hm', Hr, Hm. split_and!; [by apply Hidx|done|done].
    + unfold vec_size. fold n. rewrite Hmi. rewrite Hme. simpl.
      rewrite CompactFacts.wrap_pred_succ by lia.
      assert (Hkn : (n - length hs ≤ n)%nat) by lia.
      rewrite vec_erase_from_ok by lia. simpl.
      rewrite dense_move_components_generic, Hma. simpl.
      rewrite vec_erase_from_ok by (rewrite Hk; fold n in Hlen; lia). simpl.
      assert (Hkept : ∀ e, e ∈ entities t → in_rangeb range e = false →
                           e ∈ take (n - length hs) es').
      { intros e Hin Hr. apply list_elem_of_lookup in Hin as [i Hi].
        destruct (Hcomp i e) as (i' & Hi' & He'); [|done|].
        { split; [by eapply lookup_lt_Some|].
          intros Hin. apply Hhs', Hps0 in Hin as (e' & He' & Hr').
          assert (e' = e) as -> by congruence. congruence. }
        apply list_elem_of_lookup. exists i'. by apply lookup_take_Some. }
      eexists. split; [done|]. split_and!.
      * split; simpl.
        -- rewrite !length_take. rewrite Hk, Hlen'. fold n in Hlen. lia.
        -- unfold vec_size. rewrite length_take. null_val. lia.
        -- intros i e Hi. apply lookup_take_Some in Hi as [Hi Hlt].
           apply (Hal i e); [|done]. split; [done|apply not_elem_of_nil].
      * split; simpl.
        -- intros i e Hi. apply lookup_take_Some in Hi as [Hi Hlt].
           destruct (Hal i e) as (_ & Hr & [c Hc]); [split; [done|apply not_elem_of_nil]|done|].
           exists c. rewrite lookup_take_lt by done. simpl in Hr. by rewrite Hr.
        -- intros e [c Hc]. rewrite Hm' in Hc.
           destruct (in_rangeb range e) eqn:Hr; [done|].
           apply Hkept; [|done]. apply Hdom. by rewrite Hc.
      * intros Hex e He. simpl in *.
        destruct (decide (e ∈ entities t)) as [Hin|Hout].
        -- destruct (in_rangeb range e) eqn:Hr; [|by destruct He; apply Hkept].
           rewrite Hfs; [by apply Hnull|].
           intros i [Hi Hih] Hie.
           apply Hih, Hhs', Hps0. eauto.
        -- rewrite Hfs.
           ++ rewrite Hfr by (by intros [? _]). by apply Hex.
           ++ intros i _ Hie. apply Hout. by eapply list_elem_of_lookup_2.
      * intros Hnone. exfalso. destruct ps as [|p ps']; [done|].
        destruct (proj1 (Hps0 p)) as (e & He & Hr); [left|].
        rewrite Hnone in Hr; [done|]. by eapply list_elem_of_lookup_2.
Qed.

Lemma removeRange_exactly t range :
  dense_inv t →
  ∃ t', removeRange t range = Ok t'
    ∧ dense_inv t'
    ∧ (∀ e, e ∈ entities t' ↔ e ∈ entities t ∧ ¬ (range_begin range ≤ e < range_end range))
    ∧ entities t' ≡ₚ filter (λ e, ¬ (range_begin range ≤ e < range_end range)) (entities t)
    ∧ (∀ e, e ∈ entities t' → get t' e = get t e)
    ∧ ((∀ e, e ∈ entities t → ¬ (range_begin range ≤ e < range_end range)) → t' = t).
Proof.
  intros Hinv. pose proof (values_represents _ Hinv) as Hrep.
  destruct (removeRange_full t _ range Hinv Hrep) as (t' & Hr & Hinv' & Hrep' & _ & Hid).
  assert (Hmem : ∀ e, e ∈ entities t'
                      ↔ e ∈ entities t ∧ ¬ (range_begin range ≤ e < range_end range)).
  { intros e. rewrite (represents_dom _ _ e Hinv' Hrep'). simpl.
    rewrite (represents_dom _ _ e Hinv Hrep). unfold is_Some.
    split.
    - intros [c Hc]. apply map_lookup_filter_Some in Hc as [Hc Hn]. eauto.
    - intros [[c Hc] Hn]. exists c. by apply map_lookup_filter_Some. }
  exists t'. split_and!; try done.
  - apply NoDup_Permutation.
    + by apply inv_NoDup.
    + apply NoDup_filter. by apply inv_NoDup.
    + intros e. rewrite Hmem, list_elem_of_filter. tauto.
  - intros e Hin. pose proof (proj1 (Hmem e) Hin) as [Hin0 Hn].
    apply (represents_same t (values t) t'
             (model_step (RemoveRange range) (values t)) e); try done.
    simpl. destruct (values t !! e) as [c|] eqn:Hc.
    + by apply map_lookup_filter_Some.
    + apply map_lookup_filter_None. by left.
  - intros Hnone. apply Hid. intros e Hin. apply not_true_is_false.
    intros Hr'%in_rangeb_spec. by apply (Hnone e).
Qed.

(** *** The sparse set of a table built by the operations *)

Lemma swap_removed_exact t e idx lastE lastC :
  dense_inv t → entities t !! idx = Some e →
  last (entities t) = Some lastE → last (components t) = Some lastC →
  index_exact t → index_exact (swap_removed t e idx lastE lastC).
Proof.
  intros Hinv Hidx HlE HlC Hex k Hk.
  destruct (swap_removed_inv t e idx lastE lastC Hinv Hidx HlE HlC)
    as (_ & _ & Hkeep & _).
  assert (HlastIn : lastE ∈ entities t).
  { rewrite last_lookup in HlE. by eapply list_elem_of_lookup_2. }
  destruct (decide (k = e)) as [->|Hne].
  - unfold swap_removed. case_decide; simpl; unfold Sparse.at_, Sparse.remove;
      by rewrite lookup_delete_eq.
  - assert (Hout : k ∉ entities t) by (intros Hin; by apply Hk, Hkeep).
    assert (k ≠ lastE) by congruence.
    unfold swap_removed. case_decide; simpl; unfold Sparse.at_, Sparse.remove.
    + rewrite lookup_delete_ne by done. by apply Hex.
    + rewrite lookup_delete_ne, lookup_insert_ne by done. by apply Hex.
Qed.

Lemma step_exact (o : op C) t t' :
  dense_inv t → index_exact t → pre o t → step o t = Ok t' → index_exact t'.
Proof.
  intros Hinv Hex Hpre Hstep. pose proof (values_represents _ Hinv) as Hrep.
  destruct o as [e c|e c|dflt e f|range c|e|e|range|e|cmp|]; simpl in *.
  - injection Hstep as <-. intros k Hk. simpl in *.
    rewrite sparse_at_add_ne by set_solver. apply Hex. set_solver.
  - destruct (tryAdd_upsert t e c Hinv) as (t1 & Ht1 & _ & _ & Hin & Habs & _); [done|].
    assert (t1 = t') as -> by congruence.
    destruct (decide (e ∈ entities t)) as [Hp|Ha].
    + destruct (Hin Hp) as [Hes Hs]. intros k Hk. rewrite Hs. apply Hex. by rewrite <- Hes.
    + rewrite (Habs Ha). intros k Hk. simpl in *.
      rewrite sparse_at_add_ne by set_solver. apply Hex. set_solver.
  - destruct (tryAddWith_upsert dflt t e f Hinv (λ _, Hpre)) as (t1 & Ht1 & _ & Hin & Habs & _).
    assert (t1 = t') as -> by congruence.
    destruct (decide (e ∈ entities t)) as [Hp|Ha].
    + (* the sparse set is the one of [t] *)
      revert Hstep. unfold tryAddWith.
      apply list_elem_of_lookup in Hp as [i Hi].
      rewrite (inv_findIndex _ _ _ Hinv Hi).
      pose proof (inv_lookup_lt _ _ _ Hinv Hi).
      replace (Z.of_nat i =? NullEntityIndex) with false
        by (symmetry; apply Z.eqb_neq; lia).
      simpl. destruct (inv_component _ _ _ Hinv Hi) as [c0 Hc0].
      rewrite (vec_at_ok _ _ _ Hc0). simpl.
      rewrite vec_set_ok by (by eapply lookup_lt_Some).
      simpl. intros [= <-]. exact Hex.
    + rewrite (Habs Ha). intros k Hk. simpl in *.
      rewrite sparse_at_add_ne by set_solver. apply Hex. set_solver.
  - injection Hstep as <-.
    destruct Hpre as (Hbe & He32 & Hfree & Hroom).
    destruct (addRange_entities t range c Hbe He32) as [Hes _].
    intros k Hk. rewrite Hes in Hk.
    unfold has_room, vec_size in Hroom. null_val.
    unfold addRange. simpl.
    rewrite (wrap_small (range_end range - range_begin range)) by lia.
    pose proof (addRange_index (range_begin range) (vec_size (entities t))
                  (Z.to_nat (range_end range - range_begin range)) (indexSet t) k) as H.
    rewrite !Z2Nat.id in H by lia. unfold vec_size in *. rewrite H by lia.
    rewrite decide_False.
    + apply Hex. set_solver.
    + intros Hr. apply Hk. apply elem_of_app. right. apply elem_of_seqZ. lia.
  - apply list_elem_of_lookup in Hpre as [idx Hidx].
    destruct (inv_lasts _ _ _ Hinv Hidx) as (lastE & lastC & HlE & HlC).
    rewrite (dense_remove_spec _ _ _ _ _ Hinv Hidx HlE HlC) in Hstep.
    injection Hstep as <-. by apply swap_removed_exact.
  - destruct (decide (e ∈ entities t)) as [Hin|Habs].
    + apply list_elem_of_lookup in Hin as [idx Hidx].
      destruct (inv_lasts _ _ _ Hinv Hidx) as (lastE & lastC & HlE & HlC).
      rewrite (dense_tryRemove_present _ _ _ _ _ Hinv Hidx HlE HlC) in Hstep.
      injection Hstep as <-. by apply swap_removed_exact.
    + rewrite dense_tryRemove_absent in Hstep by done. by injection Hstep as <-.
  - destruct (removeRange_full t _ range Hinv Hrep) as (t1 & Hr & _ & _ & Hex' & _).
    assert (t1 = t') as -> by congruence. by apply Hex'.
  - apply list_elem_of_lookup in Hpre as [idx Hidx].
    destruct (inv_lasts _ _ _ Hinv Hidx) as (lastE & lastC & HlE & HlC).
    destruct (inv_component _ _ _ Hinv Hidx) as [c Hc].
    rewrite (dense_extract_spec _ _ _ _ _ _ Hinv Hidx Hc HlE HlC) in Hstep.
    injection Hstep as <-. by apply swap_removed_exact.
  - destruct (sort_with_spec t _ (std_sort cmp (entities t)) Hinv Hrep)
      as (t1 & Hs & Hes & _ & _ & Hfr); [apply std_sort_perm|].
    unfold sort in Hstep. assert (t1 = t') as -> by congruence.
    intros k Hk. rewrite Hes, std_sort_perm in Hk. rewrite Hfr by done. by apply Hex.
  - injection Hstep as <-. intros k _. reflexivity.
Qed.

Lemma run_exact (ops : list (op C)) : ∀ t,
  dense_inv t → index_exact t → pre_ops ops t →
  ∃ t', run ops t = Ok t' ∧ dense_inv t' ∧ index_exact t'.
Proof.
  induction ops as [|o ops IH]; intros t Hinv Hex Hpre.
  - exists t. by split_and!.
  - destruct Hpre as [Hpre Hnext].
    destruct (step_correct o t _ Hinv (values_represents _ Hinv) Hpre)
      as (t1 & Hstep & Hinv1 & _).
    pose proof (step_exact o t t1 Hinv Hex Hpre Hstep) as Hex1.
    destruct (IH t1 Hinv1 Hex1 (Hnext _ Hstep)) as (t' & Hrun & Hinv' & Hex').
    exists t'. split_and!; [|done|done]. cbn [run]. by rewrite Hstep.
Qed.

Lemma exact_unstable_index t e :
  dense_inv t → index_exact t →
  getUnstableIndex t e = findIndex t e
  ∧ (exists_ t e = true ↔ getUnstableIndex t e ≠ NullEntityIndex)
  ∧ (e ∈ entities t → atIndex t (getUnstableIndex t e) = get t e
                       ∧ entities t !! Z.to_nat (getUnstableIndex t e) = Some e).
Proof.
  intros Hinv Hex. unfold getUnstableIndex.
  destruct (decide (e ∈ entities t)) as [Hin|Habs].
  - pose proof Hin as Hin'. apply list_elem_of_lookup in Hin' as [i Hi].
    pose proof (inv_lookup_lt _ _ _ Hinv Hi).
    rewrite (inv_index _ Hinv _ _ Hi), (inv_findIndex _ _ _ Hinv Hi).
    split_and!; [done| |].
    + rewrite exists_elem. split; [intros _; lia|done].
    + intros _. split; [|by rewrite Nat2Z.id].
      unfold atIndex, get. by rewrite (inv_index _ Hinv _ _ Hi).
  - rewrite (Hex _ Habs), findIndex_absent by done. split_and!; [done| |done].
    rewrite exists_elem. split; [done|]. by intros [].
Qed.

(** *** traverse *)

Lemma traverse_call_visit {A} (cb : Callback C A) (a : A) es cs (i : nat) e c :
  es !! i = Some e → cs !! i = Some c →
  traverse_call cb a es cs (Z.of_nat i)
  = Ok ((as_visit cb a e c).1.1, <[i := (as_visit cb a e c).1.2]> cs,
        (as_visit cb a e c).2).
Proof.
  intros He Hc. assert (Hlt : (i < length cs)%nat) by (by eapply lookup_lt_Some).
  destruct cb as [f|f|f|f|f|f]; simpl;
    rewrite ?(vec_at_ok _ _ _ He), ?(vec_at_ok _ _ _ Hc); simpl.
  - destruct (f a e c) as [[a' c'] k]. simpl. by rewrite vec_set_ok.
  - destruct (f a e c) as [a' c']. simpl. by rewrite vec_set_ok.
  - destruct (f a c) as [[a' c'] k]. simpl. by rewrite vec_set_ok.
  - destruct (f a c) as [a' c']. simpl. by rewrite vec_set_ok.
  - destruct (f a e) as [a' k]. simpl. by rewrite list_insert_id.
  - by rewrite list_insert_id.
Qed.

Lemma traverse_loop_visit {A} (cb : Callback C A) (es2 : list Z) :
  ∀ (es1 : list Z) (cs1 cs2 : list C) (a : A),
    length es1 = length cs1 → length es2 = length cs2 →
    traverse_loop cb (seqZ (Z.of_nat (length es1)) (Z.of_nat (length es2)))
                  (es1 ++ es2) (cs1 ++ cs2) a
    = Ok ((visit (as_visit cb) (zip es2 cs2) a).1,
          cs1 ++ (visit (as_visit cb) (zip es2 cs2) a).2).
Proof.
  induction es2 as [|e es2 IH]; intros es1 cs1 cs2 a Hl1 Hl2.
  - destruct cs2; [|done]. done.
  - destruct cs2 as [|c cs2]; [done|]. simpl in Hl2.
    rewrite seqZ_cons by (simpl; lia). cbn [traverse_loop].
    rewrite (traverse_call_visit cb a _ _ (length es1) e c).
    2:{ by rewrite lookup_app_r, Nat.sub_diag by lia. }
    2:{ by rewrite lookup_app_r, Hl1, Nat.sub_diag by lia. }
    simpl. destruct (as_visit cb a e c) as [[a' c'] k] eqn:Hv. simpl.
    rewrite Hl1, insert_app_r_alt, Nat.sub_diag by lia. simpl.
    destruct k.
    + replace (Z.succ (Z.of_nat (length cs1))) with (Z.of_nat (length (es1 ++ [e])))
        by (rewrite length_app; simpl; lia).
      replace (Z.pred (Z.of_nat (S (length es2)))) with (Z.of_nat (length es2)) by lia.
      replace (es1 ++ e :: es2) with ((es1 ++ [e]) ++ es2) by (by rewrite <- app_assoc).
      replace (cs1 ++ c' :: cs2) with ((cs1 ++ [c']) ++ cs2) by (by rewrite <- app_assoc).
      rewrite IH by (rewrite ?length_app; simpl; lia).
      destruct (visit (as_visit cb) (zip es2 cs2) a') as [a'' cs'] eqn:Hrest.
      simpl. by rewrite <- app_assoc.
    + simpl. do 3 f_equal. by rewrite snd_zip by lia.
Qed.

Lemma traverse_visit {A} (cb : Callback C A) t (a : A) :
  dense_inv t →
  ∃ t', traverse cb t a
        = Ok ((visit (as_visit cb) (zip (entities t) (components t)) a).1, t')
    ∧ components t' = (visit (as_visit cb) (zip (entities t) (components t)) a).2
    ∧ entities t' = entities t ∧ indexSet t' = indexSet t
    ∧ dense_inv t'.
Proof.
  intros Hinv. pose proof (inv_len _ Hinv) as Hlen.
  pose proof (traverse_loop_visit cb (entities t) [] [] (components t) a eq_refl Hlen) as H.
  simpl in H. change (Z.of_nat 0) with 0 in H.
  unfold traverse, vec_size. rewrite H. simpl.
  eexists. split_and!; try done.
  assert (Hl : ∀ (l : list (Z * C)) a0, length (visit (as_visit cb) l a0).2 = length l).
  { induction l as [|[e c] l IHl]; intros a0; simpl; [done|].
    destruct (as_visit cb a0 e c) as [[a' c'] k]. destruct k.
    - specialize (IHl a'). destruct (visit (as_visit cb) l a') as [a'' cs'].
      simpl in *. lia.
    - simpl. by rewrite length_fmap. }
  destruct Hinv as [Hlen' Hb Hidx]. split; simpl; [|done|done].
  rewrite Hl, length_zip_with. lia.
Qed.

End more.
End DenseMore.
(** ** The stable table: insertion, ranges, clearing, traversal, iterators *)

Module StableMore.
Import Stable StableSpec StableFacts.

Section more.
Context {C : Type}.
Variable Q : Z.
Implicit Types (t : table C) (pages : list (ComponentPage C)).

Lemma sinv_get t i e :
  stable_inv Q t → entities t !! i = Some e → e ≠ NullEntity →
  get Q t e = atIndex Q (componentPages t) (Z.of_nat i).
Proof.
  intros Hinv Hi Hne. unfold get. by rewrite (sinv_index _ _ Hinv _ _ Hi Hne).
Qed.

(** *** add *)

(** The table after [addImpl] has put the entity in slot [z]. *)
Lemma slot_filled t (e : Z) (c : C) (z : nat) (es' ts' : list Z) pages' :
  stable_inv Q t → e ≠ NullEntity → e ∉ entities t →
  vec_size es' < NullEntityIndex →
  (z < length es')%nat →
  es' !! z = Some e →
  (∀ j, j ≠ z → (j < length es')%nat → es' !! j = entities t !! j) →
  (length (entities t) ≤ length es')%nat →
  (∀ x, x ∈ ts' ↔ x ∈ tombstones t ∧ x ≠ Z.of_nat z) →
  NoDup ts' →
  ((z < length (entities t))%nat → Z.of_nat z ∈ tombstones t) →
  atIndex Q pages' (Z.of_nat z) = Ok c →
  (∀ j cell, 0 ≤ j → j ≠ Z.of_nat z → cell_at Q (componentPages t) j = Ok cell →
             cell_at Q pages' j = Ok cell) →
  pages_wf Q pages' →
  vec_size (componentPages t) ≤ vec_size pages' →
  Z.of_nat z < vec_size pages' * Q →
  let t' := mkTable (Sparse.add (indexSet t) e (Z.of_nat z)) es' pages' ts' in
  stable_inv Q t'
  ∧ get Q t' e = Ok c
  ∧ (∀ j e', entities t !! j = Some e' → e' ≠ NullEntity →
       entities t' !! j = Some e'
       ∧ Sparse.at_ (indexSet t') e' = Sparse.at_ (indexSet t) e'
       ∧ cell_at Q (componentPages t') (Z.of_nat j)
         = cell_at Q (componentPages t) (Z.of_nat j)
       ∧ get Q t' e' = get Q t e').
Proof.
  intros Hinv Hne Habs Hb Hz Hze Hsame Hlen Hts Hnd Hreuse Hat Hframe Hwf Hgrow Hcap t'.
  assert (Hlen' : ∀ j, (j < length es')%nat → j ≠ z → (j < length (entities t))%nat).
  { intros j Hj Hjz. apply lookup_lt_is_Some. rewrite <- Hsame by done.
    by apply lookup_lt_is_Some. }
  pose proof Hinv as [HQ Hpw Hb0 Hidx Hlive Hcells Htomb Hholes Hnd0].
  assert (Hold : ∀ j e', entities t !! j = Some e' → e' ≠ NullEntity →
                         j ≠ z ∧ es' !! j = Some e' ∧ e' ≠ e).
  { intros j e' Hj He'. pose proof (lookup_lt_Some _ _ _ Hj) as Hjlt.
    assert (j ≠ z).
    { intros ->. destruct (Htomb _ (Hreuse Hjlt)) as [_ Hn].
      rewrite Nat2Z.id in Hn. congruence. }
    split_and!; [done| |].
    - rewrite Hsame by lia. done.
    - intros ->. apply Habs. by eapply list_elem_of_lookup_2. }
  assert (Hcellframe : ∀ j e', entities t !! j = Some e' → e' ≠ NullEntity →
            cell_at Q pages' (Z.of_nat j) = cell_at Q (componentPages t) (Z.of_nat j)).
  { intros j e' Hj He'. destruct (Hold _ _ Hj He') as (Hjz & _ & _).
    destruct (sinv_cell_ok Q t j Hinv) as [cell Hcell]; [by eapply lookup_lt_Some|].
    rewrite Hcell. apply Hframe; [lia|lia|done]. }
  assert (Hinv' : stable_inv Q t').
  { split; simpl.
    - done.
    - done.
    - done.
    - intros j e' Hj He'. destruct (decide (j = z)) as [->|Hjz].
      + assert (e' = e) as -> by congruence. apply sparse_at_add_eq.
      + pose proof (lookup_lt_Some _ _ _ Hj) as Hjlt.
        rewrite Hsame in Hj by done.
        destruct (Hold _ _ Hj He') as (_ & _ & Hee).
        rewrite sparse_at_add_ne by done. by apply Hidx.
    - intros j e' Hj He'. destruct (decide (j = z)) as [->|Hjz].
      + by exists c.
      + pose proof (lookup_lt_Some _ _ _ Hj) as Hjlt.
        rewrite Hsame in Hj by done.
        destruct (Hlive _ _ Hj He') as [c' Hc']. exists c'.
        rewrite (atIndex_congr Q _ _ _ (Hcellframe _ _ Hj He')). done.
    - unfold vec_size in *.
      destruct (decide (length es' ≤ length (entities t))%nat); [nia|].
      assert (length es' - 1 = z)%nat as Hlast.
      { destruct (decide (length es' - 1 = z)%nat) as [|Hn]; [done|].
        specialize (Hlen' (length es' - 1)%nat). lia. }
      nia.
    - intros x Hx. apply Hts in Hx as [Hx Hxz].
      destruct (Htomb _ Hx) as [Hx0 Hxn]. split; [done|].
      pose proof (lookup_lt_Some _ _ _ Hxn) as Hxlt.
      rewrite Hsame; [done|lia|lia].
    - intros j Hj. pose proof (lookup_lt_Some _ _ _ Hj) as Hjlt.
      assert (j ≠ z) by (intros ->; congruence).
      rewrite Hsame in Hj by done. apply Hts. split; [by apply Hholes|lia].
    - done. }
  split_and!; [done| |].
  - unfold get. simpl. by rewrite sparse_at_add_eq.
  - intros j e' Hj He'. destruct (Hold _ _ Hj He') as (Hjz & Hj' & Hee).
    assert (Hs : Sparse.at_ (indexSet t') e' = Sparse.at_ (indexSet t) e')
      by (simpl; by rewrite sparse_at_add_ne).
    split_and!; [done|done|by eapply Hcellframe|].
    unfold get. rewrite Hs. rewrite (Hidx _ _ Hj He').
    apply atIndex_congr. by eapply Hcellframe.
Qed.

Lemma add_spec t e c :
  stable_inv Q t → e ≠ NullEntity → e ∉ entities t →
  vec_size (entities t) + 1 < NullEntityIndex →
  ∃ t' (z : nat),
    add Q t e c = Ok t'
    ∧ stable_inv Q t'
    ∧ entities t' !! z = Some e
    ∧ Sparse.at_ (indexSet t') e = Z.of_nat z
    ∧ get Q t' e = Ok c
    ∧ (tombstones t = [] →
         z = length (entities t) ∧ entities t' = entities t ++ [e] ∧ tombstones t' = [])
    ∧ (∀ ts x, tombstones t = ts ++ [x] →
         Z.of_nat z = x ∧ entities t' = <[z := e]> (entities t) ∧ tombstones t' = ts)
    ∧ (∀ j e', entities t !! j = Some e' → e' ≠ NullEntity →
         entities t' !! j = Some e'
         ∧ Sparse.at_ (indexSet t') e' = Sparse.at_ (indexSet t) e'
         ∧ cell_at Q (componentPages t') (Z.of_nat j)
           = cell_at Q (componentPages t) (Z.of_nat j)
         ∧ get Q t' e' = get Q t e').
Proof.
  intros Hinv Hne Habs Hroom.
  pose proof Hinv as [HQ Hpw Hb0 Hidx Hlive Hcells Htomb Hholes Hnd0].
  assert (Hcases : tombstones t = [] ∨ ∃ l x0, tombstones t = l ++ [x0]).
  { destruct (tombstones t) as [|x l _] using rev_ind; [by left|right; eauto]. }
  destruct Hcases as [Hts0|(l & x0 & Hts0)].
  - (* no tombstone: the entity is pushed *)
    set (n := length (entities t)).
    destruct (insertComponent_spec Q HQ (componentPages t) (Z.of_nat n) c
                (Nat2Z.is_nonneg n) Hpw) as (pages' & Hins & Hat & Hframe & Hwf & Hgrow & Hcap).
    assert (Hadd : add Q t e c
              = Ok (mkTable (Sparse.add (indexSet t) e (Z.of_nat n))
                            (entities t ++ [e]) pages' [])).
    { unfold add, addImpl. rewrite Hts0. simpl. unfold vec_size. fold n.
      by rewrite Hins. }
    destruct (slot_filled t e c n (entities t ++ [e]) [] pages' Hinv Hne Habs)
      as (Hinv' & Hget & Hfr); try done.
    + unfold vec_size in *. rewrite length_app. simpl. lia.
    + rewrite length_app. simpl. fold n. lia.
    + by rewrite lookup_app_r, Nat.sub_diag by (fold n; lia).
    + intros j Hj Hlt. rewrite length_app in Hlt. simpl in Hlt. fold n in Hlt.
      rewrite lookup_app_l by (fold n; lia). done.
    + rewrite length_app. simpl. lia.
    + intros x. rewrite Hts0. split; [intros Hx; inversion Hx|intros [Hx _]; inversion Hx].
    + apply NoDup_nil_2.
    + fold n. lia.
    + exists (mkTable (Sparse.add (indexSet t) e (Z.of_nat n)) (entities t ++ [e]) pages' []), n.
      split_and!; try done.
      * simpl. by rewrite lookup_app_r, Nat.sub_diag by (fold n; lia).
      * simpl. apply sparse_at_add_eq.
      * intros ts x Hx. rewrite Hts0 in Hx. by destruct ts.
  - (* a tombstone is on top: its slot is reused *)
    assert (Hx0 : x0 ∈ tombstones t) by (rewrite Hts0; apply elem_of_app; right; by left).
    destruct (Htomb _ Hx0) as [Hx00 Hx0n].
    pose proof (lookup_lt_Some _ _ _ Hx0n) as Hx0lt.
    destruct (addImpl_reuse Q t l x0 e c Hinv Hts0) as (pages' & Hins & Hadd & Hat & Hframe).
    destruct (insertComponent_spec Q HQ (componentPages t) x0 c Hx00 Hpw)
      as (pages2 & Hins2 & _ & _ & Hwf & Hgrow & Hcap).
    assert (pages2 = pages') as -> by congruence.
    set (z := Z.to_nat x0) in *.
    assert (Hzx : Z.of_nat z = x0) by (unfold z; lia).
    rewrite Hts0 in Hnd0. apply NoDup_app in Hnd0 as (Hndl & Hdisj & _).
    destruct (slot_filled t e c z (<[z := e]> (entities t)) l pages' Hinv Hne Habs)
      as (Hinv' & Hget & Hfr); try done.
    + unfold vec_size in *. rewrite length_insert. lia.
    + by rewrite length_insert.
    + by apply list_lookup_insert_eq.
    + intros j Hj _. by rewrite list_lookup_insert_ne.
    + by rewrite length_insert.
    + intros x. rewrite Hts0, elem_of_app, list_elem_of_singleton, Hzx. split.
      * intros Hx. split; [by left|]. intros ->. apply (Hdisj x0 Hx). by left.
      * intros [[?|?] ?]; [done|congruence].
    + intros _. by rewrite Hzx.
    + by rewrite Hzx.
    + intros j cell Hj Hjz. rewrite Hzx in Hjz. by apply Hframe.
    + by rewrite Hzx.
    + rewrite Hzx in Hinv', Hget, Hfr.
      exists (mkTable (Sparse.add (indexSet t) e x0) (<[z := e]> (entities t)) pages' l), z.
      split_and!; try done.
      * simpl. by apply list_lookup_insert_eq.
      * simpl. rewrite sparse_at_add_eq. lia.
      * intros Hnil. rewrite Hts0 in Hnil. by destruct l.
      * intros ts x Hx. rewrite Hts0 in Hx. apply app_inj_tail in Hx as [<- <-]. done.
Qed.

(** *** tryAdd *)

Lemma overwrite_inv t i e c :
  stable_inv Q t → entities t !! i = Some e → e ≠ NullEntity →
  ∃ pages', cell_set Q (componentPages t) (Z.of_nat i) (Some c) = Ok pages'
    ∧ stable_inv Q (mkTable (indexSet t) (entities t) pages' (tombstones t))
    ∧ get Q (mkTable (indexSet t) (entities t) pages' (tombstones t)) e = Ok c
    ∧ (∀ j, j ≠ i → cell_at Q pages' (Z.of_nat j)
                    = cell_at Q (componentPages t) (Z.of_nat j)).
Proof.
  intros Hinv Hi Hne.
  pose proof Hinv as [HQ Hpw Hb0 Hidx Hlive Hcells Htomb Hholes Hnd0].
  destruct (Hlive _ _ Hi Hne) as [c0 Hc0].
  pose proof (proj1 (atIndex_cell _ _ _ _) Hc0) as Hcell.
  destruct (cell_set_spec Q HQ _ _ _ (Some c) (Nat2Z.is_nonneg i) Hcell)
    as (pages' & Hset & Hat & Hframe & Hlen & Hwf).
  assert (Hframe' : ∀ j, j ≠ i →
            cell_at Q pages' (Z.of_nat j) = cell_at Q (componentPages t) (Z.of_nat j)).
  { intros j Hj. apply Hframe; lia. }
  exists pages'. split_and!; [done| | |done].
  - split; simpl; try done.
    + by apply Hwf.
    + intros j e' Hj He'. destruct (decide (j = i)) as [->|Hji].
      * exists c. by apply atIndex_cell.
      * destruct (Hlive _ _ Hj He') as [c' Hc']. exists c'.
        by rewrite (atIndex_congr Q _ _ _ (Hframe' j Hji)).
    + unfold vec_size in *. lia.
  - unfold get. simpl. rewrite (Hidx _ _ Hi Hne). by apply atIndex_cell.
Qed.

Lemma findIndex_present t i e :
  stable_inv Q t → entities t !! i = Some e → e ≠ NullEntity →
  findIndex t e = Z.of_nat i ∧ (Z.of_nat i =? NullEntityIndex) = false.
Proof.
  intros Hinv Hi Hne. split; [by apply (sinv_findIndex Q)|].
  pose proof (sinv_bound _ _ Hinv) as Hb. pose proof (lookup_lt_Some _ _ _ Hi) as Hlt.
  apply Z.eqb_neq. unfold vec_size in Hb. lia.
Qed.

Lemma stable_findIndex_absent t e : e ∉ entities t → findIndex t e = NullEntityIndex.
Proof. intros H. unfold findIndex. by rewrite (proj2 (vec_find_None _ _) H). Qed.

Lemma stable_tryAdd_spec t e c :
  stable_inv Q t → e ≠ NullEntity → vec_size (entities t) + 1 < NullEntityIndex →
  ∃ t', tryAdd Q t e c = Ok t'
    ∧ stable_inv Q t'
    ∧ get Q t' e = Ok c
    ∧ (e ∈ entities t →
         entities t' = entities t ∧ indexSet t' = indexSet t
         ∧ tombstones t' = tombstones t)
    ∧ (e ∉ entities t → add Q t e c = Ok t')
    ∧ (∀ j e', entities t !! j = Some e' → e' ≠ NullEntity → e' ≠ e →
         entities t' !! j = Some e' ∧ get Q t' e' = get Q t e').
Proof.
  intros Hinv Hne Hroom. unfold tryAdd.
  destruct (decide (e ∈ entities t)) as [Hin|Habs].
  - pose proof Hin as Hin'. apply list_elem_of_lookup in Hin' as [i Hi].
    destruct (findIndex_present _ _ _ Hinv Hi Hne) as [-> ->]. simpl.
    rewrite (sinv_index _ _ Hinv _ _ Hi Hne).
    destruct (sinv_live _ _ Hinv _ _ Hi Hne) as [c0 ->]. simpl.
    destruct (overwrite_inv t i e c Hinv Hi Hne) as (pages' & -> & Hinv' & Hget & Hframe).
    simpl. eexists. split; [done|]. split_and!; try done.
    intros j e' Hj He' Hee. split; [done|].
    assert (j ≠ i) by (intros ->; congruence).
    unfold get. simpl. rewrite (sinv_index _ _ Hinv _ _ Hj He').
    apply atIndex_congr. by apply Hframe.
  - rewrite stable_findIndex_absent by done. rewrite Z.eqb_refl. simpl.
    destruct (add_spec t e c Hinv Hne Habs Hroom)
      as (t' & z & Hadd & Hinv' & _ & _ & Hget & _ & _ & Hfr).
    exists t'. unfold add in Hadd. split_and!; try done.
    intros j e' Hj He' _. destruct (Hfr _ _ Hj He') as (? & _ & _ & ?). done.
Qed.

Lemma stable_tryAddWith_spec (dflt : C) t e (functor : C → C) :
  stable_inv Q t → e ≠ NullEntity → vec_size (entities t) + 1 < NullEntityIndex →
  ∃ t', tryAddWith Q dflt t e functor = Ok t'
    ∧ stable_inv Q t'
    ∧ (∀ c, e ∈ entities t → get Q t e = Ok c →
            get Q t' e = Ok (functor c) ∧ entities t' = entities t
            ∧ tombstones t' = tombstones t)
    ∧ (e ∉ entities t → add Q t e (functor dflt) = Ok t')
    ∧ (∀ j e', entities t !! j = Some e' → e' ≠ NullEntity → e' ≠ e →
         entities t' !! j = Some e' ∧ get Q t' e' = get Q t e').
Proof.
  intros Hinv Hne Hroom. unfold tryAddWith.
  destruct (decide (e ∈ entities t)) as [Hin|Habs].
  - pose proof Hin as Hin'. apply list_elem_of_lookup in Hin' as [i Hi].
    destruct (findIndex_present _ _ _ Hinv Hi Hne) as [-> ->]. simpl.
    destruct (sinv_live _ _ Hinv _ _ Hi Hne) as [c0 Hc0]. rewrite Hc0. simpl.
    destruct (overwrite_inv t i e (functor c0) Hinv Hi Hne)
      as (pages' & -> & Hinv' & Hget & Hframe).
    simpl. eexists. split; [done|]. split_and!; try done.
    + intros c _ Hg. rewrite (sinv_get _ _ _ Hinv Hi Hne), Hc0 in Hg.
      injection Hg as <-. done.
    + intros j e' Hj He' Hee. split; [done|].
      assert (j ≠ i) by (intros ->; congruence).
      unfold get. simpl. rewrite (sinv_index _ _ Hinv _ _ Hj He').
      apply atIndex_congr. by apply Hframe.
  - rewrite stable_findIndex_absent by done. rewrite Z.eqb_refl. simpl.
    destruct (add_spec t e (functor dflt) Hinv Hne Habs Hroom)
      as (t' & z & Hadd & Hinv' & _ & _ & Hget & _ & _ & Hfr).
    exists t'. unfold add in Hadd. split_and!; try done.
    intros j e' Hj He' _. destruct (Hfr _ _ Hj He') as (? & _ & _ & ?). done.
Qed.

(** *** clear *)

Lemma destroyComponents_from_ok (HQ : 0 < Q) es2 : ∀ (off : nat) pages,
  pages_wf Q pages →
  Z.of_nat (off + length es2) < 2 ^ 32 →
  (∀ j e, es2 !! j = Some e → e ≠ NullEntity →
          ∃ c, atIndex Q pages (Z.of_nat (off + j)) = Ok c) →
  ∃ pages', destroyComponents_from Q (Z.of_nat off) es2 pages = Ok pages'
    ∧ pages_wf Q pages'
    ∧ length pages' = length pages
    ∧ (∀ j, (j < off)%nat →
            cell_at Q pages' (Z.of_nat j) = cell_at Q pages (Z.of_nat j))
    ∧ (∀ j e, es2 !! j = Some e → e = NullEntity →
            cell_at Q pages' (Z.of_nat (off + j)) = cell_at Q pages (Z.of_nat (off + j)))
    ∧ (∀ j e, es2 !! j = Some e → e ≠ NullEntity →
            cell_at Q pages' (Z.of_nat (off + j)) = Ok None).
Proof.
  induction es2 as [|e es2 IH]; intros off pages Hwf Hb Hlive.
  - exists pages. by split_and!.
  - cbn [destroyComponents_from]. simpl in Hb.
    assert (Hnext : wrap (Z.of_nat off + 1) = Z.of_nat (S off))
      by (rewrite wrap_small; lia).
    rewrite Hnext.
    destruct (Z.eqb_spec e NullEntity) as [->|Hne]; simpl.
    + destruct (IH (S off) pages Hwf) as (pages' & Hd & Hwf' & Hlen & Hlow & Hnull & Hdest).
      { lia. }
      { intros j e' Hj He'. replace (S off + j)%nat with (off + S j)%nat by lia.
        by apply (Hlive (S j) e'). }
      exists pages'. split_and!; try done.
      * intros j Hj. apply Hlow. lia.
      * intros [|j] e' Hj He'.
        -- rewrite Nat.add_0_r. apply Hlow. lia.
        -- replace (off + S j)%nat with (S off + j)%nat by lia. by apply (Hnull j e').
      * intros [|j] e' Hj He'; [simpl in Hj; congruence|].
        replace (off + S j)%nat with (S off + j)%nat by lia. by apply (Hdest j e').
    + destruct (Hlive 0%nat e eq_refl Hne) as [c Hc]. rewrite Nat.add_0_r in Hc.
      unfold destroyComponent. rewrite Hc. simpl.
      pose proof (proj1 (atIndex_cell _ _ _ _) Hc) as Hcell.
      destruct (cell_set_spec Q HQ _ _ _ None (Nat2Z.is_nonneg off) Hcell)
        as (pages1 & -> & Hat1 & Hframe1 & Hlen1 & Hwf1).
      simpl.
      destruct (IH (S off) pages1 (Hwf1 Hwf)) as (pages' & Hd & Hwf' & Hlen & Hlow & Hnull & Hdest).
      { lia. }
      { intros j e' Hj He'. replace (S off + j)%nat with (off + S j)%nat by lia.
        destruct (Hlive (S j) e' Hj He') as [c' Hc']. exists c'.
        rewrite <- Hc'. apply atIndex_congr. apply Hframe1; lia. }
      exists pages'. split_and!; try done.
      * congruence.
      * intros j Hj. rewrite Hlow by lia. apply Hframe1; lia.
      * intros [|j] e' Hj He'; [simpl in Hj; congruence|].
        replace (off + S j)%nat with (S off + j)%nat by lia.
        rewrite (Hnull j e') by done. apply Hframe1; lia.
      * intros [|j] e' Hj He'.
        -- rewrite Nat.add_0_r. rewrite Hlow by lia. done.
        -- replace (off + S j)%nat with (S off + j)%nat by lia. by apply (Hdest j e').
Qed.

Lemma stable_clear_spec t :
  stable_inv Q t →
  ∃ t', clear Q t = Ok t'
    ∧ entities t' = [] ∧ indexSet t' = ∅ ∧ tombstones t' = tombstones t
    ∧ length (componentPages t') = length (componentPages t)
    ∧ (∀ i e, entities t !! i = Some e → e ≠ NullEntity →
              cell_at Q (componentPages t') (Z.of_nat i) = Ok None)
    ∧ (tombstones t = [] → stable_inv Q t')
    ∧ (tombstones t ≠ [] → ∀ e c, add Q t' e c = Fault OutOfRange).
Proof.
  intros Hinv. pose proof Hinv as [HQ Hpw Hb0 Hidx Hlive Hcells Htomb Hholes Hnd0].
  unfold vec_size in Hb0. null_val.
  destruct (destroyComponents_from_ok HQ (entities t) 0 (componentPages t) Hpw)
    as (pages' & Hd & Hwf' & Hlen & _ & _ & Hdest).
  { simpl. lia. }
  { intros j e Hj He. by apply (Hlive j e). }
  unfold clear, destroyComponents. change 0 with (Z.of_nat 0). rewrite Hd. simpl.
  eexists. split; [done|]. simpl. split_and!; try done.
  - intros Hts. rewrite Hts. split; simpl; try done.
    + unfold vec_size. simpl. nia.
    + intros z Hz. inversion Hz.
    + apply NoDup_nil_2.
  - intros Hts e c. unfold add, addImpl. simpl.
    destruct (tombstones t) as [|x l _] eqn:E using rev_ind; [done|].
    destruct (l ++ [x]) as [|x0 l0] eqn:E'; [by destruct l|]. rewrite <- E'.
    rewrite (vec_back_ok _ x) by apply last_snoc. simpl.
    rewrite vec_pop_snoc. simpl. unfold vec_set, vec_size. simpl.
    rewrite decide_False by lia. done.
Qed.

(** *** The iterator going backwards *)

Lemma operator_dec_spec (es : list Z) : ∀ (i fuel : nat),
  vec_size es < 2 ^ 32 → (i ≤ length es)%nat → (i ≤ fuel)%nat →
  ∃ j : nat,
    operator_dec fuel es (Z.of_nat i) = Ok (Z.of_nat j)
    ∧ (j ≤ i)%nat ∧ (0 < i → j < i)%nat
    ∧ (j = 0%nat ∨ ∃ e, es !! j = Some e ∧ e ≠ NullEntity)
    ∧ (∀ k, (j < k)%nat → (k < i)%nat → es !! k = Some NullEntity).
Proof.
  unfold vec_size. induction i as [|i IH]; intros fuel Hsz Hi Hfuel.
  - exists 0%nat. destruct fuel; simpl; (split_and!; [done|lia|lia|by left|lia]).
  - destruct fuel as [|fuel]; [lia|]. cbn [operator_dec].
    replace (Z.of_nat (S i) =? 0) with false by (symmetry; apply Z.eqb_neq; lia).
    rewrite wrap_small by lia.
    replace (Z.of_nat (S i) - 1) with (Z.of_nat i) by lia.
    destruct (lookup_lt_is_Some_2 es i) as [e He]; [lia|].
    rewrite (vec_at_ok _ _ _ He). simpl.
    destruct (Z.eqb_spec e NullEntityIndex) as [->|Hne]; simpl.
    + destruct (IH fuel Hsz) as (j & Hd & Hji & _ & Hj & Hbetween); [lia|lia|].
      exists j. split_and!; [done|lia|lia|done|].
      intros k Hk1 Hk2. destruct (decide (k = i)) as [->|]; [done|].
      apply Hbetween; lia.
    + exists i. split_and!; [done|lia|lia| |lia].
      right. exists e. split; [done|]. done.
Qed.

(** *** traverse *)

Lemma stable_rd_Some pages p c : rd Q pages p = Some c ↔ atIndex Q pages (Z.of_nat p) = Ok c.
Proof.
  unfold rd. destruct (atIndex Q pages (Z.of_nat p)); split; congruence.
Qed.

Lemma stable_rd_congr pages pages' p :
  cell_at Q pages' (Z.of_nat p) = cell_at Q pages (Z.of_nat p) →
  rd Q pages' p = rd Q pages p.
Proof. intros H. unfold rd. by rewrite (atIndex_congr Q _ _ _ H). Qed.

Lemma live_pairs_from_ext es : ∀ off pages pages',
  (∀ j, (off ≤ j)%nat → (j < off + length es)%nat → rd Q pages' j = rd Q pages j) →
  live_pairs_from Q off es pages' = live_pairs_from Q off es pages.
Proof.
  induction es as [|e es IH]; intros off pages pages' H; [done|]. simpl in *.
  rewrite (H off) by lia. rewrite (IH (S off) pages pages'); [done|].
  intros j ? ?. apply H; lia.
Qed.

(** The body of the loop on a slot that holds a component. *)
Lemma stable_traverse_call_visit (HQ : 0 < Q) {A} (cb : Dense.Callback C A) (a : A) e pages
    (i : nat) c :
  rd Q pages i = Some c →
  ∃ pages1,
    traverse_call Q cb a e pages (Z.of_nat i)
    = Ok ((DenseSpec.as_visit cb a e c).1.1, pages1, (DenseSpec.as_visit cb a e c).2)
    ∧ rd Q pages1 i = Some (DenseSpec.as_visit cb a e c).1.2
    ∧ (∀ j, j ≠ i → cell_at Q pages1 (Z.of_nat j) = cell_at Q pages (Z.of_nat j))
    ∧ length pages1 = length pages
    ∧ (pages_wf Q pages → pages_wf Q pages1).
Proof.
  intros Hc. pose proof (proj1 (stable_rd_Some _ _ _) Hc) as Hat.
  pose proof (proj1 (atIndex_cell _ _ _ _) Hat) as Hcell.
  assert (Hset : ∀ c', ∃ pages1,
            cell_set Q pages (Z.of_nat i) (Some c') = Ok pages1
            ∧ rd Q pages1 i = Some c'
            ∧ (∀ j, j ≠ i → cell_at Q pages1 (Z.of_nat j) = cell_at Q pages (Z.of_nat j))
            ∧ length pages1 = length pages
            ∧ (pages_wf Q pages → pages_wf Q pages1)).
  { intros c'.
    destruct (cell_set_spec Q HQ _ _ _ (Some c') (Nat2Z.is_nonneg i) Hcell)
      as (pages1 & Hs & Hat1 & Hframe & Hlen & Hwf).
    exists pages1. split_and!; try done.
    - apply stable_rd_Some. by apply atIndex_cell.
    - intros j Hj. apply Hframe; lia. }
  destruct cb as [f|f|f|f|f|f]; simpl; rewrite ?Hat; simpl.
  - destruct (f a e c) as [[a' c'] k]. simpl.
    destruct (Hset c') as (pages1 & -> & ?). by exists pages1.
  - destruct (f a e c) as [a' c']. simpl.
    destruct (Hset c') as (pages1 & -> & ?). by exists pages1.
  - destruct (f a c) as [[a' c'] k]. simpl.
    destruct (Hset c') as (pages1 & -> & ?). by exists pages1.
  - destruct (f a c) as [a' c']. simpl.
    destruct (Hset c') as (pages1 & -> & ?). by exists pages1.
  - destruct (f a e) as [a' k]. simpl. exists pages. by split_and!.
  - exists pages. by split_and!.
Qed.

Lemma stable_traverse_loop_visit (HQ : 0 < Q) {A} (cb : Dense.Callback C A) (es2 : list Z) :
  ∀ (es1 : list Z) pages (a : A),
    (∀ j e, es2 !! j = Some e → e ≠ NullEntity →
            is_Some (rd Q pages (length es1 + j))) →
    ∃ pages',
      traverse_loop Q cb (seqZ (Z.of_nat (length es1)) (Z.of_nat (length es2)))
                    (es1 ++ es2) pages a
      = Ok ((DenseSpec.visit (DenseSpec.as_visit cb)
               (live_pairs_from Q (length es1) es2 pages) a).1, pages')
      ∧ live_pairs_from Q (length es1) es2 pages'
        = zip (live_pairs_from Q (length es1) es2 pages).*1
              (DenseSpec.visit (DenseSpec.as_visit cb)
                 (live_pairs_from Q (length es1) es2 pages) a).2
      ∧ (∀ j e, es2 !! j = Some e → e ≠ NullEntity →
                is_Some (rd Q pages' (length es1 + j)))
      ∧ (∀ p, (∀ j e, es2 !! j = Some e → e ≠ NullEntity → p ≠ (length es1 + j)%nat) →
              cell_at Q pages' (Z.of_nat p) = cell_at Q pages (Z.of_nat p))
      ∧ length pages' = length pages
      ∧ (pages_wf Q pages → pages_wf Q pages').
Proof.
  induction es2 as [|e es2 IH]; intros es1 pages a Hlive.
  - exists pages. by split_and!.
  - rewrite seqZ_cons by (simpl; lia). cbn [traverse_loop].
    rewrite (vec_at_ok _ _ e) by (by rewrite lookup_app_r, Nat.sub_diag by lia).
    simpl.
    replace (Z.succ (Z.of_nat (length es1))) with (Z.of_nat (length (es1 ++ [e])))
      by (rewrite length_app; simpl; lia).
    replace (Z.pred (Z.of_nat (S (length es2)))) with (Z.of_nat (length es2)) by lia.
    replace (es1 ++ e :: es2) with ((es1 ++ [e]) ++ es2) by (by rewrite <- app_assoc).
    assert (Hlen1 : length (es1 ++ [e]) = S (length es1))
      by (rewrite length_app; simpl; lia).
    destruct (Z.eqb_spec e NullEntity) as [->|Hne].
    + (* a tombstone: the slot is skipped *)
      destruct (IH (es1 ++ [NullEntity]) pages a) as (pages' & Hl & Hp & Hl' & Hfr & Hlen & Hwf).
      { intros j e' Hj He'. rewrite Hlen1.
        replace (S (length es1) + j)%nat with (length es1 + S j)%nat by lia.
        by apply (Hlive (S j) e'). }
      rewrite Hlen1 in *. exists pages'. cbn [live_pairs_from].
      rewrite !decide_True by done. split_and!; try done.
      * intros [|j] e' Hj He'; [simpl in Hj; congruence|].
        replace (length es1 + S j)%nat with (S (length es1) + j)%nat by lia.
        by apply (Hl' j e').
      * intros p Hp'. apply Hfr. intros j e' Hj He'.
        pose proof (Hp' (S j) e' Hj He'). lia.
    + (* a live slot *)
      destruct (Hlive 0%nat e eq_refl Hne) as [c Hc]. rewrite Nat.add_0_r in Hc.
      destruct (stable_traverse_call_visit HQ cb a e pages (length es1) c Hc)
        as (pages1 & Hcall & Hrd1 & Hframe1 & Hlen1' & Hwf1).
      rewrite Hcall. simpl.
      destruct (DenseSpec.as_visit cb a e c) as [[a' c'] k] eqn:Hv. simpl in *.
      assert (Hrest : live_pairs_from Q (S (length es1)) es2 pages1
                      = live_pairs_from Q (S (length es1)) es2 pages).
      { apply live_pairs_from_ext. intros j Hj1 Hj2. apply stable_rd_congr, Hframe1. lia. }
      cbn [live_pairs_from]. rewrite !decide_False by done. rewrite Hc.
      cbn [DenseSpec.visit]. rewrite Hv.
      destruct k.
      * destruct (IH (es1 ++ [e]) pages1 a')
          as (pages' & Hl & Hp & Hl' & Hfr & Hlen & Hwf).
        { intros j e' Hj He'. rewrite Hlen1.
          replace (S (length es1) + j)%nat with (length es1 + S j)%nat by lia.
          destruct (Hlive (S j) e' Hj He') as [c0 Hc0]. exists c0.
          rewrite <- Hc0. apply stable_rd_congr, Hframe1. lia. }
        rewrite Hlen1 in *. rewrite Hrest in Hl, Hp.
        assert (Hoff : rd Q pages' (length es1) = Some c').
        { rewrite <- Hrd1. apply stable_rd_congr, Hfr. intros j e' _ _. lia. }
        exists pages'. rewrite Hl, Hoff.
        destruct (DenseSpec.visit (DenseSpec.as_visit cb)
                    (live_pairs_from Q (S (length es1)) es2 pages) a') as [a'' cs'] eqn:Hvis.
        simpl in *. split_and!; try done.
        -- rewrite decide_False by done. by rewrite Hp.
        -- intros [|j] e' Hj He'.
           ++ rewrite Nat.add_0_r, Hoff. eauto.
           ++ replace (length es1 + S j)%nat with (S (length es1) + j)%nat by lia.
              by apply (Hl' j e').
        -- intros p Hp'. rewrite Hfr.
           ++ apply Hframe1. intros ->. apply (Hp' 0%nat e); [done|done|lia].
           ++ intros j e' Hj He'. pose proof (Hp' (S j) e' Hj He'). lia.
        -- congruence.
        -- intros Hw. by apply Hwf, Hwf1.
      * exists pages1. rewrite Hrd1, Hrest. simpl. split_and!; try done.
        -- rewrite decide_False by done. f_equal. symmetry. apply zip_fst_snd.
        -- intros [|j] e' Hj He'.
           ++ rewrite Nat.add_0_r, Hrd1. eauto.
           ++ destruct (Hlive (S j) e' Hj He') as [c0 Hc0]. exists c0.
              rewrite <- Hc0. apply stable_rd_congr, Hframe1. lia.
        -- intros p Hp'. apply Hframe1. intros ->.
           apply (Hp' 0%nat e); [done|done|lia].
Qed.

(** The live pairs of a table are its entities other than [NullEntity],
    each with the component that [get] returns. *)
Lemma live_pairs_from_spec es2 : ∀ (es1 : list Z) pages,
  (∀ j e, es2 !! j = Some e → e ≠ NullEntity →
          is_Some (rd Q pages (length es1 + j))) →
  (live_pairs_from Q (length es1) es2 pages).*1 = filter (λ e, e ≠ NullEntity) es2
  ∧ ∀ e c, (e, c) ∈ live_pairs_from Q (length es1) es2 pages →
           ∃ j, es2 !! j = Some e ∧ e ≠ NullEntity
                ∧ rd Q pages (length es1 + j) = Some c.
Proof.
  induction es2 as [|e es2 IH]; intros es1 pages Hlive.
  - split; [done|]. intros e c Hin. inversion Hin.
  - assert (Hlen1 : length (es1 ++ [e]) = S (length es1))
      by (rewrite length_app; simpl; lia).
    destruct (IH (es1 ++ [e]) pages) as [Hfst Hmem].
    { intros j e' Hj He'. rewrite Hlen1.
      replace (S (length es1) + j)%nat with (length es1 + S j)%nat by lia.
      by apply (Hlive (S j) e'). }
    rewrite Hlen1 in *. cbn [live_pairs_from].
    assert (Hshift : ∀ e0 c0,
              (e0, c0) ∈ live_pairs_from Q (S (length es1)) es2 pages →
              ∃ j, (e :: es2) !! j = Some e0 ∧ e0 ≠ NullEntity
                   ∧ rd Q pages (length es1 + j) = Some c0).
    { intros e0 c0 Hin. destruct (Hmem e0 c0 Hin) as (j & Hj & He0 & Hrd).
      exists (S j). split_and!; [done|done|].
      by replace (length es1 + S j)%nat with (S (length es1) + j)%nat by lia. }
    destruct (decide (e = NullEntity)) as [->|Hne].
    + rewrite filter_cons_False by (by intros ?). done.
    + rewrite filter_cons_True by done.
      destruct (Hlive 0%nat e eq_refl Hne) as [c Hc]. rewrite Nat.add_0_r in Hc.
      rewrite Hc. rewrite fmap_cons. simpl. rewrite Hfst. split; [done|].
      intros e0 c0 Hin. apply elem_of_cons in Hin as [[= -> ->]|Hin]; [|by apply Hshift].
      exists 0%nat. rewrite Nat.add_0_r. done.
Qed.

Lemma stable_traverse_visit {A} (cb : Dense.Callback C A) t (a : A) :
  stable_inv Q t →
  ∃ t', traverse Q cb t a
        = Ok ((DenseSpec.visit (DenseSpec.as_visit cb) (live_pairs Q t) a).1, t')
    ∧ live_pairs Q t'
      = zip (live_pairs Q t).*1
            (DenseSpec.visit (DenseSpec.as_visit cb) (live_pairs Q t) a).2
    ∧ entities t' = entities t ∧ indexSet t' = indexSet t
    ∧ tombstones t' = tombstones t
    ∧ stable_inv Q t'
    ∧ (live_pairs Q t).*1 = filter (λ e, e ≠ NullEntity) (entities t)
    ∧ (∀ e c, (e, c) ∈ live_pairs Q t → e ∈ entities t ∧ get Q t e = Ok c).
Proof.
  intros Hinv. pose proof Hinv as [HQ Hpw Hb0 Hidx Hlive Hcells Htomb Hholes Hnd0].
  assert (Hl0 : ∀ j e, entities t !! j = Some e → e ≠ NullEntity →
                       is_Some (rd Q (componentPages t) (length (@nil Z) + j))).
  { intros j e Hj He. destruct (Hlive _ _ Hj He) as [c Hc]. exists c.
    by apply stable_rd_Some. }
  destruct (stable_traverse_loop_visit HQ cb (entities t) [] (componentPages t) a Hl0)
    as (pages' & Hl & Hp & Hl' & Hfr & Hlen & Hwf).
  destruct (live_pairs_from_spec (entities t) [] (componentPages t) Hl0) as [Hfst Hmem].
  simpl in *. change (Z.of_nat 0) with 0 in Hl.
  unfold traverse, vec_size. rewrite Hl. simpl.
  eexists. split; [done|]. split_and!; try done.
  - split; simpl; try done.
    + by apply Hwf.
    + intros j e Hj He. destruct (Hl' j e Hj He) as [c Hc]. exists c. by apply stable_rd_Some.
    + unfold vec_size in *. lia.
  - intros e c Hin. destruct (Hmem e c Hin) as (j & Hj & He & Hrd).
    split; [by eapply list_elem_of_lookup_2|].
    rewrite (sinv_get _ _ _ Hinv Hj He). by apply stable_rd_Some.
Qed.

(** *** removeRange *)

Lemma fmap_wrap_seqZ (b d : Z) :
  0 ≤ b → b + d ≤ 2 ^ 32 → (λ k, wrap (b + k)) <$> seqZ 0 d = seqZ b d.
Proof.
  intros Hb Hd.
  replace (seqZ b d) with (seqZ (b + 0) d) by (f_equal; lia).
  rewrite <- fmap_add_seqZ.
  apply Forall_fmap_ext_1. apply Forall_seqZ. intros k Hk. simpl.
  rewrite wrap_small; lia.
Qed.

Lemma removeRange_as_fold t range :
  0 ≤ range_begin range ≤ range_end range → range_end range < 2 ^ 32 →
  removeRange Q t range
  = foldl (removeRange_step (C:=C) Q) (Ok t)
          (seqZ (range_begin range) (range_end range - range_begin range)).
Proof.
  intros Hbe He. unfold removeRange.
  rewrite (wrap_small (range_end range - range_begin range)) by lia.
  rewrite <- (fmap_wrap_seqZ (range_begin range)) by lia.
  by rewrite foldl_fmap.
Qed.

Lemma removeRange_fold_fault ids f : foldl (removeRange_step (C:=C) Q) (Fault f) ids = Fault f.
Proof. induction ids as [|e ids IH]; [done|]. simpl. apply IH. Qed.

Lemma removeRange_fold ids : ∀ t,
  stable_inv Q t → NoDup ids →
  (∀ e, e ∈ ids → e ∈ entities t ∧ e ≠ NullEntity) →
  ∃ t', foldl (removeRange_step (C:=C) Q) (Ok t) ids = Ok t'
    ∧ stable_inv Q t'
    ∧ length (entities t') = length (entities t)
    ∧ (∀ j e', entities t' !! j = Some e' →
         e' = NullEntity ∨ (entities t !! j = Some e' ∧ e' ∉ ids))
    ∧ tombstones t' = tombstones t ++ ((λ e, Sparse.at_ (indexSet t) e) <$> ids)
    ∧ (∀ j e', entities t !! j = Some e' → e' ≠ NullEntity → e' ∉ ids →
         entities t' !! j = Some e'
         ∧ Sparse.at_ (indexSet t') e' = Sparse.at_ (indexSet t) e'
         ∧ cell_at Q (componentPages t') (Z.of_nat j)
           = cell_at Q (componentPages t) (Z.of_nat j)
         ∧ get Q t' e' = get Q t e').
Proof.
  induction ids as [|e ids IH]; intros t Hinv Hnd Hin.
  - exists t. simpl. rewrite app_nil_r. split_and!; try done.
    intros j e' Hj. right. split; [done|]. intros Hx. inversion Hx.
  - apply NoDup_cons in Hnd as [Hnotin Hnd].
    destruct (Hin e) as [He Hne]; [by left|].
    apply list_elem_of_lookup in He as [i Hi].
    destruct (stable_removeImpl_spec Q t (indexSet t) e i Hinv Hi Hne (or_introl eq_refl))
      as (pages1 & Hset & Hr).
    destruct (tombstoned_inv Q t e i pages1 Hinv Hi Hne Hset)
      as (Hinv1 & Hcell1 & Hframe1 & Hlen1).
    assert (Hstep : (removeRange_step (C:=C) Q) (Ok t) e = Ok (tombstoned t e i pages1)).
    { unfold removeRange_step. simpl. rewrite (sinv_index _ _ Hinv _ _ Hi Hne).
      destruct t as [s es ps ts]. simpl in *. exact Hr. }
    cbn [foldl]. rewrite Hstep.
    assert (Hother : ∀ j e', entities t !! j = Some e' → e' ≠ NullEntity → e' ≠ e →
                             j ≠ i ∧ entities (tombstoned t e i pages1) !! j = Some e').
    { intros j e' Hj He' Hee. assert (j ≠ i) by (intros ->; congruence).
      split; [done|]. simpl. by rewrite list_lookup_insert_ne. }
    destruct (IH (tombstoned t e i pages1) Hinv1 Hnd)
      as (t' & Hf & Hinv' & Hlen' & Hslots & Hts & Hfr).
    { intros e' He'. destruct (Hin e') as [Hin' Hne']; [by right|].
      split; [|done]. apply list_elem_of_lookup in Hin' as [j Hj].
      destruct (Hother j e' Hj Hne') as [_ Hj']; [by intros ->|].
      by eapply list_elem_of_lookup_2. }
    exists t'. split_and!; try done.
    + rewrite Hlen'. simpl. by rewrite length_insert.
    + intros j e' Hj. destruct (Hslots j e' Hj) as [->|[Hj1 Hout]]; [by left|].
      simpl in Hj1. destruct (decide (j = i)) as [->|Hji].
      * rewrite list_lookup_insert_eq in Hj1 by (by eapply lookup_lt_Some).
        left. congruence.
      * rewrite list_lookup_insert_ne in Hj1 by done.
        destruct (decide (e' = NullEntity)) as [|Hn]; [by left|]. right.
        split; [done|]. apply not_elem_of_cons. split; [|done].
        intros ->. apply Hji. by apply (sinv_live_NoDup Q t j i e).
    + rewrite Hts. simpl. rewrite <- app_assoc. simpl.
      rewrite (sinv_index _ _ Hinv _ _ Hi Hne). do 2 f_equal.
      apply list_fmap_ext. intros k e' Hk. apply sparse_at_remove_ne.
      intros ->. apply Hnotin. by eapply list_elem_of_lookup_2.
    + intros j e' Hj He' Hout. apply not_elem_of_cons in Hout as [Hee Hout].
      destruct (Hother j e' Hj He' Hee) as [Hji Hj1].
      destruct (Hfr j e' Hj1 He' Hout) as (Hj2 & Hs2 & Hc2 & Hg2).
      split_and!; [done| | |].
      * rewrite Hs2. simpl. by rewrite sparse_at_remove_ne.
      * rewrite Hc2. simpl. by apply Hframe1.
      * rewrite Hg2. unfold get. simpl. rewrite sparse_at_remove_ne by done.
        rewrite (sinv_index _ _ Hinv _ _ Hj He'). apply atIndex_congr. by apply Hframe1.
Qed.

Lemma removeRange_present t range :
  stable_inv Q t →
  0 ≤ range_begin range ≤ range_end range → range_end range < 2 ^ 32 →
  (∀ e, range_begin range ≤ e < range_end range → e ∈ entities t) →
  ∃ t', removeRange Q t range = Ok t'
    ∧ stable_inv Q t'
    ∧ length (entities t') = length (entities t)
    ∧ (∀ e, range_begin range ≤ e < range_end range → e ∉ entities t')
    ∧ tombstones t'
      = tombstones t ++ ((λ e, Sparse.at_ (indexSet t) e)
                           <$> seqZ (range_begin range)
                                    (range_end range - range_begin range))
    ∧ (∀ j e', entities t !! j = Some e' → e' ≠ NullEntity →
         ¬ (range_begin range ≤ e' < range_end range) →
         entities t' !! j = Some e'
         ∧ Sparse.at_ (indexSet t') e' = Sparse.at_ (indexSet t) e'
         ∧ cell_at Q (componentPages t') (Z.of_nat j)
           = cell_at Q (componentPages t) (Z.of_nat j)
         ∧ get Q t' e' = get Q t e').
Proof.
  intros Hinv Hbe He Hall. rewrite removeRange_as_fold by done.
  set (ids := seqZ (range_begin range) (range_end range - range_begin range)).
  assert (Hids : ∀ e, e ∈ ids ↔ range_begin range ≤ e < range_end range).
  { intros e. unfold ids. rewrite elem_of_seqZ. lia. }
  destruct (removeRange_fold ids t Hinv) as (t' & Hf & Hinv' & Hlen & Hslots & Hts & Hfr).
  { apply NoDup_seqZ. }
  { intros e Hin. apply Hids in Hin. split; [by apply Hall|]. null_val. lia. }
  exists t'. split_and!; try done.
  - intros e Hr Hin. apply list_elem_of_lookup in Hin as [j Hj].
    destruct (Hslots j e Hj) as [->|[_ Hout]].
    + null_val. lia.
    + by apply Hout, Hids.
  - intros j e' Hj He' Hout. apply Hfr; [done|done|]. by rewrite Hids.
Qed.

(** Unlike the dense table, the stable table does not look the entities
    of the range up: an identifier without a slot sends [removeImpl] to the
    slot [NullEntityIndex]. *)
Lemma removeRange_absent t range :
  0 < Q → vec_size (componentPages t) * Q ≤ NullEntityIndex →
  0 ≤ range_begin range < range_end range → range_end range < 2 ^ 32 →
  Sparse.at_ (indexSet t) (range_begin range) = NullEntityIndex →
  removeRange Q t range = Fault OutOfRange.
Proof.
  intros HQ Hcap Hbe He Hat. rewrite removeRange_as_fold by lia.
  rewrite seqZ_cons by lia. cbn [foldl].
  assert (Hstep : (removeRange_step (C:=C) Q) (Ok t) (range_begin range) = Fault OutOfRange).
  { unfold removeRange_step. simpl. rewrite Hat.
    unfold removeImpl, destroyComponent, atIndex, cell_at.
    rewrite vec_at_out; [done|].
    unfold GetPageIndex. apply Z.div_le_lower_bound; lia. }
  rewrite Hstep. apply removeRange_fold_fault.
Qed.

(** *** addRange *)

Lemma insert_loop (HQ : 0 < Q) (c : C) (n : nat) : ∀ (d : nat) pages,
  pages_wf Q pages → Z.of_nat (n + d) < 2 ^ 32 →
  ∃ pages',
    foldl (λ (r : result (list (ComponentPage C))) k,
             pages ← r; insertComponent Q pages (wrap (Z.of_nat n + k)) c)
          (Ok pages) (seqZ 0 (Z.of_nat d)) = Ok pages'
    ∧ pages_wf Q pages'
    ∧ (∀ k, (k < d)%nat → atIndex Q pages' (Z.of_nat (n + k)) = Ok c)
    ∧ (∀ j cell, (j < n)%nat → cell_at Q pages (Z.of_nat j) = Ok cell →
                 cell_at Q pages' (Z.of_nat j) = Ok cell)
    ∧ vec_size pages ≤ vec_size pages'
    ∧ ((0 < d)%nat → Z.of_nat (n + d) ≤ vec_size pages' * Q).
Proof.
  induction d as [|d IH]; intros pages Hwf Hb.
  - exists pages. simpl. split_and!; try done; lia.
  - destruct (IH pages Hwf) as (pages1 & Hf & Hwf1 & Hnew1 & Hold1 & Hgrow1 & _); [lia|].
    rewrite seqZ_S, foldl_app, Hf. simpl. rewrite wrap_small by lia.
    replace (Z.of_nat n + (0 + Z.of_nat d)) with (Z.of_nat (n + d)) by lia.
    destruct (insertComponent_spec Q HQ pages1 (Z.of_nat (n + d)) c
                (Nat2Z.is_nonneg _) Hwf1)
      as (pages' & -> & Hat & Hframe & Hwf' & Hgrow & Hcap).
    exists pages'. split_and!; try done.
    + intros k Hk. destruct (decide (k = d)) as [->|Hkd]; [done|].
      apply atIndex_cell, Hframe; [lia|lia|]. apply atIndex_cell, Hnew1. lia.
    + intros j cell Hj Hc. apply Hframe; [lia|lia|]. by apply Hold1.
    + lia.
    + intros _. lia.
Qed.

Lemma stable_addRange_spec t range c :
  stable_inv Q t →
  0 ≤ range_begin range ≤ range_end range → range_end range < 2 ^ 32 →
  Forall (λ e, ¬ (range_begin range ≤ e < range_end range)) (entities t) →
  vec_size (entities t) + (range_end range - range_begin range) < NullEntityIndex →
  ∃ t', addRange Q t range c = Ok t'
    ∧ stable_inv Q t'
    ∧ entities t'
      = entities t ++ seqZ (range_begin range) (range_end range - range_begin range)
    ∧ tombstones t' = tombstones t
    ∧ (∀ e, range_begin range ≤ e < range_end range →
         Sparse.at_ (indexSet t') e = vec_size (entities t) + (e - range_begin range)
         ∧ get Q t' e = Ok c)
    ∧ (∀ j e', entities t !! j = Some e' → e' ≠ NullEntity →
         entities t' !! j = Some e'
         ∧ Sparse.at_ (indexSet t') e' = Sparse.at_ (indexSet t) e'
         ∧ cell_at Q (componentPages t') (Z.of_nat j)
           = cell_at Q (componentPages t) (Z.of_nat j)
         ∧ get Q t' e' = get Q t e').
Proof.
  intros Hinv Hbe He32 Hfree Hroom.
  pose proof Hinv as [HQ Hpw Hb0 Hidx Hlive Hcells Htomb Hholes Hnd0].
  unfold vec_size in Hroom, Hb0, Hcells. null_val.
  set (n := length (entities t)) in *.
  set (b := range_begin range) in *. set (d := range_end range - b) in *.
  assert (Hd : d = Z.of_nat (Z.to_nat d)) by lia.
  destruct (insert_loop HQ c n (Z.to_nat d) (componentPages t) Hpw)
    as (pages' & Hf & Hwf' & Hnew & Hold & Hgrow & Hcap); [lia|].
  rewrite <- Hd in Hf.
  unfold addRange. fold b. fold d. rewrite (wrap_small d) by lia.
  rewrite (fmap_wrap_seqZ b d) by lia.
  unfold vec_size. fold n.
  assert (Hloop : foldl (λ (r : result (list (ComponentPage C))) k,
                     pages ← r; insertComponent Q pages (wrap (Z.of_nat n + k)) c)
                    (mret (componentPages t)) (seqZ 0 d) = Ok pages') by exact Hf.
  rewrite Hloop. simpl.
  assert (Hat : ∀ key,
    Sparse.at_ (foldl (λ s k, Sparse.add s (wrap (b + k)) (wrap (Z.of_nat n + k)))
                      (indexSet t) (seqZ 0 d)) key
    = if decide (b ≤ key < b + d) then Z.of_nat n + (key - b)
      else Sparse.at_ (indexSet t) key).
  { intros key.
    pose proof (DenseSteps.addRange_index b (Z.of_nat n) (Z.to_nat d) (indexSet t) key) as H.
    rewrite !Z2Nat.id in H by lia. apply H; lia. }
  assert (Hout : ∀ i e, entities t !! i = Some e → ¬ (b ≤ e < b + d)).
  { intros i e Hi Hr. pose proof (Forall_lookup_1 _ _ _ _ Hfree Hi) as H. simpl in H.
    apply H. unfold d in Hr. lia. }
  assert (Hcellold : ∀ j, (j < n)%nat →
            cell_at Q pages' (Z.of_nat j) = cell_at Q (componentPages t) (Z.of_nat j)).
  { intros j Hj. destruct (sinv_cell_ok Q t j Hinv Hj) as [cell Hcell].
    rewrite Hcell. by apply Hold. }
  eexists. split; [done|].
  assert (Hinv' : stable_inv Q
            (mkTable (foldl (λ s k, Sparse.add s (wrap (b + k)) (wrap (Z.of_nat n + k)))
                            (indexSet t) (seqZ 0 d))
                     (entities t ++ seqZ b d) pages' (tombstones t))).
  { split; simpl; try done.
    - unfold vec_size. rewrite length_app, length_seqZ. null_val. fold n. lia.
    - intros i e Hi Hne. rewrite Hat. apply lookup_app_Some in Hi as [Hi|[Hge Hi]].
      + rewrite decide_False by (by eapply Hout). by apply Hidx.
      + apply lookup_seqZ in Hi as [-> Hlt]. fold n in Hge, Hlt.
        rewrite decide_True by lia. lia.
    - intros i e Hi Hne. apply lookup_app_Some in Hi as [Hi|[Hge Hi]].
      + destruct (Hlive _ _ Hi Hne) as [c' Hc']. exists c'.
        rewrite <- Hc'. apply atIndex_congr, Hcellold. by eapply lookup_lt_Some.
      + apply lookup_seqZ in Hi as [-> Hlt]. fold n in Hge, Hlt.
        exists c. replace i with (n + (i - n))%nat by lia. apply Hnew. lia.
    - unfold vec_size in *. rewrite length_app, length_seqZ. fold n.
      destruct (decide (d = 0)); [nia|]. etransitivity; [|apply Hcap; lia]. lia.
    - intros z Hz. destruct (Htomb _ Hz) as [Hz0 Hzn]. split; [done|].
      by apply lookup_app_l_Some.
    - intros i Hi. apply lookup_app_Some in Hi as [Hi|[Hge Hi]]; [by apply Hholes|].
      apply lookup_seqZ in Hi as [Hn Hlt]. null_val. lia. }
  split_and!; try done.
  - intros e Hr. simpl. rewrite Hat. rewrite decide_True by (unfold d; lia).
    split; [unfold vec_size; fold n; lia|]. unfold get. simpl. rewrite Hat.
    rewrite decide_True by (unfold d; lia).
    replace (Z.of_nat n + (e - b)) with (Z.of_nat (n + Z.to_nat (e - b))) by lia.
    apply Hnew. unfold d. lia.
  - intros j e' Hj He'. pose proof (lookup_lt_Some _ _ _ Hj) as Hjlt. fold n in Hjlt.
    simpl. rewrite Hat. rewrite decide_False by (by eapply Hout).
    split_and!; [by apply lookup_app_l_Some|done|by apply Hcellold|].
    unfold get. simpl. rewrite Hat. rewrite decide_False by (by eapply Hout).
    rewrite (Hidx _ _ Hj He'). apply atIndex_congr. by apply Hcellold.
Qed.

End more.
End StableMore.
(** ** The former revision of the dense table *)

Module FormerFacts.
Import Dense DenseSpec DenseFacts DenseLoops DenseMore SystemSpec.

Section former.
Context {C : Type}.
Implicit Types (t : table C).

Lemma addUpdate_tryAdd t e (c : C) : FormerDense.addUpdate t e c = tryAdd t e c.
Proof. reflexivity. Qed.

Lemma former_erased_indexes range : ∀ es i s,
  0 ≤ i < 2 ^ 32 →
  FormerDense.erased_indexes range i es s = erased_indexes range i es s.
Proof.
  induction es as [|e es IH]; intros i s Hi; [done|].
  cbn [FormerDense.erased_indexes erased_indexes].
  assert (Hw : wrap (wrap (i + 1) - 1) = i).
  { unfold wrap. destruct (decide (i = 2 ^ 32 - 1)) as [->|]; [done|].
    rewrite (Z.mod_small (i + 1)) by lia.
    replace (i + 1 - 1) with i by lia. apply Z.mod_small. lia. }
  cbv zeta. rewrite !IH by apply wrap_range. by rewrite Hw.
Qed.

Lemma move_indexes_last : ∀ idxs last,
  0 ≤ last < 2 ^ 32 →
  (Compaction.move_indexes last idxs).2 = wrap (last - Z.of_nat (length idxs)).
Proof.
  induction idxs as [|x idxs IH]; intros last Hl.
  - simpl. rewrite Z.sub_0_r. by rewrite wrap_small.
  - cbn [Compaction.move_indexes length].
    specialize (IH (wrap (last - 1)) (wrap_range _)).
    destruct (Compaction.move_indexes (wrap (last - 1)) idxs) as [moves last'].
    simpl in IH. simpl snd. rewrite IH. unfold wrap.
    rewrite Zminus_mod_idemp_l. f_equal. lia.
Qed.

Lemma move_entities_length : ∀ moves (es : list Z) s es' s',
  Compaction.move_entities moves es s = Ok (es', s') → length es' = length es.
Proof.
  induction moves as [|mv moves IH]; intros es s es' s' H.
  - simpl in H. injection H as <- _. done.
  - cbn [Compaction.move_entities] in H.
    destruct (vec_at es (range_begin mv)) as [x|] eqn:Ex; [|done].
    simpl in H. unfold vec_set in H. case_decide; [|done]. simpl in H.
    apply IH in H. by rewrite length_insert in H.
Qed.

(** The count of the positions that the first loop collects. *)
Lemma erased_count range (es : list Z) s :
  Z.of_nat (length es) < 2 ^ 32 →
  ∃ (ps : list nat) s',
    erased_indexes range 0 es s = (Z.of_nat <$> ps, s')
    ∧ (ps = [] ↔ ∀ e, e ∈ es → in_rangeb range e = false)
    ∧ (length ps ≤ length es)%nat
    ∧ (length ps = length es ↔ ∀ e, e ∈ es → in_rangeb range e = true).
Proof.
  intros Hlen.
  destruct (erased_indexes_spec range es 0 s) as (ps & s' & Her & Hps & Hnd & _);
    [simpl; lia|].
  exists ps, s'. split; [done|].
  assert (Hps0 : ∀ p, p ∈ ps ↔ ∃ e, es !! p = Some e ∧ in_rangeb range e = true).
  { intros p. rewrite Hps. split.
    - intros (e & _ & He & Hr). rewrite Nat.sub_0_r in He. eauto.
    - intros (e & He & Hr). exists e. rewrite Nat.sub_0_r. split_and!; [lia|done|done]. }
  assert (Hbound : ∀ p, p ∈ ps → (p < length es)%nat).
  { intros p (e & He & _)%Hps0. by eapply lookup_lt_Some. }
  split; [|split].
  - split.
    + intros -> e He. destruct (in_rangeb range e) eqn:Hr; [|done].
      apply list_elem_of_lookup in He as [p Hp].
      exfalso. apply (not_elem_of_nil p). apply Hps0. eauto.
    + intros Hnone. destruct ps as [|p ps']; [done|]. exfalso.
      destruct (proj1 (Hps0 p)) as (e & He & Hr); [left|].
      rewrite Hnone in Hr; [done|]. by eapply list_elem_of_lookup_2.
  - by apply ChaseFacts.NoDup_bounded_length.
  - split.
    + intros Heq e He. destruct (in_rangeb range e) eqn:Hr; [done|]. exfalso.
      apply list_elem_of_lookup in He as [p Hp].
      assert (Hnp : p ∉ ps).
      { intros (e' & He' & Hr')%Hps0. congruence. }
      pose proof (ChaseFacts.NoDup_bounded_length (p :: ps) (length es)) as Hc.
      simpl in Hc. rewrite Heq in Hc.
      assert (S (length es) ≤ length es)%nat; [|lia].
      apply Hc; [by constructor|].
      intros x [->|Hx]%elem_of_cons; [by eapply lookup_lt_Some|by apply Hbound].
    + intros Hall.
      assert (seq 0 (length es) ⊆+ ps) as Hsub.
      { apply NoDup_submseteq; [apply NoDup_seq|].
        intros p Hp%elem_of_seq. apply Hps0.
        destruct (lookup_lt_is_Some_2 es p) as [e He]; [lia|].
        exists e. split; [done|]. apply Hall. by eapply list_elem_of_lookup_2. }
      apply submseteq_length in Hsub. rewrite length_seq in Hsub.
      pose proof (ChaseFacts.NoDup_bounded_length ps (length es) Hnd Hbound). lia.
Qed.

(** The former [removeRange] does what the later one does, unless the
    range takes every entity of the table. *)
Lemma former_removeRange_same t range :
  dense_inv t → ¬ covered range t →
  FormerDense.removeRange t range = removeRange t range.
Proof.
  intros Hinv Hnc. pose proof (inv_bound _ Hinv) as Hb. unfold vec_size in Hb. null_val.
  destruct (erased_count range (entities t) (indexSet t))
    as (ps & s1 & Her & Hnil & Hle & Hall); [lia|].
  unfold FormerDense.removeRange, removeRange.
  rewrite former_erased_indexes by lia. rewrite Her.
  destruct (Z.of_nat <$> ps) as [|z zs] eqn:Ezs; [done|].
  rewrite <- Ezs.
  pose proof (move_indexes_last (sort_descending (Z.of_nat <$> ps))
                (wrap (vec_size (entities t) - 1)) (wrap_range _)) as Hlast.
  destruct (Compaction.move_indexes _ _) as [moves last] eqn:Emi. simpl in Hlast.
  rewrite (Permutation_length (sort_descending_perm _)), length_fmap in Hlast.
  assert (Hlt : (length ps < length (entities t))%nat).
  { destruct (decide (length ps = length (entities t))) as [Heq|]; [|lia].
    exfalso. apply Hnc. split.
    - intros Hn. rewrite Hn in Heq. destruct ps; [done|done].
    - intros e He. apply in_rangeb_spec. by apply Hall. }
  assert (Hw : wrap (last + 1) = last + 1).
  { rewrite Hlast. unfold vec_size. rewrite (wrap_small (_ - 1)) by lia.
    rewrite (wrap_small (_ - 1 - _)) by lia. apply wrap_small. lia. }
  by rewrite Hw.
Qed.

Lemma former_removeRange_covered t range :
  dense_inv t → covered range t →
  FormerDense.removeRange t range = Fault OutOfRange.
Proof.
  intros Hinv [Hne Hcov]. pose proof (inv_bound _ Hinv) as Hb.
  unfold vec_size in Hb. null_val.
  destruct (erased_count range (entities t) (indexSet t))
    as (ps & s1 & Her & Hnil & Hle & Hall); [lia|].
  destruct (removeRange_exactly t range Hinv) as (t' & Hok & _).
  revert Hok. unfold FormerDense.removeRange, removeRange.
  rewrite former_erased_indexes by lia. rewrite Her.
  assert (Heq : length ps = length (entities t)).
  { apply Hall. intros e He. apply in_rangeb_spec. by apply Hcov. }
  destruct (Z.of_nat <$> ps) as [|z zs] eqn:Ezs.
  { apply fmap_nil_inv in Ezs. subst ps. simpl in Heq.
    destruct (entities t); [done|done]. }
  rewrite <- Ezs.
  pose proof (move_indexes_last (sort_descending (Z.of_nat <$> ps))
                (wrap (vec_size (entities t) - 1)) (wrap_range _)) as Hlast.
  destruct (Compaction.move_indexes _ _) as [moves last] eqn:Emi. simpl in Hlast.
  rewrite (Permutation_length (sort_descending_perm _)), length_fmap in Hlast.
  assert (Hl : last = 2 ^ 32 - 1).
  { rewrite Hlast. unfold vec_size.
    assert (0 < length (entities t))%nat by (destruct (entities t); [done|simpl; lia]).
    rewrite (wrap_small (_ - 1)) by lia. rewrite Heq.
    replace (Z.of_nat (length (entities t)) - 1 - Z.of_nat (length (entities t)))
      with (-1) by lia. done. }
  destruct (Compaction.move_entities moves (entities t) s1) as [[es1 s2]|f] eqn:Eme;
    [|done].
  intros _. simpl. apply move_entities_length in Eme.
  unfold vec_erase_from, vec_size. rewrite decide_False by lia. done.
Qed.

End former.
End FormerFacts.

(** ** The system: entities and their components *)

Module SystemFacts.
Import Dense DenseSpec DenseFacts DenseLoops DenseMore.
Import Allocator AllocatorFacts AllocatorLive.
Import System SystemSpec FormerFacts.

Section system.
Context {K : Type} `{EqDecision K} {ty : K → Type}.
Implicit Types (s : system ty) (k : K) (e : Z).

Lemma tables_setTable_eq s k t : tables (setTable s k t) k = t.
Proof.
  unfold setTable. cbn [tables]. destruct (decide (k = k)) as [Heq|]; [|done].
  by rewrite (proof_irrel Heq eq_refl).
Qed.

Lemma tables_setTable_ne s k k' t :
  k ≠ k' → tables (setTable s k t) k' = tables s k'.
Proof. intros Hne. unfold setTable. cbn [tables]. by destruct (decide (k = k')). Qed.

Lemma base_setTable s k t : base (setTable s k t) = base s.
Proof. done. Qed.

(** Distinct identifiers between 1 and [n] are at most [n]. *)
Lemma live_count (l : list Z) (n : Z) :
  0 ≤ n → NoDup l → (∀ x, x ∈ l → 1 ≤ x ≤ n) → Z.of_nat (length l) ≤ n.
Proof.
  intros Hn Hnd Hb.
  pose proof (ChaseFacts.NoDup_bounded_length
                ((λ x, Z.to_nat (x - 1)) <$> l) (Z.to_nat n)) as Hc.
  rewrite length_fmap in Hc.
  assert (length l ≤ Z.to_nat n)%nat; [|lia]. apply Hc.
  - apply NoDup_fmap_2_strong; [|done].
    intros x y Hx Hy Hxy. apply Hb in Hx, Hy. lia.
  - intros x (y & -> & Hy)%list_elem_of_fmap. apply Hb in Hy. lia.
Qed.

(** A table has room for the live entities that it does not hold. *)
Lemma live_room s k (l : list Z) :
  sys_inv s → NoDup l →
  (∀ x, x ∈ l → live x (base s)) →
  (∀ x, x ∈ l → x ∉ entities (tables s k)) →
  has_room (tables s k) (Z.of_nat (length l)).
Proof.
  intros [Ha Ht Hl] Hnd Hlive Habs. unfold has_room, vec_size.
  pose proof (inv_last _ Ha) as Hlast.
  pose proof (live_count (entities (tables s k) ++ l) (lastEntity (base s))) as Hc.
  rewrite length_app in Hc. null_val.
  assert (Z.of_nat (length (entities (tables s k)) + length l) ≤ lastEntity (base s));
    [|lia].
  apply Hc; [lia| |].
  - apply NoDup_app. split; [apply inv_NoDup, Ht|]. split; [|done].
    intros x Hx Hx'. by apply (Habs x).
  - intros x [Hx|Hx]%elem_of_app.
    + apply Hl in Hx. apply Hx.
    + apply Hlive in Hx. apply Hx.
Qed.

Lemma update_inv s k t' :
  sys_inv s → dense_inv t' →
  (∀ e, e ∈ entities t' → live e (base s)) →
  sys_inv (setTable s k t').
Proof.
  intros [Ha Ht Hl] Hinv Hlive. split; [done| |].
  - intros k'. destruct (decide (k = k')) as [<-|Hne].
    + by rewrite tables_setTable_eq.
    + by rewrite tables_setTable_ne.
  - intros k' e. destruct (decide (k = k')) as [<-|Hne].
    + rewrite tables_setTable_eq. apply Hlive.
    + rewrite tables_setTable_ne by done. apply Hl.
Qed.

Lemma initial_inv : sys_inv (initial (ty := ty)).
Proof.
  split.
  - apply fresh_inv.
  - intros k. apply DenseSteps.empty_inv.
  - intros k e He. by apply elem_of_nil in He.
Qed.

Lemma kinds_cons k (c : ty k) (rest : list (component ty)) :
  kinds (existT k c :: rest) = k :: kinds rest.
Proof. done. Qed.

(** [attach]: each component goes to the table of its type. *)
Lemma attach_spec : ∀ (comps : list (component ty)) s e,
  sys_inv s → live e (base s) → NoDup (kinds comps) →
  (∀ k, k ∈ kinds comps → e ∉ entities (tables s k)) →
  sys_inv (attach s e comps)
  ∧ base (attach s e comps) = base s
  ∧ (∀ kc, kc ∈ comps → get (attach s e comps) (projT1 kc) e = Ok (projT2 kc))
  ∧ (∀ k, k ∉ kinds comps → tables (attach s e comps) k = tables s k)
  ∧ (∀ k, k ∈ kinds comps →
          entities (tables (attach s e comps) k) = entities (tables s k) ++ [e])
  ∧ (∀ k e', e' ∈ entities (tables s k) → get (attach s e comps) k e' = get s k e').
Proof.
  induction comps as [|[k c] rest IH]; intros s e Hinv Hlive Hnd Habs.
  - simpl. split_and!; try done.
    + intros kc H. by apply elem_of_nil in H.
    + intros k H. by apply elem_of_nil in H.
  - cbn [attach]. unfold getTable. rewrite kinds_cons in Hnd, Habs.
    apply NoDup_cons in Hnd as [Hk Hnd].
    destruct (add_get (tables s k) e c (sys_tables _ Hinv k))
      as (Hinv1 & Hents & _ & _ & Hget & _ & Hfr).
    { apply Habs. left. }
    { apply (live_room s k [e] Hinv); [apply NoDup_singleton| |].
      - by intros x ->%list_elem_of_singleton.
      - intros x ->%list_elem_of_singleton. apply Habs. left. }
    set (s1 := setTable s k (Dense.add (tables s k) e c)) in *.
    assert (Hs1 : sys_inv s1).
    { apply update_inv; [done|done|]. intros e'. rewrite Hents.
      intros [H|H%list_elem_of_singleton]%elem_of_app; [by eapply sys_live|by subst]. }
    destruct (IH s1 e Hs1 Hlive Hnd) as (Hi & Hb & Hg & Hsame & Hnew & Hframe).
    { intros k' Hk'. unfold s1. rewrite tables_setTable_ne by (by intros ->).
      apply Habs. by right. }
    split_and!.
    + done.
    + done.
    + intros kc [->|Hin]%elem_of_cons; [|by apply Hg].
      cbn [projT1 projT2]. unfold get, getTable. rewrite Hsame by done.
      unfold s1. rewrite tables_setTable_eq. exact Hget.
    + intros k' Hk'. rewrite kinds_cons in Hk'.
      apply not_elem_of_cons in Hk' as [Hne Hk'].
      rewrite Hsame by done. unfold s1. by rewrite tables_setTable_ne.
    + intros k' Hk'. rewrite kinds_cons in Hk'.
      apply elem_of_cons in Hk' as [->|Hk'].
      * rewrite Hsame by done. unfold s1. by rewrite tables_setTable_eq.
      * rewrite Hnew by done. unfold s1. rewrite tables_setTable_ne; [done|].
        by intros ->.
    + intros k' e' He'. destruct (decide (k = k')) as [<-|Hne].
      * transitivity (get s1 k e').
        -- apply Hframe. unfold s1. rewrite tables_setTable_eq, Hents.
           apply elem_of_app. by left.
        -- unfold get, getTable, s1. rewrite tables_setTable_eq. by apply Hfr.
      * rewrite Hframe.
        -- unfold get, getTable, s1. by rewrite tables_setTable_ne.
        -- unfold s1. by rewrite tables_setTable_ne.
Qed.

(** [add(components...)]: a new identifier, with its components. *)
Lemma system_add_spec s (comps : list (component ty)) :
  sys_inv s → lastEntity (base s) + 1 < NullEntity → NoDup (kinds comps) →
  sys_inv (add s comps).2
  ∧ 1 ≤ (add s comps).1 < NullEntity
  ∧ ¬ live (add s comps).1 (base s)
  ∧ live (add s comps).1 (base (add s comps).2)
  ∧ (∀ x, x ≠ (add s comps).1 → (live x (base (add s comps).2) ↔ live x (base s)))
  ∧ (∀ k, (add s comps).1 ∉ entities (tables s k))
  ∧ (∀ kc, kc ∈ comps →
           get (add s comps).2 (projT1 kc) (add s comps).1 = Ok (projT2 kc))
  ∧ (∀ k, k ∉ kinds comps → tables (add s comps).2 k = tables s k)
  ∧ (∀ k, k ∈ kinds comps →
          entities (tables (add s comps).2 k)
          = entities (tables s k) ++ [(add s comps).1])
  ∧ (∀ k e', e' ∈ entities (tables s k) → get (add s comps).2 k e' = get s k e').
Proof.
  intros Hinv Hroom Hnd. pose proof (sys_alloc _ Hinv) as Ha.
  destruct (add_live (base s) Ha Hroom) as (Hrange & Hfresh & Hlive & Hothers & _).
  pose proof (alloc_step_inv OpAdd (base s) Ha Hroom) as Ha'. simpl in Ha'.
  unfold add. destruct (Allocator.add (base s)) as [e b'] eqn:E.
  cbn [fst snd] in *.
  assert (Habs : ∀ k, e ∉ entities (tables s k)).
  { intros k He. apply Hfresh. by eapply sys_live. }
  set (s0 := mkSystem b' (tables s)).
  assert (Hs0 : sys_inv s0).
  { split; [done|apply Hinv|]. intros k x Hx. cbn [base s0].
    apply Hothers; [|by eapply sys_live]. intros ->. by apply (Habs k). }
  destruct (attach_spec comps s0 e Hs0 Hlive Hnd) as (Hi & Hb & Hg & Hsame & Hnew & Hframe).
  { intros k _. apply Habs. }
  rewrite Hb. split_and!; try done; lia.
Qed.

Lemma in_range_seqZ x range :
  x ∈ seqZ (range_begin range) (range_end range - range_begin range)
  ↔ in_range x range.
Proof. rewrite elem_of_seqZ. unfold in_range. lia. Qed.

(** [attachRange]: every entity of the range gets a copy of each
    component. *)
Lemma attachRange_spec : ∀ (comps : list (component ty)) s range,
  sys_inv s →
  0 ≤ range_begin range ≤ range_end range → range_end range < 2 ^ 32 →
  (∀ x, in_range x range → live x (base s)) →
  NoDup (kinds comps) →
  (∀ k x, k ∈ kinds comps → in_range x range → x ∉ entities (tables s k)) →
  sys_inv (attachRange s range comps)
  ∧ base (attachRange s range comps) = base s
  ∧ (∀ kc x, kc ∈ comps → in_range x range →
             get (attachRange s range comps) (projT1 kc) x = Ok (projT2 kc))
  ∧ (∀ k, k ∉ kinds comps → tables (attachRange s range comps) k = tables s k)
  ∧ (∀ k e', e' ∈ entities (tables s k) →
             get (attachRange s range comps) k e' = get s k e').
Proof.
  induction comps as [|[k c] rest IH]; intros s range Hinv Hbe Hend Hlive Hnd Habs.
  - simpl. split_and!; try done. intros kc x H. by apply elem_of_nil in H.
  - cbn [attachRange]. unfold getTable. rewrite kinds_cons in Hnd, Habs.
    apply NoDup_cons in Hnd as [Hk Hnd].
    destruct (addRange_get (tables s k) range c (sys_tables _ Hinv k))
      as (Hinv1 & Hents & _ & Hget & Hfr).
    { simpl. split; [done|]. split; [done|]. split.
      - apply Forall_forall. intros x Hx Hr. apply (Habs k x); [left|done|done].
      - pose proof (live_room s k
                      (seqZ (range_begin range) (range_end range - range_begin range))
                      Hinv (NoDup_seqZ _ _)) as Hroom.
        rewrite length_seqZ, Z2Nat.id in Hroom by lia. apply Hroom.
        + intros x Hx%in_range_seqZ. by apply Hlive.
        + intros x Hx%in_range_seqZ. apply Habs; [left|done]. }
    set (s1 := setTable s k (Dense.addRange (tables s k) range c)) in *.
    assert (Hs1 : sys_inv s1).
    { apply update_inv; [done|done|]. intros e'. rewrite Hents.
      intros [H|H%in_range_seqZ]%elem_of_app; [by eapply sys_live|by apply Hlive]. }
    destruct (IH s1 range Hs1 Hbe Hend Hlive Hnd) as (Hi & Hb & Hg & Hsame & Hframe).
    { intros k' x Hk' Hx. unfold s1. rewrite tables_setTable_ne by (by intros ->).
      apply Habs; [by right|done]. }
    split_and!.
    + done.
    + done.
    + intros kc x [->|Hin]%elem_of_cons Hx; [|by apply Hg].
      cbn [projT1 projT2]. unfold get, getTable. rewrite Hsame by done.
      unfold s1. rewrite tables_setTable_eq. by apply Hget.
    + intros k' Hk'. rewrite kinds_cons in Hk'.
      apply not_elem_of_cons in Hk' as [Hne Hk'].
      rewrite Hsame by done. unfold s1. by rewrite tables_setTable_ne.
    + intros k' e' He'. destruct (decide (k = k')) as [<-|Hne].
      * transitivity (get s1 k e').
        -- apply Hframe. unfold s1. rewrite tables_setTable_eq, Hents.
           apply elem_of_app. by left.
        -- unfold get, getTable, s1. rewrite tables_setTable_eq. by apply Hfr.
      * rewrite Hframe.
        -- unfold get, getTable, s1. by rewrite tables_setTable_ne.
        -- unfold s1. by rewrite tables_setTable_ne.
Qed.

(** [addRange(count, components...)]: a range of new identifiers, each with
    a copy of the components. *)
Lemma system_addRange_spec s count (comps : list (component ty)) :
  sys_inv s → 0 ≤ count → lastEntity (base s) + count < NullEntity →
  NoDup (kinds comps) →
  sys_inv (addRange s count comps).2
  ∧ range_end (addRange s count comps).1
    = range_begin (addRange s count comps).1 + count
  ∧ 1 ≤ range_begin (addRange s count comps).1
  ∧ (∀ x, in_range x (addRange s count comps).1 →
          ¬ live x (base s) ∧ live x (base (addRange s count comps).2))
  ∧ (∀ x, ¬ in_range x (addRange s count comps).1 →
          (live x (base (addRange s count comps).2) ↔ live x (base s)))
  ∧ (∀ kc x, kc ∈ comps → in_range x (addRange s count comps).1 →
             get (addRange s count comps).2 (projT1 kc) x = Ok (projT2 kc))
  ∧ (∀ k, k ∉ kinds comps → tables (addRange s count comps).2 k = tables s k)
  ∧ (∀ k e', e' ∈ entities (tables s k) →
             get (addRange s count comps).2 k e' = get s k e').
Proof.
  intros Hinv Hc Hroom Hnd. pose proof (sys_alloc _ Hinv) as Ha.
  destruct (addRange_live count (base s) Ha Hc Hroom)
    as (Hend & Hbegin & Hle & Hin & Hout).
  pose proof (alloc_step_inv (OpAddRange count) (base s) Ha (conj Hc Hroom)) as Ha'.
  simpl in Ha'.
  unfold addRange. destruct (Allocator.addRange count (base s)) as [range b'] eqn:E.
  cbn [fst snd] in *.
  assert (Habs : ∀ k x, in_range x range → x ∉ entities (tables s k)).
  { intros k x Hx He. apply (proj1 (Hin x Hx)). by eapply sys_live. }
  set (s0 := mkSystem b' (tables s)).
  assert (Hs0 : sys_inv s0).
  { split; [done|apply Hinv|]. intros k x Hx. cbn [base s0].
    apply Hout; [|by eapply sys_live]. intros Hr. by apply (Habs k x). }
  null_val.
  destruct (attachRange_spec comps s0 range Hs0) as (Hi & Hb & Hg & Hsame & Hframe);
    [lia|lia| | | |].
  { intros x Hx. exact (proj2 (Hin x Hx)). }
  { done. }
  { intros k x _ Hx. by apply Habs. }
  rewrite Hb. split_and!; try done.
Qed.

(** [attachUpdate]: each component is attached, or replaces the one that
    the entity has. *)
Lemma attachUpdate_spec : ∀ (comps : list (component ty)) s e,
  sys_inv s → live e (base s) →
  ∃ s', attachUpdate s e comps = Ok s'
    ∧ sys_inv s' ∧ base s' = base s
    ∧ (∀ k, k ∉ kinds comps → tables s' k = tables s k)
    ∧ (∀ k e', e' ∈ entities (tables s' k)
               ↔ e' ∈ entities (tables s k) ∨ (e' = e ∧ k ∈ kinds comps))
    ∧ (∀ k e', e' ≠ e → e' ∈ entities (tables s k) → get s' k e' = get s k e')
    ∧ (NoDup (kinds comps) →
       ∀ kc, kc ∈ comps → get s' (projT1 kc) e = Ok (projT2 kc)).
Proof.
  induction comps as [|[k c] rest IH]; intros s e Hinv Hlive.
  - exists s. simpl. split_and!; try done.
    + intros k e'. split; [by left|]. intros [H|[_ H]]; [done|].
      by apply elem_of_nil in H.
    + intros _ kc H. by apply elem_of_nil in H.
  - cbn [attachUpdate]. unfold getTable. rewrite addUpdate_tryAdd.
    destruct (tryAdd_upsert (tables s k) e c (sys_tables _ Hinv k))
      as (t1 & Ht1 & Hinv1 & Hget & Hpres & Habs & Hfr).
    { intros Hne. apply (live_room s k [e] Hinv); [apply NoDup_singleton| |].
      - by intros x ->%list_elem_of_singleton.
      - by intros x ->%list_elem_of_singleton. }
    rewrite Ht1, bind_Ok_l.
    assert (Hents : ∀ e', e' ∈ entities t1 ↔ e' ∈ entities (tables s k) ∨ e' = e).
    { intros e'. destruct (decide (e ∈ entities (tables s k))) as [Hin|Hnin].
      - destruct (Hpres Hin) as [-> _]. split; [by left|].
        intros [H| ->]; done.
      - rewrite (Habs Hnin). unfold Dense.add, addImpl. cbn [entities].
        rewrite elem_of_app, list_elem_of_singleton. done. }
    set (s1 := setTable s k t1) in *.
    assert (Hs1 : sys_inv s1).
    { apply update_inv; [done|done|]. intros e' [H| ->]%Hents; [by eapply sys_live|done]. }
    destruct (IH s1 e Hs1 Hlive) as (s' & Hrun & Hi & Hb & Hsame & Hin' & Hframe & Hg).
    exists s'. split; [done|]. split; [done|]. split; [done|].
    split; [|split; [|split]].
    + intros k' Hk'. rewrite kinds_cons in Hk'.
      apply not_elem_of_cons in Hk' as [Hne Hk'].
      rewrite Hsame by done. unfold s1. by rewrite tables_setTable_ne.
    + intros k' e'. rewrite Hin', kinds_cons, elem_of_cons.
      destruct (decide (k = k')) as [<-|Hne].
      * unfold s1. rewrite tables_setTable_eq, Hents. naive_solver.
      * unfold s1. rewrite tables_setTable_ne by done. naive_solver.
    + intros k' e' Hne He'. destruct (decide (k = k')) as [<-|Hnk].
      * transitivity (get s1 k e').
        -- apply Hframe; [done|]. unfold s1. rewrite tables_setTable_eq.
           apply Hents. by left.
        -- unfold get, getTable, s1. rewrite tables_setTable_eq. by apply Hfr.
      * rewrite Hframe; [|done|].
        -- unfold get, getTable, s1. by rewrite tables_setTable_ne.
        -- unfold s1. by rewrite tables_setTable_ne.
    + rewrite kinds_cons. intros [Hk Hnd]%NoDup_cons kc [->|Hin]%elem_of_cons;
        [|by apply Hg].
      cbn [projT1 projT2]. unfold get, getTable. rewrite Hsame by done.
      unfold s1. rewrite tables_setTable_eq. exact Hget.
Qed.

(** One table operation applied to the tables of a pack: when the
    operation removes from a table the entities that [keep] rejects, so
    does the loop from each table of the pack. *)
Lemma on_tables_spec (f : ∀ k, table (ty k) → result (table (ty k)))
    (P : ∀ k, table (ty k) → Prop) (keep : Z → Prop) :
  (∀ k t, dense_inv t → P k t →
          ∃ t', f k t = Ok t' ∧ dense_inv t'
                ∧ (∀ e, e ∈ entities t' ↔ e ∈ entities t ∧ keep e)
                ∧ (∀ e, e ∈ entities t' → Dense.get t' e = Dense.get t e)) →
  ∀ ks s,
    sys_inv s → (∀ k, k ∈ ks → P k (tables s k)) →
    NoDup ks ∨ (∀ k t t', dense_inv t → P k t → f k t = Ok t' → P k t') →
    ∃ s', on_tables f ks s = Ok s'
      ∧ sys_inv s' ∧ base s' = base s
      ∧ (∀ k, k ∉ ks → tables s' k = tables s k)
      ∧ (∀ k e, k ∈ ks →
                (e ∈ entities (tables s' k) ↔ e ∈ entities (tables s k) ∧ keep e))
      ∧ (∀ k e, e ∈ entities (tables s' k) →
                e ∈ entities (tables s k) ∧ get s' k e = get s k e).
Proof.
  intros Hf. induction ks as [|k ks IH]; intros s Hinv HP Hdup.
  - exists s. simpl. split_and!; try done. intros k e H. by apply elem_of_nil in H.
  - cbn [on_tables]. unfold getTable.
    destruct (Hf k (tables s k) (sys_tables _ Hinv k)) as (t1 & Ht1 & Hinv1 & Hents & Hfr).
    { apply HP. left. }
    rewrite Ht1, bind_Ok_l.
    set (s1 := setTable s k t1) in *.
    assert (Hs1 : sys_inv s1).
    { apply update_inv; [done|done|]. intros e [H _]%Hents. by eapply sys_live. }
    destruct (IH s1 Hs1) as (s' & Hrun & Hi & Hb & Hsame & Hin' & Hframe).
    { intros k' Hk'. destruct (decide (k = k')) as [<-|Hne].
      - unfold s1. rewrite tables_setTable_eq. destruct Hdup as [Hnd|Hst].
        + by apply NoDup_cons in Hnd as [? _].
        + eapply Hst; [apply (sys_tables _ Hinv)| |done]. apply HP. left.
      - unfold s1. rewrite tables_setTable_ne by done. apply HP. by right. }
    { destruct Hdup as [Hnd|Hst]; [left|by right]. by apply NoDup_cons in Hnd as [_ ?]. }
    exists s'. split; [done|]. split; [done|]. split; [done|].
    split; [|split].
    + intros k' [Hne Hk']%not_elem_of_cons.
      rewrite Hsame by done. unfold s1. by rewrite tables_setTable_ne.
    + intros k' e Hk'. destruct (decide (k = k')) as [<-|Hne].
      * destruct (decide (k ∈ ks)) as [Hin|Hnin].
        -- rewrite Hin' by done. unfold s1. rewrite tables_setTable_eq, Hents.
           naive_solver.
        -- rewrite Hsame by done. unfold s1. by rewrite tables_setTable_eq, Hents.
      * apply elem_of_cons in Hk' as [?|Hk']; [done|].
        rewrite Hin' by done. unfold s1. by rewrite tables_setTable_ne.
    + intros k' e He. destruct (Hframe k' e He) as [He1 Hg]. rewrite Hg.
      revert He1. unfold get, getTable, s1.
      destruct (decide (k = k')) as [<-|Hne].
      * rewrite tables_setTable_eq. intros He1. split; [by apply Hents|by apply Hfr].
      * by rewrite tables_setTable_ne.
Qed.

(** The former [tryRemove] on one table. *)
Lemma tryRemove_void_spec {C} (t : table C) e :
  dense_inv t →
  ∃ t', tryRemove_void t e = Ok t' ∧ dense_inv t'
        ∧ (∀ e', e' ∈ entities t' ↔ e' ∈ entities t ∧ e' ≠ e)
        ∧ (∀ e', e' ∈ entities t' → Dense.get t' e' = Dense.get t e').
Proof.
  intros Hinv. destruct (decide (e ∈ entities t)) as [Hin|Hnin].
  - destruct (remove_frame t e Hinv Hin) as (t' & _ & Htry & Hinv' & Hents & Hfr).
    by exists t'.
  - exists t. split; [by apply dense_tryRemove_void_absent|].
    split; [done|]. split; [|done].
    intros e'. split; [|by intros [? _]]. intros He'. split; [done|]. by intros ->.
Qed.

(** The former [removeRange] on one table of which an entity stays. *)
Lemma former_removeRange_spec {C} (t : table C) range :
  dense_inv t → ¬ covered range t →
  ∃ t', FormerDense.removeRange t range = Ok t' ∧ dense_inv t'
        ∧ (∀ e, e ∈ entities t' ↔ e ∈ entities t ∧ ¬ in_range e range)
        ∧ (∀ e, e ∈ entities t' → Dense.get t' e = Dense.get t e).
Proof.
  intros Hinv Hnc. rewrite former_removeRange_same by done.
  destruct (removeRange_exactly t range Hinv) as (t' & Hok & Hinv' & Hents & _ & Hfr & _).
  by exists t'.
Qed.

Lemma former_removeRange_uncovers {C} (t t' : table C) range :
  dense_inv t → ¬ covered range t →
  FormerDense.removeRange t range = Ok t' → ¬ covered range t'.
Proof.
  intros Hinv Hnc Hok.
  destruct (former_removeRange_spec t range Hinv Hnc) as (t1 & Hok1 & _ & Hents & _).
  assert (t1 = t') as -> by congruence.
  intros [Hne Hall].
  assert (∃ e, e ∈ entities t') as [e He].
  { destruct (entities t') as [|e es]; [done|]. exists e. left. }
  pose proof (Hall e He) as Hr. by apply Hents in He as [_ Hn].
Qed.

(** [dettach]: the entity leaves the tables of the pack. *)
Lemma dettach_spec ks s e :
  sys_inv s → NoDup ks → (∀ k, k ∈ ks → e ∈ entities (tables s k)) →
  ∃ s', dettach s ks e = Ok s'
    ∧ sys_inv s' ∧ base s' = base s
    ∧ (∀ k, k ∉ ks → tables s' k = tables s k)
    ∧ (∀ k e', k ∈ ks →
               (e' ∈ entities (tables s' k) ↔ e' ∈ entities (tables s k) ∧ e' ≠ e))
    ∧ (∀ k e', e' ∈ entities (tables s' k) →
               e' ∈ entities (tables s k) ∧ get s' k e' = get s k e').
Proof.
  intros Hinv Hnd Hin. unfold dettach.
  apply (on_tables_spec _ (λ k t, e ∈ entities t) (λ e', e' ≠ e)); [|done|done|by left].
  intros k t Ht He.
  destruct (remove_frame t e Ht He) as (t' & Hrm & _ & Hinv' & Hents & Hfr).
  by exists t'.
Qed.

(** [tryDettach]: the same, whether the entity has the components or not. *)
Lemma tryDettach_spec ks s e :
  sys_inv s →
  ∃ s', tryDettach s ks e = Ok s'
    ∧ sys_inv s' ∧ base s' = base s
    ∧ (∀ k, k ∉ ks → tables s' k = tables s k)
    ∧ (∀ k e', k ∈ ks →
               (e' ∈ entities (tables s' k) ↔ e' ∈ entities (tables s k) ∧ e' ≠ e))
    ∧ (∀ k e', e' ∈ entities (tables s' k) →
               e' ∈ entities (tables s k) ∧ get s' k e' = get s k e').
Proof.
  intros Hinv. unfold tryDettach.
  apply (on_tables_spec _ (λ k t, True) (λ e', e' ≠ e)); [|done|done|by right].
  intros k t Ht _. by apply tryRemove_void_spec.
Qed.

(** [dettachRange]: the entities of the range leave the tables of the
    pack. *)
Lemma dettachRange_spec ks s range :
  sys_inv s → (∀ k, k ∈ ks → ¬ covered range (tables s k)) →
  ∃ s', dettachRange s ks range = Ok s'
    ∧ sys_inv s' ∧ base s' = base s
    ∧ (∀ k, k ∉ ks → tables s' k = tables s k)
    ∧ (∀ k e, k ∈ ks →
              (e ∈ entities (tables s' k)
               ↔ e ∈ entities (tables s k) ∧ ¬ in_range e range))
    ∧ (∀ k e, e ∈ entities (tables s' k) →
              e ∈ entities (tables s k) ∧ get s' k e = get s k e).
Proof.
  intros Hinv Hnc. unfold dettachRange.
  apply (on_tables_spec _ (λ k t, ¬ covered range t) (λ e, ¬ in_range e range));
    [|done|done|right].
  - intros k t Ht Hc. by apply former_removeRange_spec.
  - intros k t t'. apply former_removeRange_uncovers.
Qed.

(** A table that the range covers makes the loop of the former
    [removeRange] fail. *)
Lemma on_tables_covered range : ∀ ks s k,
  sys_inv s → k ∈ ks → covered range (tables s k) →
  on_tables (λ k t, FormerDense.removeRange t range) ks s = Fault OutOfRange.
Proof.
  induction ks as [|k0 ks IH]; intros s k Hinv Hk Hcov.
  - by apply elem_of_nil in Hk.
  - cbn [on_tables]. unfold getTable.
    destruct (decide (entities (tables s k0) ≠ []
                      ∧ Forall (λ e, in_range e range) (entities (tables s k0))))
      as [[Hne Hall]|Hnc].
    + rewrite former_removeRange_covered; [done|apply Hinv|].
      split; [done|]. intros e He. rewrite Forall_forall in Hall. by apply Hall.
    + assert (Hnc' : ¬ covered range (tables s k0)).
      { intros [Hne Hall]. apply Hnc. split; [done|]. by apply Forall_forall. }
      destruct (former_removeRange_spec _ range (sys_tables _ Hinv k0) Hnc')
        as (t1 & Ht1 & Hinv1 & Hents & _).
      rewrite Ht1, bind_Ok_l.
      destruct (decide (k0 = k)) as [->|Hne]; [done|].
      apply elem_of_cons in Hk as [?|Hk]; [done|].
      apply (IH _ k); [|done|].
      * apply update_inv; [done|done|]. intros e [He _]%Hents. by eapply sys_live.
      * by rewrite tables_setTable_ne.
Qed.

(** *** Operations on every table of the system *)

Variable ComponentTypes : list K.
Hypothesis ComponentTypes_all : ∀ k, k ∈ ComponentTypes.

(** [remove(entity)]: the entity leaves every table and its identifier is
    released. *)
Lemma remove_spec s e :
  sys_inv s → live e (base s) →
  ∃ s', remove ComponentTypes s e = Ok s'
    ∧ sys_inv s'
    ∧ ¬ live e (base s')
    ∧ (∀ x, x ≠ e → (live x (base s') ↔ live x (base s)))
    ∧ (∀ k, e ∉ entities (tables s' k))
    ∧ (∀ k e', e' ≠ e → (e' ∈ entities (tables s' k) ↔ e' ∈ entities (tables s k)))
    ∧ (∀ k e', e' ≠ e → e' ∈ entities (tables s k) → get s' k e' = get s k e').
Proof.
  intros Hinv Hlive. unfold remove.
  destruct (tryDettach_spec ComponentTypes s e Hinv)
    as (s1 & Hrun & Hinv1 & Hb & _ & Hents & Hfr).
  unfold tryDettach in Hrun. rewrite Hrun, bind_Ok_l.
  eexists. split; [done|].
  pose proof (sys_alloc _ Hinv) as Ha.
  destruct (remove_live e (base s) Ha Hlive) as [Hdead Hothers].
  pose proof (alloc_step_inv (OpRemove e) (base s) Ha Hlive) as Ha'. simpl in Ha'.
  cbn [base tables]. rewrite Hb.
  assert (Hin : ∀ k e', e' ∈ entities (tables s1 k)
                        ↔ e' ∈ entities (tables s k) ∧ e' ≠ e).
  { intros k e'. by apply Hents. }
  split_and!; try done.
  - split; [done|apply Hinv1|]. cbn [base tables]. intros k x [Hx Hne]%Hin.
    apply Hothers; [done|]. by eapply sys_live.
  - intros k [_ He]%Hin. done.
  - intros k e' Hne. rewrite Hin. naive_solver.
  - intros k e' Hne He'. unfold get at 1, getTable. cbn [tables].
    apply (Hfr k e'). apply Hin. done.
Qed.

(** [removeRange(range)], when every table keeps an entity: the entities of
    the range leave every table and their identifiers are released. *)
Lemma system_removeRange_spec s range :
  sys_inv s → range_begin range < range_end range →
  (∀ x, in_range x range → live x (base s)) →
  (∀ k, ¬ covered range (tables s k)) →
  ∃ s', removeRange ComponentTypes s range = Ok s'
    ∧ sys_inv s'
    ∧ (∀ x, in_range x range → ¬ live x (base s'))
    ∧ (∀ x, ¬ in_range x range → (live x (base s') ↔ live x (base s)))
    ∧ (∀ k x, in_range x range → x ∉ entities (tables s' k))
    ∧ (∀ k e, ¬ in_range e range →
              (e ∈ entities (tables s' k) ↔ e ∈ entities (tables s k)))
    ∧ (∀ k e, ¬ in_range e range → e ∈ entities (tables s k) →
              get s' k e = get s k e).
Proof.
  intros Hinv Hbe Hlive Hnc. unfold removeRange.
  destruct (dettachRange_spec ComponentTypes s range Hinv)
    as (s1 & Hrun & Hinv1 & Hb & _ & Hents & Hfr); [by intros k _|].
  unfold dettachRange in Hrun. rewrite Hrun, bind_Ok_l.
  eexists. split; [done|].
  pose proof (sys_alloc _ Hinv) as Ha.
  destruct (removeRange_live range (base s) Ha Hbe Hlive) as [Hdead Hothers].
  pose proof (alloc_step_inv (OpRemoveRange range) (base s) Ha (conj Hbe Hlive)) as Ha'.
  simpl in Ha'. cbn [base tables]. rewrite Hb.
  assert (Hin : ∀ k e, e ∈ entities (tables s1 k)
                       ↔ e ∈ entities (tables s k) ∧ ¬ in_range e range).
  { intros k e. by apply Hents. }
  split_and!; try done.
  - split; [done|apply Hinv1|]. cbn [base tables]. intros k x [Hx Hne]%Hin.
    apply Hothers; [done|]. by eapply sys_live.
  - intros k x Hx [_ He]%Hin. done.
  - intros k e Hne. rewrite Hin. naive_solver.
  - intros k e Hne He. unfold get at 1, getTable. cbn [tables].
    apply (Hfr k e). apply Hin. done.
Qed.

(** The former [removeRange] cannot take every entity of a table. *)
Lemma removeRange_covered s range k :
  sys_inv s → covered range (tables s k) →
  removeRange ComponentTypes s range = Fault OutOfRange.
Proof.
  intros Hinv Hcov. unfold removeRange.
  by rewrite (on_tables_covered range ComponentTypes s k Hinv (ComponentTypes_all k) Hcov).
Qed.

(** Every operation runs and keeps the invariant of the system. *)
Lemma step_inv (o : op ty) s :
  sys_inv s → pre o s → ∃ s', step ComponentTypes o s = Ok s' ∧ sys_inv s'.
Proof.
  intros Hinv Hpre. destruct o as [comps|count comps|e comps|e comps|range comps
                                    |ks e|ks e|ks range|e|range]; cbn [step pre] in *.
  - destruct Hpre as [Hroom Hnd]. eexists. split; [done|].
    by apply system_add_spec.
  - destruct Hpre as (Hc & Hroom & Hnd). eexists. split; [done|].
    by apply system_addRange_spec.
  - destruct Hpre as (Hlive & Hnd & Habs). eexists. split; [done|].
    by apply attach_spec.
  - destruct (attachUpdate_spec comps s e Hinv Hpre) as (s' & Hrun & Hinv' & _).
    by exists s'.
  - destruct Hpre as (Hbe & Hend & Hlive & Hnd & Habs). eexists. split; [done|].
    by apply attachRange_spec.
  - destruct Hpre as [Hnd Hin].
    destruct (dettach_spec ks s e Hinv Hnd Hin) as (s' & Hrun & Hinv' & _).
    by exists s'.
  - destruct (tryDettach_spec ks s e Hinv) as (s' & Hrun & Hinv' & _).
    by exists s'.
  - destruct (dettachRange_spec ks s range Hinv Hpre) as (s' & Hrun & Hinv' & _).
    by exists s'.
  - destruct (remove_spec s e Hinv Hpre) as (s' & Hrun & Hinv' & _).
    by exists s'.
  - destruct Hpre as (Hbe & Hlive & Hnc).
    destruct (system_removeRange_spec s range Hinv Hbe Hlive Hnc) as (s' & Hrun & Hinv' & _).
    by exists s'.
Qed.

Lemma run_inv (ops : list (op ty)) : ∀ s,
  sys_inv s → pre_ops ComponentTypes ops s → ∃ s', run ComponentTypes ops s = Ok s' ∧ sys_inv s'.
Proof.
  induction ops as [|o ops IH]; intros s Hinv Hpre.
  - by exists s.
  - destruct Hpre as [Hpre Hrest].
    destruct (step_inv o s Hinv Hpre) as (s1 & Hstep & Hinv1).
    cbn [run]. rewrite Hstep, bind_Ok_l. apply IH; [done|]. by apply Hrest.
Qed.

End system.
End SystemFacts.
(** ** pack and sort *)

Module BulkFacts.
Import DenseSpec StableSpec.

Lemma dense_holds_get {C} (t : Dense.table C) :
  dense_inv t → DenseSpec.holds t (dense_val t).
Proof.
  intros Hinv i e Hi. destruct (DenseFacts.inv_component _ _ _ Hinv Hi) as [c Hc].
  exists c. split; [done|]. unfold dense_val.
  by rewrite (DenseFacts.get_at _ _ _ _ Hinv Hi Hc).
Qed.

(** [sort] of the dense table, for any outcome of [std::sort]. *)
Lemma dense_sort_with {C} (t : Dense.table C) sorted :
  dense_inv t → sorted ≡ₚ Dense.entities t →
  ∃ t', Dense.sort_with sorted t = Ok t'
        ∧ Dense.entities t' = sorted
        ∧ dense_inv t'
        ∧ ∀ i e, Dense.entities t' !! i = Some e →
            Sparse.at_ (Dense.indexSet t') e = Z.of_nat i
            ∧ ∃ c, Dense.get t e = Ok c
                   ∧ Dense.components t' !! i = Some c
                   ∧ Dense.get t' e = Ok c.
Proof.
  intros Hinv Hperm.
  destruct (DenseLoops.sort_with_holds t (dense_val t) sorted Hinv
              (dense_holds_get t Hinv) Hperm) as (t' & Hs & Hes & Hinv' & Hh & _).
  exists t'. split_and!; try done.
  intros i e Hi. split; [by apply (inv_index _ Hinv')|].
  destruct (Hh _ _ Hi) as (c & Hc & Hv). exists c. split_and!; [|done|].
  - unfold dense_val in Hv. destruct (Dense.get t e); congruence.
  - by eapply DenseFacts.get_at.
Qed.

(** [pack] of the stable table. *)
Lemma stable_pack {C} Q (t : Stable.table C) :
  stable_inv Q t →
  ∃ t', Stable.pack Q t = Ok t'
    ∧ (Stable.tombstones t = [] → t' = t)
    ∧ Stable.tombstones t' = []
    ∧ vec_size (Stable.entities t') = Stable.count t'
    ∧ Stable.count t' = Stable.count t
    ∧ length (Stable.entities t')
      = (length (Stable.entities t) - length (Stable.tombstones t))%nat
    ∧ (length (Stable.tombstones t) = length (Stable.entities t) →
       Stable.entities t' = [])
    ∧ (∀ e, e ∈ Stable.entities t → e ≠ NullEntity →
            e ∈ Stable.entities t'
            ∧ ∃ c, Stable.get Q t e = Ok c ∧ Stable.get Q t' e = Ok c)
    ∧ (∀ i e, Stable.entities t' !! i = Some e →
              Sparse.at_ (Stable.indexSet t') e = Z.of_nat i
              ∧ e ≠ NullEntity ∧ e ∈ Stable.entities t)
    ∧ Stable.entities t' ≡ₚ filter (λ e, e ≠ NullEntity) (Stable.entities t)
    ∧ stable_inv Q t'.
Proof.
  intros Hinv. pose proof (sinv_page_size _ _ Hinv) as HQ.
  destruct (StableLoops.pack_spec Q HQ t Hinv)
    as (t' & Hp & Hid & Hts & Hinv' & Hlen & Hsound & Hcomp).
  assert (Hnn : NullEntity ∉ Stable.entities t')
    by (by apply (StableLoops.no_tombstone_NoDup Q t')).
  assert (Hperm : Stable.entities t' ≡ₚ filter (λ e, e ≠ NullEntity) (Stable.entities t)).
  { apply (StableLoops.pack_count Q t t'); try done.
    - intros i e Hi. destruct (Hsound i e Hi) as (? & ? & _). done.
    - intros e Hin Hne. by apply Hcomp. }
  exists t'. split_and!; try done.
  - by rewrite StableLoops.count_no_tombstone.
  - rewrite StableLoops.count_no_tombstone by done. unfold Stable.count, vec_size.
    by rewrite Hperm.
  - intros Hall. rewrite Hall, Nat.sub_diag in Hlen. by apply nil_length_inv.
  - intros i e Hi. destruct (Hsound i e Hi) as (? & ? & ?). done.
Qed.

(** [sort] of the stable table: [pack], then the patch, for any outcome of
    [std::sort] on the packed entities. *)
Lemma stable_sort_with {C} Q (t : Stable.table C) :
  stable_inv Q t →
  ∃ t1, Stable.pack Q t = Ok t1 ∧ Stable.tombstones t1 = []
    ∧ ∀ sorted, sorted ≡ₚ Stable.entities t1 →
      ∃ t', Stable.sort_packed_with Q sorted t1 = Ok t'
        ∧ Stable.entities t' = sorted
        ∧ Stable.tombstones t' = []
        ∧ sorted ≡ₚ filter (λ e, e ≠ NullEntity) (Stable.entities t)
        ∧ stable_inv Q t'
        ∧ ∀ i e, Stable.entities t' !! i = Some e →
            Sparse.at_ (Stable.indexSet t') e = Z.of_nat i
            ∧ ∃ c, Stable.get Q t e = Ok c
                   ∧ Stable.atIndex Q (Stable.componentPages t') (Z.of_nat i) = Ok c
                   ∧ Stable.get Q t' e = Ok c.
Proof.
  intros Hinv. pose proof (sinv_page_size _ _ Hinv) as HQ.
  destruct (stable_pack Q t Hinv)
    as (t1 & Hp & _ & Hts & _ & _ & _ & _ & Hcomp & Hsound & Hperm1 & Hinv1).
  exists t1. split_and!; [done|done|]. intros sorted Hperm.
  destruct (StableLoops.sort_packed_with_spec Q HQ t1 sorted Hinv1 Hts Hperm)
    as (t' & Hs & Hes & Hts' & Hinv' & Hval).
  exists t'. split_and!; try done.
  - by rewrite Hperm.
  - intros i e Hi.
    assert (e ∈ Stable.entities t1) as Hin1
      by (rewrite <- Hperm, <- Hes; by eapply list_elem_of_lookup_2).
    assert (e ≠ NullEntity ∧ e ∈ Stable.entities t) as [Hne Hin].
    { apply list_elem_of_lookup in Hin1 as [j Hj].
      destruct (Hsound j e Hj) as (_ & ? & ?). done. }
    pose proof (sinv_index _ _ Hinv' _ _ Hi Hne) as Hat.
    split; [done|].
    destruct (Hcomp e Hin Hne) as (_ & c & Hg & Hg1).
    destruct (Hval e Hin1) as (c' & Hg1' & Hg').
    assert (c' = c) as -> by congruence.
    exists c. split_and!; [done| |done].
    unfold Stable.get in Hg'. by rewrite Hat in Hg'.
Qed.

(** C5. On a stable table [pack] returns the same table when there is no
    tombstone; otherwise it moves live tail elements into the holes,
    truncates [entities] and clears the tombstones. Afterwards there is no
    tombstone, the length of [entities] is the count, which has not
    changed, every entity that was live is present with the same
    component, and the sparse set maps [entities[i]] to [i]. When every slot
    is a tombstone the cursor [last] wraps below zero and [entities]
    becomes empty. *)
Theorem stable_pack_restores_density :
  (∀ (C : Type) (Q : Z) (t : Stable.table C),
     stable_inv Q t →
     ∃ t', Stable.pack Q t = Ok t'
       ∧ (Stable.tombstones t = [] → t' = t)
       ∧ Stable.tombstones t' = []
       ∧ vec_size (Stable.entities t') = Stable.count t'
       ∧ Stable.count t' = Stable.count t
       ∧ length (Stable.entities t')
         = (length (Stable.entities t) - length (Stable.tombstones t))%nat
       ∧ (length (Stable.tombstones t) = length (Stable.entities t) →
          Stable.entities t' = [])
       ∧ (∀ e, e ∈ Stable.entities t → e ≠ NullEntity →
               e ∈ Stable.entities t'
               ∧ ∃ c, Stable.get Q t e = Ok c ∧ Stable.get Q t' e = Ok c)
       ∧ (∀ i e, Stable.entities t' !! i = Some e →
                 Sparse.at_ (Stable.indexSet t') e = Z.of_nat i
                 ∧ e ≠ NullEntity ∧ e ∈ Stable.entities t)
       ∧ Stable.entities t' ≡ₚ filter (λ e, e ≠ NullEntity) (Stable.entities t)
       ∧ stable_inv Q t')
  ∧ (∃ t, S3_packed = Ok t
          ∧ Stable.entities t = [1; 5; 3] ∧ Stable.tombstones t = []
          ∧ Stable.count t = 3
          ∧ Stable.get 4 t 1 = Ok "a"%string ∧ Stable.get 4 t 3 = Ok "c"%string
          ∧ Stable.get 4 t 5 = Ok "e"%string)
  ∧ (∃ t, all_tombstones = Ok t
          ∧ Stable.entities t = [NullEntity; NullEntity]
          ∧ Compaction.move_indexes (wrap (vec_size (Stable.entities t) - 1))
              (sort_descending (Stable.tombstones t)) = ([], wrap (-1))
          ∧ ∃ t', Stable.pack 4 t = Ok t'
                  ∧ Stable.entities t' = [] ∧ Stable.tombstones t' = []
                  ∧ Stable.count t' = 0).
Proof.
  split_and!.
  - intros C Q t. apply stable_pack.
  - eexists. split; [vm_compute; reflexivity|]. by vm_compute.
  - eexists. split; [vm_compute; reflexivity|].
    split_and!; [by vm_compute|by vm_compute|].
    eexists. split; [vm_compute; reflexivity|]. by vm_compute.
Qed.

Lemma stable_pack_restores_density_witness :
  (∃ t', Stable.pack 4 S2_table = Ok t'
         ∧ Stable.entities t' = [1; 5; 3]
         ∧ Stable.tombstones t' = []
         ∧ vec_size (Stable.entities t') = Stable.count t'
         ∧ Stable.count t' = 3
         ∧ Stable.get 4 t' 5 = Ok "e"%string
         ∧ Sparse.at_ (Stable.indexSet t') 5 = 1)
  ∧ (∃ t', Stable.pack 4 two_holes = Ok t'
           ∧ Stable.entities t' = [] ∧ Stable.tombstones t' = []).
Proof.
  destruct (proj1 stable_pack_restores_density string 4 S2_table
              StableFacts.S2_table_inv)
    as (t1 & Hp1 & _ & Hts1 & Hlen1 & Hc1 & _ & _ & Hlive1 & Hidx1 & _).
  destruct (proj1 stable_pack_restores_density string 4 two_holes
              StableFacts.two_holes_inv)
    as (t2 & Hp2 & _ & Hts2 & _ & _ & _ & Hall2 & _).
  split.
  - exists t1.
    assert (Hes : Stable.entities t1 = [1; 5; 3]).
    { pose proof Hp1 as Hc. vm_compute in Hc. by injection Hc as <-. }
    split; [exact Hp1|]. split; [exact Hes|]. split; [exact Hts1|].
    split; [exact Hlen1|]. split; [by rewrite Hc1|]. split.
    + destruct (Hlive1 5) as (_ & c & Hg & Hg'); [decided|by vm_compute|].
      rewrite Hg'. rewrite <- Hg. reflexivity.
    + apply (Hidx1 1%nat 5). by rewrite Hes.
  - exists t2. split; [exact Hp2|]. split; [by apply Hall2|exact Hts2].
Defined.

(** C6. For every table and every comparison that is a strict weak order
    of its present entities, [sort] returns a table whose entities are a
    permutation of the present entities, ordered under the comparison; the
    sparse set maps [entities[i]] to [i] and the component at position [i]
    is the one its entity had before. On a stable table [sort] runs on the
    result of [pack]. On both tables the alignment holds for every
    permutation of the entities that [std::sort] may return, whatever the
    order it gives to equivalent entities. *)
Theorem sort_orders_and_realigns :
  (∀ (C : Type) (t : Dense.table C) (cmp : Z → Z → bool),
     dense_inv t → strict_weak_order cmp (λ e, e ∈ Dense.entities t) →
     ∃ t', Dense.sort cmp t = Ok t'
       ∧ ordered cmp (Dense.entities t')
       ∧ Dense.entities t' ≡ₚ Dense.entities t
       ∧ dense_inv t'
       ∧ ∀ i e, Dense.entities t' !! i = Some e →
           Sparse.at_ (Dense.indexSet t') e = Z.of_nat i
           ∧ ∃ c, Dense.get t e = Ok c
                  ∧ Dense.components t' !! i = Some c
                  ∧ Dense.get t' e = Ok c)
  ∧ (∀ (C : Type) (Q : Z) (t : Stable.table C) (cmp : Z → Z → bool),
       stable_inv Q t → strict_weak_order cmp (present t) →
       ∃ t1 t', Stable.pack Q t = Ok t1
         ∧ Stable.sort_packed_with Q (std_sort cmp (Stable.entities t1)) t1 = Ok t'
         ∧ Stable.sort Q cmp t = Ok t'
         ∧ Stable.tombstones t' = []
         ∧ ordered cmp (Stable.entities t')
         ∧ Stable.entities t' ≡ₚ filter (λ e, e ≠ NullEntity) (Stable.entities t)
         ∧ stable_inv Q t'
         ∧ ∀ i e, Stable.entities t' !! i = Some e →
             Sparse.at_ (Stable.indexSet t') e = Z.of_nat i
             ∧ ∃ c, Stable.get Q t e = Ok c
                    ∧ Stable.atIndex Q (Stable.componentPages t') (Z.of_nat i) = Ok c
                    ∧ Stable.get Q t' e = Ok c)
  ∧ (∀ (C : Type) (t : Dense.table C) (sorted : list Z),
       dense_inv t → sorted ≡ₚ Dense.entities t →
       ∃ t', Dense.sort_with sorted t = Ok t' ∧ Dense.entities t' = sorted
             ∧ dense_inv t'
             ∧ ∀ e, e ∈ sorted → Dense.get t' e = Dense.get t e)
  ∧ (∀ (C : Type) (Q : Z) (t : Stable.table C),
       stable_inv Q t →
       ∃ t1, Stable.pack Q t = Ok t1 ∧ Stable.tombstones t1 = []
         ∧ ∀ sorted, sorted ≡ₚ Stable.entities t1 →
           ∃ t', Stable.sort_packed_with Q sorted t1 = Ok t'
             ∧ Stable.entities t' = sorted
             ∧ Stable.tombstones t' = []
             ∧ sorted ≡ₚ filter (λ e, e ≠ NullEntity) (Stable.entities t)
             ∧ stable_inv Q t'
             ∧ ∀ i e, Stable.entities t' !! i = Some e →
                 Sparse.at_ (Stable.indexSet t') e = Z.of_nat i
                 ∧ ∃ c, Stable.get Q t e = Ok c
                        ∧ Stable.atIndex Q (Stable.componentPages t') (Z.of_nat i) = Ok c
                        ∧ Stable.get Q t' e = Ok c)
  ∧ (∃ t', Dense.sort S4_dense_less S4_dense = Ok t'
           ∧ Dense.components t' = [1; 2; 3] ∧ Dense.entities t' = [2; 3; 1]
           ∧ Sparse.at_ (Dense.indexSet t') 2 = 0
           ∧ Sparse.at_ (Dense.indexSet t') 3 = 1
           ∧ Sparse.at_ (Dense.indexSet t') 1 = 2)
  ∧ (∃ t t', S4_stable = Ok t
             ∧ Stable.sort 4 (λ a b, match Stable.get 4 t a, Stable.get 4 t b with
                                     | Ok x, Ok y => x <? y
                                     | _, _ => false
                                     end) t = Ok t'
             ∧ Stable.entities t' = [2; 3; 1]
             ∧ Stable.get 4 t' 2 = Ok 1 ∧ Stable.get 4 t' 3 = Ok 2
             ∧ Stable.get 4 t' 1 = Ok 3
             ∧ Sparse.at_ (Stable.indexSet t') 2 = 0
             ∧ Sparse.at_ (Stable.indexSet t') 3 = 1
             ∧ Sparse.at_ (Stable.indexSet t') 1 = 2).
Proof.
  split_and!.
  - intros C t cmp Hinv Hswo.
    destruct (dense_sort_with t (std_sort cmp (Dense.entities t)) Hinv)
      as (t' & Hs & Hes & Hinv' & Hal); [apply std_sort_perm|].
    exists t'. split_and!; [done| | |done|done].
    + rewrite Hes. apply (std_sort_ordered _ _ Hswo). by apply Forall_forall.
    + rewrite Hes. apply std_sort_perm.
  - intros C Q t cmp Hinv Hswo.
    destruct (stable_sort_with Q t Hinv) as (t1 & Hp & Hts & Hsort).
    destruct (stable_pack Q t Hinv)
      as (t1' & Hp' & _ & _ & _ & _ & _ & _ & _ & Hsound & _).
    assert (t1' = t1) as -> by congruence.
    destruct (Hsort (std_sort cmp (Stable.entities t1)))
      as (t' & Hs & Hes & Hts' & Hperm & Hinv' & Hal); [apply std_sort_perm|].
    exists t1, t'. split_and!; try done.
    + unfold Stable.sort. by rewrite Hp.
    + rewrite Hes. apply (std_sort_ordered _ _ Hswo). apply Forall_forall.
      intros e He. apply list_elem_of_lookup in He as [i Hi].
      destruct (Hsound i e Hi) as (_ & ? & ?). by split.
    + by rewrite Hes.
  - intros C t sorted Hinv Hperm.
    destruct (dense_sort_with t sorted Hinv Hperm) as (t' & Hs & Hes & Hinv' & Hal).
    exists t'. split_and!; try done. intros e He. rewrite <- Hes in He.
    apply list_elem_of_lookup in He as [i Hi].
    destruct (Hal i e Hi) as (_ & c & Hg & _ & Hg'). congruence.
  - intros C Q t. apply stable_sort_with.
  - eexists. split; [vm_compute; reflexivity|]. by vm_compute.
  - eexists _, _. split; [vm_compute; reflexivity|].
    split; [vm_compute; reflexivity|]. by vm_compute.
Qed.

Lemma sort_orders_and_realigns_witness :
  (∃ t', Dense.sort (λ a b, b <? a) S1_table = Ok t'
         ∧ Dense.entities t' = [3; 2; 1]
         ∧ ordered (λ a b, b <? a) (Dense.entities t')
         ∧ Sparse.at_ (Dense.indexSet t') 1 = 2
         ∧ Dense.get t' 1 = Ok "a"%string)
  ∧ (∃ t', Stable.sort 4 (λ a b, b <? a) S2_table = Ok t'
           ∧ Stable.entities t' = [5; 3; 1]
           ∧ Stable.tombstones t' = []
           ∧ ordered (λ a b, b <? a) (Stable.entities t')
           ∧ Sparse.at_ (Stable.indexSet t') 1 = 2
           ∧ Stable.get 4 t' 1 = Ok "a"%string)
  ∧ (∃ t', Dense.sort_with [2; 3; 1] S1_table = Ok t'
           ∧ Dense.entities t' = [2; 3; 1]
           ∧ Dense.get t' 3 = Ok "c"%string)
  ∧ (∃ t1 t', Stable.pack 4 S2_table = Ok t1
              ∧ Stable.sort_packed_with 4 [3; 1; 5] t1 = Ok t'
              ∧ Stable.entities t' = [3; 1; 5]
              ∧ Sparse.at_ (Stable.indexSet t') 5 = 2
              ∧ Stable.get 4 t' 5 = Ok "e"%string).
Proof.
  destruct sort_orders_and_realigns as (Hdense & Hstable & Hdense_any & Hstable_any & _).
  destruct (Hdense string S1_table (λ a b, b <? a) DenseFacts.S1_table_inv
              (gtb_strict_weak_order _))
    as (d & Hd & Hdo & _ & _ & Hdal).
  destruct (Hstable string 4 S2_table (λ a b, b <? a) StableFacts.S2_table_inv
              (gtb_strict_weak_order _))
    as (s1 & s & _ & _ & Hs & Hsts & Hso & _ & _ & Hsal).
  destruct (Hdense_any string S1_table [2; 3; 1] DenseFacts.S1_table_inv)
    as (d' & Hd' & Hdes' & _ & Hdget'); [decided|].
  destruct (Hstable_any string 4 S2_table StableFacts.S2_table_inv)
    as (p & Hp & _ & Hany).
  assert (Hpes : Stable.entities p = [1; 5; 3]).
  { pose proof Hp as Hc. vm_compute in Hc. by injection Hc as <-. }
  destruct (Hany [3; 1; 5]) as (s' & Hs' & Hses' & _ & _ & _ & Hsal');
    [rewrite Hpes; decided|].
  assert (Hdes : Dense.entities d = [3; 2; 1]).
  { pose proof Hd as Hc. vm_compute in Hc. by injection Hc as <-. }
  assert (Hses : Stable.entities s = [5; 3; 1]).
  { pose proof Hs as Hc. vm_compute in Hc. by injection Hc as <-. }
  split; [|split; [|split]].
  - exists d. split; [exact Hd|]. split; [exact Hdes|]. split; [exact Hdo|].
    destruct (Hdal 2%nat 1) as (Hat & c & Hg & _ & Hg'); [by rewrite Hdes|].
    split; [exact Hat|]. rewrite Hg', <- Hg. reflexivity.
  - exists s. split; [exact Hs|]. split; [exact Hses|]. split; [exact Hsts|].
    split; [exact Hso|].
    destruct (Hsal 2%nat 1) as (Hat & c & Hg & _ & Hg'); [by rewrite Hses|].
    split; [exact Hat|]. rewrite Hg', <- Hg. reflexivity.
  - exists d'. split; [exact Hd'|]. split; [exact Hdes'|].
    rewrite Hdget'; [reflexivity|decided].
  - exists p, s'. split; [exact Hp|]. split; [exact Hs'|]. split; [exact Hses'|].
    destruct (Hsal' 2%nat 5) as (Hat & c & Hg & _ & Hg'); [by rewrite Hses'|].
    split; [exact Hat|]. rewrite Hg', <- Hg. reflexivity.
Defined.

End BulkFacts.
(** ** The allocator: which identifiers are live *)

Module AllocatorProps.
Import Allocator AllocatorFacts AllocatorLive.

Lemma one_free_inv : alloc_inv one_free.
Proof.
  split; simpl.
  - null_val. lia.
  - repeat constructor; simpl; lia.
  - by split.
Qed.

(** X1. [ASystem::add], on an allocator that keeps its invariant and has
    an identifier left: the identifier returned lies between 1 and
    [NullEntity] excluded, was not live and is live afterwards, no other
    identifier becomes live or stops being live, and the invariant is
    kept. With an empty free list the identifier is [lastEntity + 1];
    otherwise it is a released one, at most [lastEntity], and [lastEntity]
    does not move. *)
Theorem add_issues_a_fresh_identifier s :
  alloc_inv s → lastEntity s + 1 < NullEntity →
  alloc_inv (add s).2
  ∧ 1 ≤ (add s).1 < NullEntity
  ∧ ¬ live (add s).1 s
  ∧ live (add s).1 (add s).2
  ∧ (∀ x, x ≠ (add s).1 → (live x (add s).2 ↔ live x s))
  ∧ (freeEntities s = [] → (add s).1 = lastEntity s + 1)
  ∧ (freeEntities s ≠ [] →
     (add s).1 ≤ lastEntity s ∧ lastEntity (add s).2 = lastEntity s).
Proof.
  intros Hinv Hroom. split; [apply (alloc_step_inv OpAdd s Hinv Hroom)|].
  by apply add_live.
Qed.

Lemma add_issues_a_fresh_identifier_witness :
  (add one_free).1 = 2 ∧ ¬ live 2 one_free ∧ live 2 (add one_free).2.
Proof.
  destruct (add_issues_a_fresh_identifier one_free one_free_inv)
    as (_ & _ & Hfresh & Hlive & _).
  - by vm_compute.
  - split; [reflexivity|]. split; [exact Hfresh|exact Hlive].
Defined.

(** X2. [ASystem::addRange(count)], on an allocator that keeps its
    invariant and has [count] identifiers left: the range returned holds
    [count] identifiers from 1 on, below [NullEntity]; none of them was
    live, all of them are live afterwards, no identifier outside the range
    changes, and the invariant is kept. *)
Theorem addRange_issues_a_fresh_range count s :
  alloc_inv s → 0 ≤ count → lastEntity s + count < NullEntity →
  alloc_inv (addRange count s).2
  ∧ range_end (addRange count s).1 = range_begin (addRange count s).1 + count
  ∧ 1 ≤ range_begin (addRange count s).1
  ∧ range_end (addRange count s).1 ≤ NullEntity
  ∧ (∀ x, in_range x (addRange count s).1 →
          ¬ live x s ∧ live x (addRange count s).2)
  ∧ (∀ x, ¬ in_range x (addRange count s).1 →
          (live x (addRange count s).2 ↔ live x s)).
Proof.
  intros Hinv Hc Hroom.
  split; [apply (alloc_step_inv (OpAddRange count) s Hinv (conj Hc Hroom))|].
  by apply addRange_live.
Qed.

Lemma addRange_issues_a_fresh_range_witness :
  (addRange 2 one_free).1 = mkRange 5 7
  ∧ live 5 (addRange 2 one_free).2 ∧ live 6 (addRange 2 one_free).2
  ∧ ¬ live 2 (addRange 2 one_free).2.
Proof.
  destruct (addRange_issues_a_fresh_range 2 one_free one_free_inv)
    as (_ & _ & _ & _ & Hin & Hout).
  - lia.
  - by vm_compute.
  - split; [reflexivity|]. split; [|split].
    + apply (Hin 5). decided.
    + apply (Hin 6). decided.
    + intros H. apply Hout in H.
      * destruct H as [_ H]. apply H. constructor. decided.
      * decided.
Defined.

(** X3. [ASystem::remove(entity)] of a live identifier: the identifier is
    not live afterwards, no other identifier changes, the invariant is
    kept, and the allocator is left as [removeRange] of the range of that
    one identifier leaves it. *)
Theorem remove_releases_the_identifier entity s :
  alloc_inv s → live entity s →
  alloc_inv (remove entity s)
  ∧ ¬ live entity (remove entity s)
  ∧ (∀ x, x ≠ entity → (live x (remove entity s) ↔ live x s))
  ∧ remove entity s = removeRange (mkRange entity (entity + 1)) s.
Proof.
  intros Hinv Hlive. split; [by apply remove_inv|].
  destruct (remove_live entity s Hinv Hlive) as [Hdead Hothers].
  split; [done|]. split; [done|]. by apply remove_as_range.
Qed.

Lemma remove_releases_the_identifier_witness :
  remove 3 one_free = mkASystem 4 [mkRange 2 4]
  ∧ ¬ live 3 (remove 3 one_free) ∧ live 4 (remove 3 one_free).
Proof.
  destruct (remove_releases_the_identifier 3 one_free one_free_inv)
    as (_ & Hdead & Hothers & _).
  - apply live_decide. by vm_compute.
  - split; [reflexivity|]. split; [exact Hdead|].
    apply Hothers; [lia|]. apply live_decide. by vm_compute.
Defined.

(** X4. [ASystem::removeRange(range)] of a non-empty range of live
    identifiers: none of them is live afterwards, no identifier outside
    the range changes, and the invariant is kept. *)
Theorem removeRange_releases_the_range range s :
  alloc_inv s → range_begin range < range_end range →
  (∀ x, in_range x range → live x s) →
  alloc_inv (removeRange range s)
  ∧ (∀ x, in_range x range → ¬ live x (removeRange range s))
  ∧ (∀ x, ¬ in_range x range → (live x (removeRange range s) ↔ live x s)).
Proof.
  intros Hinv Hne Hlive. split; [by apply removeRange_inv|].
  by apply removeRange_live.
Qed.

Lemma removeRange_releases_the_range_witness :
  removeRange (mkRange 3 5) one_free = mkASystem 2 [mkRange 2 3]
  ∧ ¬ live 3 (removeRange (mkRange 3 5) one_free)
  ∧ live 1 (removeRange (mkRange 3 5) one_free).
Proof.
  destruct (removeRange_releases_the_range (mkRange 3 5) one_free one_free_inv)
    as (_ & Hdead & Hothers).
  - simpl. lia.
  - intros x Hx. unfold in_range in Hx. simpl in Hx. apply live_decide.
    assert (x = 3 ∨ x = 4) as [-> | ->] by lia; by vm_compute.
  - split; [reflexivity|]. split.
    + apply Hdead. decided.
    + apply Hothers; [decided|]. apply live_decide. by vm_compute.
Defined.

End AllocatorProps.

(** ** The dense table: what its operations return and leave *)

Module DenseProps.
Import Dense DenseSpec DenseFacts DenseLoops DenseSteps DenseMore FormerFacts.

Section props.
Context {C : Type}.
Implicit Types (t : table C).

(** X5. [add(entity, component)] of an entity that the table does not hold,
    with room left: the entity is appended, [count] grows by one, [exists]
    finds the entity, [get] returns the component, [getUnstableIndex] is
    the former [count]; the other entities keep their components and
    their indexes; the invariant is kept. *)
Theorem add_then_get t e (c : C) :
  dense_inv t → e ∉ entities t → has_room t 1 →
  dense_inv (add t e c)
  ∧ entities (add t e c) = entities t ++ [e]
  ∧ count (add t e c) = count t + 1
  ∧ exists_ (add t e c) e = true
  ∧ get (add t e c) e = Ok c
  ∧ getUnstableIndex (add t e c) e = count t
  ∧ (∀ e', e' ∈ entities t →
       get (add t e c) e' = get t e'
       ∧ getUnstableIndex (add t e c) e' = getUnstableIndex t e').
Proof. apply add_get. Qed.

(** X6. [tryAdd], which is [addUpdate] in the former revision, succeeds
    on every table that keeps the invariant; room is needed only for an
    entity that the table does not hold. With a component: [get] returns
    it afterwards; an entity of the table keeps its position, and the
    entities and the sparse set do not change; another entity is added as
    [add] does. With a functor: it runs on the component of the entity
    when the table holds it, and the entities do not change; otherwise it
    runs on a default-constructed component, added as [add] does. The
    other entities keep their components; the invariant is kept. *)
Theorem tryAdd_adds_or_replaces (dflt : C) t e (c : C) (functor : C → C) :
  dense_inv t → (e ∉ entities t → has_room t 1) →
  (∃ t', tryAdd t e c = Ok t'
     ∧ FormerDense.addUpdate t e c = Ok t'
     ∧ dense_inv t'
     ∧ get t' e = Ok c
     ∧ (e ∈ entities t → entities t' = entities t ∧ indexSet t' = indexSet t)
     ∧ (e ∉ entities t → t' = add t e c)
     ∧ (∀ e', e' ∈ entities t → e' ≠ e → get t' e' = get t e'))
  ∧ (∃ t', tryAddWith dflt t e functor = Ok t'
       ∧ dense_inv t'
       ∧ (∀ c0, e ∈ entities t → get t e = Ok c0 →
                get t' e = Ok (functor c0) ∧ entities t' = entities t)
       ∧ (e ∉ entities t → t' = add t e (functor dflt))
       ∧ (∀ e', e' ∈ entities t → e' ≠ e → get t' e' = get t e')).
Proof.
  intros Hinv Hroom. split; [|by apply tryAddWith_upsert].
  destruct (tryAdd_upsert t e c Hinv Hroom) as (t' & Hok & H).
  exists t'. split; [done|]. split; [by rewrite addUpdate_tryAdd|done].
Qed.

(** X7. [addRange(range, component)], for a range in order of which the
    table holds no entity, with room for it: the entities of the range are
    appended in increasing order, [count] grows by the length of the
    range, each entity of the range exists and has a copy of the
    component; the other entities keep their components; the invariant is
    kept. *)
Theorem addRange_attaches_to_each range t (c : C) :
  dense_inv t → pre (AddRange range c) t →
  dense_inv (addRange t range c)
  ∧ entities (addRange t range c)
    = entities t ++ seqZ (range_begin range) (range_end range - range_begin range)
  ∧ count (addRange t range c) = count t + (range_end range - range_begin range)
  ∧ (∀ e, range_begin range ≤ e < range_end range →
          exists_ (addRange t range c) e = true ∧ get (addRange t range c) e = Ok c)
  ∧ (∀ e, e ∈ entities t → get (addRange t range c) e = get t e).
Proof. apply addRange_get. Qed.

(** X8. [extract(entity)] of an entity of the table returns what [get]
    returns and leaves the table that [remove] leaves, which is also the
    table that [tryRemove] leaves, with [true]; the entity is gone and the
    invariant is kept. *)
Theorem extract_is_get_then_remove t e :
  dense_inv t → e ∈ entities t →
  ∃ (c : C) t', get t e = Ok c ∧ remove t e = Ok t' ∧ extract t e = Ok (c, t')
          ∧ tryRemove t e = Ok (true, t')
          ∧ dense_inv t' ∧ e ∉ entities t'.
Proof. apply extract_get_remove. Qed.

(** X9. [removeRange(range)] succeeds on every table that keeps the
    invariant: the entities left are those of the table that are not in
    the range, each once, with the components they had; a table with no
    entity in the range is left as it is; the invariant is kept. *)
Theorem removeRange_removes_the_range t range :
  dense_inv t →
  ∃ t', removeRange t range = Ok t'
    ∧ dense_inv t'
    ∧ (∀ e, e ∈ entities t' ↔ e ∈ entities t ∧ ¬ (range_begin range ≤ e < range_end range))
    ∧ entities t' ≡ₚ filter (λ e, ¬ (range_begin range ≤ e < range_end range)) (entities t)
    ∧ (∀ e, e ∈ entities t' → get t' e = get t e)
    ∧ ((∀ e, e ∈ entities t → ¬ (range_begin range ≤ e < range_end range)) → t' = t).
Proof. apply removeRange_exactly. Qed.

(** X10. After every sequence of operations on an empty table whose
    precondition holds at each step, [getUnstableIndex(entity)] is
    [findIndex(entity)] for every identifier: the position of the entity,
    at which [atIndex] returns what [get] returns, and [NullEntityIndex]
    exactly when [exists] is false. *)
Theorem unstable_index_is_the_position (ops : list (op C)) e :
  pre_ops ops empty →
  ∃ t, run ops empty = Ok t
    ∧ getUnstableIndex t e = findIndex t e
    ∧ (exists_ t e = true ↔ getUnstableIndex t e ≠ NullEntityIndex)
    ∧ (e ∈ entities t →
       atIndex t (getUnstableIndex t e) = get t e
       ∧ entities t !! Z.to_nat (getUnstableIndex t e) = Some e).
Proof.
  intros Hpre.
  destruct (run_exact ops empty) as (t & Hrun & Hinv & Hex); [apply empty_inv| |done|].
  { intros x _. done. }
  exists t. split; [done|]. by apply exact_unstable_index.
Qed.

(** X11. [traverse(callback)] calls the callback on the entities and the
    components in the order of the table, for each signature that it
    accepts, and stops after the first call that returns [false]: the
    components that the callback has written are stored, the others, the
    entities and the sparse set are untouched. *)
Theorem traverse_visits_in_order {A} (cb : Callback C A) t (a : A) :
  dense_inv t →
  ∃ t', traverse cb t a
        = Ok ((visit (as_visit cb) (zip (entities t) (components t)) a).1, t')
    ∧ components t' = (visit (as_visit cb) (zip (entities t) (components t)) a).2
    ∧ entities t' = entities t ∧ indexSet t' = indexSet t
    ∧ dense_inv t'.
Proof. apply traverse_visit. Qed.

(** X12. The former [removeRange] erases from [begin() + last + 1]: when
    the range takes every entity of a table that is not empty, [last] has
    wrapped to [NullEntityIndex] and the erasure starts out of the vector,
    where the later revision, which wraps the sum, leaves an empty table.
    On every other table the two revisions do the same. *)
Theorem former_removeRange_cannot_empty_a_table t range :
  dense_inv t →
  (SystemSpec.covered range t →
     FormerDense.removeRange t range = Fault OutOfRange
     ∧ ∃ t', removeRange t range = Ok t' ∧ entities t' = [])
  ∧ (¬ SystemSpec.covered range t →
     FormerDense.removeRange t range = removeRange t range).
Proof.
  intros Hinv. split; [|by apply former_removeRange_same].
  intros Hcov. split; [by apply former_removeRange_covered|].
  destruct (removeRange_exactly t range Hinv) as (t' & Hok & _ & Hents & _).
  exists t'. split; [done|].
  destruct (entities t') as [|x l] eqn:E; [done|]. exfalso.
  destruct (Hents x) as [[Hx Hn] _]; [left|]. apply Hn. by apply Hcov.
Qed.

End props.

Lemma add_then_get_witness :
  get (add S1_table 7 "z"%string) 7 = Ok "z"%string
  ∧ get (add S1_table 7 "z"%string) 2 = Ok "b"%string
  ∧ count (add S1_table 7 "z"%string) = 4.
Proof.
  destruct (add_then_get S1_table 7 "z"%string S1_table_inv)
    as (_ & _ & Hcount & _ & Hget & _ & Hothers).
  - decided.
  - by vm_compute.
  - split; [exact Hget|]. split; [|exact Hcount].
    destruct (Hothers 2) as [-> _]; [decided|reflexivity].
Defined.

Lemma tryAdd_adds_or_replaces_witness :
  (∃ t', tryAdd S1_table 2 "z"%string = Ok t'
         ∧ get t' 2 = Ok "z"%string ∧ entities t' = [1; 2; 3])
  ∧ (∃ t', tryAddWith ""%string S1_table 2 (λ c, c +:+ "!")%string = Ok t'
           ∧ get t' 2 = Ok "b!"%string).
Proof.
  destruct (tryAdd_adds_or_replaces ""%string S1_table 2 "z"%string
              (λ c, c +:+ "!")%string S1_table_inv)
    as [(t1 & Hok1 & _ & _ & Hget1 & Hin1 & _) (t2 & Hok2 & _ & Hin2 & _)].
  - intros _. by vm_compute.
  - split.
    + exists t1. split; [exact Hok1|]. split; [exact Hget1|].
      destruct Hin1 as [-> _]; [decided|reflexivity].
    + exists t2. split; [exact Hok2|].
      destruct (Hin2 "b"%string) as [-> _]; [decided|reflexivity|reflexivity].
Defined.

Lemma addRange_attaches_to_each_witness :
  entities (addRange S1_table (mkRange 10 13) "r"%string) = [1; 2; 3; 10; 11; 12]
  ∧ get (addRange S1_table (mkRange 10 13) "r"%string) 11 = Ok "r"%string.
Proof.
  destruct (addRange_attaches_to_each (mkRange 10 13) S1_table "r"%string S1_table_inv)
    as (_ & Hents & _ & Hget & _).
  - simpl. split_and!; [lia|lia|lia| |by vm_compute].
    repeat constructor; simpl; lia.
  - split; [by rewrite Hents|]. apply Hget. simpl. lia.
Defined.

Lemma extract_is_get_then_remove_witness :
  ∃ t', extract S1_table 1 = Ok ("a"%string, t') ∧ remove S1_table 1 = Ok t'.
Proof.
  destruct (extract_is_get_then_remove S1_table 1 S1_table_inv)
    as (c & t' & Hget & Hrm & Hex & _).
  - decided.
  - exists t'. split; [|exact Hrm]. rewrite Hex. vm_compute in Hget.
    by injection Hget as <-.
Defined.

Lemma removeRange_removes_the_range_witness :
  ∃ t', removeRange S1_table (mkRange 1 3) = Ok t'
        ∧ 3 ∈ entities t' ∧ 1 ∉ entities t' ∧ 2 ∉ entities t'.
Proof.
  destruct (removeRange_removes_the_range S1_table (mkRange 1 3) S1_table_inv)
    as (t' & Hok & _ & Hents & _).
  exists t'. split; [exact Hok|]. simpl in Hents. split; [|split].
  - apply Hents. split; [decided|lia].
  - intros [_ H]%Hents. lia.
  - intros [_ H]%Hents. lia.
Defined.

Lemma unstable_index_is_the_position_witness :
  ∃ t, run sample_ops empty = Ok t
       ∧ getUnstableIndex t 10 = findIndex t 10
       ∧ getUnstableIndex t 1 = NullEntityIndex.
Proof.
  destruct (unstable_index_is_the_position sample_ops 10 sample_ops_pre)
    as (t & Hrun & Hidx & _).
  exists t. split; [exact Hrun|]. split; [exact Hidx|].
  vm_compute in Hrun. injection Hrun as <-. reflexivity.
Defined.

Lemma traverse_visits_in_order_witness :
  ∃ t', traverse rename_until_2 S1_table 0 = Ok (2, t')
        ∧ components t' = ["x"; "x"; "c"]%string.
Proof.
  destruct (traverse_visits_in_order rename_until_2 S1_table 0 S1_table_inv)
    as (t' & Hok & Hcs & _).
  exists t'. split; [exact Hok|exact Hcs].
Defined.

Lemma former_removeRange_cannot_empty_a_table_witness :
  FormerDense.removeRange S1_table (mkRange 1 4) = Fault OutOfRange
  ∧ FormerDense.removeRange S1_table (mkRange 1 3) = removeRange S1_table (mkRange 1 3).
Proof.
  destruct (former_removeRange_cannot_empty_a_table S1_table (mkRange 1 4) S1_table_inv)
    as [Hall _].
  destruct (former_removeRange_cannot_empty_a_table S1_table (mkRange 1 3) S1_table_inv)
    as [_ Hsome].
  split.
  - apply Hall. split; [done|]. intros e He. unfold Allocator.in_range. simpl.
    repeat (apply elem_of_cons in He as [->|He]; [lia|]). by apply elem_of_nil in He.
  - apply Hsome. intros [_ H]. specialize (H 3). unfold Allocator.in_range in H.
    simpl in H. assert (1 ≤ 3 < 3); [|lia]. apply H. decided.
Defined.

End DenseProps.

(** ** The stable table: slots, holes and tombstones *)

Module StableProps.
Import Stable StableSpec StableFacts StableMore.

Section props.
Context {C : Type}.
Variable Q : Z.
Implicit Types (t : table C).

(** X13. [add(entity, component)] of an entity that the table does not
    hold, other than [NullEntity], with room left: the entity takes the
    slot of the last tombstone, which is popped, or a new slot at the end
    when there is no tombstone; the sparse set gives that slot and [get]
    returns the component. The other entities keep their slots, their
    cells and their components; the invariant is kept. *)
Theorem add_reuses_the_last_tombstone t e (c : C) :
  stable_inv Q t → e ≠ NullEntity → e ∉ entities t →
  vec_size (entities t) + 1 < NullEntityIndex →
  ∃ t' (z : nat),
    add Q t e c = Ok t'
    ∧ stable_inv Q t'
    ∧ entities t' !! z = Some e
    ∧ Sparse.at_ (indexSet t') e = Z.of_nat z
    ∧ get Q t' e = Ok c
    ∧ (tombstones t = [] →
         z = length (entities t) ∧ entities t' = entities t ++ [e] ∧ tombstones t' = [])
    ∧ (∀ ts x, tombstones t = ts ++ [x] →
         Z.of_nat z = x ∧ entities t' = <[z := e]> (entities t) ∧ tombstones t' = ts)
    ∧ (∀ j e', entities t !! j = Some e' → e' ≠ NullEntity →
         entities t' !! j = Some e'
         ∧ Sparse.at_ (indexSet t') e' = Sparse.at_ (indexSet t) e'
         ∧ cell_at Q (componentPages t') (Z.of_nat j)
           = cell_at Q (componentPages t) (Z.of_nat j)
         ∧ get Q t' e' = get Q t e').
Proof. apply add_spec. Qed.

(** X14. [tryAdd(entity, component)] on the stable table: the call
    succeeds and [get] returns the component afterwards. An entity of the
    table keeps its slot, and the entities, the sparse set and the
    tombstones do not change; another entity is added as [add] does. The
    other entities keep their slots and their components; the invariant
    is kept. *)
Theorem stable_tryAdd_adds_or_replaces t e (c : C) :
  stable_inv Q t → e ≠ NullEntity → vec_size (entities t) + 1 < NullEntityIndex →
  ∃ t', tryAdd Q t e c = Ok t'
    ∧ stable_inv Q t'
    ∧ get Q t' e = Ok c
    ∧ (e ∈ entities t →
         entities t' = entities t ∧ indexSet t' = indexSet t
         ∧ tombstones t' = tombstones t)
    ∧ (e ∉ entities t → add Q t e c = Ok t')
    ∧ (∀ j e', entities t !! j = Some e' → e' ≠ NullEntity → e' ≠ e →
         entities t' !! j = Some e' ∧ get Q t' e' = get Q t e').
Proof. apply stable_tryAdd_spec. Qed.

(** X15. [tryAdd(entity, functor)] on the stable table: the functor runs
    on the component of the entity, in its slot, when the table holds the
    entity; otherwise on a default-constructed component, added as [add]
    does. The other entities keep their slots and their components; the
    invariant is kept. *)
Theorem stable_tryAdd_functor_updates_in_place (dflt : C) t e (functor : C → C) :
  stable_inv Q t → e ≠ NullEntity → vec_size (entities t) + 1 < NullEntityIndex →
  ∃ t', tryAddWith Q dflt t e functor = Ok t'
    ∧ stable_inv Q t'
    ∧ (∀ c, e ∈ entities t → get Q t e = Ok c →
            get Q t' e = Ok (functor c) ∧ entities t' = entities t
            ∧ tombstones t' = tombstones t)
    ∧ (e ∉ entities t → add Q t e (functor dflt) = Ok t')
    ∧ (∀ j e', entities t !! j = Some e' → e' ≠ NullEntity → e' ≠ e →
         entities t' !! j = Some e' ∧ get Q t' e' = get Q t e').
Proof. apply stable_tryAddWith_spec. Qed.

(** X16. [addRange(range, component)] on the stable table, for a range in
    order of which the table holds no entity, with room for it: the
    entities of the range take new slots at the end, in increasing order,
    each with a copy of the component, and no tombstone is used: the
    holes stay holes. The other entities keep their slots, their cells
    and their components; the invariant is kept. *)
Theorem stable_addRange_appends_past_the_holes t range (c : C) :
  stable_inv Q t →
  0 ≤ range_begin range ≤ range_end range → range_end range < 2 ^ 32 →
  Forall (λ e, ¬ (range_begin range ≤ e < range_end range)) (entities t) →
  vec_size (entities t) + (range_end range - range_begin range) < NullEntityIndex →
  ∃ t', addRange Q t range c = Ok t'
    ∧ stable_inv Q t'
    ∧ entities t'
      = entities t ++ seqZ (range_begin range) (range_end range - range_begin range)
    ∧ tombstones t' = tombstones t
    ∧ (∀ e, range_begin range ≤ e < range_end range →
         Sparse.at_ (indexSet t') e = vec_size (entities t) + (e - range_begin range)
         ∧ get Q t' e = Ok c)
    ∧ (∀ j e', entities t !! j = Some e' → e' ≠ NullEntity →
         entities t' !! j = Some e'
         ∧ Sparse.at_ (indexSet t') e' = Sparse.at_ (indexSet t) e'
         ∧ cell_at Q (componentPages t') (Z.of_nat j)
           = cell_at Q (componentPages t) (Z.of_nat j)
         ∧ get Q t' e' = get Q t e').
Proof. apply stable_addRange_spec. Qed.

(** X17. [removeRange(range)] on the stable table, when the table holds
    every entity of the range: each of them leaves a hole in its slot and
    the slots are pushed on the tombstones in the order of the range; the
    number of slots does not change. The other entities keep their slots,
    their cells and their components; the invariant is kept. *)
Theorem stable_removeRange_leaves_tombstones t range :
  stable_inv Q t →
  0 ≤ range_begin range ≤ range_end range → range_end range < 2 ^ 32 →
  (∀ e, range_begin range ≤ e < range_end range → e ∈ entities t) →
  ∃ t', removeRange Q t range = Ok t'
    ∧ stable_inv Q t'
    ∧ length (entities t') = length (entities t)
    ∧ (∀ e, range_begin range ≤ e < range_end range → e ∉ entities t')
    ∧ tombstones t'
      = tombstones t ++ ((λ e, Sparse.at_ (indexSet t) e)
                           <$> seqZ (range_begin range)
                                    (range_end range - range_begin range))
    ∧ (∀ j e', entities t !! j = Some e' → e' ≠ NullEntity →
         ¬ (range_begin range ≤ e' < range_end range) →
         entities t' !! j = Some e'
         ∧ Sparse.at_ (indexSet t') e' = Sparse.at_ (indexSet t) e'
         ∧ cell_at Q (componentPages t') (Z.of_nat j)
           = cell_at Q (componentPages t) (Z.of_nat j)
         ∧ get Q t' e' = get Q t e').
Proof. apply removeRange_present. Qed.

(** X18. [removeRange(range)] on the stable table does not test whether
    the table holds the entities: when the sparse set has no slot for the
    first identifier of the range, [removeImpl] is called with
    [NullEntityIndex], whose page does not exist, and the call fails. *)
Theorem stable_removeRange_needs_every_entity t range :
  0 < Q → vec_size (componentPages t) * Q ≤ NullEntityIndex →
  0 ≤ range_begin range < range_end range → range_end range < 2 ^ 32 →
  Sparse.at_ (indexSet t) (range_begin range) = NullEntityIndex →
  removeRange Q t range = Fault OutOfRange.
Proof. apply removeRange_absent. Qed.

(** X19. [clear] destroys the components, empties the entities and the
    sparse set and keeps the pages, and it does not empty the tombstones.
    A table without tombstones is left ready for use; on a table with
    tombstones every [add] that follows writes the entity at the slot of a
    tombstone, out of the emptied vector, and fails. *)
Theorem clear_keeps_the_tombstones t :
  stable_inv Q t →
  ∃ t', clear Q t = Ok t'
    ∧ entities t' = [] ∧ indexSet t' = ∅ ∧ tombstones t' = tombstones t
    ∧ length (componentPages t') = length (componentPages t)
    ∧ (∀ i e, entities t !! i = Some e → e ≠ NullEntity →
              cell_at Q (componentPages t') (Z.of_nat i) = Ok None)
    ∧ (tombstones t = [] → stable_inv Q t')
    ∧ (tombstones t ≠ [] → ∀ e (c : C), add Q t' e c = Fault OutOfRange).
Proof. apply stable_clear_spec. Qed.

(** X20. [traverse(callback)] on the stable table calls the callback on
    the entities that are not holes, each with the component of its slot,
    in slot order, and stops after the first call that returns [false];
    the holes are skipped. The components that the callback has written
    are stored in their slots; the entities, the sparse set and the
    tombstones are untouched; the invariant is kept. *)
Theorem stable_traverse_skips_the_holes {A} (cb : Dense.Callback C A) t (a : A) :
  stable_inv Q t →
  ∃ t', traverse Q cb t a
        = Ok ((DenseSpec.visit (DenseSpec.as_visit cb) (live_pairs Q t) a).1, t')
    ∧ live_pairs Q t'
      = zip (live_pairs Q t).*1
            (DenseSpec.visit (DenseSpec.as_visit cb) (live_pairs Q t) a).2
    ∧ entities t' = entities t ∧ indexSet t' = indexSet t
    ∧ tombstones t' = tombstones t
    ∧ stable_inv Q t'
    ∧ (live_pairs Q t).*1 = filter (λ e, e ≠ NullEntity) (entities t)
    ∧ (∀ e c, (e, c) ∈ live_pairs Q t → e ∈ entities t ∧ get Q t e = Ok c).
Proof. apply stable_traverse_visit. Qed.

End props.

(** X21. [operator--] of the iterator, from an index within the entities
    and with one turn of the loop for each step back: it stops at a
    smaller index, which is 0 or the nearest slot before the index that is
    not a hole, and it never reads out of the entities. At 0 it stays
    at 0. *)
Theorem operator_dec_stops_within_the_entities (es : list Z) (i fuel : nat) :
  vec_size es < 2 ^ 32 → (i ≤ length es)%nat → (i ≤ fuel)%nat →
  ∃ j : nat,
    operator_dec fuel es (Z.of_nat i) = Ok (Z.of_nat j)
    ∧ (j ≤ i)%nat ∧ (0 < i → j < i)%nat
    ∧ (j = 0%nat ∨ ∃ e, es !! j = Some e ∧ e ≠ NullEntity)
    ∧ (∀ k, (j < k)%nat → (k < i)%nat → es !! k = Some NullEntity).
Proof. apply operator_dec_spec. Qed.

Lemma add_reuses_the_last_tombstone_witness :
  ∃ t', add 4 one_hole 2 "b"%string = Ok t'
        ∧ entities t' = [1; 2] ∧ tombstones t' = [] ∧ get 4 t' 2 = Ok "b"%string.
Proof.
  destruct (add_reuses_the_last_tombstone 4 one_hole 2 "b"%string one_hole_inv)
    as (t' & z & Hadd & _ & _ & _ & Hget & _ & Hreuse & _).
  - by vm_compute.
  - decided.
  - by vm_compute.
  - exists t'. destruct (Hreuse [] 1 eq_refl) as (Hz & Hes & Hts).
    assert (z = 1%nat) as -> by lia.
    split; [exact Hadd|]. split; [exact Hes|]. split; [exact Hts|exact Hget].
Defined.

Lemma stable_tryAdd_adds_or_replaces_witness :
  ∃ t', tryAdd 4 one_entity 1 "z"%string = Ok t'
        ∧ get 4 t' 1 = Ok "z"%string ∧ entities t' = [1].
Proof.
  destruct (stable_tryAdd_adds_or_replaces 4 one_entity 1 "z"%string one_entity_inv)
    as (t' & Hok & _ & Hget & Hin & _).
  - by vm_compute.
  - by vm_compute.
  - exists t'. split; [exact Hok|]. split; [exact Hget|].
    destruct Hin as [-> _]; [decided|reflexivity].
Defined.

Lemma stable_tryAdd_functor_updates_in_place_witness :
  ∃ t', tryAddWith 4 ""%string one_entity 1 (λ c, c +:+ "!")%string = Ok t'
        ∧ get 4 t' 1 = Ok "a!"%string.
Proof.
  destruct (stable_tryAdd_functor_updates_in_place 4 ""%string one_entity 1
              (λ c, c +:+ "!")%string one_entity_inv)
    as (t' & Hok & _ & Hin & _).
  - by vm_compute.
  - by vm_compute.
  - exists t'. split; [exact Hok|].
    destruct (Hin "a"%string) as [-> _]; [decided|reflexivity|reflexivity].
Defined.

Lemma stable_addRange_appends_past_the_holes_witness :
  ∃ t', addRange 4 one_hole (mkRange 5 7) "r"%string = Ok t'
        ∧ entities t' = [1; NullEntity; 5; 6] ∧ tombstones t' = [1]
        ∧ get 4 t' 6 = Ok "r"%string.
Proof.
  destruct (stable_addRange_appends_past_the_holes 4 one_hole (mkRange 5 7) "r"%string
              one_hole_inv)
    as (t' & Hok & _ & Hes & Hts & Hget & _).
  - simpl. lia.
  - simpl. lia.
  - decided.
  - by vm_compute.
  - exists t'. split; [exact Hok|]. split; [exact Hes|]. split; [exact Hts|].
    apply Hget. simpl. lia.
Defined.

Lemma stable_removeRange_leaves_tombstones_witness :
  ∃ t', removeRange 4 one_entity (mkRange 1 2) = Ok t'
        ∧ tombstones t' = [0] ∧ 1 ∉ entities t'.
Proof.
  destruct (stable_removeRange_leaves_tombstones 4 one_entity (mkRange 1 2) one_entity_inv)
    as (t' & Hok & _ & _ & Habs & Hts & _).
  - simpl. lia.
  - simpl. lia.
  - simpl. intros e He. assert (e = 1) as -> by lia. decided.
  - exists t'. split; [exact Hok|]. split; [exact Hts|]. apply Habs. simpl. lia.
Defined.

Lemma stable_removeRange_needs_every_entity_witness :
  removeRange 4 one_entity (mkRange 2 3) = Fault OutOfRange.
Proof.
  apply (stable_removeRange_needs_every_entity 4 one_entity (mkRange 2 3)).
  - lia.
  - by vm_compute.
  - simpl. lia.
  - simpl. lia.
  - reflexivity.
Defined.

Lemma clear_keeps_the_tombstones_witness :
  ∃ t', clear 4 one_hole = Ok t'
        ∧ entities t' = [] ∧ tombstones t' = [1]
        ∧ add 4 t' 2 "b"%string = Fault OutOfRange.
Proof.
  destruct (clear_keeps_the_tombstones 4 one_hole one_hole_inv)
    as (t' & Hok & Hes & _ & Hts & _ & _ & _ & Hfault).
  exists t'. split; [exact Hok|]. split; [exact Hes|]. split; [exact Hts|].
  by apply Hfault.
Defined.

Lemma stable_traverse_skips_the_holes_witness :
  ∃ t', traverse 4 DenseSpec.rename_until_2 one_hole 0 = Ok (1, t')
        ∧ live_pairs 4 t' = [(1, "x"%string)] ∧ entities t' = [1; NullEntity].
Proof.
  destruct (stable_traverse_skips_the_holes 4 DenseSpec.rename_until_2 one_hole 0
              one_hole_inv)
    as (t' & Hok & Hpairs & Hes & _).
  exists t'. split; [exact Hok|]. split; [exact Hpairs|exact Hes].
Defined.

Lemma operator_dec_stops_within_the_entities_witness :
  ∃ j : nat, operator_dec 3 [1; 2; NullEntity] 3 = Ok (Z.of_nat j)
             ∧ (j < 3)%nat ∧ [1; 2; NullEntity] !! j = Some 2.
Proof.
  destruct (operator_dec_stops_within_the_entities [1; 2; NullEntity] 3 3)
    as (j & Hj & _ & Hlt & Hstop & Hholes); [by vm_compute|simpl; lia|lia|].
  exists j. split; [exact Hj|]. split; [lia|].
  destruct j as [|[|[|j]]]; [|reflexivity| |lia].
  - specialize (Hholes 1%nat). simpl in Hholes. discriminate Hholes; lia.
  - destruct Hstop as [?|(e & He & Hne)]; [lia|]. simpl in He. by injection He as <-.
Defined.

End StableProps.

(** ** The system: entities, components and identifiers together *)

Module SystemProps.
Import Dense DenseSpec DenseFacts.
Import Allocator AllocatorFacts.
Import System SystemSpec SystemFacts.

Lemma range_live_decide range s :
  bool_decide (Forall (λ x, 1 ≤ x ≤ lastEntity s
                            ∧ ¬ Exists (in_range x) (freeEntities s))
                 (seqZ (range_begin range) (range_end range - range_begin range)))
  = true →
  ∀ x, in_range x range → live x s.
Proof.
  intros H%bool_decide_eq_true x Hx. rewrite Forall_forall in H.
  apply H. apply elem_of_seqZ. unfold in_range in Hx. lia.
Qed.

Lemma not_covered_decide {C} range (t : table C) :
  bool_decide (entities t = [] ∨ Exists (λ e, ¬ in_range e range) (entities t)) = true →
  ¬ covered range t.
Proof.
  intros [H|H]%bool_decide_eq_true [Hne Hall]; [done|].
  apply Exists_exists in H as (e & He & Hn). by apply Hn, Hall.
Qed.

Lemma covered_decide {C} range (t : table C) :
  bool_decide (entities t ≠ [] ∧ Forall (λ e, in_range e range) (entities t)) = true →
  covered range t.
Proof.
  intros [Hne H]%bool_decide_eq_true. split; [done|]. by apply Forall_forall.
Qed.

Lemma range_absent_decide range (l : list Z) :
  bool_decide (Forall (λ e, ¬ in_range e range) l) = true →
  ∀ x, in_range x range → x ∉ l.
Proof.
  intros H%bool_decide_eq_true x Hx Hin. rewrite Forall_forall in H. by apply (H x).
Qed.

Lemma two_types_all : ∀ k : bool, k ∈ [true; false].
Proof. intros []; decided. Qed.

Ltac all_kinds := let k := fresh "k" in intros k; destruct k.

Ltac kind_case := let Hk := fresh "Hk" in
  intros Hk; first [decided | exfalso; revert Hk; decided].

Ltac pre_step :=
  split;
  [ cbn [pre]
  | let s' := fresh "s" in let Hs := fresh "Hs" in
    intros s' Hs; vm_compute in Hs; injection Hs as <- ].

Lemma system_sample_ops_pre : pre_ops [true; false] sample_ops initial.
Proof.
  unfold sample_ops.
  pre_step. { split; [by vm_compute|decided]. }
  pre_step. { split_and!; [lia|by vm_compute|decided]. }
  pre_step.
  { split_and!; [apply live_decide; by vm_compute|decided|]. all_kinds; kind_case. }
  pre_step.
  { split_and!; [simpl; lia|simpl; lia|by vm_compute
                |apply range_live_decide; by vm_compute|decided|].
    all_kinds; intros x Hk; [exfalso; revert Hk; decided|].
    apply range_absent_decide. by vm_compute. }
  pre_step. { apply live_decide; by vm_compute. }
  pre_step. { split; [decided|]. all_kinds; kind_case. }
  pre_step. { done. }
  pre_step. { apply live_decide; by vm_compute. }
  pre_step.
  { all_kinds; intros Hk;
      first [apply not_covered_decide; by vm_compute|exfalso; revert Hk; decided]. }
  pre_step. { split; [by vm_compute|decided]. }
  pre_step.
  { split_and!; [simpl; lia|apply range_live_decide; by vm_compute|].
    all_kinds; apply not_covered_decide; by vm_compute. }
  exact I.
Qed.

Lemma two_entities_inv : sys_inv two_entities.
Proof.
  unfold two_entities.
  destruct (system_add_spec (initial (ty := two_types)) [number 10; name "a"] initial_inv)
    as [Hinv1 _]; [by vm_compute|decided|].
  by destruct (system_add_spec _ [number 20] Hinv1) as [Hinv2 _]; [by vm_compute|decided|].
Qed.

Section props.
Context {K : Type} `{EqDecision K} {ty : K → Type}.
Variable ComponentTypes : list K.
Implicit Types (s : system ty) (k : K) (e : Z).

Lemma sys_pre_ops_app (ops1 ops2 : list (op ty)) s :
  sys_inv s → (∀ k, k ∈ ComponentTypes) →
  pre_ops ComponentTypes (ops1 ++ ops2) s → pre_ops ComponentTypes ops1 s.
Proof.
  intros Hinv Hall. revert s Hinv. induction ops1 as [|o ops1 IH]; intros s Hinv Hpre; [done|].
  destruct Hpre as [Hpre Hrest]. split; [done|]. intros s' Hs'.
  destruct (step_inv ComponentTypes Hall o s Hinv Hpre) as (s1 & Hs1 & Hinv1).
  assert (s1 = s') as -> by congruence. apply IH; [done|]. by apply Hrest.
Qed.

(** X22. [add(components...)], with an identifier left and one component
    for each type of the pack: the entity returned is a new identifier of
    the allocator, which no table holds before the call, so that every
    [add] of a table meets its precondition; afterwards [get] returns each
    component of the pack for that entity, the tables of the other types
    are untouched, the other entities keep their components and the
    invariant of the system is kept. *)
Theorem add_attaches_to_a_new_entity s (comps : list (component ty)) :
  sys_inv s → lastEntity (base s) + 1 < NullEntity → NoDup (kinds comps) →
  sys_inv (add s comps).2
  ∧ 1 ≤ (add s comps).1 < NullEntity
  ∧ ¬ live (add s comps).1 (base s)
  ∧ live (add s comps).1 (base (add s comps).2)
  ∧ (∀ x, x ≠ (add s comps).1 → (live x (base (add s comps).2) ↔ live x (base s)))
  ∧ (∀ k, (add s comps).1 ∉ entities (tables s k))
  ∧ (∀ kc, kc ∈ comps →
           get (add s comps).2 (projT1 kc) (add s comps).1 = Ok (projT2 kc))
  ∧ (∀ k, k ∉ kinds comps → tables (add s comps).2 k = tables s k)
  ∧ (∀ k, k ∈ kinds comps →
          entities (tables (add s comps).2 k)
          = entities (tables s k) ++ [(add s comps).1])
  ∧ (∀ k e', e' ∈ entities (tables s k) → get (add s comps).2 k e' = get s k e').
Proof. apply system_add_spec. Qed.

(** X23. [addRange(count, components...)], with [count] identifiers left
    and one component for each type of the pack: the range returned holds
    [count] new identifiers, and afterwards [get] returns a copy of each
    component of the pack for each entity of the range; the tables of the
    other types are untouched, the other entities keep their components
    and the invariant of the system is kept. *)
Theorem addRange_attaches_to_a_new_range s count (comps : list (component ty)) :
  sys_inv s → 0 ≤ count → lastEntity (base s) + count < NullEntity →
  NoDup (kinds comps) →
  sys_inv (addRange s count comps).2
  ∧ range_end (addRange s count comps).1
    = range_begin (addRange s count comps).1 + count
  ∧ 1 ≤ range_begin (addRange s count comps).1
  ∧ (∀ x, in_range x (addRange s count comps).1 →
          ¬ live x (base s) ∧ live x (base (addRange s count comps).2))
  ∧ (∀ x, ¬ in_range x (addRange s count comps).1 →
          (live x (base (addRange s count comps).2) ↔ live x (base s)))
  ∧ (∀ kc x, kc ∈ comps → in_range x (addRange s count comps).1 →
             get (addRange s count comps).2 (projT1 kc) x = Ok (projT2 kc))
  ∧ (∀ k, k ∉ kinds comps → tables (addRange s count comps).2 k = tables s k)
  ∧ (∀ k e', e' ∈ entities (tables s k) →
             get (addRange s count comps).2 k e' = get s k e').
Proof. apply system_addRange_spec. Qed.

(** X24. [attachUpdate(entity, components...)] on a live entity succeeds
    whether the entity has the components or not: afterwards the entity
    is in the table of each type of the pack, and with one component for
    each type [get] returns it; no other entity enters or leaves a table
    or changes its components, the allocator is untouched and the
    invariant of the system is kept. *)
Theorem attachUpdate_attaches_or_replaces (comps : list (component ty)) s e :
  sys_inv s → live e (base s) →
  ∃ s', attachUpdate s e comps = Ok s'
    ∧ sys_inv s' ∧ base s' = base s
    ∧ (∀ k, k ∉ kinds comps → tables s' k = tables s k)
    ∧ (∀ k e', e' ∈ entities (tables s' k)
               ↔ e' ∈ entities (tables s k) ∨ (e' = e ∧ k ∈ kinds comps))
    ∧ (∀ k e', e' ≠ e → e' ∈ entities (tables s k) → get s' k e' = get s k e')
    ∧ (NoDup (kinds comps) →
       ∀ kc, kc ∈ comps → get s' (projT1 kc) e = Ok (projT2 kc)).
Proof. apply attachUpdate_spec. Qed.

(** X25. [remove(entity)] of a live entity, in a system whose tuple lists
    every component type: the entity leaves every table, whichever
    components it had, and its identifier is released; the other
    identifiers stay as they are, the other entities stay in their tables
    with their components, and the invariant of the system is kept. *)
Theorem remove_detaches_everywhere s e :
  (∀ k, k ∈ ComponentTypes) → sys_inv s → live e (base s) →
  ∃ s', remove ComponentTypes s e = Ok s'
    ∧ sys_inv s'
    ∧ ¬ live e (base s')
    ∧ (∀ x, x ≠ e → (live x (base s') ↔ live x (base s)))
    ∧ (∀ k, e ∉ entities (tables s' k))
    ∧ (∀ k e', e' ≠ e → (e' ∈ entities (tables s' k) ↔ e' ∈ entities (tables s k)))
    ∧ (∀ k e', e' ≠ e → e' ∈ entities (tables s k) → get s' k e' = get s k e').
Proof. intros Hall. by apply remove_spec. Qed.

(** X26. [removeRange(range)] of a non-empty range of live entities, when
    every table keeps an entity out of the range or is empty: the
    entities of the range leave every table and their identifiers are
    released; the other identifiers stay as they are, the other entities
    stay in their tables with their components, and the invariant of the
    system is kept. *)
Theorem removeRange_detaches_everywhere s range :
  (∀ k, k ∈ ComponentTypes) → sys_inv s →
  range_begin range < range_end range →
  (∀ x, in_range x range → live x (base s)) →
  (∀ k, ¬ covered range (tables s k)) →
  ∃ s', removeRange ComponentTypes s range = Ok s'
    ∧ sys_inv s'
    ∧ (∀ x, in_range x range → ¬ live x (base s'))
    ∧ (∀ x, ¬ in_range x range → (live x (base s') ↔ live x (base s)))
    ∧ (∀ k x, in_range x range → x ∉ entities (tables s' k))
    ∧ (∀ k e, ¬ in_range e range →
              (e ∈ entities (tables s' k) ↔ e ∈ entities (tables s k)))
    ∧ (∀ k e, ¬ in_range e range → e ∈ entities (tables s k) →
              get s' k e = get s k e).
Proof. intros Hall. by apply system_removeRange_spec. Qed.

(** X27. [removeRange(range)] of the system fails when a table is not
    empty and has all its entities in the range: the [removeRange] of
    that table, in the revision that System.ipp is written against,
    erases from out of its vector. *)
Theorem removeRange_fails_on_a_covered_table s range k :
  (∀ k, k ∈ ComponentTypes) → sys_inv s → covered range (tables s k) →
  removeRange ComponentTypes s range = Fault OutOfRange.
Proof. intros Hall. by apply removeRange_covered. Qed.

(** X28. After every sequence of operations of a system, from its
    construction, whose precondition holds at each step, and after each
    operation of the sequence: the allocator and every table keep their
    invariants, every entity that a table holds is a live identifier, so
    that no released or recycled identifier comes with components, and no
    table holds more entities than [lastEntity]. *)
Theorem components_belong_to_live_entities (ops1 ops2 : list (op ty)) :
  (∀ k, k ∈ ComponentTypes) →
  pre_ops ComponentTypes (ops1 ++ ops2) initial →
  ∃ s', run ComponentTypes ops1 initial = Ok s'
    ∧ alloc_inv (base s')
    ∧ (∀ k, dense_inv (tables s' k))
    ∧ (∀ k e, exists_ (tables s' k) e = true → live e (base s'))
    ∧ (∀ k, count (tables s' k) ≤ lastEntity (base s')).
Proof.
  intros Hall Hpre. apply sys_pre_ops_app in Hpre; [|apply initial_inv|done].
  destruct (run_inv ComponentTypes Hall ops1 initial initial_inv Hpre)
    as (s' & Hrun & Hinv).
  exists s'. split; [done|]. destruct Hinv as [Ha Ht Hl].
  split; [done|]. split; [done|]. split.
  - intros k e He%exists_elem. by apply (Hl k).
  - intros k. unfold count, vec_size. apply live_count.
    + apply Ha.
    + apply inv_NoDup, Ht.
    + intros x Hx. apply (Hl k) in Hx. apply Hx.
Qed.

(** X29. [tryDettach<Components...>(entity)] succeeds on every system
    that keeps its invariant, and [dettach<Components...>(entity)] when
    the entity has one component of each type of the pack, each type
    once: the entity leaves the tables of the pack, the tables of the
    other types are untouched, every other entity stays with its
    components, the allocator is untouched and the invariant of the
    system is kept. *)
Theorem dettach_leaves_the_other_components ks s e :
  sys_inv s →
  (∃ s', tryDettach s ks e = Ok s'
     ∧ sys_inv s' ∧ base s' = base s
     ∧ (∀ k, k ∉ ks → tables s' k = tables s k)
     ∧ (∀ k e', k ∈ ks →
                (e' ∈ entities (tables s' k) ↔ e' ∈ entities (tables s k) ∧ e' ≠ e))
     ∧ (∀ k e', e' ∈ entities (tables s' k) →
                e' ∈ entities (tables s k) ∧ get s' k e' = get s k e'))
  ∧ (NoDup ks → (∀ k, k ∈ ks → e ∈ entities (tables s k)) →
     ∃ s', dettach s ks e = Ok s'
       ∧ sys_inv s' ∧ base s' = base s
       ∧ (∀ k, k ∉ ks → tables s' k = tables s k)
       ∧ (∀ k e', k ∈ ks →
                  (e' ∈ entities (tables s' k) ↔ e' ∈ entities (tables s k) ∧ e' ≠ e))
       ∧ (∀ k e', e' ∈ entities (tables s' k) →
                  e' ∈ entities (tables s k) ∧ get s' k e' = get s k e')).
Proof.
  intros Hinv. split; [by apply tryDettach_spec|].
  intros Hnd Hin. by apply dettach_spec.
Qed.

(** X30. [removeUnsafe(entity)] of a live entity releases the identifier
    and touches no table: the components of the entity stay in their
    tables, where [get] still returns them, and every other identifier
    and component is as before. The invariant of the system is kept
    exactly when the entity had no component. *)
Theorem removeUnsafe_leaves_the_components s e :
  sys_inv s → live e (base s) →
  ¬ live e (base (removeUnsafe s e))
  ∧ (∀ x, x ≠ e → (live x (base (removeUnsafe s e)) ↔ live x (base s)))
  ∧ (∀ k, tables (removeUnsafe s e) k = tables s k)
  ∧ (∀ k e', get (removeUnsafe s e) k e' = get s k e')
  ∧ (sys_inv (removeUnsafe s e) ↔ ∀ k, e ∉ entities (tables s k)).
Proof.
  intros Hinv Hlive. pose proof (sys_alloc _ Hinv) as Ha.
  destruct (AllocatorLive.remove_live e (base s) Ha Hlive) as [Hdead Hothers].
  split; [done|]. split; [done|]. split; [done|]. split; [done|]. split.
  - intros [_ _ Hl] k He. apply Hdead. by apply (Hl k).
  - intros Habs. split.
    + by apply remove_inv.
    + apply Hinv.
    + intros k x Hx. cbn [base removeUnsafe]. apply Hothers.
      * intros ->. by apply (Habs k).
      * by eapply sys_live.
Qed.

End props.

Lemma add_attaches_to_a_new_entity_witness :
  (add two_entities [name "c"]).1 = 3
  ∧ get (add two_entities [name "c"]).2 false 3 = Ok "c"%string
  ∧ get (add two_entities [name "c"]).2 true 1 = Ok 10.
Proof.
  destruct (add_attaches_to_a_new_entity two_entities [name "c"] two_entities_inv)
    as (_ & _ & _ & _ & _ & _ & Hget & _ & _ & Hothers).
  - by vm_compute.
  - decided.
  - split; [reflexivity|]. split.
    + apply (Hget (name "c")). left.
    + rewrite Hothers; [reflexivity|decided].
Defined.

Lemma addRange_attaches_to_a_new_range_witness :
  (addRange two_entities 2 [number 0]).1 = mkRange 3 5
  ∧ get (addRange two_entities 2 [number 0]).2 true 4 = Ok 0
  ∧ get (addRange two_entities 2 [number 0]).2 false 1 = Ok "a"%string.
Proof.
  destruct (addRange_attaches_to_a_new_range two_entities 2 [number 0] two_entities_inv)
    as (_ & _ & _ & _ & _ & Hget & _ & Hothers).
  - lia.
  - by vm_compute.
  - decided.
  - split; [reflexivity|]. split.
    + apply (Hget (number 0)); [left|decided].
    + rewrite Hothers; [reflexivity|decided].
Defined.

Lemma attachUpdate_attaches_or_replaces_witness :
  ∃ s', attachUpdate two_entities 2 [number 21; name "b"] = Ok s'
        ∧ get s' true 2 = Ok 21 ∧ get s' false 2 = Ok "b"%string
        ∧ get s' true 1 = Ok 10.
Proof.
  destruct (attachUpdate_attaches_or_replaces [number 21; name "b"] two_entities 2
              two_entities_inv)
    as (s' & Hok & _ & _ & _ & _ & Hothers & Hget).
  - apply live_decide. by vm_compute.
  - exists s'. split; [exact Hok|].
    assert (Hnd : NoDup (kinds [number 21; name "b"])) by decided.
    split; [|split].
    + apply (Hget Hnd (number 21)). left.
    + apply (Hget Hnd (name "b")). right. left.
    + rewrite Hothers; [reflexivity|lia|decided].
Defined.

Lemma remove_detaches_everywhere_witness :
  ∃ s', remove [true; false] two_entities 1 = Ok s'
        ∧ ¬ live 1 (base s')
        ∧ 1 ∉ entities (tables s' true) ∧ 1 ∉ entities (tables s' false)
        ∧ get s' true 2 = Ok 20.
Proof.
  destruct (remove_detaches_everywhere [true; false] two_entities 1 two_types_all
              two_entities_inv)
    as (s' & Hok & _ & Hdead & _ & Habs & _ & Hothers).
  - apply live_decide. by vm_compute.
  - exists s'. split; [exact Hok|]. split; [exact Hdead|].
    split; [apply Habs|]. split; [apply Habs|].
    rewrite Hothers; [reflexivity|lia|decided].
Defined.

Lemma removeRange_detaches_everywhere_witness :
  ∃ s', removeRange [true; false] two_entities (mkRange 2 3) = Ok s'
        ∧ ¬ live 2 (base s')
        ∧ 2 ∉ entities (tables s' true)
        ∧ get s' true 1 = Ok 10.
Proof.
  destruct (removeRange_detaches_everywhere [true; false] two_entities (mkRange 2 3)
              two_types_all two_entities_inv)
    as (s' & Hok & _ & Hdead & _ & Habs & _ & Hothers).
  - simpl. lia.
  - apply range_live_decide. by vm_compute.
  - all_kinds; apply not_covered_decide; by vm_compute.
  - exists s'. split; [exact Hok|]. split; [apply Hdead; decided|].
    split; [apply Habs; decided|].
    rewrite Hothers; [reflexivity|decided|decided].
Defined.

Lemma removeRange_fails_on_a_covered_table_witness :
  removeRange [true; false] two_entities (mkRange 1 3) = Fault OutOfRange.
Proof.
  apply (removeRange_fails_on_a_covered_table [true; false] two_entities (mkRange 1 3) true).
  - exact two_types_all.
  - exact two_entities_inv.
  - apply covered_decide. by vm_compute.
Defined.

Lemma components_belong_to_live_entities_witness :
  ∃ s', run [true; false] sample_ops initial = Ok s'
        ∧ (∀ k, count (tables s' k) ≤ lastEntity (base s'))
        ∧ entities (tables s' false) = [1; 2].
Proof.
  destruct (components_belong_to_live_entities [true; false] sample_ops []
              two_types_all system_sample_ops_pre)
    as (s' & Hrun & _ & _ & _ & Hcount).
  exists s'. split; [exact Hrun|]. split; [exact Hcount|].
  vm_compute in Hrun. injection Hrun as <-. reflexivity.
Defined.

Lemma dettach_leaves_the_other_components_witness :
  (∃ s', tryDettach two_entities [false; true] 2 = Ok s'
         ∧ 2 ∉ entities (tables s' true) ∧ get s' true 1 = Ok 10)
  ∧ (∃ s', dettach two_entities [true] 2 = Ok s'
           ∧ 2 ∉ entities (tables s' true) ∧ get s' false 1 = Ok "a"%string).
Proof.
  destruct (dettach_leaves_the_other_components [false; true] two_entities 2
              two_entities_inv) as [(s1 & Hok1 & _ & _ & _ & Hin1 & Hfr1) _].
  destruct (dettach_leaves_the_other_components [true] two_entities 2
              two_entities_inv) as [_ Hdettach].
  destruct Hdettach as (s2 & Hok2 & _ & _ & Hsame2 & Hin2 & _).
  - decided.
  - all_kinds; kind_case.
  - split.
    + exists s1. split; [exact Hok1|]. split.
      * intros [_ H]%Hin1; [done|decided].
      * destruct (Hfr1 true 1) as [_ ->]; [|reflexivity].
        apply Hin1; [decided|]. split; [decided|lia].
    + exists s2. split; [exact Hok2|]. split.
      * intros [_ H]%Hin2; [done|decided].
      * unfold get, getTable. rewrite Hsame2; [reflexivity|decided].
Defined.

Lemma removeUnsafe_leaves_the_components_witness :
  ¬ live 2 (base (removeUnsafe two_entities 2))
  ∧ get (removeUnsafe two_entities 2) true 2 = Ok 20
  ∧ ¬ sys_inv (removeUnsafe two_entities 2).
Proof.
  destruct (removeUnsafe_leaves_the_components two_entities 2 two_entities_inv)
    as (Hdead & _ & _ & Hget & Hinv).
  - apply live_decide. by vm_compute.
  - split; [exact Hdead|]. split; [by rewrite Hget|].
    intros H. apply (proj1 Hinv H true). decided.
Defined.

End SystemProps.
